(** * nis2shield/frontend, core package: a shallow embedding

    The development follows the four classes of [packages/core/src]:

    - [DeviceFingerprinter.compare]   (module [Fingerprint]),
    - [SessionGuardian]               (modules [Guardian], [Dispatcher],
                                       [Handlers]),
    - [CryptoService]                 (modules [Crypto], [Hashing]),
    - [SecureStorage]                 (module [Store]),

    and the wrappers that drive them:

    - [Nis2Service], [Nis2CanActivateGuard]   (module [Angular]),
    - [useNis2], [useSecureStorage]           (modules [Vue], [VueStorage]).

    JavaScript strings are sequences of UTF-16 code units and are modelled
    as [list Z]; a byte is a [Z] below 256; the wall clock [Date.now()] is
    a [Z] number of milliseconds.  Part I holds the definitions, Part II
    the properties of the four classes, Part III further properties of
    the classes and of the wrappers. *)

From Stdlib Require Import ZArith QArith Lia List Bool String Ascii.
From Stdlib Require Import DecimalPos DecimalN.
From stdpp Require Import base option list gmap.
Import ListNotations.

Local Open Scope Z_scope.

(* ===================================================================== *)
(** * Part I: the embedding                                               *)
(* ===================================================================== *)

(** ** JavaScript strings *)

(** A string value: the list of its UTF-16 code units. *)
Abbreviation jsstring := (list Z).

(** A source-code literal made of ASCII characters. *)
Fixpoint lit (s : string) : jsstring :=
  match s with
  | EmptyString => []
  | String c r => Z.of_N (N_of_ascii c) :: lit r
  end.

(* --------------------------------------------------------------------- *)
(** ** DeviceFingerprinter.compare                                        *)
(* --------------------------------------------------------------------- *)

Module Fingerprint.

(** [interface DeviceFingerprint] of [types.ts]; [T | null] is an
    [option].  The fields of type [number] hold integers, which is what
    [collect] stores in them ([screen.colorDepth],
    [navigator.hardwareConcurrency || 0]); [NaN], the one number that
    [===] tells apart from itself, is not among them. *)
Record DeviceFingerprint := {
  screenResolution : jsstring;
  colorDepth : Z;
  timezoneOffset : Z;
  timezone : jsstring;
  language : jsstring;
  languages : list jsstring;
  platform : jsstring;
  hardwareConcurrency : Z;
  deviceMemory : option Z;
  touchSupport : bool;
  canvasHash : option jsstring;
  webglRenderer : option jsstring;
  webglVendor : option jsstring;
  collectedAt : jsstring;
}.

(** The keys that occur in the [fieldsToCompare] literal. *)
Inductive key :=
  | KscreenResolution | KcolorDepth | Ktimezone | Klanguage | Kplatform
  | KhardwareConcurrency | KcanvasHash | KwebglRenderer.

Definition key_name (k : key) : string :=
  match k with
  | KscreenResolution => "screenResolution"
  | KcolorDepth => "colorDepth"
  | Ktimezone => "timezone"
  | Klanguage => "language"
  | Kplatform => "platform"
  | KhardwareConcurrency => "hardwareConcurrency"
  | KcanvasHash => "canvasHash"
  | KwebglRenderer => "webglRenderer"
  end%string.

(** The primitive stored under a compared key. *)
Inductive prim :=
  | PStr (s : jsstring)
  | PNum (n : Z)
  | PNull.

Definition of_nullable (o : option jsstring) : prim :=
  match o with Some s => PStr s | None => PNull end.

(** [fp[field]] *)
Definition field (fp : DeviceFingerprint) (k : key) : prim :=
  match k with
  | KscreenResolution => PStr (screenResolution fp)
  | KcolorDepth => PNum (colorDepth fp)
  | Ktimezone => PStr (timezone fp)
  | Klanguage => PStr (language fp)
  | Kplatform => PStr (platform fp)
  | KhardwareConcurrency => PNum (hardwareConcurrency fp)
  | KcanvasHash => of_nullable (canvasHash fp)
  | KwebglRenderer => of_nullable (webglRenderer fp)
  end.

(** [a === b] on primitives: same type and same value. *)
Definition strict_eq (a b : prim) : bool :=
  match a, b with
  | PStr s, PStr t => bool_decide (s = t)
  | PNum n, PNum m => n =? m
  | PNull, PNull => true
  | _, _ => false
  end.

Definition fieldsToCompare : list key :=
  [ KscreenResolution; KcolorDepth; Ktimezone; Klanguage; Kplatform;
    KhardwareConcurrency; KcanvasHash; KwebglRenderer ].

Record FingerprintComparisonResult := {
  similarity : Q;
  mismatches : list string;
}.

(** The [for (const field of fieldsToCompare)] loop: the state is the
    pair of [matches] and [mismatches]. *)
Fixpoint compare_loop (current previous : DeviceFingerprint)
    (fields : list key) (matches : Z) (mism : list string)
    : Z * list string :=
  match fields with
  | [] => (matches, mism)
  | f :: rest =>
      if strict_eq (field current f) (field previous f)
      then compare_loop current previous rest (matches + 1) mism
      else compare_loop current previous rest matches (mism ++ [key_name f])
  end.

Definition compare (current previous : DeviceFingerprint)
    : FingerprintComparisonResult :=
  let '(matches, mism) := compare_loop current previous fieldsToCompare 0 [] in
  {| similarity := inject_Z matches / inject_Z (Z.of_nat (length fieldsToCompare));
     mismatches := mism |}.

End Fingerprint.

(* --------------------------------------------------------------------- *)
(** ** SessionGuardian                                                    *)
(* --------------------------------------------------------------------- *)

Module Guardian.

Definition DEFAULT_ACTIVITY_EVENTS : list string :=
  ["mousedown"; "mousemove"; "keydown"; "scroll"; "touchstart"]%string.
Definition DEFAULT_THROTTLE_MS : Z := 1000.
Definition DEFAULT_TIMEOUT_MINUTES : Z := 15.

(** [Partial<Nis2Config>], restricted to the fields the class picks. *)
Record PartialConfig := {
  p_idleTimeoutMinutes : option Z;
  p_activityEvents : option (list string);
  p_activityThrottleMs : option Z;
  p_debug : option bool;
}.

Record Config := {
  idleTimeoutMinutes : Z;
  activityEvents : list string;
  activityThrottleMs : Z;
  debug : bool;
}.

(** [a ?? b] *)
Definition nullish {A} (a : option A) (b : A) : A :=
  match a with Some x => x | None => b end.

(** The events of [SessionGuardianEvent], with their payloads. *)
Inductive Event :=
  | EIdle (idleSince : Z) (timeoutMinutes : Z)
  | EActive
  | EVisibilityChange (isHidden : bool)
  | EWarning (secondsRemaining : Z).

(** The two closures that [resetTimer] hands to [setTimeout]. *)
Inductive Callback := CbWarning | CbTimeout.

(** A scheduled, not yet fired, timeout of the host. *)
Record Timer := { tid : positive; due : Z; cb : Callback }.

(** The fields of the object, followed by the part of the host it
    touches: the clock, the timer queue (in scheduling order), whether
    the DOM listeners are attached, [document.hidden], and the trace of
    [emit] calls (oldest first). *)
Record State := {
  config : Config;
  timer : option positive;
  lastActivity : Z;
  isIdle : bool;
  isRunning : bool;
  now : Z;
  nextTimerId : positive;
  pending : list Timer;
  listening : bool;
  hidden : bool;
  emitted : list Event;
}.

Definition set_timer (v : option positive) (s : State) : State :=
  {| config := config s; timer := v; lastActivity := lastActivity s;
     isIdle := isIdle s; isRunning := isRunning s; now := now s;
     nextTimerId := nextTimerId s; pending := pending s;
     listening := listening s; hidden := hidden s; emitted := emitted s |}.

Definition set_lastActivity (v : Z) (s : State) : State :=
  {| config := config s; timer := timer s; lastActivity := v;
     isIdle := isIdle s; isRunning := isRunning s; now := now s;
     nextTimerId := nextTimerId s; pending := pending s;
     listening := listening s; hidden := hidden s; emitted := emitted s |}.

Definition set_isIdle (v : bool) (s : State) : State :=
  {| config := config s; timer := timer s; lastActivity := lastActivity s;
     isIdle := v; isRunning := isRunning s; now := now s;
     nextTimerId := nextTimerId s; pending := pending s;
     listening := listening s; hidden := hidden s; emitted := emitted s |}.

Definition set_isRunning (v : bool) (s : State) : State :=
  {| config := config s; timer := timer s; lastActivity := lastActivity s;
     isIdle := isIdle s; isRunning := v; now := now s;
     nextTimerId := nextTimerId s; pending := pending s;
     listening := listening s; hidden := hidden s; emitted := emitted s |}.

Definition set_now (v : Z) (s : State) : State :=
  {| config := config s; timer := timer s; lastActivity := lastActivity s;
     isIdle := isIdle s; isRunning := isRunning s; now := v;
     nextTimerId := nextTimerId s; pending := pending s;
     listening := listening s; hidden := hidden s; emitted := emitted s |}.

Definition set_queue (n : positive) (q : list Timer) (s : State) : State :=
  {| config := config s; timer := timer s; lastActivity := lastActivity s;
     isIdle := isIdle s; isRunning := isRunning s; now := now s;
     nextTimerId := n; pending := q;
     listening := listening s; hidden := hidden s; emitted := emitted s |}.

Definition set_listening (v : bool) (s : State) : State :=
  {| config := config s; timer := timer s; lastActivity := lastActivity s;
     isIdle := isIdle s; isRunning := isRunning s; now := now s;
     nextTimerId := nextTimerId s; pending := pending s;
     listening := v; hidden := hidden s; emitted := emitted s |}.

Definition set_hidden (v : bool) (s : State) : State :=
  {| config := config s; timer := timer s; lastActivity := lastActivity s;
     isIdle := isIdle s; isRunning := isRunning s; now := now s;
     nextTimerId := nextTimerId s; pending := pending s;
     listening := listening s; hidden := v; emitted := emitted s |}.

(** [emit]: the dispatch to the registered handlers is recorded as one
    entry of the trace ([debug] only adds console output). *)
Definition emit (e : Event) (s : State) : State :=
  {| config := config s; timer := timer s; lastActivity := lastActivity s;
     isIdle := isIdle s; isRunning := isRunning s; now := now s;
     nextTimerId := nextTimerId s; pending := pending s;
     listening := listening s; hidden := hidden s;
     emitted := emitted s ++ [e] |}.

(** *** The host's timers *)

(** [setTimeout(cb, delay)]: a fresh positive handle; a negative delay
    counts as zero.  The host takes the delay as a signed 32-bit
    [long]: this is its [setTimeout] for the delays from -2147483648 to
    2147483647 (24 days and some), and what is said of the time a timer
    takes is said of timeouts in that range. *)
Definition setTimeout (c : Callback) (delay : Z) (s : State)
    : positive * State :=
  let id := nextTimerId s in
  (id, set_queue (Pos.succ id)
         (pending s ++ [{| tid := id; due := now s + Z.max 0 delay; cb := c |}])
         s).

Definition clearTimeout (id : positive) (s : State) : State :=
  set_queue (nextTimerId s)
    (List.filter (fun t => negb (Pos.eqb (tid t) id)) (pending s)) s.

(** *** The class *)

Definition constructor (c : PartialConfig) (t0 : Z) : State :=
  {| config :=
       {| idleTimeoutMinutes := nullish (p_idleTimeoutMinutes c) DEFAULT_TIMEOUT_MINUTES;
          activityEvents := nullish (p_activityEvents c) DEFAULT_ACTIVITY_EVENTS;
          activityThrottleMs := nullish (p_activityThrottleMs c) DEFAULT_THROTTLE_MS;
          debug := nullish (p_debug c) false |};
     timer := None;
     lastActivity := t0;
     isIdle := false;
     isRunning := false;
     now := t0;
     nextTimerId := 1%positive;
     pending := [];
     listening := false;
     hidden := false;
     emitted := [] |}.

Definition timeoutMs (s : State) : Z :=
  idleTimeoutMinutes (config s) * 60 * 1000.

Definition triggerIdle (s : State) : State :=
  if isIdle s then s
  else emit (EIdle (lastActivity s) (idleTimeoutMinutes (config s)))
            (set_isIdle true s).

Definition resetTimer (s : State) : State :=
  let s1 := match timer s with
            | Some id => clearTimeout id s
            | None => s
            end in
  let warningMs := timeoutMs s1 - 60000 in
  let s2 := if 0 <? warningMs
            then snd (setTimeout CbWarning warningMs s1)
            else s1 in
  let '(id, s3) := setTimeout CbTimeout (timeoutMs s2) s2 in
  set_timer (Some id) s3.

(** What a timer does when the host fires it. *)
Definition run_callback (c : Callback) (s : State) : State :=
  match c with
  | CbWarning =>
      if negb (isIdle s) && isRunning s
      then emit (EWarning 60) s
      else s
  | CbTimeout => triggerIdle s
  end.

Definition start (s : State) : State :=
  if isRunning s then s
  else resetTimer (set_listening true (set_isRunning true s)).

Definition stop (s : State) : State :=
  if negb (isRunning s) then s
  else
    let s1 := set_isRunning false s in
    let s2 := match timer s1 with
              | Some id => set_timer None (clearTimeout id s1)
              | None => s1
              end in
    set_listening false s2.

Definition reset (s : State) : State :=
  let s1 := set_lastActivity (now s) s in
  let s2 := if isIdle s1 then emit EActive (set_isIdle false s1) else s1 in
  resetTimer s2.

Definition getIsIdle (s : State) : bool := isIdle s.

Definition getTimeRemaining (s : State) : Z :=
  let elapsed := now s - lastActivity s in
  Z.max 0 (timeoutMs s - elapsed).

Definition handleActivity (s : State) : State :=
  let now_ := now s in
  if now_ - lastActivity s <? activityThrottleMs (config s) then s
  else
    let s1 := set_lastActivity now_ s in
    let s2 := if isIdle s1 then emit EActive (set_isIdle false s1) else s1 in
    resetTimer s2.

Definition handleVisibilityChange (s : State) : State :=
  let isHidden := hidden s in
  let s1 := emit (EVisibilityChange isHidden) s in
  if negb isHidden then
    let elapsed := now s1 - lastActivity s1 in
    if (timeoutMs s1 <=? elapsed) && negb (isIdle s1)
    then triggerIdle s1
    else handleActivity s1
  else s1.

(** *** The host drives the object *)

(** One of the configured activity events reaches [window]. *)
Definition dom_activity (s : State) : State :=
  if listening s then handleActivity s else s.

(** [document.hidden] becomes [h] and [visibilitychange] is dispatched. *)
Definition dom_visibility (h : bool) (s : State) : State :=
  let s1 := set_hidden h s in
  if listening s1 then handleVisibilityChange s1 else s1.

(** The pending timer that fires next: smallest due time, the one
    scheduled first among equals. *)
Fixpoint earliest (q : list Timer) : option Timer :=
  match q with
  | [] => None
  | t :: r =>
      match earliest r with
      | Some u => if due u <? due t then Some u else Some t
      | None => Some t
      end
  end.

Definition fire (t : Timer) (s : State) : State :=
  run_callback (cb t) (set_now (Z.max (now s) (due t)) (clearTimeout (tid t) s)).

(** Fire, in order, the timers due up to [deadline]. *)
Fixpoint run_timers (fuel : nat) (deadline : Z) (s : State) : State :=
  match fuel with
  | O => s
  | S f =>
      match earliest (pending s) with
      | Some t =>
          if due t <=? deadline
          then run_timers f deadline (fire t s)
          else s
      | None => s
      end
  end.

(** [dt] milliseconds pass.  No callback of this class schedules a
    timer, so one round per pending timer is enough. *)
Definition advance (dt : Z) (s : State) : State :=
  let deadline := now s + Z.max 0 dt in
  set_now deadline (run_timers (length (pending s)) deadline s).

(** The calls and host events that make up a history of the object. *)
Inductive op :=
  | OStart | OStop | OReset
  | OActivity
  | OVisibility (h : bool)
  | OAdvance (dt : Z).

Definition step (o : op) (s : State) : State :=
  match o with
  | OStart => start s
  | OStop => stop s
  | OReset => reset s
  | OActivity => dom_activity s
  | OVisibility h => dom_visibility h s
  | OAdvance dt => advance dt s
  end.

Definition run (ops : list op) (s : State) : State :=
  fold_left (fun s o => step o s) ops s.

End Guardian.

(* --------------------------------------------------------------------- *)
(** ** CryptoService                                                      *)
(* --------------------------------------------------------------------- *)

Module Crypto.

(** *** What a call may do besides returning *)

Inductive error :=
  | InvalidCharacterError   (* btoa, atob *)
  | OperationError          (* crypto.subtle.decrypt *)
  | SyntaxError             (* JSON.parse *)
  | TypeError               (* property of null, JSON.stringify *)
  | QuotaExceededError      (* Storage.setItem *)
  | SecurityError.          (* a storage that refuses access *)

Inductive completion (A : Type) :=
  | Return (a : A)
  | Throw (e : error).
Arguments Return {A} a.
Arguments Throw {A} e.

Definition bind {A B} (c : completion A) (k : A -> completion B) : completion B :=
  match c with
  | Return a => k a
  | Throw e => Throw e
  end.

(** [try { c } catch { return v }] *)
Definition catch_with {A} (c : completion A) (v : A) : completion A :=
  match c with
  | Return a => Return a
  | Throw _ => Return v
  end.

(** *** Bytes *)

Definition is_byte (b : Z) : bool := (0 <=? b) && (b <? 256).

(** *** TextEncoder: UTF-16 code units to UTF-8 bytes *)

Definition is_code_unit (u : Z) : bool := (0 <=? u) && (u <? 65536).
Definition is_high (u : Z) : bool := (55296 <=? u) && (u <=? 56319).   (* D800..DBFF *)
Definition is_low (u : Z) : bool := (56320 <=? u) && (u <=? 57343).    (* DC00..DFFF *)

(** The scalar values of a string: a surrogate pair is one scalar, a
    surrogate without its partner is replaced by U+FFFD. *)
Fixpoint to_scalars (s : jsstring) : list Z :=
  match s with
  | [] => []
  | u :: r =>
      if is_high u then
        match r with
        | v :: r' =>
            if is_low v
            then 65536 + (u - 55296) * 1024 + (v - 56320) :: to_scalars r'
            else 65533 :: to_scalars r
        | [] => [65533]
        end
      else if is_low u then 65533 :: to_scalars r
      else u :: to_scalars r
  end.

Definition utf8_encode_scalar (c : Z) : list Z :=
  if c <? 128 then [c]
  else if c <? 2048 then [192 + c / 64; 128 + c mod 64]
  else if c <? 65536 then
    [224 + c / 4096; 128 + (c / 64) mod 64; 128 + c mod 64]
  else
    [240 + c / 262144; 128 + (c / 4096) mod 64; 128 + (c / 64) mod 64;
     128 + c mod 64].

(** [new TextEncoder().encode(s)] *)
Definition TextEncoder_encode (s : jsstring) : list Z :=
  flat_map utf8_encode_scalar (to_scalars s).

(** *** TextDecoder: UTF-8 bytes to UTF-16 code units *)

(** The state of the UTF-8 decoder between two bytes. *)
Record dstate := {
  code_point : Z;
  bytes_needed : Z;
  bytes_seen : Z;
  lower : Z;
  upper : Z;
}.

Definition dinit : dstate :=
  {| code_point := 0; bytes_needed := 0; bytes_seen := 0;
     lower := 128; upper := 191 |}.

(** A byte read when no sequence is open. *)
Definition lead (b : Z) : list Z * dstate :=
  if (0 <=? b) && (b <=? 127) then ([b], dinit)
  else if (194 <=? b) && (b <=? 223) then
    ([], {| code_point := b - 192; bytes_needed := 1; bytes_seen := 0;
            lower := 128; upper := 191 |})
  else if (224 <=? b) && (b <=? 239) then
    ([], {| code_point := b - 224; bytes_needed := 2; bytes_seen := 0;
            lower := if b =? 224 then 160 else 128;
            upper := if b =? 237 then 159 else 191 |})
  else if (240 <=? b) && (b <=? 244) then
    ([], {| code_point := b - 240; bytes_needed := 3; bytes_seen := 0;
            lower := if b =? 240 then 144 else 128;
            upper := if b =? 244 then 143 else 191 |})
  else ([65533], dinit).

(** One byte: the scalars it completes and the next state.  A byte that
    cannot continue the open sequence closes it with U+FFFD and is read
    again as a first byte. *)
Definition dstep (st : dstate) (b : Z) : list Z * dstate :=
  if bytes_needed st =? 0 then lead b
  else if (b <? lower st) || (upper st <? b) then
    let '(out, st') := lead b in (65533 :: out, st')
  else
    let cp := code_point st * 64 + (b - 128) in
    if bytes_seen st + 1 =? bytes_needed st then ([cp], dinit)
    else ([], {| code_point := cp; bytes_needed := bytes_needed st;
                 bytes_seen := bytes_seen st + 1;
                 lower := 128; upper := 191 |}).

Fixpoint utf8_decode (st : dstate) (bs : list Z) : list Z :=
  match bs with
  | [] => if bytes_needed st =? 0 then [] else [65533]
  | b :: r => let '(out, st') := dstep st b in out ++ utf8_decode st' r
  end.

(** The byte order mark EF BB BF is dropped ([ignoreBOM] is false). *)
Definition strip_bom (bs : list Z) : list Z :=
  match bs with
  | a :: b :: c :: r =>
      if (a =? 239) && (b =? 187) && (c =? 191) then r else bs
  | _ => bs
  end.

Definition utf16_units (c : Z) : list Z :=
  if c <? 65536 then [c]
  else [55296 + (c - 65536) / 1024; 56320 + (c - 65536) mod 1024].

(** [new TextDecoder().decode(bytes)] *)
Definition TextDecoder_decode (bs : list Z) : jsstring :=
  flat_map utf16_units (utf8_decode dinit (strip_bom bs)).

(** *** btoa and atob *)

Definition b64_alphabet : jsstring :=
  lit "ABCDEFGHIJKLMNOPQRSTUVWXYZabcdefghijklmnopqrstuvwxyz0123456789+/".

Definition b64_char (i : Z) : Z := nth (Z.to_nat i) b64_alphabet 0.

Definition pad : Z := 61.   (* = *)

Fixpoint b64_encode (bs : list Z) : jsstring :=
  match bs with
  | [] => []
  | a :: r1 =>
      match r1 with
      | [] => [b64_char (a / 4); b64_char (a mod 4 * 16); pad; pad]
      | b :: r2 =>
          match r2 with
          | [] => [b64_char (a / 4); b64_char (a mod 4 * 16 + b / 16);
                   b64_char (b mod 16 * 4); pad]
          | c :: r3 =>
              b64_char (a / 4) :: b64_char (a mod 4 * 16 + b / 16)
              :: b64_char (b mod 16 * 4 + c / 64) :: b64_char (c mod 64)
              :: b64_encode r3
          end
      end
  end.

(** [btoa(s)]: every code unit must be below 256. *)
Definition btoa (s : jsstring) : completion jsstring :=
  if forallb is_byte s then Return (b64_encode s)
  else Throw InvalidCharacterError.

Definition b64_index (u : Z) : option Z :=
  if (65 <=? u) && (u <=? 90) then Some (u - 65)
  else if (97 <=? u) && (u <=? 122) then Some (u - 71)
  else if (48 <=? u) && (u <=? 57) then Some (u + 4)
  else if u =? 43 then Some 62
  else if u =? 47 then Some 63
  else None.

Definition is_ascii_whitespace (u : Z) : bool :=
  (u =? 9) || (u =? 10) || (u =? 12) || (u =? 13) || (u =? 32).

(** One or two [=] at the end are dropped when the length is a multiple
    of four. *)
Definition strip_padding (s : jsstring) : jsstring :=
  if Z.of_nat (length s) mod 4 =? 0 then
    match rev s with
    | x :: r1 =>
        if x =? pad then
          match r1 with
          | y :: r2 => if y =? pad then rev r2 else rev r1
          | [] => rev r1
          end
        else s
    | [] => s
    end
  else s.

Fixpoint indices (s : jsstring) : option (list Z) :=
  match s with
  | [] => Some []
  | u :: r =>
      match b64_index u, indices r with
      | Some i, Some l => Some (i :: l)
      | _, _ => None
      end
  end.

(** Six bits per character, most significant first; the bits left over
    at the end are dropped. *)
Fixpoint b64_decode (l : list Z) : list Z :=
  match l with
  | a :: r1 =>
      match r1 with
      | b :: r2 =>
          match r2 with
          | c :: r3 =>
              match r3 with
              | d :: r4 =>
                  a * 4 + b / 16 :: b mod 16 * 16 + c / 4 :: c mod 4 * 64 + d
                  :: b64_decode r4
              | [] => [a * 4 + b / 16; b mod 16 * 16 + c / 4]
              end
          | [] => [a * 4 + b / 16]
          end
      | [] => []
      end
  | [] => []
  end.

(** [atob(s)] *)
Definition atob (s : jsstring) : completion jsstring :=
  let s1 := List.filter (fun u => negb (is_ascii_whitespace u)) s in
  let s2 := strip_padding s1 in
  if Z.of_nat (length s2) mod 4 =? 1 then Throw InvalidCharacterError
  else
    match indices s2 with
    | Some l => Return (b64_decode l)
    | None => Throw InvalidCharacterError
    end.

(** *** The host's AES-GCM *)

(** [crypto.subtle] with an AES-GCM key: encryption of a byte sequence
    under a key and an IV, and decryption, which rejects when the
    authentication tag does not verify.  Encryption, like the generation
    of a key, is taken to resolve; a service whose [encrypt] rejects is
    met in [Store], whose [set_with] takes any behaviour of the call. *)
Class SubtleCrypto := {
  CryptoKey : Type;
  subtle_encrypt : CryptoKey -> list Z -> list Z -> list Z;
  subtle_decrypt : CryptoKey -> list Z -> list Z -> option (list Z);
}.

(** Decryption under the key and IV of the encryption gives the data back. *)
Definition aead_correct (W : SubtleCrypto) : Prop :=
  forall k iv m,
    forallb is_byte m = true ->
    subtle_decrypt k iv (subtle_encrypt k iv m) = Some m.

(** The result of an encryption is an [ArrayBuffer]: bytes. *)
Definition aead_bytes (W : SubtleCrypto) : Prop :=
  forall k iv m, forallb is_byte (subtle_encrypt k iv m) = true.

(** The tag makes the result non-empty. *)
Definition aead_tagged (W : SubtleCrypto) : Prop :=
  forall k iv m, subtle_encrypt k iv m <> [].

(** Decryption under another key is rejected. *)
Definition aead_authentic (W : SubtleCrypto) : Prop :=
  forall k k' iv m,
    k <> k' -> subtle_decrypt k' iv (subtle_encrypt k iv m) = None.

(** *** The class *)

Definition IV_LENGTH : nat := 12.

(** [interface EncryptedData] *)
Record EncryptedData := { iv : jsstring; data : jsstring }.

(** [crypto.getRandomValues(new Uint8Array(n))], the host's randomness
    being [rnd]. *)
Definition getRandomValues (n : nat) (rnd : nat -> Z) : list Z :=
  List.map (fun i => rnd i mod 256) (seq 0 n).

(** [String.fromCharCode] of every byte, then [btoa]. *)
Definition arrayBufferToBase64 (buffer : list Z) : completion jsstring :=
  btoa buffer.

(** [atob], then [charCodeAt] of every unit into a [Uint8Array]. *)
Definition base64ToArrayBuffer (base64 : jsstring) : completion (list Z) :=
  bind (atob base64) (fun binaryString =>
  Return (List.map (fun u => u mod 256) binaryString)).

Section Service.
Context {W : SubtleCrypto}.

(** The two private fields; a promise is modelled by the key it resolves
    to. *)
Record CryptoService := {
  key : option CryptoKey;
  keyPromise : option CryptoKey;
}.

Definition create : CryptoService := {| key := None; keyPromise := None |}.

(** [getKey]; [generated] is what [generateKey] yields if it is called. *)
Definition getKey (generated : CryptoKey) (st : CryptoService)
    : CryptoKey * CryptoService :=
  match key st with
  | Some k => (k, st)
  | None =>
      match keyPromise st with
      | Some k => (k, st)
      | None => (generated,
                 {| key := Some generated; keyPromise := Some generated |})
      end
  end.

Definition encrypt (generated : CryptoKey) (rnd : nat -> Z)
    (plaintext : jsstring) (st : CryptoService)
    : completion EncryptedData * CryptoService :=
  let '(k, st1) := getKey generated st in
  let encoded := TextEncoder_encode plaintext in
  let iv_ := getRandomValues IV_LENGTH rnd in
  let encrypted := subtle_encrypt k iv_ encoded in
  (bind (arrayBufferToBase64 iv_) (fun iv64 =>
   bind (arrayBufferToBase64 encrypted) (fun data64 =>
   Return {| iv := iv64; data := data64 |})),
   st1).

Definition decrypt (generated : CryptoKey) (encrypted : EncryptedData)
    (st : CryptoService) : completion (option jsstring) * CryptoService :=
  let '(k, st1) := getKey generated st in
  let body :=
    bind (base64ToArrayBuffer (iv encrypted)) (fun iv_ =>
    bind (base64ToArrayBuffer (data encrypted)) (fun data_ =>
    match subtle_decrypt k iv_ data_ with
    | Some decrypted => Return (Some (TextDecoder_decode decrypted))
    | None => Throw OperationError
    end)) in
  (catch_with body None, st1).

Definition clearKey (st : CryptoService) : CryptoService :=
  {| key := None; keyPromise := None |}.

(** The calls that make up a history of one instance, each with what the
    host would generate for it. *)
Inductive op :=
  | OGetKey (generated : CryptoKey)
  | OEncrypt (generated : CryptoKey) (rnd : nat -> Z) (plaintext : jsstring)
  | ODecrypt (generated : CryptoKey) (encrypted : EncryptedData)
  | OClearKey.

Definition step (o : op) (st : CryptoService) : CryptoService :=
  match o with
  | OGetKey g => snd (getKey g st)
  | OEncrypt g rnd s => snd (encrypt g rnd s st)
  | ODecrypt g e => snd (decrypt g e st)
  | OClearKey => clearKey st
  end.

Definition run (ops : list op) (st : CryptoService) : CryptoService :=
  fold_left (fun st o => step o st) ops st.

End Service.

(** *** A stand-in host for running the model: the key is one bit, the
    ciphertext is the data followed by a one-byte tag that names the key
    and the length of the IV. *)
Definition toy_tag (k : bool) (iv_ : list Z) : Z :=
  (if k then 128 else 0) + Z.of_nat (length iv_) mod 128.

Definition toy : SubtleCrypto := {|
  CryptoKey := bool;
  subtle_encrypt k iv_ m := List.map (fun b => b mod 256) m ++ [toy_tag k iv_];
  subtle_decrypt k iv_ c :=
    match rev c with
    | t :: r => if t =? toy_tag k iv_ then Some (rev r) else None
    | [] => None
    end;
|}.

End Crypto.

(* --------------------------------------------------------------------- *)
(** ** SecureStorage                                                      *)
(* --------------------------------------------------------------------- *)

Module Store.
Import Crypto.

(** *** JavaScript values *)

(** A number: the special values, or the decimal [m * 10^x], kept with
    [m] not a multiple of ten unless it is zero (then [x] is zero).  A
    double is identified with the shortest decimal that denotes it; the
    rounding of other decimals to doubles is not modelled. *)
Inductive JsNumber :=
  | NaN
  | PosInf
  | NegInf
  | NegZero
  | Fin (m : Z) (x : Z).

(** The values that plain data is made of.  An object is the list of its
    own properties in enumeration order. *)
#[warnings="-register-all"]
Inductive JsValue :=
  | VUndefined
  | VNull
  | VBool (b : bool)
  | VNum (n : JsNumber)
  | VBigInt (z : Z)
  | VStr (s : jsstring)
  | VArr (items : list JsValue)
  | VObj (props : list (jsstring * JsValue)).

(** *** Number::toString *)

Fixpoint uint_units (u : Decimal.uint) : jsstring :=
  match u with
  | Decimal.Nil => []
  | Decimal.D0 r => 48 :: uint_units r
  | Decimal.D1 r => 49 :: uint_units r
  | Decimal.D2 r => 50 :: uint_units r
  | Decimal.D3 r => 51 :: uint_units r
  | Decimal.D4 r => 52 :: uint_units r
  | Decimal.D5 r => 53 :: uint_units r
  | Decimal.D6 r => 54 :: uint_units r
  | Decimal.D7 r => 55 :: uint_units r
  | Decimal.D8 r => 56 :: uint_units r
  | Decimal.D9 r => 57 :: uint_units r
  end.

(** The decimal digits of a natural number, without leading zeros. *)
Definition digits (n : Z) : jsstring := uint_units (N.to_uint (Z.to_N n)).

Definition finite_to_string (m x : Z) : jsstring :=
  if m =? 0 then lit "0"
  else
    let ds := digits (Z.abs m) in
    let k := Z.of_nat (length ds) in
    let n := k + x in
    let body :=
      if (k <=? n) && (n <=? 21) then
        ds ++ repeat 48 (Z.to_nat (n - k))
      else if (0 <? n) && (n <=? 21) then
        firstn (Z.to_nat n) ds ++ lit "." ++ skipn (Z.to_nat n) ds
      else if (-6 <? n) && (n <=? 0) then
        lit "0." ++ repeat 48 (Z.to_nat (- n)) ++ ds
      else
        let e := n - 1 in
        (if k =? 1 then ds else firstn 1 ds ++ lit "." ++ skipn 1 ds)
        ++ lit "e" ++ (if e <? 0 then lit "-" else lit "+")
        ++ digits (Z.abs e) in
    if m <? 0 then lit "-" ++ body else body.

Definition number_to_string (n : JsNumber) : jsstring :=
  match n with
  | NaN => lit "NaN"
  | PosInf => lit "Infinity"
  | NegInf => lit "-Infinity"
  | NegZero => lit "0"
  | Fin m x => finite_to_string m x
  end.

(** *** JSON.stringify *)

Definition hex_digit (d : Z) : Z := if d <? 10 then 48 + d else 87 + d.

(** [\uXXXX], lower-case. *)
Definition unicode_escape (u : Z) : jsstring :=
  [92; 117; hex_digit (u / 4096); hex_digit (u / 256 mod 16);
   hex_digit (u / 16 mod 16); hex_digit (u mod 16)].

Definition quote_unit (u : Z) : jsstring :=
  if u =? 8 then lit "\b"
  else if u =? 9 then lit "\t"
  else if u =? 10 then lit "\n"
  else if u =? 12 then lit "\f"
  else if u =? 13 then lit "\r"
  else if u =? 34 then [92; 34]
  else if u =? 92 then [92; 92]
  else if u <? 32 then unicode_escape u
  else [u].

(** The inside of a quoted string: a surrogate pair is copied, a
    surrogate on its own is escaped. *)
Fixpoint quote_body (s : jsstring) : jsstring :=
  match s with
  | [] => []
  | u :: r =>
      if is_high u then
        match r with
        | v :: r' =>
            if is_low v then u :: v :: quote_body r'
            else unicode_escape u ++ quote_body r
        | [] => unicode_escape u
        end
      else if is_low u then unicode_escape u ++ quote_body r
      else quote_unit u ++ quote_body r
  end.

Definition quote (s : jsstring) : jsstring := 34 :: quote_body s ++ [34].

Fixpoint join (sep : jsstring) (parts : list jsstring) : jsstring :=
  match parts with
  | [] => []
  | [p] => p
  | p :: r => p ++ sep ++ join sep r
  end.

(** Collect results until the first throw. *)
Fixpoint sequence {A} (l : list (completion A)) : completion (list A) :=
  match l with
  | [] => Return []
  | c :: r =>
      bind c (fun a => bind (sequence r) (fun l' => Return (a :: l')))
  end.

(** [SerializeJSONProperty]: the text of a value, or nothing for
    [undefined]; a BigInt throws. *)
Fixpoint serialize (v : JsValue) : completion (option jsstring) :=
  match v with
  | VUndefined => Return None
  | VNull => Return (Some (lit "null"))
  | VBool true => Return (Some (lit "true"))
  | VBool false => Return (Some (lit "false"))
  | VNum (Fin m x) => Return (Some (finite_to_string m x))
  | VNum NegZero => Return (Some (lit "0"))
  | VNum _ => Return (Some (lit "null"))
  | VBigInt _ => Throw TypeError
  | VStr s => Return (Some (quote s))
  | VArr items =>
      bind (sequence
              (List.map (fun item =>
                           bind (serialize item) (fun o =>
                           Return (match o with
                                   | Some t => t
                                   | None => lit "null"
                                   end)))
                        items))
           (fun parts => Return (Some (lit "[" ++ join (lit ",") parts ++ lit "]")))
  | VObj props =>
      bind (sequence
              (List.map (fun p =>
                           bind (serialize (snd p)) (fun o =>
                           Return (match o with
                                   | Some t => [quote (fst p) ++ lit ":" ++ t]
                                   | None => []
                                   end)))
                        props))
           (fun parts =>
              Return (Some (lit "{" ++ join (lit ",") (concat parts) ++ lit "}")))
  end.

(** [JSON.stringify(value)] *)
Definition JSON_stringify (value : JsValue) : completion (option jsstring) :=
  serialize value.

(** *** JSON.parse *)

Definition is_json_whitespace (u : Z) : bool :=
  (u =? 32) || (u =? 9) || (u =? 10) || (u =? 13).

Fixpoint skip_ws (s : jsstring) : jsstring :=
  match s with
  | u :: r => if is_json_whitespace u then skip_ws r else s
  | [] => []
  end.

Definition is_digit (u : Z) : bool := (48 <=? u) && (u <=? 57).

(** The longest prefix of digits, and what follows it. *)
Fixpoint span_digits (s : jsstring) : jsstring * jsstring :=
  match s with
  | u :: r =>
      if is_digit u
      then let '(ds, rest) := span_digits r in (u :: ds, rest)
      else ([], s)
  | [] => ([], [])
  end.

Definition digits_value (ds : jsstring) : Z :=
  fold_left (fun acc d => acc * 10 + (d - 48)) ds 0.

Definition hex_value (u : Z) : option Z :=
  if is_digit u then Some (u - 48)
  else if (97 <=? u) && (u <=? 102) then Some (u - 87)
  else if (65 <=? u) && (u <=? 70) then Some (u - 55)
  else None.

(** The character that follows a backslash, other than [u]. *)
Definition unescape (e : Z) : option Z :=
  if e =? 34 then Some 34
  else if e =? 92 then Some 92
  else if e =? 47 then Some 47
  else if e =? 98 then Some 8
  else if e =? 102 then Some 12
  else if e =? 110 then Some 10
  else if e =? 114 then Some 13
  else if e =? 116 then Some 9
  else None.

Definition prepend (u : Z) (p : option (jsstring * jsstring))
    : option (jsstring * jsstring) :=
  match p with
  | Some (t, rest) => Some (u :: t, rest)
  | None => None
  end.

(** After the opening quote: the string, and what follows the closing
    quote. *)
Fixpoint parse_string_body (s : jsstring) : option (jsstring * jsstring) :=
  match s with
  | [] => None
  | u :: r =>
      if u =? 34 then Some ([], r)
      else if u =? 92 then
        match r with
        | e :: r1 =>
            if e =? 117 then
              match r1 with
              | a :: b :: c :: d :: r2 =>
                  match hex_value a, hex_value b, hex_value c, hex_value d with
                  | Some ha, Some hb, Some hc, Some hd =>
                      prepend (ha * 4096 + hb * 256 + hc * 16 + hd)
                              (parse_string_body r2)
                  | _, _, _, _ => None
                  end
              | _ => None
              end
            else
              match unescape e with
              | Some ch => prepend ch (parse_string_body r1)
              | None => None
              end
        | [] => None
        end
      else if u <? 32 then None
      else prepend u (parse_string_body r)
  end.

(** Remove the trailing zeros of a mantissa. *)
Fixpoint strip_zeros (fuel : nat) (m x : Z) : Z * Z :=
  match fuel with
  | O => (m, x)
  | S f => if m mod 10 =? 0 then strip_zeros f (m / 10) (x + 1) else (m, x)
  end.

Definition make_number (neg : bool) (int_ds frac_ds : jsstring) (exp : Z)
    : JsNumber :=
  let all := int_ds ++ frac_ds in
  let m := digits_value all in
  if m =? 0 then (if neg then NegZero else Fin 0 0)
  else
    let '(m', x') := strip_zeros (length all) m (exp - Z.of_nat (length frac_ds)) in
    Fin (if neg then - m' else m') x'.

(** An optional [. digits]: the digits, and what follows. *)
Definition parse_fraction (s : jsstring) : option (jsstring * jsstring) :=
  match s with
  | u :: r =>
      if u =? 46 then
        let '(ds, r') := span_digits r in
        match ds with [] => None | _ :: _ => Some (ds, r') end
      else Some ([], s)
  | [] => Some ([], s)
  end.

(** An optional [e sign? digits]: the exponent, and what follows. *)
Definition parse_exponent (s : jsstring) : option (Z * jsstring) :=
  match s with
  | u :: r =>
      if (u =? 101) || (u =? 69) then
        let '(eneg, r1) :=
          match r with
          | v :: r' =>
              if v =? 45 then (true, r')
              else if v =? 43 then (false, r')
              else (false, r)
          | [] => (false, r)
          end in
        let '(ds, r2) := span_digits r1 in
        match ds with
        | [] => None
        | _ :: _ => Some (if eneg then - digits_value ds
                          else digits_value ds, r2)
        end
      else Some (0, s)
  | [] => Some (0, s)
  end.

(** [int frac? exp?], after the sign. *)
Definition parse_magnitude (neg : bool) (s1 : jsstring)
    : option (JsNumber * jsstring) :=
  let '(int_ds, s2) := span_digits s1 in
  match int_ds with
  | [] => None
  | d :: more =>
      if (d =? 48) && negb (Nat.eqb (length more) 0) then None
      else
        match parse_fraction s2 with
        | None => None
        | Some (frac_ds, s3) =>
            match parse_exponent s3 with
            | None => None
            | Some (e, s4) => Some (make_number neg int_ds frac_ds e, s4)
            end
        end
  end.

(** [-? int frac? exp?] *)
Definition parse_number (s : jsstring) : option (JsNumber * jsstring) :=
  match s with
  | u :: r => if u =? 45 then parse_magnitude true r else parse_magnitude false s
  | [] => None
  end.

(** Does the text start with this literal?  Then what follows it. *)
Fixpoint expect (word s : jsstring) : option jsstring :=
  match word with
  | [] => Some s
  | w :: word' =>
      match s with
      | u :: r => if u =? w then expect word' r else None
      | [] => None
      end
  end.

(** The index that a property key denotes, if it is an array index. *)
Definition array_index (k : jsstring) : option Z :=
  match k with
  | [] => None
  | d :: more =>
      if forallb is_digit k
         && (negb (d =? 48) || Nat.eqb (length more) 0)
         && (digits_value k <? 4294967295)
      then Some (digits_value k)
      else None
  end.

Fixpoint string_eqb (a b : jsstring) : bool :=
  match a, b with
  | [], [] => true
  | x :: a', y :: b' => (x =? y) && string_eqb a' b'
  | _, _ => false
  end.

Fixpoint has_prop (k : jsstring) (props : list (jsstring * JsValue)) : bool :=
  match props with
  | [] => false
  | (k', _) :: r => string_eqb k' k || has_prop k r
  end.

Fixpoint replace_prop (k : jsstring) (v : JsValue)
    (props : list (jsstring * JsValue)) : list (jsstring * JsValue) :=
  match props with
  | [] => []
  | (k', v') :: r =>
      if string_eqb k' k then (k', v) :: r
      else (k', v') :: replace_prop k v r
  end.

(** Put an index key in its place among the index keys, which come
    first, in ascending order. *)
Fixpoint insert_index (i : Z) (k : jsstring) (v : JsValue)
    (props : list (jsstring * JsValue)) : list (jsstring * JsValue) :=
  match props with
  | [] => [(k, v)]
  | (k', v') :: r =>
      match array_index k' with
      | Some j =>
          if j <? i then (k', v') :: insert_index i k v r
          else (k, v) :: props
      | None => (k, v) :: props
      end
  end.

(** [CreateDataProperty] on an ordinary object. *)
Definition define_prop (props : list (jsstring * JsValue))
    (kv : jsstring * JsValue) : list (jsstring * JsValue) :=
  let '(k, v) := kv in
  if has_prop k props then replace_prop k v props
  else
    match array_index k with
    | Some i => insert_index i k v props
    | None => props ++ [(k, v)]
    end.

Definition parser (A : Type) : Type := jsstring -> option (A * jsstring).

(** The elements of an array after the first [[], up to the closing
    bracket. *)
Fixpoint items_loop (n : nat) (value : parser JsValue) : parser (list JsValue) :=
  fun s =>
    match n with
    | O => None
    | S n' =>
        match value s with
        | Some (v, r) =>
            match skip_ws r with
            | u :: r' =>
                if u =? 44 then
                  match items_loop n' value r' with
                  | Some (l, rest) => Some (v :: l, rest)
                  | None => None
                  end
                else if u =? 93 then Some ([v], r')
                else None
            | [] => None
            end
        | None => None
        end
    end.

(** The members of an object, from the first key up to the closing
    brace. *)
Fixpoint members_loop (n : nat) (value : parser JsValue)
    : parser (list (jsstring * JsValue)) :=
  fun s =>
    match n with
    | O => None
    | S n' =>
        match skip_ws s with
        | q :: r0 =>
            if q =? 34 then
              match parse_string_body r0 with
              | Some (k, r1) =>
                  match skip_ws r1 with
                  | c :: r2 =>
                      if c =? 58 then
                        match value r2 with
                        | Some (v, r3) =>
                            match skip_ws r3 with
                            | u :: r4 =>
                                if u =? 44 then
                                  match members_loop n' value r4 with
                                  | Some (l, rest) => Some ((k, v) :: l, rest)
                                  | None => None
                                  end
                                else if u =? 125 then Some ([(k, v)], r4)
                                else None
                            | [] => None
                            end
                        | None => None
                        end
                      else None
                  | [] => None
                  end
              | None => None
              end
            else None
        | [] => None
        end
    end.

(** One value, with the whitespace before it. *)
Fixpoint parse_value (fuel : nat) : parser JsValue :=
  fun s =>
    match fuel with
    | O => None
    | S f =>
        match skip_ws s with
        | [] => None
        | u :: r =>
            if u =? 34 then
              match parse_string_body r with
              | Some (t, rest) => Some (VStr t, rest)
              | None => None
              end
            else if u =? 91 then
              match skip_ws r with
              | v :: r' =>
                  if v =? 93 then Some (VArr [], r')
                  else
                    match items_loop f (parse_value f) r with
                    | Some (l, rest) => Some (VArr l, rest)
                    | None => None
                    end
              | [] => None
              end
            else if u =? 123 then
              match skip_ws r with
              | v :: r' =>
                  if v =? 125 then Some (VObj [], r')
                  else
                    match members_loop f (parse_value f) r with
                    | Some (l, rest) => Some (VObj (fold_left define_prop l []), rest)
                    | None => None
                    end
              | [] => None
              end
            else if u =? 116 then
              match expect (lit "true") (u :: r) with
              | Some rest => Some (VBool true, rest)
              | None => None
              end
            else if u =? 102 then
              match expect (lit "false") (u :: r) with
              | Some rest => Some (VBool false, rest)
              | None => None
              end
            else if u =? 110 then
              match expect (lit "null") (u :: r) with
              | Some rest => Some (VNull, rest)
              | None => None
              end
            else
              match parse_number (u :: r) with
              | Some (n, rest) => Some (VNum n, rest)
              | None => None
              end
        end
    end.

(** [JSON.parse(text)]: one value and nothing but whitespace after it.
    Every level of nesting and every element takes at least one
    character, so the length of the text bounds the recursion
    ([parse_value_fuel] in Part II). *)
Definition JSON_parse (text : jsstring) : completion JsValue :=
  match parse_value (S (length text)) text with
  | Some (v, rest) =>
      match skip_ws rest with
      | [] => Return v
      | _ :: _ => Throw SyntaxError
      end
  | None => Throw SyntaxError
  end.

(** *** Conversions and property access *)

(** [ToString]; an array joins its elements with commas, [null] and
    [undefined] elements giving nothing. *)
Fixpoint ToString (v : JsValue) : jsstring :=
  match v with
  | VUndefined => lit "undefined"
  | VNull => lit "null"
  | VBool true => lit "true"
  | VBool false => lit "false"
  | VNum n => number_to_string n
  | VBigInt z => (if z <? 0 then lit "-" else []) ++ digits (Z.abs z)
  | VStr s => s
  | VArr items =>
      join (lit ",")
           (List.map (fun item =>
                        match item with
                        | VUndefined | VNull => []
                        | _ => ToString item
                        end)
                     items)
  | VObj _ => lit "[object Object]"
  end.

(** [ToBoolean], the test behind [!x]. *)
Definition ToBoolean (v : JsValue) : bool :=
  match v with
  | VUndefined | VNull => false
  | VBool b => b
  | VNum NaN | VNum NegZero => false
  | VNum (Fin m _) => negb (m =? 0)
  | VNum _ => true
  | VBigInt z => negb (z =? 0)
  | VStr s => negb (Nat.eqb (length s) 0)
  | VArr _ | VObj _ => true
  end.

Fixpoint lookup_prop (k : jsstring) (props : list (jsstring * JsValue))
    : JsValue :=
  match props with
  | [] => VUndefined
  | (k', v) :: r => if string_eqb k' k then v else lookup_prop k r
  end.

(** [v.iv] and [v.data]: reading a property of [null] or [undefined]
    throws; an object gives its own property; on the other values these
    two names denote nothing. *)
Definition Get (v : JsValue) (k : jsstring) : completion JsValue :=
  match v with
  | VUndefined | VNull => Throw TypeError
  | VObj props => Return (lookup_prop k props)
  | _ => Return VUndefined
  end.

(** *** The storage backend *)

(** [interface StorageAdapter]: any implementation of the three methods,
    over its own state; each may throw.  A backend may also have the
    [length] and [key(index)] of a [Storage]: [enumerate] is then what
    reading [length] and [key(0)], ..., [key(length - 1)] comes to, the
    list of the keys or what one of the reads throws; reading changes
    nothing. *)
Class StorageAdapter := {
  Backend : Type;
  getItem : jsstring -> Backend -> completion (option jsstring);
  setItem : jsstring -> jsstring -> Backend -> completion Backend;
  removeItem : jsstring -> Backend -> completion Backend;
  enumerate : Backend -> option (completion (list (option jsstring)));
}.

(** What is written under a key is what is read under it. *)
Definition reads_what_was_written (A : StorageAdapter) : Prop :=
  forall k v b b', setItem k v b = Return b' -> getItem k b' = Return (Some v).

(** The backend of the test suite: a map, without enumeration. *)
Definition map_storage : StorageAdapter := {|
  Backend := gmap jsstring jsstring;
  getItem k b := Return (b !! k);
  setItem k v b := Return (<[k := v]> b);
  removeItem k b := Return (delete k b);
  enumerate _ := None;
|}.

(** A map that refuses values longer than [quota] units. *)
Definition quota_storage (quota : nat) : StorageAdapter := {|
  Backend := gmap jsstring jsstring;
  getItem k b := Return (b !! k);
  setItem k v b :=
    if (length v <=? quota)%nat then Return (<[k := v]> b)
    else Throw QuotaExceededError;
  removeItem k b := Return (delete k b);
  enumerate _ := None;
|}.

Fixpoint assoc_get (k : jsstring) (items : list (jsstring * jsstring))
    : option jsstring :=
  match items with
  | [] => None
  | (k', v) :: r => if string_eqb k' k then Some v else assoc_get k r
  end.

Fixpoint assoc_set (k v : jsstring) (items : list (jsstring * jsstring))
    : list (jsstring * jsstring) :=
  match items with
  | [] => [(k, v)]
  | (k', v') :: r =>
      if string_eqb k' k then (k', v) :: r else (k', v') :: assoc_set k v r
  end.

(** A backend with enumeration: the items in the order of their first
    writing. *)
Definition listed_storage : StorageAdapter := {|
  Backend := list (jsstring * jsstring);
  getItem k b := Return (assoc_get k b);
  setItem k v b := Return (assoc_set k v b);
  removeItem k b :=
    Return (List.filter (fun kv => negb (string_eqb (fst kv) k)) b);
  enumerate b := Some (Return (List.map (fun kv => Some (fst kv)) b));
|}.

(** A backend that refuses every access. *)
Definition denied_storage : StorageAdapter := {|
  Backend := unit;
  getItem _ _ := Throw SecurityError;
  setItem _ _ _ := Throw SecurityError;
  removeItem _ _ := Throw SecurityError;
  enumerate _ := Some (Throw SecurityError);
|}.

(** *** The class *)

Section Storage.
Context {W : SubtleCrypto} {A : StorageAdapter}.

(** The three private fields.  The [CryptoService] is the caller's
    object: what others do to it is done to the [crypto] field. *)
Record SecureStorage := {
  crypto : CryptoService;
  storage : Backend;
  prefix : jsstring;
}.

Definition constructor (c : CryptoService) (b : Backend)
    (p : option jsstring) : SecureStorage :=
  {| crypto := c; storage := b;
     prefix := match p with Some x => x | None => lit "nis2_" end |}.

(** Computations of the methods: they read and write the fields and end
    by returning or throwing. *)
Definition M (T : Type) : Type := SecureStorage -> completion T * SecureStorage.

Definition ret {T} (a : T) : M T := fun st => (Return a, st).

Definition lift {T} (c : completion T) : M T := fun st => (c, st).

Definition mbind {T U} (m : M T) (k : T -> M U) : M U :=
  fun st =>
    match m st with
    | (Return a, st') => k a st'
    | (Throw e, st') => (Throw e, st')
    end.

Definition try_catch {T} (m : M T) (handler : error -> M T) : M T :=
  fun st =>
    match m st with
    | (Return a, st') => (Return a, st')
    | (Throw e, st') => handler e st'
    end.

Notation "'let!' x ':=' m 'in' k" := (mbind m (fun x => k))
  (at level 10, x name, m at level 100, k at level 200).

Definition the_prefix : M jsstring := fun st => (Return (prefix st), st).

Definition storage_getItem (k : jsstring) : M (option jsstring) :=
  fun st => (getItem k (storage st), st).

Definition storage_setItem (k v : jsstring) : M unit :=
  fun st =>
    match setItem k v (storage st) with
    | Return b => (Return tt, {| crypto := crypto st; storage := b;
                                 prefix := prefix st |})
    | Throw e => (Throw e, st)
    end.

Definition storage_removeItem (k : jsstring) : M unit :=
  fun st =>
    match removeItem k (storage st) with
    | Return b => (Return tt, {| crypto := crypto st; storage := b;
                                 prefix := prefix st |})
    | Throw e => (Throw e, st)
    end.

(** A call of a method of [this.crypto]: it returns or throws, and
    leaves the service in some state. *)
Definition crypto_call {T}
    (method : CryptoService -> completion T * CryptoService) : M T :=
  fun st =>
    let '(c, cs) := method (crypto st) in
    (c, {| crypto := cs; storage := storage st; prefix := prefix st |}).

(** The text handed on when [JSON.stringify] gives [undefined]:
    [TextEncoder.encode] then encodes the empty string, and [setItem]
    would store the word. *)
Definition or_default (d : jsstring) (o : option jsstring) : jsstring :=
  match o with Some t => t | None => d end.

(** [set], [crypto_encrypt] being what [this.crypto.encrypt] does: the
    handler logs and throws the error again, that of the service
    included. *)
Definition set_with
    (crypto_encrypt : jsstring -> CryptoService
                      -> completion EncryptedData * CryptoService)
    (key_ : jsstring) (value : JsValue) : M unit :=
  try_catch
    (let! jsonStr := lift (JSON_stringify value) in
     let! encrypted := crypto_call (crypto_encrypt (or_default [] jsonStr)) in
     let! text :=
       lift (JSON_stringify (VObj [(lit "iv", VStr (iv encrypted));
                                   (lit "data", VStr (data encrypted))])) in
     let! p := the_prefix in
     storage_setItem (p ++ key_) (or_default (lit "undefined") text))
    (fun error => lift (Throw error)).

(** [set] with the [encrypt] of [Crypto], whose host generates keys
    and encrypts without rejecting. *)
Definition set (g : CryptoKey) (rnd : nat -> Z) (key_ : jsstring)
    (value : JsValue) : M unit :=
  set_with (encrypt g rnd) key_ value.

(** [get], [crypto_decrypt] being what [this.crypto.decrypt] does: every
    [return null] is a branch that returns [VNull]; the handler warns
    and returns null. *)
Definition get_with
    (crypto_decrypt : EncryptedData -> CryptoService
                      -> completion (option jsstring) * CryptoService)
    (key_ : jsstring) : M JsValue :=
  try_catch
    (let! p := the_prefix in
     let! item := storage_getItem (p ++ key_) in
     match item with
     | None => ret VNull
     | Some text =>
         if Nat.eqb (length text) 0 then ret VNull
         else
           let! parsed := lift (JSON_parse text) in
           let! d := lift (Get parsed (lit "data")) in
           if negb (ToBoolean d) then ret VNull
           else
             let! i := lift (Get parsed (lit "iv")) in
             if negb (ToBoolean i) then ret VNull
             else
               let! decryptedJson :=
                 crypto_call
                   (crypto_decrypt {| iv := ToString i; data := ToString d |}) in
               match decryptedJson with
               | None => ret VNull
               | Some json =>
                   if Nat.eqb (length json) 0 then ret VNull
                   else lift (JSON_parse json)
               end
     end)
    (fun _ => ret VNull).

(** [get] with the [decrypt] of [Crypto]. *)
Definition get (g : CryptoKey) (key_ : jsstring) : M JsValue :=
  get_with (decrypt g) key_.

Definition remove (key_ : jsstring) : M unit :=
  let! p := the_prefix in storage_removeItem (p ++ key_).

Definition has (key_ : jsstring) : M bool :=
  let! p := the_prefix in
  let! item := storage_getItem (p ++ key_) in
  ret (match item with Some _ => true | None => false end).

(** [key.startsWith(prefix)] *)
Fixpoint starts_with (p k : jsstring) : bool :=
  match p, k with
  | [], _ => true
  | x :: p', y :: k' => (x =? y) && starts_with p' k'
  | _ :: _, [] => false
  end.

(** [keysToRemove.forEach(key => storage.removeItem(key))] *)
Fixpoint remove_each (keys : list jsstring) : M unit :=
  match keys with
  | [] => ret tt
  | k :: r => let! _ := storage_removeItem k in remove_each r
  end.

(** [clear]: nothing on a backend without [length] and [key]; otherwise
    the keys that carry the prefix are collected first ([key?.startsWith]
    skips a null), then removed.  The reads of [length] and [key(i)] have
    no handler around them: what they throw leaves [clear] before
    anything is removed. *)
Definition clear : M unit :=
  fun st =>
    match enumerate (storage st) with
    | None => (Return tt, st)
    | Some (Throw e) => (Throw e, st)
    | Some (Return ks) =>
        remove_each (List.filter (starts_with (prefix st))
                                 (List.flat_map (fun o => match o with
                                                          | Some k => [k]
                                                          | None => []
                                                          end) ks))
                    st
    end.

(** Something done to the shared [CryptoService] from outside. *)
Definition on_crypto (f : CryptoService -> CryptoService)
    (st : SecureStorage) : SecureStorage :=
  {| crypto := f (crypto st); storage := storage st; prefix := prefix st |}.

End Storage.

End Store.

(* --------------------------------------------------------------------- *)
(** ** CryptoService.sha256                                               *)
(* --------------------------------------------------------------------- *)

Module Hashing.
Import Crypto Store.

(** [b.toString(16).padStart(2, '0')] for a byte. *)
Definition hex_byte (b : Z) : jsstring :=
  [hex_digit (b / 16); hex_digit (b mod 16)].

(** [sha256(input)]; [digest] is the host's
    [crypto.subtle.digest('SHA-256', _)] on bytes. *)
Definition sha256 (digest : list Z -> list Z) (input : jsstring) : jsstring :=
  flat_map hex_byte (digest (TextEncoder_encode input)).

End Hashing.

(* --------------------------------------------------------------------- *)
(** ** SessionGuardian: the listeners                                     *)
(* --------------------------------------------------------------------- *)

Module Dispatcher.
Import Crypto.

(** [type SessionGuardianEvent] *)
Inductive EventName := idle | active | visibility_change | warning.

Definition EventName_eqb (a b : EventName) : bool :=
  match a, b with
  | idle, idle | active, active | visibility_change, visibility_change
  | warning, warning => true
  | _, _ => false
  end.

(** A handler is a function object: two handlers are the same when they
    are the same reference.  What calling it does is up to the caller; a
    handler is assumed not to register or remove handlers itself. *)
Definition Handler : Type := positive.

(** A [Set] of handlers, in insertion order. *)
Definition HandlerSet : Type := list Handler.

Definition set_add (h : Handler) (l : HandlerSet) : HandlerSet :=
  if existsb (Pos.eqb h) l then l else l ++ [h].

Definition set_delete (h : Handler) (l : HandlerSet) : HandlerSet :=
  List.filter (fun x => negb (Pos.eqb x h)) l.

(** [this.listeners]: the constructor puts an empty set under each of
    the four names. *)
Definition Listeners : Type := EventName -> HandlerSet.

Definition constructor : Listeners := fun _ => [].

(** [on(event, handler)] *)
Definition on (event : EventName) (handler : Handler) (ls : Listeners)
    : Listeners :=
  fun e => if EventName_eqb e event then set_add handler (ls e) else ls e.

(** [off(event, handler)] *)
Definition off (event : EventName) (handler : Handler) (ls : Listeners)
    : Listeners :=
  fun e => if EventName_eqb e event then set_delete handler (ls e) else ls e.

(** [forEach(handler => handler(data))]: the handlers that were called,
    in order, and how the loop ended; a throw ends it. *)
Fixpoint for_each (call : Handler -> completion unit) (l : HandlerSet)
    : list Handler * completion unit :=
  match l with
  | [] => ([], Return tt)
  | h :: r =>
      match call h with
      | Return _ => let '(called, c) := for_each call r in (h :: called, c)
      | Throw e => ([h], Throw e)
      end
  end.

(** [emit(event, data)]; [call h] is what [h(data)] does. *)
Definition emit (call : Handler -> completion unit) (event : EventName)
    (ls : Listeners) : list Handler * completion unit :=
  for_each call (ls event).

Inductive op :=
  | OOn (event : EventName) (handler : Handler)
  | OOff (event : EventName) (handler : Handler).

Definition step (o : op) (ls : Listeners) : Listeners :=
  match o with
  | OOn e h => on e h ls
  | OOff e h => off e h ls
  end.

Definition run (ops : list op) (ls : Listeners) : Listeners :=
  fold_left (fun ls o => step o ls) ops ls.

End Dispatcher.

(* --------------------------------------------------------------------- *)
(** ** Nis2Service and Nis2CanActivateGuard (Angular)                     *)
(* --------------------------------------------------------------------- *)

Module Angular.
Import Guardian.

(** The fields of the wrapper's [Nis2Config] that reach the guardian. *)
Record Nis2Config := {
  idleTimeoutMinutes : option Z;
  debug : option bool;
}.

(** The argument of [new SessionGuardian(...)] in the constructor. *)
Definition guardian_config (config : Nis2Config) : PartialConfig :=
  {| p_idleTimeoutMinutes := Some (nullish (idleTimeoutMinutes config) 15);
     p_activityEvents := None;
     p_activityThrottleMs := None;
     p_debug := debug config |}.

(** The current values of the three [BehaviorSubject]s, and the
    [timeoutMinutes] of the [SESSION_IDLE_TIMEOUT] warnings handed to
    the reporter (oldest first). *)
Record Subjects := {
  isIdleSubject : bool;
  isActiveSubject : bool;
  warningSubject : option Z;
  reported : list Z;
}.

Definition initial : Subjects :=
  {| isIdleSubject := false; isActiveSubject := true; warningSubject := None;
     reported := [] |}.

(** The handlers that the constructor registers for [idle], [active]
    and [warning]. *)
Definition on_idle (config : Nis2Config) (s : Subjects) : Subjects :=
  {| isIdleSubject := true; isActiveSubject := false;
     warningSubject := warningSubject s;
     reported := reported s ++ [nullish (idleTimeoutMinutes config) 15] |}.

Definition on_active (s : Subjects) : Subjects :=
  {| isIdleSubject := false; isActiveSubject := true; warningSubject := None;
     reported := reported s |}.

Definition on_warning (secondsRemaining : Z) (s : Subjects) : Subjects :=
  {| isIdleSubject := isIdleSubject s; isActiveSubject := isActiveSubject s;
     warningSubject := Some secondsRemaining; reported := reported s |}.

(** What one [emit] of the guardian does to the subjects; nothing is
    registered for [visibility-change]. *)
Definition handle (config : Nis2Config) (s : Subjects) (e : Event) : Subjects :=
  match e with
  | EIdle _ _ => on_idle config s
  | EActive => on_active s
  | EWarning secondsRemaining => on_warning secondsRemaining s
  | EVisibilityChange _ => s
  end.

(** The guardian as the constructor leaves it: created, then started. *)
Definition constructor (config : Nis2Config) (t0 : Z) : State :=
  start (Guardian.constructor (guardian_config config) t0).

(** The handlers are registered before [start] and stay registered, so
    every entry of the guardian's trace has run its handler: the
    subjects of a service whose guardian is [g]. *)
Definition subjects (config : Nis2Config) (g : State) : Subjects :=
  fold_left (handle config) (emitted g) initial.

(** [resetIdleTimer] and [getTimeRemaining] pass on to the guardian. *)
Definition resetIdleTimer (g : State) : State := reset g.
Definition getTimeRemaining (g : State) : Z := Guardian.getTimeRemaining g.

(** What [checkSession] makes of the first value of [isIdle$], which for
    a [BehaviorSubject] is its current value: [true], or the tree of
    [createUrlTree(commands, { queryParams: { reason } })], with the
    event logged on the way. *)
Inductive Verdict :=
  | Allowed
  | UrlTree (commands : list string) (reason : string).

Definition checkSession (s : Subjects) : Verdict * option string :=
  if isIdleSubject s
  then (UrlTree ["/logout"%string] "idle", Some "NAVIGATION_BLOCKED_IDLE"%string)
  else (Allowed, None).

End Angular.

(* --------------------------------------------------------------------- *)
(** ** useNis2 (Vue)                                                      *)
(* --------------------------------------------------------------------- *)

Module Vue.

(** The values of the refs [isIdle], [isActive] and [warningSeconds],
    and the [timeoutMinutes] handed to the reporter. *)
Record Refs := {
  isIdle : bool;
  isActive : bool;
  warningSeconds : option Z;
  reported : list Z;
}.

Definition initial : Refs :=
  {| isIdle := false; isActive := true; warningSeconds := None;
     reported := [] |}.

Definition handleIdle (idleTimeoutMinutes : option Z) (r : Refs) : Refs :=
  {| isIdle := true; isActive := false; warningSeconds := warningSeconds r;
     reported := reported r ++ [Guardian.nullish idleTimeoutMinutes 15] |}.

Definition handleActive (r : Refs) : Refs :=
  {| isIdle := false; isActive := true; warningSeconds := None;
     reported := reported r |}.

Definition handleWarning (secondsRemaining : Z) (r : Refs) : Refs :=
  {| isIdle := isIdle r; isActive := isActive r;
     warningSeconds := Some secondsRemaining; reported := reported r |}.

Definition handle (idleTimeoutMinutes : option Z) (r : Refs)
    (e : Guardian.Event) : Refs :=
  match e with
  | Guardian.EIdle _ _ => handleIdle idleTimeoutMinutes r
  | Guardian.EActive => handleActive r
  | Guardian.EWarning secondsRemaining => handleWarning secondsRemaining r
  | Guardian.EVisibilityChange _ => r
  end.

(** The guardian as the plugin's [install] leaves it. *)
Definition install (idleTimeoutMinutes : option Z) (debug : option bool)
    (t0 : Z) : Guardian.State :=
  Guardian.start
    (Guardian.constructor
       {| Guardian.p_idleTimeoutMinutes :=
            Some (Guardian.nullish idleTimeoutMinutes 15);
          Guardian.p_activityEvents := None;
          Guardian.p_activityThrottleMs := None;
          Guardian.p_debug := debug |} t0).

(** The handlers are registered in [onMounted]: they run for the events
    that the guardian emits from then on.  The refs of a component
    mounted when the guardian was [mounted], the guardian being [g]
    now. *)
Definition refs (idleTimeoutMinutes : option Z)
    (mounted g : Guardian.State) : Refs :=
  fold_left (handle idleTimeoutMinutes)
    (skipn (length (Guardian.emitted mounted)) (Guardian.emitted g)) initial.

End Vue.

(* --------------------------------------------------------------------- *)
(** ** useSecureStorage (Vue)                                             *)
(* --------------------------------------------------------------------- *)

Module VueStorage.
Import Crypto Store.

(** The refs [value] and [isLoading]. *)
Record Refs := {
  value : JsValue;
  isLoading : bool;
}.

(** What the composable sets up before its loader runs. *)
Definition useSecureStorage (initialValue : JsValue) : Refs :=
  {| value := initialValue; isLoading := true |}.

(** [stored !== null] *)
Definition not_null (v : JsValue) : bool :=
  match v with VNull => false | _ => true end.

(** The calls are taken one at a time: each has run to its end, awaits
    included, before the next begins. *)
Section Composable.
Context {W : SubtleCrypto} {A : StorageAdapter}.

(** The loader, an async function called on the spot, run to its end on
    the refs and the plugin's store: what [get] throws is caught, and
    [finally] clears [isLoading]. *)
Definition load (g : CryptoKey) (key_ : jsstring)
    (c : Refs * SecureStorage) : Refs * SecureStorage :=
  let '(res, st) := get g key_ (snd c) in
  let r1 := match res with
            | Return stored =>
                if not_null stored
                then {| value := stored; isLoading := isLoading (fst c) |}
                else fst c
            | Throw _ => fst c
            end in
  ({| value := value r1; isLoading := false |}, st).

(** [setValue]: the ref is written first; what [set] throws rejects the
    promise. *)
Definition setValue (g : CryptoKey) (rnd : nat -> Z) (key_ : jsstring)
    (newValue : JsValue) (c : Refs * SecureStorage)
    : completion unit * (Refs * SecureStorage) :=
  let r1 := {| value := newValue; isLoading := isLoading (fst c) |} in
  let '(res, st) := set g rnd key_ newValue (snd c) in
  (res, (r1, st)).

(** [remove]: the ref is reset after the store's [remove] has
    returned. *)
Definition remove (key_ : jsstring) (initialValue : JsValue)
    (c : Refs * SecureStorage) : completion unit * (Refs * SecureStorage) :=
  match Store.remove key_ (snd c) with
  | (Return _, st) =>
      (Return tt, ({| value := initialValue; isLoading := isLoading (fst c) |}, st))
  | (Throw e, st) => (Throw e, (fst c, st))
  end.

End Composable.

End VueStorage.

(* --------------------------------------------------------------------- *)
(** ** SessionGuardian: handlers that throw                               *)
(* --------------------------------------------------------------------- *)

(** [Guardian] takes the handlers to return.  Here the outcome of the
    handlers of [active] is a parameter: [emit] has no handler of its
    own, so what a handler throws leaves [emit] and the method that
    called it, and the statements after the call are not run. *)
Module Handlers.
Import Crypto Guardian.

(** [emit(event, data)], the handlers of the event ending as
    [outcome]. *)
Definition emit (outcome : completion unit) (e : Event) (s : State)
    : completion unit * State :=
  (outcome, Guardian.emit e s).

(** [reset] *)
Definition reset (active : completion unit) (s : State)
    : completion unit * State :=
  let s1 := set_lastActivity (now s) s in
  if isIdle s1 then
    match emit active EActive (set_isIdle false s1) with
    | (Return _, s2) => (Return tt, resetTimer s2)
    | (Throw e, s2) => (Throw e, s2)
    end
  else (Return tt, resetTimer s1).

(** [handleActivity] *)
Definition handleActivity (active : completion unit) (s : State)
    : completion unit * State :=
  let now_ := now s in
  if now_ - lastActivity s <? activityThrottleMs (config s) then (Return tt, s)
  else
    let s1 := set_lastActivity now_ s in
    if isIdle s1 then
      match emit active EActive (set_isIdle false s1) with
      | (Return _, s2) => (Return tt, resetTimer s2)
      | (Throw e, s2) => (Throw e, s2)
      end
    else (Return tt, resetTimer s1).

(** What the handlers registered for an event do when it is emitted. *)
Abbreviation Outcome := (Event -> completion unit).

(** [triggerIdle] *)
Definition triggerIdle (h : Outcome) (s : State) : completion unit * State :=
  if isIdle s then (Return tt, s)
  else
    let e := EIdle (lastActivity s) (idleTimeoutMinutes (config s)) in
    emit (h e) e (set_isIdle true s).

(** [handleVisibilityChange] *)
Definition handleVisibilityChange (h : Outcome) (s : State)
    : completion unit * State :=
  let isHidden := hidden s in
  match emit (h (EVisibilityChange isHidden))
                      (EVisibilityChange isHidden) s with
  | (Throw e, s1) => (Throw e, s1)
  | (Return _, s1) =>
      if negb isHidden then
        let elapsed := now s1 - lastActivity s1 in
        if (timeoutMs s1 <=? elapsed) && negb (isIdle s1)
        then triggerIdle h s1
        else handleActivity (h EActive) s1
      else (Return tt, s1)
  end.

(** What a timer does when the host fires it. *)
Definition run_callback (h : Outcome) (c : Callback) (s : State)
    : completion unit * State :=
  match c with
  | CbWarning =>
      if negb (isIdle s) && isRunning s
      then emit (h (EWarning 60)) (EWarning 60) s
      else (Return tt, s)
  | CbTimeout => triggerIdle h s
  end.

(** The host drives the object: what a DOM listener or a timer callback
    throws is reported by the host and goes no further; the object
    stays as the throw left it. *)
Definition dom_activity (h : Outcome) (s : State) : State :=
  if listening s then snd (handleActivity (h EActive) s) else s.

Definition dom_visibility (h : Outcome) (b : bool) (s : State) : State :=
  let s1 := set_hidden b s in
  if listening s1 then snd (handleVisibilityChange h s1) else s1.

Definition fire (h : Outcome) (t : Timer) (s : State) : State :=
  snd (run_callback h (cb t)
         (set_now (Z.max (now s) (due t)) (clearTimeout (tid t) s))).

Fixpoint run_timers (h : Outcome) (fuel : nat) (deadline : Z) (s : State)
    : State :=
  match fuel with
  | O => s
  | S f =>
      match earliest (pending s) with
      | Some t =>
          if due t <=? deadline
          then run_timers h f deadline (fire h t s)
          else s
      | None => s
      end
  end.

Definition advance (h : Outcome) (dt : Z) (s : State) : State :=
  let deadline := now s + Z.max 0 dt in
  set_now deadline (run_timers h (length (pending s)) deadline s).

(** A history: each call or host event with what the handlers do during
    it.  What [reset] throws goes to its caller; the object stays as the
    throw left it. *)
Definition step (oh : op * Outcome) (s : State) : State :=
  let '(o, h) := oh in
  match o with
  | OStart => start s
  | OStop => stop s
  | OReset => snd (reset (h EActive) s)
  | OActivity => dom_activity h s
  | OVisibility b => dom_visibility h b s
  | OAdvance dt => advance h dt s
  end.

Definition run (history : list (op * Outcome)) (s : State) : State :=
  fold_left (fun s oh => step oh s) history s.

End Handlers.

(* ===================================================================== *)
(** * Part II: properties                                                 *)
(* ===================================================================== *)

(** Replace the literals of the goal by their code units. *)
Ltac eval_lits :=
  repeat match goal with
         | |- context [lit ?w] =>
             let v := eval vm_compute in (lit w) in change (lit w) with v
         end.

(** Linear arithmetic with division and remainder by constants. *)
Ltac dlia := Z.div_mod_to_equations; lia.

(** Settle the integer comparisons of the goal that arithmetic decides. *)
Ltac decide_cmp :=
  repeat match goal with
  | |- context [?a <? ?b] =>
      first [ replace (a <? b) with true by (symmetry; apply Z.ltb_lt; dlia)
            | replace (a <? b) with false by (symmetry; apply Z.ltb_ge; dlia) ]
  | |- context [?a <=? ?b] =>
      first [ replace (a <=? b) with true by (symmetry; apply Z.leb_le; dlia)
            | replace (a <=? b) with false by (symmetry; apply Z.leb_gt; dlia) ]
  | |- context [?a =? ?b] =>
      first [ replace (a =? b) with true by (symmetry; apply Z.eqb_eq; dlia)
            | replace (a =? b) with false by (symmetry; apply Z.eqb_neq; dlia) ]
  end.

(* --------------------------------------------------------------------- *)
(** ** DeviceFingerprinter.compare                                        *)
(* --------------------------------------------------------------------- *)

Section FingerprintFacts.
Import Fingerprint.

(** Does key [k] hold the same primitive in both snapshots? *)
Definition matching (c p : DeviceFingerprint) (k : key) : bool :=
  strict_eq (field c k) (field p k).

(** A snapshot with the six fields that [compare] never reads replaced. *)
Definition with_excluded (fp : DeviceFingerprint)
    (tzo : Z) (langs : list jsstring) (mem : option Z) (touch : bool)
    (vendor : option jsstring) (at_ : jsstring) : DeviceFingerprint :=
  {| screenResolution := screenResolution fp;
     colorDepth := colorDepth fp;
     timezoneOffset := tzo;
     timezone := timezone fp;
     language := language fp;
     languages := langs;
     platform := platform fp;
     hardwareConcurrency := hardwareConcurrency fp;
     deviceMemory := mem;
     touchSupport := touch;
     canvasHash := canvasHash fp;
     webglRenderer := webglRenderer fp;
     webglVendor := vendor;
     collectedAt := at_ |}.

Lemma strict_eq_iff (a b : prim) : strict_eq a b = true <-> a = b.
Proof.
  destruct a as [s|n|], b as [t|m|]; simpl; split; intros H;
    try discriminate; try reflexivity.
  - apply bool_decide_eq_true in H. now subst.
  - apply bool_decide_eq_true. now inversion H.
  - apply Z.eqb_eq in H. now subst.
  - apply Z.eqb_eq. now inversion H.
Qed.

Lemma compare_loop_spec (c p : DeviceFingerprint) (fields : list key) :
  forall (m : Z) (mm : list string),
    compare_loop c p fields m mm =
    (m + Z.of_nat (length (List.filter (matching c p) fields)),
     mm ++ List.map key_name
             (List.filter (fun k => negb (matching c p k)) fields)).
Proof.
  induction fields as [|f rest IH]; intros m mm; simpl.
  - now rewrite Z.add_0_r, app_nil_r.
  - change (strict_eq (field c f) (field p f)) with (matching c p f).
    destruct (matching c p f) eqn:E; simpl; rewrite IH.
    + f_equal. lia.
    + f_equal. now rewrite <- app_assoc.
Qed.

Lemma field_with_excluded fp tzo langs mem touch vendor at_ k :
  field (with_excluded fp tzo langs mem touch vendor at_) k = field fp k.
Proof. now destruct k. Qed.

Lemma compare_loop_ext (c p c' p' : DeviceFingerprint) :
  (forall k, field c' k = field c k) ->
  (forall k, field p' k = field p k) ->
  forall fields m mm,
    compare_loop c' p' fields m mm = compare_loop c p fields m mm.
Proof.
  intros Hc Hp. induction fields as [|f rest IH]; intros m mm; simpl.
  - reflexivity.
  - rewrite Hc, Hp. destruct (strict_eq _ _); apply IH.
Qed.

(** What [matching] comes to on each key, in terms of the fields of the
    two snapshots. *)
Lemma matching_fields (c p : DeviceFingerprint) :
  matching c p KscreenResolution
  = bool_decide (screenResolution c = screenResolution p)
  /\ matching c p KcolorDepth = bool_decide (colorDepth c = colorDepth p)
  /\ matching c p Ktimezone = bool_decide (timezone c = timezone p)
  /\ matching c p Klanguage = bool_decide (language c = language p)
  /\ matching c p Kplatform = bool_decide (platform c = platform p)
  /\ matching c p KhardwareConcurrency
     = bool_decide (hardwareConcurrency c = hardwareConcurrency p)
  /\ matching c p KcanvasHash = bool_decide (canvasHash c = canvasHash p)
  /\ matching c p KwebglRenderer
     = bool_decide (webglRenderer c = webglRenderer p).
Proof.
  assert (forall n m : Z, (n =? m) = bool_decide (n = m)) as Hz.
  { intros n m. destruct (Z.eqb_spec n m) as [->|H].
    - symmetry. now apply bool_decide_eq_true.
    - symmetry. now apply bool_decide_eq_false. }
  assert (forall a b : option jsstring,
             strict_eq (of_nullable a) (of_nullable b) = bool_decide (a = b))
    as Ho.
  { intros [a|] [b|]; cbn [of_nullable strict_eq].
    - destruct (decide (a = b)) as [->|H].
      + rewrite !bool_decide_eq_true_2; reflexivity.
      + rewrite !bool_decide_eq_false_2; congruence.
    - symmetry. now apply bool_decide_eq_false.
    - symmetry. now apply bool_decide_eq_false.
    - symmetry. now apply bool_decide_eq_true. }
  unfold matching. cbn [field strict_eq]. rewrite !Hz, !Ho. repeat split.
Qed.

Lemma key_name_inj (k k' : key) : key_name k = key_name k' -> k = k'.
Proof. destruct k, k'; cbn; intros H; try reflexivity; discriminate H. Qed.

(** A name is among the mismatches exactly when its key does not
    match. *)
Lemma mismatch_named (c p : DeviceFingerprint) (k : key) :
  In (key_name k) (mismatches (compare c p)) <-> matching c p k = false.
Proof.
  unfold compare. rewrite compare_loop_spec. cbn [mismatches app].
  rewrite in_map_iff. split.
  - intros (k' & Hk & Hin). apply key_name_inj in Hk. subst k'.
    apply filter_In in Hin as [_ H]. now apply negb_true_iff.
  - intros H. exists k. split; [reflexivity|]. apply filter_In.
    split; [destruct k; cbn; tauto|now apply negb_true_iff].
Qed.

Lemma bool_decide_false_iff (P : Prop) `{Decision P} :
  bool_decide P = false <-> ~ P.
Proof.
  split; [apply bool_decide_eq_false_1|apply bool_decide_eq_false_2].
Qed.

(** C9.  [compare] looks at exactly eight keys, in the order of the
    [fieldsToCompare] literal; its similarity is the number of matching
    keys divided by eight; its mismatches are the names of the other
    keys in that same order; a key matches exactly when both snapshots
    hold the same primitive under it (so null matches null, and null
    matches no string): each of the eight names is among the mismatches
    exactly when the field of that name differs between the two
    snapshots; and whatever is put in timezoneOffset, languages,
    deviceMemory, touchSupport, webglVendor and collectedAt of either
    snapshot, the result is the same. *)
Theorem C9_compare_eight_fields :
  forall c p : DeviceFingerprint,
    List.map key_name fieldsToCompare =
      ["screenResolution"; "colorDepth"; "timezone"; "language";
       "platform"; "hardwareConcurrency"; "canvasHash";
       "webglRenderer"]%string
    /\ (similarity (compare c p) ==
          Z.of_nat (length (List.filter (matching c p) fieldsToCompare)) # 8)%Q
    /\ mismatches (compare c p) =
         List.map key_name
           (List.filter (fun k => negb (matching c p k)) fieldsToCompare)
    /\ (forall k, matching c p k = true <-> field c k = field p k)
    /\ (canvasHash c = None -> canvasHash p = None ->
        matching c p KcanvasHash = true)
    /\ (forall tzo langs mem touch vendor at_ tzo' langs' mem' touch' vendor' at_',
          compare (with_excluded c tzo langs mem touch vendor at_)
                  (with_excluded p tzo' langs' mem' touch' vendor' at_')
          = compare c p)
    /\ (In "screenResolution"%string (mismatches (compare c p))
        <-> screenResolution c <> screenResolution p)
    /\ (In "colorDepth"%string (mismatches (compare c p))
        <-> colorDepth c <> colorDepth p)
    /\ (In "timezone"%string (mismatches (compare c p))
        <-> timezone c <> timezone p)
    /\ (In "language"%string (mismatches (compare c p))
        <-> language c <> language p)
    /\ (In "platform"%string (mismatches (compare c p))
        <-> platform c <> platform p)
    /\ (In "hardwareConcurrency"%string (mismatches (compare c p))
        <-> hardwareConcurrency c <> hardwareConcurrency p)
    /\ (In "canvasHash"%string (mismatches (compare c p))
        <-> canvasHash c <> canvasHash p)
    /\ (In "webglRenderer"%string (mismatches (compare c p))
        <-> webglRenderer c <> webglRenderer p).
Proof.
  intros c p. split; [reflexivity|].
  split; [|split; [|split; [|split; [|split]]]].
  - unfold compare. rewrite compare_loop_spec. cbn [similarity].
    change (length fieldsToCompare) with 8%nat.
    unfold Qeq, Qdiv, Qmult, Qinv, inject_Z. simpl. lia.
  - unfold compare. now rewrite compare_loop_spec.
  - intros k. apply strict_eq_iff.
  - intros Hc Hp. unfold matching. simpl. now rewrite Hc, Hp.
  - intros. unfold compare.
    now rewrite (compare_loop_ext c p) by (intros k; apply field_with_excluded).
  - destruct (matching_fields c p)
      as (M1 & M2 & M3 & M4 & M5 & M6 & M7 & M8).
    repeat split.
    + intros H. apply (mismatch_named c p KscreenResolution) in H.
      rewrite M1 in H. now apply bool_decide_false_iff in H.
    + intros H. apply (mismatch_named c p KscreenResolution).
      rewrite M1. now apply bool_decide_false_iff.
    + intros H. apply (mismatch_named c p KcolorDepth) in H.
      rewrite M2 in H. now apply bool_decide_false_iff in H.
    + intros H. apply (mismatch_named c p KcolorDepth).
      rewrite M2. now apply bool_decide_false_iff.
    + intros H. apply (mismatch_named c p Ktimezone) in H.
      rewrite M3 in H. now apply bool_decide_false_iff in H.
    + intros H. apply (mismatch_named c p Ktimezone).
      rewrite M3. now apply bool_decide_false_iff.
    + intros H. apply (mismatch_named c p Klanguage) in H.
      rewrite M4 in H. now apply bool_decide_false_iff in H.
    + intros H. apply (mismatch_named c p Klanguage).
      rewrite M4. now apply bool_decide_false_iff.
    + intros H. apply (mismatch_named c p Kplatform) in H.
      rewrite M5 in H. now apply bool_decide_false_iff in H.
    + intros H. apply (mismatch_named c p Kplatform).
      rewrite M5. now apply bool_decide_false_iff.
    + intros H. apply (mismatch_named c p KhardwareConcurrency) in H.
      rewrite M6 in H. now apply bool_decide_false_iff in H.
    + intros H. apply (mismatch_named c p KhardwareConcurrency).
      rewrite M6. now apply bool_decide_false_iff.
    + intros H. apply (mismatch_named c p KcanvasHash) in H.
      rewrite M7 in H. now apply bool_decide_false_iff in H.
    + intros H. apply (mismatch_named c p KcanvasHash).
      rewrite M7. now apply bool_decide_false_iff.
    + intros H. apply (mismatch_named c p KwebglRenderer) in H.
      rewrite M8 in H. now apply bool_decide_false_iff in H.
    + intros H. apply (mismatch_named c p KwebglRenderer).
      rewrite M8. now apply bool_decide_false_iff.
Qed.

(** Two snapshots that differ in the screen and in the canvas hash, one
    of them without a hash. *)
Lemma C9_compare_eight_fields_witness :
  let c := {| screenResolution := lit "1920x1080"; colorDepth := 24;
              timezoneOffset := -60; timezone := lit "Europe/Rome";
              language := lit "it-IT"; languages := [lit "it-IT"];
              platform := lit "MacIntel"; hardwareConcurrency := 8;
              deviceMemory := Some 8; touchSupport := false;
              canvasHash := Some (lit "abc"); webglRenderer := None;
              webglVendor := None; collectedAt := lit "2024-01-01" |} in
  let p := {| screenResolution := lit "1280x720"; colorDepth := 24;
              timezoneOffset := 0; timezone := lit "Europe/Rome";
              language := lit "it-IT"; languages := [];
              platform := lit "MacIntel"; hardwareConcurrency := 8;
              deviceMemory := None; touchSupport := true;
              canvasHash := None; webglRenderer := None;
              webglVendor := Some (lit "x"); collectedAt := lit "2024-02-02" |} in
  In "screenResolution"%string (mismatches (compare c p))
  /\ In "canvasHash"%string (mismatches (compare c p))
  /\ ~ In "webglRenderer"%string (mismatches (compare c p))
  /\ (similarity (compare c p) == 6 # 8)%Q.
Proof.
  intros c p.
  destruct (C9_compare_eight_fields c p)
    as (_ & H2 & _ & _ & _ & _ & H7 & _ & _ & _ & _ & _ & H13 & H14).
  split; [apply H7; discriminate|]. split; [apply H13; discriminate|].
  split; [intros H; now apply H14 in H|exact H2].
Defined.

End FingerprintFacts.

(* --------------------------------------------------------------------- *)
(** ** SessionGuardian                                                    *)
(* --------------------------------------------------------------------- *)

Section GuardianFacts.
Import Guardian.

(** The timers that a call of [resetTimer] does not cancel. *)
Definition surviving (s : State) : list Timer :=
  match timer s with
  | Some id => List.filter (fun t => negb (Pos.eqb (tid t) id)) (pending s)
  | None => pending s
  end.

Definition warningMs (s : State) : Z := timeoutMs s - 60000.

(** The timers that a call of [resetTimer] schedules. *)
Definition armed (s : State) : list Timer :=
  if 0 <? warningMs s
  then [ {| tid := nextTimerId s; due := now s + Z.max 0 (warningMs s);
            cb := CbWarning |};
         {| tid := Pos.succ (nextTimerId s);
            due := now s + Z.max 0 (timeoutMs s); cb := CbTimeout |} ]
  else [ {| tid := nextTimerId s; due := now s + Z.max 0 (timeoutMs s);
            cb := CbTimeout |} ].

Definition armed_id (s : State) : positive :=
  if 0 <? warningMs s then Pos.succ (nextTimerId s) else nextTimerId s.

Lemma resetTimer_eq (s : State) :
  resetTimer s =
  {| config := config s; timer := Some (armed_id s);
     lastActivity := lastActivity s; isIdle := isIdle s;
     isRunning := isRunning s; now := now s;
     nextTimerId := Pos.succ (armed_id s);
     pending := surviving s ++ armed s;
     listening := listening s; hidden := hidden s; emitted := emitted s |}.
Proof.
  unfold resetTimer, surviving, armed, armed_id, warningMs, timeoutMs,
    setTimeout, clearTimeout, set_queue, set_timer.
  destruct (timer s) as [id|]; simpl;
    destruct (0 <? idleTimeoutMinutes (config s) * 60 * 1000 - 60000);
    simpl; rewrite <- ?app_assoc; reflexivity.
Qed.

(** Every pending entry has a handle below the next one to be issued,
    and it is the idle timeout exactly when [this.timer] holds it. *)
Definition tracked (s : State) : Prop :=
  Forall (fun t => (tid t < nextTimerId s)%positive
                   /\ (cb t = CbTimeout <-> timer s = Some (tid t)))
         (pending s).

Lemma surviving_warnings (s : State) :
  tracked s ->
  Forall (fun t => (tid t < nextTimerId s)%positive /\ cb t = CbWarning)
         (surviving s).
Proof.
  unfold tracked, surviving. intros H.
  destruct (timer s) as [id|] eqn:Et.
  - apply List.Forall_forall. intros t Ht. apply filter_In in Ht as [Hin Hne].
    rewrite List.Forall_forall in H. destruct (H t Hin) as [Hlt Hiff].
    split; [exact Hlt|].
    destruct (cb t); [reflexivity|].
    assert (Some id = Some (tid t)) as E by (apply Hiff; reflexivity).
    inversion E; subst. rewrite Pos.eqb_refl in Hne. discriminate.
  - eapply Forall_impl; [exact H|]. intros t [Hlt Hiff]. split; [exact Hlt|].
    destruct (cb t); [reflexivity|].
    assert (None = Some (tid t)) as E by (apply Hiff; reflexivity).
    discriminate.
Qed.

Lemma tracked_resetTimer (s : State) : tracked s -> tracked (resetTimer s).
Proof.
  intros H. pose proof (surviving_warnings s H) as Hs.
  rewrite resetTimer_eq. unfold tracked. cbn [pending nextTimerId timer].
  apply Forall_app. split.
  - eapply Forall_impl; [exact Hs|]. intros t [Hlt Hw]. split.
    + unfold armed_id. destruct (0 <? warningMs s); lia.
    + rewrite Hw. split; [discriminate|]. intros E. inversion E as [E'].
      unfold armed_id in E'. destruct (0 <? warningMs s); lia.
  - unfold armed, armed_id. destruct (0 <? warningMs s);
      repeat constructor; cbn [tid cb]; try lia; try discriminate;
      try reflexivity.
    intros E. inversion E. lia.
Qed.

Lemma tracked_filter (s : State) (f : Timer -> bool) (s' : State) :
  tracked s ->
  pending s' = List.filter f (pending s) ->
  nextTimerId s' = nextTimerId s ->
  timer s' = timer s ->
  tracked s'.
Proof.
  unfold tracked. intros H Hp Hn Ht. rewrite Hp, Hn, Ht.
  rewrite List.Forall_forall in *. intros t Hin. apply filter_In in Hin as [Hin _].
  now apply H.
Qed.

Lemma tracked_same_queue (s s' : State) :
  tracked s ->
  pending s' = pending s ->
  nextTimerId s' = nextTimerId s ->
  timer s' = timer s ->
  tracked s'.
Proof. unfold tracked. intros H Hp Hn Ht. now rewrite Hp, Hn, Ht. Qed.

Lemma tracked_triggerIdle (s : State) : tracked s -> tracked (triggerIdle s).
Proof.
  intros H. unfold triggerIdle. destruct (isIdle s); [exact H|].
  now apply (tracked_same_queue s).
Qed.

Lemma tracked_run_callback (c : Callback) (s : State) :
  tracked s -> tracked (run_callback c s).
Proof.
  intros H. destruct c; simpl.
  - destruct (negb (isIdle s) && isRunning s); [|exact H].
    now apply (tracked_same_queue s).
  - now apply tracked_triggerIdle.
Qed.

Lemma tracked_fire (t : Timer) (s : State) : tracked s -> tracked (fire t s).
Proof.
  intros H. unfold fire. apply tracked_run_callback.
  now apply (tracked_filter s (fun u => negb (Pos.eqb (tid u) (tid t)))).
Qed.

Lemma tracked_run_timers (fuel : nat) (deadline : Z) :
  forall s, tracked s -> tracked (run_timers fuel deadline s).
Proof.
  induction fuel as [|f IH]; intros s H; simpl; [exact H|].
  destruct (earliest (pending s)) as [t|]; [|exact H].
  destruct (due t <=? deadline); [|exact H].
  apply IH. now apply tracked_fire.
Qed.

Lemma tracked_advance (dt : Z) (s : State) : tracked s -> tracked (advance dt s).
Proof.
  intros H. unfold advance.
  apply (tracked_same_queue
           (run_timers (length (pending s)) (now s + Z.max 0 dt) s));
    [now apply tracked_run_timers|reflexivity..].
Qed.

Lemma tracked_handleActivity (s : State) : tracked s -> tracked (handleActivity s).
Proof.
  intros H. unfold handleActivity.
  destruct (now s - lastActivity s <? activityThrottleMs (config s)); [exact H|].
  apply tracked_resetTimer. cbn [isIdle set_lastActivity].
  destruct (isIdle s); now apply (tracked_same_queue s).
Qed.

Lemma tracked_handleVisibilityChange (s : State) :
  tracked s -> tracked (handleVisibilityChange s).
Proof.
  intros H. unfold handleVisibilityChange.
  assert (tracked (emit (EVisibilityChange (hidden s)) s)) as H1
    by now apply (tracked_same_queue s).
  destruct (negb (hidden s)); [|exact H1].
  destruct (_ && _); [now apply tracked_triggerIdle|now apply tracked_handleActivity].
Qed.

Lemma tracked_stop (s : State) : tracked s -> tracked (stop s).
Proof.
  intros H. unfold stop. destruct (negb (isRunning s)); [exact H|].
  pose proof (surviving_warnings s H) as Hs. unfold surviving in Hs.
  unfold tracked. simpl.
  destruct (timer s) as [id|] eqn:Et; simpl; rewrite ?Et;
    (eapply Forall_impl; [exact Hs|]); intros t [Hlt Hw];
    (split; [exact Hlt|]); rewrite Hw; split; intros E; discriminate E.
Qed.

Lemma tracked_step (o : op) (s : State) : tracked s -> tracked (step o s).
Proof.
  intros H. destruct o as [| | | |h|dt]; simpl.
  - unfold start. destruct (isRunning s); [exact H|].
    apply tracked_resetTimer. now apply (tracked_same_queue s).
  - now apply tracked_stop.
  - unfold reset. apply tracked_resetTimer. cbn [isIdle set_lastActivity].
    destruct (isIdle s); now apply (tracked_same_queue s).
  - unfold dom_activity. destruct (listening s); [|exact H].
    now apply tracked_handleActivity.
  - unfold dom_visibility. cbn [listening set_hidden].
    assert (tracked (set_hidden h s)) as H1 by now apply (tracked_same_queue s).
    destruct (listening s); [|exact H1].
    now apply tracked_handleVisibilityChange.
  - now apply tracked_advance.
Qed.

Lemma tracked_run (ops : list op) :
  forall s, tracked s -> tracked (run ops s).
Proof.
  induction ops as [|o ops IH]; intros s H; simpl; [exact H|].
  apply IH. now apply tracked_step.
Qed.

Lemma tracked_constructor (c : PartialConfig) (t0 : Z) :
  tracked (constructor c t0).
Proof. constructor. Qed.

(** *** The timer queue *)

Lemma earliest_None (q : list Timer) : earliest q = None -> q = [].
Proof.
  destruct q as [|t r]; [reflexivity|]. simpl.
  destruct (earliest r) as [u|]; [destruct (due u <? due t)|]; discriminate.
Qed.

Lemma earliest_min (q : list Timer) :
  forall u, earliest q = Some u ->
            In u q /\ List.Forall (fun t => due u <= due t) q.
Proof.
  induction q as [|t r IH]; intros u; simpl; [discriminate|].
  destruct (earliest r) as [v|] eqn:Ev.
  - destruct (IH v eq_refl) as [Hin Hall].
    destruct (due v <? due t) eqn:Hlt; intros E; inversion E; subst.
    + apply Z.ltb_lt in Hlt. split; [now right|].
      constructor; [lia|exact Hall].
    + apply Z.ltb_ge in Hlt. split; [now left|].
      constructor; [lia|].
      eapply List.Forall_impl; [|exact Hall]. simpl. intros; lia.
  - intros E; inversion E; subst. apply earliest_None in Ev. subst r.
    split; [now left|]. constructor; [lia|constructor].
Qed.

Lemma filter_length_lt {A} (f : A -> bool) (l : list A) (x : A) :
  In x l -> f x = false -> (length (List.filter f l) < length l)%nat.
Proof.
  induction l as [|y l IH]; simpl; [tauto|].
  intros [->|Hin] Hf.
  - rewrite Hf. pose proof (List.filter_length_le f l). lia.
  - specialize (IH Hin Hf). destruct (f y); simpl; lia.
Qed.

(** The fields that firing a timer leaves alone. *)
Lemma fire_frame (t : Timer) (s : State) :
  config (fire t s) = config s /\ timer (fire t s) = timer s
  /\ lastActivity (fire t s) = lastActivity s
  /\ isRunning (fire t s) = isRunning s
  /\ nextTimerId (fire t s) = nextTimerId s
  /\ listening (fire t s) = listening s /\ hidden (fire t s) = hidden s
  /\ pending (fire t s) =
       List.filter (fun u => negb (Pos.eqb (tid u) (tid t))) (pending s)
  /\ now (fire t s) = Z.max (now s) (due t).
Proof.
  unfold fire, run_callback, triggerIdle. destruct (cb t); simpl.
  - destruct (negb (isIdle s) && isRunning s); simpl; tauto.
  - destruct (isIdle s); simpl; tauto.
Qed.

Lemma run_timers_frame (fuel : nat) (deadline : Z) :
  forall s,
    let s' := run_timers fuel deadline s in
    config s' = config s /\ timer s' = timer s
    /\ lastActivity s' = lastActivity s /\ isRunning s' = isRunning s
    /\ nextTimerId s' = nextTimerId s
    /\ listening s' = listening s /\ hidden s' = hidden s
    /\ incl (pending s') (pending s)
    /\ (isIdle s = true -> isIdle s' = true).
Proof.
  induction fuel as [|f IH]; intros s; simpl.
  - repeat split; auto using incl_refl.
  - destruct (earliest (pending s)) as [t|]; [|repeat split; auto using incl_refl].
    destruct (due t <=? deadline); [|repeat split; auto using incl_refl].
    specialize (IH (fire t s)). simpl in IH.
    destruct IH as (H1 & H2 & H3 & H4 & H5 & H6 & H7 & H8 & H9).
    destruct (fire_frame t s) as (F1 & F2 & F3 & F4 & F5 & F6 & F7 & F8 & _).
    repeat split; try congruence.
    + intros u Hu. apply H8 in Hu. rewrite F8 in Hu.
      now apply filter_In in Hu as [Hu _].
    + intros Hi. apply H9. unfold fire, run_callback, triggerIdle.
      destruct (cb t); simpl; rewrite Hi; simpl; exact Hi.
Qed.

Lemma advance_frame (dt : Z) (s : State) :
  config (advance dt s) = config s /\ timer (advance dt s) = timer s
  /\ lastActivity (advance dt s) = lastActivity s
  /\ isRunning (advance dt s) = isRunning s
  /\ listening (advance dt s) = listening s
  /\ now (advance dt s) = now s + Z.max 0 dt
  /\ incl (pending (advance dt s)) (pending s).
Proof.
  unfold advance. simpl.
  pose proof (run_timers_frame (length (pending s)) (now s + Z.max 0 dt) s) as H.
  simpl in H. tauto.
Qed.

(** No pending idle timeout is due up to [deadline]. *)
Definition no_timeout_due (deadline : Z) (s : State) : Prop :=
  List.Forall (fun t => cb t = CbTimeout -> deadline < due t) (pending s).

(** While no idle timeout comes due, running the queue fires warnings
    only: the idle flag stays, and the trace grows by warnings, none at
    all when the object is stopped or idle. *)
Lemma run_timers_warnings_only (fuel : nat) (deadline : Z) :
  forall s,
    no_timeout_due deadline s ->
    let s' := run_timers fuel deadline s in
    isIdle s' = isIdle s
    /\ (exists n, emitted s' = emitted s ++ repeat (EWarning 60) n)
    /\ (negb (isIdle s) && isRunning s = false -> emitted s' = emitted s).
Proof.
  induction fuel as [|f IH]; intros s Hq; simpl.
  - split; [reflexivity|]. split; [exists 0%nat; simpl; now rewrite app_nil_r|auto].
  - destruct (earliest (pending s)) as [t|] eqn:Et;
      [|split; [reflexivity|]; split; [exists 0%nat; simpl; now rewrite app_nil_r|auto]].
    destruct (due t <=? deadline) eqn:Hd;
      [|split; [reflexivity|]; split; [exists 0%nat; simpl; now rewrite app_nil_r|auto]].
    apply Z.leb_le in Hd. apply earliest_min in Et as [Hin _].
    assert (cb t = CbWarning) as Hw.
    { unfold no_timeout_due in Hq. rewrite List.Forall_forall in Hq.
      specialize (Hq t Hin). destruct (cb t); [reflexivity|].
      specialize (Hq eq_refl). lia. }
    assert (no_timeout_due deadline (fire t s)) as Hq'.
    { unfold no_timeout_due in *. rewrite List.Forall_forall in *.
      intros u Hu. destruct (fire_frame t s) as (_&_&_&_&_&_&_&F8&_).
      rewrite F8 in Hu. apply filter_In in Hu as [Hu _]. now apply Hq. }
    specialize (IH (fire t s) Hq'). simpl in IH.
    destruct IH as (I1 & [n I2] & I3).
    assert (isRunning (fire t s) = isRunning s) as Hr by apply fire_frame.
    unfold fire in I1, I2, I3 |- *. rewrite Hw in *.
    unfold run_callback in *. cbn [isIdle isRunning set_now clearTimeout set_queue] in *.
    destruct (negb (isIdle s) && isRunning s) eqn:Hg.
    + cbn [isIdle isRunning emit emitted set_now clearTimeout set_queue] in *.
      split; [exact I1|]. split; [|discriminate].
      exists (S n). rewrite I2. rewrite <- app_assoc. reflexivity.
    + cbn [isIdle isRunning emit emitted set_now clearTimeout set_queue] in *.
      split; [exact I1|]. split; [now exists n|].
      intros _. apply I3. exact Hg.
Qed.

Lemma fire_trace (t : Timer) (s : State) :
  exists l, emitted (fire t s) = emitted s ++ l.
Proof.
  unfold fire, run_callback, triggerIdle. destruct (cb t); simpl.
  - destruct (negb (isIdle s) && isRunning s); simpl;
      [now exists [EWarning 60]|exists []; now rewrite app_nil_r].
  - destruct (isIdle s); simpl;
      [exists []; now rewrite app_nil_r|eauto].
Qed.

Lemma run_timers_trace (fuel : nat) (deadline : Z) :
  forall s, exists l, emitted (run_timers fuel deadline s) = emitted s ++ l.
Proof.
  induction fuel as [|f IH]; intros s; simpl.
  - exists []; now rewrite app_nil_r.
  - destruct (earliest (pending s)) as [t|]; [|exists []; now rewrite app_nil_r].
    destruct (due t <=? deadline); [|exists []; now rewrite app_nil_r].
    destruct (IH (fire t s)) as [l Hl]. destruct (fire_trace t s) as [l0 Hl0].
    exists (l0 ++ l). now rewrite Hl, Hl0, app_assoc.
Qed.

(** With enough rounds, a pending idle timeout that is due does fire:
    the object ends up idle, and [idle] is emitted if it was not idle. *)
Lemma run_timers_fires_timeout (fuel : nat) (deadline : Z) :
  forall s t,
    tracked s ->
    (length (pending s) <= fuel)%nat ->
    In t (pending s) -> cb t = CbTimeout -> due t <= deadline ->
    let s' := run_timers fuel deadline s in
    isIdle s' = true
    /\ (isIdle s = false ->
        In (EIdle (lastActivity s) (idleTimeoutMinutes (config s))) (emitted s')).
Proof.
  induction fuel as [|f IH]; intros s t Htr Hlen Hin Hcb Hdue; simpl.
  - destruct (pending s); [destruct Hin|simpl in Hlen; lia].
  - destruct (earliest (pending s)) as [u|] eqn:Eu;
      [|apply earliest_None in Eu; rewrite Eu in Hin; destruct Hin].
    apply earliest_min in Eu as [Hu Hmin].
    rewrite List.Forall_forall in Hmin. pose proof (Hmin t Hin) as Hle.
    replace (due u <=? deadline) with true by (symmetry; apply Z.leb_le; lia).
    assert (timer s = Some (tid t)) as Ht.
    { unfold tracked in Htr. rewrite List.Forall_forall in Htr.
      now apply (Htr t Hin). }
    destruct (fire_frame u s) as (F1 & F2 & F3 & F4 & F5 & F6 & F7 & F8 & _).
    destruct (Pos.eqb (tid u) (tid t)) eqn:Eid.
    + apply Pos.eqb_eq in Eid.
      assert (cb u = CbTimeout) as Hcu.
      { unfold tracked in Htr. rewrite List.Forall_forall in Htr.
        apply (Htr u Hu). now rewrite Eid. }
      pose proof (run_timers_frame f deadline (fire u s)) as Hf. simpl in Hf.
      destruct (run_timers_trace f deadline (fire u s)) as [l Hl].
      assert (isIdle (fire u s) = true) as Hi.
      { unfold fire, run_callback, triggerIdle. rewrite Hcu. simpl.
        destruct (isIdle s) eqn:E; simpl; [exact E|reflexivity]. }
      split; [now apply Hf|].
      intros Hn. rewrite Hl. apply in_or_app. left.
      unfold fire, run_callback, triggerIdle. rewrite Hcu. simpl.
      rewrite Hn. simpl. apply in_or_app. right. now left.
    + assert (cb u = CbWarning) as Hcu.
      { destruct (cb u) eqn:E; [reflexivity|].
        unfold tracked in Htr. rewrite List.Forall_forall in Htr.
        assert (timer s = Some (tid u)) as Hx by now apply (Htr u Hu).
        rewrite Ht in Hx. inversion Hx as [Hy]. rewrite Hy, Pos.eqb_refl in Eid.
        discriminate. }
      assert (In t (pending (fire u s))) as Hin'.
      { rewrite F8. apply filter_In. split; [exact Hin|].
        rewrite Pos.eqb_sym, Eid. reflexivity. }
      assert (length (pending (fire u s)) <= f)%nat as Hlen'.
      { rewrite F8.
        pose proof (filter_length_lt
                      (fun v => negb (Pos.eqb (tid v) (tid u))) (pending s) u Hu) as Hl.
        cbv beta in Hl. rewrite Pos.eqb_refl in Hl. specialize (Hl eq_refl). lia. }
      destruct (IH (fire u s) t (tracked_fire u s Htr) Hlen' Hin' Hcb Hdue)
        as [I1 I2].
      split; [exact I1|]. intros Hn.
      assert (isIdle (fire u s) = false) as Hi.
      { unfold fire, run_callback. rewrite Hcu. simpl.
        destruct (negb (isIdle s) && isRunning s); simpl; exact Hn. }
      specialize (I2 Hi). now rewrite F1, F3 in I2.
Qed.

Lemma advance_warnings_only (dt : Z) (s : State) :
  no_timeout_due (now s + Z.max 0 dt) s ->
  isIdle (advance dt s) = isIdle s
  /\ (exists n, emitted (advance dt s) = emitted s ++ repeat (EWarning 60) n)
  /\ (negb (isIdle s) && isRunning s = false ->
      emitted (advance dt s) = emitted s).
Proof.
  intros H. unfold advance. simpl.
  exact (run_timers_warnings_only (length (pending s)) _ s H).
Qed.

Lemma advance_fires_timeout (dt : Z) (s : State) (t : Timer) :
  tracked s ->
  In t (pending s) -> cb t = CbTimeout -> due t <= now s + Z.max 0 dt ->
  isIdle (advance dt s) = true
  /\ (isIdle s = false ->
      In (EIdle (lastActivity s) (idleTimeoutMinutes (config s)))
         (emitted (advance dt s))).
Proof.
  intros Htr Hin Hcb Hdue. unfold advance. simpl.
  exact (run_timers_fires_timeout (length (pending s)) _ s t Htr
           (le_n _) Hin Hcb Hdue).
Qed.

(** The rounds that [advance] allows are enough: what is still pending
    afterwards is due later. *)
Lemma run_timers_complete (fuel : nat) (deadline : Z) :
  forall s,
    (length (pending s) <= fuel)%nat ->
    List.Forall (fun t => deadline < due t)
                (pending (run_timers fuel deadline s)).
Proof.
  induction fuel as [|f IH]; intros s Hlen; cbn [run_timers].
  - destruct (pending s); [constructor|cbn in Hlen; lia].
  - destruct (earliest (pending s)) as [t|] eqn:Et.
    + destruct (earliest_min _ _ Et) as [Hin Hmin].
      destruct (due t <=? deadline) eqn:Hd.
      * apply IH. destruct (fire_frame t s) as (_ & _ & _ & _ & _ & _ & _ & Hq & _).
        rewrite Hq.
        pose proof (filter_length_lt (fun u => negb (Pos.eqb (tid u) (tid t)))
                      (pending s) t Hin) as Hlt.
        cbn beta in Hlt. rewrite Pos.eqb_refl in Hlt.
        specialize (Hlt eq_refl). lia.
      * apply Z.leb_gt in Hd. eapply List.Forall_impl; [|exact Hmin].
        cbn beta. intros u Hu. lia.
    + apply earliest_None in Et. rewrite Et. constructor.
Qed.

Lemma advance_complete (dt : Z) (s : State) :
  List.Forall (fun t => now (advance dt s) < due t) (pending (advance dt s)).
Proof.
  unfold advance. cbn [now pending set_now].
  apply run_timers_complete, le_n.
Qed.

(** *** Activity signals (C7) *)

Lemma handleActivity_throttled (s : State) :
  now s - lastActivity s < activityThrottleMs (config s) ->
  handleActivity s = s.
Proof.
  intros H. unfold handleActivity.
  now replace (_ <? _) with true by (symmetry; apply Z.ltb_lt; lia).
Qed.

Lemma handleActivity_passed (s : State) :
  activityThrottleMs (config s) <= now s - lastActivity s ->
  handleActivity s =
  {| config := config s; timer := Some (armed_id s);
     lastActivity := now s; isIdle := false;
     isRunning := isRunning s; now := now s;
     nextTimerId := Pos.succ (armed_id s);
     pending := surviving s ++ armed s;
     listening := listening s; hidden := hidden s;
     emitted := emitted s ++ (if isIdle s then [EActive] else []) |}.
Proof.
  intros H. unfold handleActivity.
  replace (_ <? _) with false by (symmetry; apply Z.ltb_ge; lia).
  rewrite resetTimer_eq. cbn [isIdle set_lastActivity].
  destruct (isIdle s) eqn:Ei; simpl; rewrite ?Ei, ?app_nil_r; reflexivity.
Qed.

(** C7.  The throttle is 1000 ms unless configured.  An activity signal
    that arrives less than [activityThrottleMs] after [lastActivity]
    leaves the whole state as it is: no field changes, no timer is
    cancelled or scheduled, nothing is emitted; this is so for a second
    signal that follows an accepted one by less than the throttle.  A
    signal that passes sets [lastActivity] to the current time, clears
    the idle flag, emits [active] exactly when the object was idle, and
    re-arms the timer: the old timeout is cancelled and a new one is
    pending, due [timeoutMs] from now, with its handle in [this.timer]. *)
Theorem C7_activity_throttle :
  forall s : State,
    (forall t0,
        activityThrottleMs
          (config (constructor
                     {| p_idleTimeoutMinutes := None; p_activityEvents := None;
                        p_activityThrottleMs := None; p_debug := None |} t0))
        = 1000)
    /\ (now s - lastActivity s < activityThrottleMs (config s) ->
        handleActivity s = s)
    /\ (activityThrottleMs (config s) <= now s - lastActivity s ->
        let s' := handleActivity s in
        lastActivity s' = now s
        /\ isIdle s' = false
        /\ emitted s' = emitted s ++ (if isIdle s then [EActive] else [])
        /\ isRunning s' = isRunning s
        /\ timer s' = Some (armed_id s)
        /\ pending s' = surviving s ++ armed s
        /\ In {| tid := armed_id s; due := now s + Z.max 0 (timeoutMs s);
                 cb := CbTimeout |} (pending s')
        /\ (forall dt, 0 <= dt < activityThrottleMs (config s) ->
            listening s = true ->
            dom_activity (advance dt s') = advance dt s')).
Proof.
  intros s. split; [reflexivity|]. split; [apply handleActivity_throttled|].
  intros H. cbv zeta. rewrite (handleActivity_passed s H).
  repeat split; try reflexivity.
  - cbn [pending]. apply in_or_app. right. unfold armed, armed_id.
    destruct (0 <? warningMs s); simpl; auto.
  - intros dt Hdt Hl. unfold dom_activity.
    match goal with |- context [advance dt ?x] => set (s1 := x) end.
    destruct (advance_frame dt s1) as (A1 & _ & A3 & _ & A5 & A6 & _).
    rewrite A5. replace (listening s1) with true by (symmetry; exact Hl).
    apply handleActivity_throttled. rewrite A1, A3, A6.
    subst s1. cbn [config lastActivity now]. lia.
Qed.

(** A monitor that has been started and then sees activity 1.5 s later. *)
Lemma C7_activity_throttle_witness :
  let s := run [OStart; OAdvance 1500]
             (constructor {| p_idleTimeoutMinutes := Some 2; p_activityEvents := None;
                             p_activityThrottleMs := None; p_debug := None |} 0) in
  lastActivity (handleActivity s) = 1500
  /\ dom_activity (advance 10 (handleActivity s)) = advance 10 (handleActivity s).
Proof.
  intros s.
  assert (activityThrottleMs (config s) <= now s - lastActivity s) as H
    by (vm_compute; discriminate).
  destruct (C7_activity_throttle s) as (_ & _ & Hp).
  destruct (Hp H) as (H1 & _ & _ & _ & _ & _ & _ & H8).
  split; [exact H1|]. apply H8; [vm_compute; split; discriminate || reflexivity|reflexivity].
Defined.

(** *** Stopping (C8) *)

(** A stopped object whose queue holds warnings only. *)
Definition silent (s : State) : Prop :=
  isRunning s = false /\ List.Forall (fun t => cb t = CbWarning) (pending s).

Lemma silent_no_timeout_due (deadline : Z) (s : State) :
  silent s -> no_timeout_due deadline s.
Proof.
  intros [_ H]. unfold no_timeout_due.
  eapply List.Forall_impl; [|exact H]. simpl. intros t Hw Ht.
  rewrite Hw in Ht. discriminate.
Qed.

Lemma silent_advance (dt : Z) (s : State) :
  silent s ->
  silent (advance dt s)
  /\ emitted (advance dt s) = emitted s
  /\ isIdle (advance dt s) = isIdle s.
Proof.
  intros Hs. pose proof Hs as [Hr Hq].
  destruct (advance_frame dt s) as (_ & _ & _ & A4 & _ & _ & A7).
  destruct (advance_warnings_only dt s (silent_no_timeout_due _ s Hs))
    as (W1 & _ & W3).
  split; [|split; [|exact W1]].
  - split; [congruence|].
    rewrite List.Forall_forall in *. intros t Ht. apply Hq. now apply A7.
  - apply W3. rewrite Hr. apply andb_false_r.
Qed.

Lemma silent_waits (waits : list Z) :
  forall s,
    silent s ->
    emitted (run (List.map OAdvance waits) s) = emitted s
    /\ isIdle (run (List.map OAdvance waits) s) = isIdle s.
Proof.
  induction waits as [|dt waits IH]; intros s Hs; simpl; [tauto|].
  destruct (silent_advance dt s Hs) as (S1 & S2 & S3).
  destruct (IH _ S1) as [I1 I2]. split; congruence.
Qed.

Lemma stop_not_running (s : State) : isRunning (stop s) = false.
Proof.
  unfold stop. destruct (isRunning s) eqn:Er; simpl; [|exact Er].
  destruct (timer s); reflexivity.
Qed.

Lemma stop_idempotent (s : State) : stop (stop s) = stop s.
Proof.
  pose proof (stop_not_running s) as H.
  generalize dependent (stop s). intros x Hx. unfold stop. now rewrite Hx.
Qed.

Lemma stop_frame (s : State) :
  isIdle (stop s) = isIdle s /\ lastActivity (stop s) = lastActivity s
  /\ emitted (stop s) = emitted s /\ config (stop s) = config s
  /\ now (stop s) = now s.
Proof.
  unfold stop. destruct (negb (isRunning s)); [tauto|].
  simpl. destruct (timer s); simpl; tauto.
Qed.

Lemma stop_silent (s : State) :
  tracked s -> isRunning s = true ->
  silent (stop s) /\ timer (stop s) = None.
Proof.
  intros Htr Hr. pose proof (surviving_warnings s Htr) as Hs.
  unfold surviving in Hs. unfold stop, silent. rewrite Hr. simpl.
  destruct (timer s) as [id|] eqn:Et; simpl; rewrite ?Et;
    (split; [split; [reflexivity|]|reflexivity]);
    (eapply List.Forall_impl; [|exact Hs]); simpl; tauto.
Qed.

(** C8.  Take any history of calls and host events since construction
    that leaves the monitor running, and call [stop].  Then [stop] has
    cleared [this.timer] and no idle timeout is left in the host's queue;
    the idle flag, [lastActivity] and the trace are what they were; and
    however much time passes afterwards, in any number of steps, nothing
    is emitted (so no [idle]) and the idle flag does not change.  A second
    [stop] changes nothing, on any state. *)
Theorem C8_stop_suppresses_idle :
  forall (c : PartialConfig) (t0 : Z) (history : list op) (waits : list Z),
    let s := run history (constructor c t0) in
    isRunning s = true ->
    let s' := run (List.map OAdvance waits) (stop s) in
    emitted s' = emitted s
    /\ ~ (exists a b, In (EIdle a b) (emitted s') /\ ~ In (EIdle a b) (emitted s))
    /\ isIdle s' = isIdle s
    /\ isRunning (stop s) = false
    /\ timer (stop s) = None
    /\ List.Forall (fun t => cb t <> CbTimeout) (pending (stop s))
    /\ isIdle (stop s) = isIdle s
    /\ lastActivity (stop s) = lastActivity s
    /\ (forall x : State, stop (stop x) = stop x).
Proof.
  intros c t0 history waits s Hr s'.
  assert (tracked s) as Htr by (apply tracked_run, tracked_constructor).
  destruct (stop_silent s Htr Hr) as [Hsil Ht].
  destruct (stop_frame s) as (F1 & F2 & F3 & _).
  destruct (silent_waits waits (stop s) Hsil) as [W1 W2].
  fold s' in W1, W2.
  assert (emitted s' = emitted s) as He by congruence.
  split; [exact He|]. split.
  { intros (a & b & Hin & Hnot). rewrite He in Hin. contradiction. }
  split; [congruence|]. split; [apply Hsil|]. split; [exact Ht|].
  split.
  { destruct Hsil as [_ Hq]. eapply List.Forall_impl; [|exact Hq].
    simpl. intros t Hw. rewrite Hw. discriminate. }
  split; [exact F1|]. split; [exact F2|]. apply stop_idempotent.
Qed.

(** One-minute timeout: start, wait half a minute, stop, wait an hour. *)
Lemma C8_stop_suppresses_idle_witness :
  let c := {| p_idleTimeoutMinutes := Some 1; p_activityEvents := None;
              p_activityThrottleMs := None; p_debug := None |} in
  let s := run [OStart; OAdvance 30000] (constructor c 0) in
  isRunning s = true
  /\ emitted (run [OAdvance 60000; OAdvance 3540000] (stop s)) = emitted s
  /\ isIdle (run [OAdvance 60000; OAdvance 3540000] (stop s)) = false.
Proof.
  intros c s.
  assert (isRunning s = true) as Hr by reflexivity.
  split; [exact Hr|].
  destruct (C8_stop_suppresses_idle c 0 [OStart; OAdvance 30000]
              [60000; 3540000] Hr) as (H1 & _ & H3 & _).
  split; [exact H1|]. etransitivity; [exact H3|reflexivity].
Defined.

(** *** Who writes [lastActivity] (C10) *)

Lemma start_eq (s : State) :
  isRunning s = false ->
  start s =
  {| config := config s; timer := Some (armed_id s);
     lastActivity := lastActivity s; isIdle := isIdle s;
     isRunning := true; now := now s;
     nextTimerId := Pos.succ (armed_id s);
     pending := surviving s ++ armed s;
     listening := true; hidden := hidden s; emitted := emitted s |}.
Proof. intros H. unfold start. rewrite H. now rewrite resetTimer_eq. Qed.

Lemma start_lastActivity (s : State) : lastActivity (start s) = lastActivity s.
Proof.
  unfold start. destruct (isRunning s); [reflexivity|].
  now rewrite resetTimer_eq.
Qed.

Lemma triggerIdle_lastActivity (s : State) :
  lastActivity (triggerIdle s) = lastActivity s.
Proof. unfold triggerIdle. now destruct (isIdle s). Qed.

Lemma step_lastActivity (o : op) (s : State) :
  lastActivity (step o s) = lastActivity s
  \/ (lastActivity (step o s) = now s
      /\ (o = OReset
          \/ ((o = OActivity \/ o = OVisibility false)
              /\ listening s = true
              /\ activityThrottleMs (config s) <= now s - lastActivity s))).
Proof.
  destruct o as [| | | |h|dt]; cbn [step].
  - left. apply start_lastActivity.
  - left. apply stop_frame.
  - right. split; [|now left]. unfold reset. rewrite resetTimer_eq.
    cbn [lastActivity isIdle set_lastActivity]. destruct (isIdle s); reflexivity.
  - unfold dom_activity. destruct (listening s) eqn:El; [|now left].
    destruct (Z.lt_ge_cases (now s - lastActivity s) (activityThrottleMs (config s)))
      as [Hlt|Hge].
    + left. now rewrite handleActivity_throttled.
    + right. rewrite (handleActivity_passed s Hge). simpl. tauto.
  - unfold dom_visibility. cbn [listening set_hidden].
    destruct (listening s) eqn:El; [|now left].
    unfold handleVisibilityChange. cbn [hidden set_hidden].
    destruct h; cbn [negb]; [now left|].
    destruct (_ && _); [left; now rewrite triggerIdle_lastActivity|].
    match goal with |- context [handleActivity ?x] => set (s1 := x) end.
    destruct (Z.lt_ge_cases (now s1 - lastActivity s1) (activityThrottleMs (config s1)))
      as [Hlt|Hge].
    + left. now rewrite handleActivity_throttled.
    + right. rewrite (handleActivity_passed s1 Hge). subst s1. simpl in *. tauto.
  - left. apply advance_frame.
Qed.

Lemma not_in_warnings (a b : Z) (n : nat) : ~ In (EIdle a b) (repeat (EWarning 60) n).
Proof. intros H. apply repeat_spec in H. discriminate. Qed.

(** C10.  Over any history since construction: the constructor sets
    [lastActivity] to the current time; [start] leaves it alone; a step
    changes it only to the current time, and only if the step is [reset],
    or an activity event or a return to the foreground that reaches the
    listening object no sooner than the throttle after [lastActivity].
    Hence, when [start] is called on a stopped monitor whose
    [lastActivity] lies more than the timeout back, [getTimeRemaining]
    is 0 right after it, although the idle timeout has just been
    scheduled a full timeout ahead: no [idle] is emitted and the idle
    flag does not change before that much time has passed, and once it
    has, the monitor is idle.  The timeout is one that the host's
    [setTimeout] takes as it is, at most 2147483647 ms. *)
Theorem C10_start_keeps_lastActivity :
  forall (c : PartialConfig) (t0 : Z) (history : list op),
    let s := run history (constructor c t0) in
    lastActivity (constructor c t0) = t0
    /\ lastActivity (start s) = lastActivity s
    /\ (forall o : op,
          lastActivity (step o s) = lastActivity s
          \/ (lastActivity (step o s) = now s
              /\ (o = OReset
                  \/ ((o = OActivity \/ o = OVisibility false)
                      /\ listening s = true
                      /\ activityThrottleMs (config s) <= now s - lastActivity s))))
    /\ (isRunning s = false ->
        0 <= timeoutMs s <= 2147483647 ->
        timeoutMs s < now s - lastActivity s ->
        getTimeRemaining (start s) = 0
        /\ timer (start s) = Some (armed_id s)
        /\ In {| tid := armed_id s; due := now s + timeoutMs s; cb := CbTimeout |}
              (pending (start s))
        /\ (forall dt, 0 <= dt < timeoutMs s ->
              isIdle (advance dt (start s)) = isIdle s
              /\ ~ (exists a b, In (EIdle a b) (emitted (advance dt (start s)))
                                /\ ~ In (EIdle a b) (emitted s)))
        /\ isIdle (advance (timeoutMs s) (start s)) = true
        /\ (isIdle s = false ->
            In (EIdle (lastActivity s) (idleTimeoutMinutes (config s)))
               (emitted (advance (timeoutMs s) (start s))))).
Proof.
  intros c t0 history s.
  assert (tracked s) as Htr by (apply tracked_run, tracked_constructor).
  split; [reflexivity|]. split; [apply start_lastActivity|].
  split; [intros o; apply step_lastActivity|].
  intros Hr [Hpos _] Hold.
  assert (tracked (start s)) as Htr' by (apply (tracked_step OStart); exact Htr).
  pose proof (start_eq s Hr) as Hs.
  set (t := {| tid := armed_id s; due := now s + timeoutMs s; cb := CbTimeout |}).
  assert (In t (pending (start s))) as Hin.
  { rewrite Hs. cbn [pending]. apply in_or_app. right.
    unfold t, armed, armed_id. rewrite (Z.max_r 0 (timeoutMs s)) by lia.
    destruct (0 <? warningMs s); [right; left|left]; reflexivity. }
  split.
  { rewrite Hs. unfold getTimeRemaining, timeoutMs in *. cbn. lia. }
  split; [now rewrite Hs|]. split; [exact Hin|]. split.
  - intros dt Hdt.
    assert (no_timeout_due (now (start s) + Z.max 0 dt) (start s)) as Hq.
    { unfold no_timeout_due. rewrite Hs. cbn [pending now].
      apply Forall_app. split.
      - eapply List.Forall_impl; [|exact (surviving_warnings s Htr)].
        simpl. intros u [_ Hw] Hu. rewrite Hw in Hu. discriminate.
      - unfold armed. destruct (0 <? warningMs s);
          repeat constructor; cbn [cb due]; intros E; try discriminate E; lia. }
    destruct (advance_warnings_only dt (start s) Hq) as (W1 & [n W2] & _).
    split; [rewrite W1; now rewrite Hs|].
    intros (a & b & Ha & Hb). rewrite W2 in Ha.
    apply in_app_or in Ha as [Ha|Ha].
    + apply Hb. now rewrite Hs in Ha.
    + now apply not_in_warnings in Ha.
  - assert (due t <= now (start s) + Z.max 0 (timeoutMs s)) as Hdue.
    { rewrite Hs. cbn [now due t]. lia. }
    destruct (advance_fires_timeout (timeoutMs s) (start s) t Htr' Hin eq_refl Hdue)
      as [F1 F2].
    split; [exact F1|]. intros Hi.
    rewrite Hs in F2 at 1 2 3. cbn [isIdle lastActivity config] in F2.
    now apply F2.
Qed.

(** One-minute timeout: built at time 0, started two minutes later. *)
Lemma C10_start_keeps_lastActivity_witness :
  let c := {| p_idleTimeoutMinutes := Some 1; p_activityEvents := None;
              p_activityThrottleMs := None; p_debug := None |} in
  let s := run [OAdvance 120000] (constructor c 0) in
  getTimeRemaining (start s) = 0
  /\ In {| tid := 1%positive; due := 180000; cb := CbTimeout |} (pending (start s))
  /\ isIdle (advance 59999 (start s)) = false
  /\ isIdle (advance 60000 (start s)) = true.
Proof.
  intros c s.
  destruct (C10_start_keeps_lastActivity c 0 [OAdvance 120000])
    as (_ & _ & _ & H).
  assert (isRunning s = false) as H1 by reflexivity.
  assert (0 <= timeoutMs s <= 2147483647) as H2
    by (vm_compute; split; discriminate).
  assert (timeoutMs s < now s - lastActivity s) as H3 by reflexivity.
  destruct (H H1 H2 H3) as (G1 & _ & G3 & G4 & G5 & _).
  split; [exact G1|]. split; [exact G3|].
  split; [|exact G5].
  destruct (G4 59999) as [G _]; [vm_compute; split; [discriminate|reflexivity]|].
  exact G.
Defined.

(** *** Returning to the foreground (C2) *)

Definition defaults : PartialConfig :=
  {| p_idleTimeoutMinutes := None; p_activityEvents := None;
     p_activityThrottleMs := None; p_debug := None |}.

(** C2, as stated, fails.  Default configuration, started at time 0; the
    tab is shown again half a second later, well inside the 15 minute
    timeout.  The handler goes through [handleActivity], whose throttle
    test succeeds: [lastActivity] stays 0 instead of becoming 500, and
    the timer is not re-armed. *)
Lemma C2_counterexample :
  let s := run [OStart; OAdvance 500] (constructor defaults 0) in
  let s' := dom_visibility false s in
  listening s = true
  /\ now s - lastActivity s <= timeoutMs s
  /\ now s - lastActivity s < activityThrottleMs (config s)
  /\ lastActivity s' <> now s
  /\ timer s' = timer s /\ pending s' = pending s.
Proof. vm_compute. repeat split; discriminate. Qed.

(** C2, amended.  When [visibilitychange] is handled, the event
    [visibility-change] is emitted with the current [document.hidden];
    nothing else happens if the document is hidden.  If it is visible:
    when at least the timeout has elapsed since [lastActivity] and the
    monitor is not idle, it becomes idle at once and [idle] is emitted,
    with [lastActivity] and the timers untouched; otherwise the ordinary
    activity handler runs, throttle included: below the throttle nothing
    more happens, from the throttle on [lastActivity] becomes the
    current time, the idle flag is cleared (with [active] emitted if it
    was set) and the timer is re-armed. *)
Theorem C2_visibility_change :
  forall s : State,
    let elapsed := now s - lastActivity s in
    let shown := emit (EVisibilityChange (hidden s)) s in
    (hidden s = true -> handleVisibilityChange s = shown)
    /\ (hidden s = false ->
        timeoutMs s <= elapsed -> isIdle s = false ->
        handleVisibilityChange s =
          emit (EIdle (lastActivity s) (idleTimeoutMinutes (config s)))
               (set_isIdle true shown))
    /\ (hidden s = false ->
        elapsed < timeoutMs s \/ isIdle s = true ->
        handleVisibilityChange s = handleActivity shown
        /\ (elapsed < activityThrottleMs (config s) ->
            handleVisibilityChange s = shown)
        /\ (activityThrottleMs (config s) <= elapsed ->
            lastActivity (handleVisibilityChange s) = now s
            /\ isIdle (handleVisibilityChange s) = false
            /\ timer (handleVisibilityChange s) = Some (armed_id s)
            /\ pending (handleVisibilityChange s) = surviving s ++ armed s
            /\ emitted (handleVisibilityChange s) =
                 emitted s ++ [EVisibilityChange false]
                           ++ (if isIdle s then [EActive] else []))).
Proof.
  intros s elapsed shown. unfold handleVisibilityChange. fold shown.
  split; [intros ->; reflexivity|]. split.
  - intros -> Hto Hi. cbn [negb].
    replace (timeoutMs shown <=? now shown - lastActivity shown) with true
      by (symmetry; apply Z.leb_le; exact Hto).
    replace (isIdle shown) with false by (symmetry; exact Hi).
    cbn [negb andb]. unfold triggerIdle.
    replace (isIdle shown) with false by (symmetry; exact Hi). reflexivity.
  - intros Hh Hcase. rewrite Hh. cbn [negb].
    assert ((timeoutMs shown <=? now shown - lastActivity shown)
            && negb (isIdle shown) = false) as Hg.
    { destruct Hcase as [Hlt|Hi].
      - replace (timeoutMs shown <=? now shown - lastActivity shown) with false
          by (symmetry; apply Z.leb_gt; exact Hlt). reflexivity.
      - replace (isIdle shown) with true by (symmetry; exact Hi).
        apply andb_false_r. }
    rewrite Hg. split; [reflexivity|]. split.
    + intros Hthr. now apply handleActivity_throttled.
    + intros Hthr. rewrite (handleActivity_passed shown) by exact Hthr.
      cbn. rewrite Hh, <- app_assoc. repeat split; reflexivity.
Qed.

(** Two-minute timeout; the tab returns after three minutes, and, in a
    second run, after two seconds. *)
Lemma C2_visibility_change_witness :
  let c := {| p_idleTimeoutMinutes := Some 2; p_activityEvents := None;
              p_activityThrottleMs := None; p_debug := None |} in
  let late := set_now 180000 (run [OStart] (constructor c 0)) in
  let soon := set_now 2000 (run [OStart] (constructor c 0)) in
  isIdle (handleVisibilityChange late) = true
  /\ lastActivity (handleVisibilityChange soon) = 2000.
Proof.
  intros c late soon. split.
  - destruct (C2_visibility_change late) as (_ & H & _).
    rewrite H; [reflexivity|reflexivity|vm_compute; discriminate|reflexivity].
  - destruct (C2_visibility_change soon) as (_ & _ & H).
    destruct (H eq_refl (or_introl eq_refl)) as (_ & _ & H3).
    apply H3. vm_compute. discriminate.
Defined.

(** *** Arming the timer (C6) *)

Lemma warning_survives (s : State) (t : Timer) :
  tracked s -> In t (pending s) -> cb t = CbWarning -> In t (surviving s).
Proof.
  intros Htr Hin Hw. unfold surviving.
  destruct (timer s) as [id|] eqn:Et; [|exact Hin].
  apply filter_In. split; [exact Hin|].
  destruct (Pos.eqb (tid t) id) eqn:E; [|reflexivity].
  apply Pos.eqb_eq in E. subst id.
  unfold tracked in Htr. rewrite List.Forall_forall in Htr.
  destruct (Htr t Hin) as [_ [_ H]]. specialize (H Et).
  rewrite Hw in H. discriminate.
Qed.

Lemma timeout_cancelled (s : State) (t : Timer) :
  tracked s -> In t (pending s) -> cb t = CbTimeout ->
  ~ In t (surviving s ++ armed s).
Proof.
  intros Htr Hin Hc H. apply in_app_or in H as [H|H].
  - pose proof (surviving_warnings s Htr) as Hs.
    rewrite List.Forall_forall in Hs. destruct (Hs t H) as [_ Hw].
    rewrite Hw in Hc. discriminate.
  - unfold tracked in Htr. rewrite List.Forall_forall in Htr.
    destruct (Htr t Hin) as [Hlt _].
    unfold armed in H. destruct (0 <? warningMs s); simpl in H;
      repeat (destruct H as [H|H]; [subst t; simpl in Hlt; lia|]);
      destruct H.
Qed.

(** When some timer is due, the monitor runs and is not idle, and no idle
    timeout comes due, at least one warning is emitted. *)
Lemma run_timers_warns (fuel : nat) (deadline : Z) (s : State) (t : Timer) :
  (length (pending s) <= fuel)%nat ->
  no_timeout_due deadline s ->
  In t (pending s) -> due t <= deadline ->
  isIdle s = false -> isRunning s = true ->
  let s' := run_timers fuel deadline s in
  isIdle s' = false
  /\ exists n, emitted s' = emitted s ++ repeat (EWarning 60) (S n).
Proof.
  intros Hlen Hq Hin Hdue Hi Hr.
  destruct fuel as [|f]; simpl.
  { destruct (pending s); [destruct Hin|simpl in Hlen; lia]. }
  destruct (earliest (pending s)) as [u|] eqn:Eu;
    [|apply earliest_None in Eu; rewrite Eu in Hin; destruct Hin].
  apply earliest_min in Eu as [Hu Hmin].
  rewrite List.Forall_forall in Hmin. pose proof (Hmin t Hin) as Hle.
  replace (due u <=? deadline) with true by (symmetry; apply Z.leb_le; lia).
  assert (cb u = CbWarning) as Hw.
  { unfold no_timeout_due in Hq. rewrite List.Forall_forall in Hq.
    specialize (Hq u Hu). destruct (cb u); [reflexivity|].
    specialize (Hq eq_refl). lia. }
  assert (no_timeout_due deadline (fire u s)) as Hq'.
  { unfold no_timeout_due in *. rewrite List.Forall_forall in *.
    intros v Hv. destruct (fire_frame u s) as (_&_&_&_&_&_&_&F8&_).
    rewrite F8 in Hv. apply filter_In in Hv as [Hv _]. now apply Hq. }
  destruct (run_timers_warnings_only f deadline (fire u s) Hq')
    as (W1 & [n W2] & _).
  assert (isIdle (fire u s) = false /\ emitted (fire u s) = emitted s ++ [EWarning 60])
    as [Fi Fe].
  { unfold fire, run_callback. rewrite Hw. simpl. rewrite Hi, Hr. simpl. tauto. }
  split; [congruence|]. exists n. rewrite W2, Fe, <- app_assoc. reflexivity.
Qed.

(** C6.  Over any history since construction, a call of [resetTimer]
    appends to the host's queue, when [timeoutMs - 60000] is positive, a
    warning due that long from now followed by the idle timeout due
    [timeoutMs] from now, and the idle timeout alone otherwise.  The
    warning, when it fires on a running monitor that is not idle, emits
    [warning] with 60 seconds remaining (and does nothing when the
    monitor is idle or stopped).  The idle timeout that was pending
    before the call is no longer pending after it, but every pending
    warning still is.  So a warning that was pending when an activity
    signal re-armed the timer fires all the same at its own due time,
    when [lastActivity] is the time of that signal and the monitor is
    not idle.  The timeout is one that the host's [setTimeout] takes as
    it is, from -2147483648 to 2147483647 ms. *)
Theorem C6_warning_delay :
  forall (c : PartialConfig) (t0 : Z) (history : list op),
    let s := run history (constructor c t0) in
    - 2147483648 <= timeoutMs s <= 2147483647 ->
    (0 < timeoutMs s - 60000 ->
       pending (resetTimer s) =
         surviving s ++
         [ {| tid := nextTimerId s; due := now s + (timeoutMs s - 60000);
              cb := CbWarning |};
           {| tid := Pos.succ (nextTimerId s); due := now s + timeoutMs s;
              cb := CbTimeout |} ])
    /\ (timeoutMs s - 60000 <= 0 ->
        pending (resetTimer s) =
          surviving s ++
          [ {| tid := nextTimerId s; due := now s + Z.max 0 (timeoutMs s);
               cb := CbTimeout |} ])
    /\ (forall x : State,
          (isIdle x = false -> isRunning x = true ->
           run_callback CbWarning x = emit (EWarning 60) x)
          /\ (isIdle x = true \/ isRunning x = false ->
              run_callback CbWarning x = x))
    /\ (forall t, In t (pending s) -> cb t = CbTimeout ->
                  ~ In t (pending (resetTimer s)))
    /\ (forall t, In t (pending s) -> cb t = CbWarning ->
                  In t (pending (resetTimer s)))
    /\ (forall t,
          In t (pending s) -> cb t = CbWarning ->
          isRunning s = true ->
          activityThrottleMs (config s) <= now s - lastActivity s ->
          now s <= due t < now s + timeoutMs s ->
          let s1 := handleActivity s in
          let s2 := advance (due t - now s) s1 in
          lastActivity s2 = now s
          /\ isIdle s2 = false
          /\ exists n, emitted s2 = emitted s1 ++ repeat (EWarning 60) (S n)).
Proof.
  intros c t0 history s _.
  assert (tracked s) as Htr by (apply tracked_run, tracked_constructor).
  split; [|split; [|split; [|split; [|split]]]].
  - intros Hw. rewrite resetTimer_eq. cbn [pending]. unfold armed, warningMs.
    replace (0 <? timeoutMs s - 60000) with true by (symmetry; apply Z.ltb_lt; lia).
    rewrite !Z.max_r by lia. reflexivity.
  - intros Hw. rewrite resetTimer_eq. cbn [pending]. unfold armed, warningMs.
    replace (0 <? timeoutMs s - 60000) with false by (symmetry; apply Z.ltb_ge; lia).
    reflexivity.
  - intros x. split.
    + intros Hi Hr. simpl. now rewrite Hi, Hr.
    + intros [Hi|Hr]; simpl; [now rewrite Hi|rewrite Hr; now destruct (isIdle x)].
  - intros t Hin Hc. rewrite resetTimer_eq. cbn [pending].
    now apply timeout_cancelled.
  - intros t Hin Hw. rewrite resetTimer_eq. cbn [pending].
    apply in_or_app. left. now apply warning_survives.
  - intros t Hin Hw Hr Hthr Hdue s1 s2.
    assert (s1 = handleActivity s) as Hs1 by reflexivity.
    rewrite (handleActivity_passed s Hthr) in Hs1.
    assert (In t (pending s1)) as Hin1.
    { rewrite Hs1. cbn [pending]. apply in_or_app. left.
      now apply warning_survives. }
    assert (no_timeout_due (now s1 + Z.max 0 (due t - now s)) s1) as Hq.
    { unfold no_timeout_due. rewrite Hs1. cbn [pending now].
      apply Forall_app. split.
      - eapply List.Forall_impl; [|exact (surviving_warnings s Htr)].
        simpl. intros u [_ Hu] Hv. rewrite Hu in Hv. discriminate.
      - unfold armed. destruct (0 <? warningMs s);
          repeat constructor; cbn [cb due]; intros E; try discriminate E; lia. }
    assert (due t <= now s1 + Z.max 0 (due t - now s)) as Hd
      by (rewrite Hs1; cbn [now]; lia).
    assert (isIdle s1 = false) as Hi1 by (rewrite Hs1; reflexivity).
    assert (isRunning s1 = true) as Hr1 by (rewrite Hs1; exact Hr).
    destruct (run_timers_warns (length (pending s1)) _ s1 t (le_n _)
                Hq Hin1 Hd Hi1 Hr1) as [R1 R2].
    destruct (advance_frame (due t - now s) s1) as (_ & _ & A3 & _).
    unfold s2.
    split; [rewrite A3, Hs1; reflexivity|].
    split; [exact R1|exact R2].
Qed.

(** Two-minute timeout: started at 0, activity at 30 s; the warning
    scheduled by [start] for the 60 s mark is still delivered then. *)
Lemma C6_warning_delay_witness :
  let c := {| p_idleTimeoutMinutes := Some 2; p_activityEvents := None;
              p_activityThrottleMs := None; p_debug := None |} in
  let s := run [OStart; OAdvance 30000] (constructor c 0) in
  let t := {| tid := 1%positive; due := 60000; cb := CbWarning |} in
  let s2 := advance 30000 (handleActivity s) in
  In t (pending s)
  /\ In t (pending (resetTimer s))
  /\ lastActivity s2 = 30000
  /\ getTimeRemaining s2 = 90000
  /\ emitted s2 = [EWarning 60].
Proof.
  intros c s t s2.
  assert (In t (pending s)) as Hin by (left; reflexivity).
  destruct (C6_warning_delay c 0 [OStart; OAdvance 30000])
    as (_ & _ & _ & _ & Hkeep & Hstale);
    [vm_compute; split; discriminate|].
  split; [exact Hin|]. split; [exact (Hkeep t Hin eq_refl)|].
  destruct (Hstale t Hin eq_refl eq_refl) as (H1 & _ & _).
  - vm_compute. discriminate.
  - vm_compute. split; [discriminate|reflexivity].
  - split; [exact H1|]. split; reflexivity.
Defined.

End GuardianFacts.

(* --------------------------------------------------------------------- *)
(** ** CryptoService                                                      *)
(* --------------------------------------------------------------------- *)

Section CryptoFacts.
Import Crypto.

(** *** UTF-8 *)

(** A Unicode scalar value: a code point that is not a surrogate. *)
Definition scalar (c : Z) : Prop :=
  0 <= c < 1114112 /\ ~ (55296 <= c <= 57343).

(** A string in which every surrogate is half of a pair. *)
Fixpoint well_formed (s : jsstring) : bool :=
  match s with
  | [] => true
  | u :: r =>
      if is_high u then
        match r with
        | v :: r' => is_low v && well_formed r'
        | [] => false
        end
      else negb (is_low u) && is_code_unit u && well_formed r
  end.

Ltac dec_step :=
  cbn [utf8_decode app]; unfold dstep, lead;
  cbn [bytes_needed code_point bytes_seen lower upper dinit];
  decide_cmp;
  cbn [andb orb negb app bytes_needed code_point bytes_seen lower upper dinit].

Lemma utf8_decode_scalar (c : Z) (rest : list Z) :
  scalar c ->
  utf8_decode dinit (utf8_encode_scalar c ++ rest) = c :: utf8_decode dinit rest.
Proof.
  intros [Hr Hs]. unfold utf8_encode_scalar.
  destruct (Z.ltb_spec c 128);
    [|destruct (Z.ltb_spec c 2048); [|destruct (Z.ltb_spec c 65536)]].
  - dec_step. reflexivity.
  - dec_step. dec_step. f_equal. dlia.
  - dec_step.
    destruct (Z.eqb_spec (224 + c / 4096) 224);
      destruct (Z.eqb_spec (224 + c / 4096) 237);
      try dlia; cbn [lower upper]; dec_step; dec_step; f_equal; dlia.
  - dec_step.
    destruct (Z.eqb_spec (240 + c / 262144) 240);
      destruct (Z.eqb_spec (240 + c / 262144) 244);
      try dlia; cbn [lower upper]; dec_step; dec_step; dec_step; f_equal; dlia.
Qed.

Lemma utf8_decode_encode (cs : list Z) :
  List.Forall scalar cs ->
  utf8_decode dinit (flat_map utf8_encode_scalar cs) = cs.
Proof.
  induction 1 as [|c cs Hc _ IH]; [reflexivity|].
  simpl. rewrite utf8_decode_scalar by exact Hc. now rewrite IH.
Qed.

Lemma utf8_encode_scalar_bytes (c : Z) :
  scalar c -> forallb is_byte (utf8_encode_scalar c) = true.
Proof.
  intros [Hr Hs]. unfold utf8_encode_scalar, is_byte.
  destruct (Z.ltb_spec c 128);
    [|destruct (Z.ltb_spec c 2048); [|destruct (Z.ltb_spec c 65536)]];
    cbn [forallb]; decide_cmp; reflexivity.
Qed.

Lemma is_high_iff (u : Z) : is_high u = true <-> 55296 <= u <= 56319.
Proof. unfold is_high. rewrite andb_true_iff, !Z.leb_le. tauto. Qed.

Lemma is_low_iff (u : Z) : is_low u = true <-> 56320 <= u <= 57343.
Proof. unfold is_low. rewrite andb_true_iff, !Z.leb_le. tauto. Qed.

Lemma is_code_unit_iff (u : Z) : is_code_unit u = true <-> 0 <= u < 65536.
Proof. unfold is_code_unit. rewrite andb_true_iff, Z.leb_le, Z.ltb_lt. tauto. Qed.

Lemma not_surrogate (u : Z) :
  is_high u = false -> is_low u = false -> ~ (55296 <= u <= 57343).
Proof.
  unfold is_high, is_low. rewrite !andb_false_iff, !Z.leb_gt. lia.
Qed.

(** On a well-formed string the scalars are genuine and give the string
    back. *)
Lemma to_scalars_well_formed (n : nat) :
  forall s, (length s <= n)%nat -> well_formed s = true ->
            List.Forall scalar (to_scalars s)
            /\ flat_map utf16_units (to_scalars s) = s.
Proof.
  induction n as [|n IH]; intros s Hlen Hwf.
  { destruct s; [split; [constructor|reflexivity]|simpl in Hlen; lia]. }
  destruct s as [|u r]; [split; [constructor|reflexivity]|].
  simpl in Hlen, Hwf |- *.
  destruct (is_high u) eqn:Eh.
  - destruct r as [|v r']; [discriminate|].
    apply andb_true_iff in Hwf as [Hv Hwf]. rewrite Hv.
    apply is_high_iff in Eh. apply is_low_iff in Hv.
    destruct (IH r') as [I1 I2]; [simpl in Hlen; lia|exact Hwf|].
    split.
    + constructor; [unfold scalar; lia|exact I1].
    + simpl. rewrite I2. unfold utf16_units. decide_cmp. simpl.
      f_equal; [dlia|f_equal; dlia].
  - apply andb_true_iff in Hwf as [Hwf Hr].
    apply andb_true_iff in Hwf as [Hnl Hcu].
    apply negb_true_iff in Hnl. rewrite Hnl.
    pose proof (not_surrogate u Eh Hnl) as Hns.
    apply is_code_unit_iff in Hcu.
    destruct (IH r) as [I1 I2]; [lia|exact Hr|].
    split.
    + constructor; [unfold scalar; lia|exact I1].
    + simpl. rewrite I2. unfold utf16_units. decide_cmp. reflexivity.
Qed.

Lemma to_scalars_scalar (n : nat) :
  forall s, (length s <= n)%nat -> forallb is_code_unit s = true ->
            List.Forall scalar (to_scalars s).
Proof.
  assert (scalar 65533) as Hrep by (unfold scalar; lia).
  induction n as [|n IH]; intros t Hlen Hcu.
  { destruct t; [constructor|simpl in Hlen; lia]. }
  destruct t as [|u r]; [constructor|].
  simpl in Hlen, Hcu |- *. apply andb_true_iff in Hcu as [Hu Hr].
  apply is_code_unit_iff in Hu.
  destruct (is_high u) eqn:Eh.
  - destruct r as [|v r']; [constructor; [exact Hrep|constructor]|].
    pose proof Hr as Hr0.
    simpl in Hr. apply andb_true_iff in Hr as [Hv Hr'].
    destruct (is_low v) eqn:Ev.
    + apply is_high_iff in Eh. apply is_low_iff in Ev.
      constructor; [unfold scalar; lia|apply IH; [simpl in Hlen; lia|exact Hr']].
    + constructor; [exact Hrep|].
      apply IH; [simpl in Hlen |- *; lia|exact Hr0].
  - destruct (is_low u) eqn:El.
    + constructor; [exact Hrep|apply IH; [lia|exact Hr]].
    + constructor; [|apply IH; [lia|exact Hr]].
      split; [lia|]. now apply not_surrogate.
Qed.

Lemma TextEncoder_bytes (s : jsstring) :
  forallb is_code_unit s = true ->
  forallb is_byte (TextEncoder_encode s) = true.
Proof.
  unfold TextEncoder_encode. intros Hcu.
  pose proof (to_scalars_scalar (length s) s (le_n _) Hcu) as Hsc.
  induction Hsc as [|c cs Hc _ IH]; [reflexivity|].
  simpl. rewrite forallb_app, IH, utf8_encode_scalar_bytes by exact Hc.
  reflexivity.
Qed.

Lemma strip_bom_scalar (c : Z) (rest : list Z) :
  scalar c -> c <> 65279 ->
  strip_bom (utf8_encode_scalar c ++ rest) = utf8_encode_scalar c ++ rest.
Proof.
  intros [Hr Hs] Hne. unfold utf8_encode_scalar.
  destruct (Z.ltb_spec c 128);
    [|destruct (Z.ltb_spec c 2048); [|destruct (Z.ltb_spec c 65536)]];
    cbn [app]; unfold strip_bom.
  - destruct rest as [|x [|y r]]; try reflexivity. decide_cmp. reflexivity.
  - destruct rest as [|x r]; try reflexivity. decide_cmp. reflexivity.
  - destruct (Z.eqb_spec (224 + c / 4096) 239) as [E1|]; [|reflexivity].
    destruct (Z.eqb_spec (128 + c / 64 mod 64) 187) as [E2|]; [|reflexivity].
    destruct (Z.eqb_spec (128 + c mod 64) 191) as [E3|]; [|reflexivity].
    exfalso. apply Hne. dlia.
  - decide_cmp. reflexivity.
Qed.

(** The text round trip: a well-formed string that does not start with
    U+FEFF is what [TextDecoder] makes of its [TextEncoder] bytes. *)
Lemma text_roundtrip (s : jsstring) :
  well_formed s = true ->
  nth 0 s 0 <> 65279 ->
  TextDecoder_decode (TextEncoder_encode s) = s.
Proof.
  intros Hwf Hb. unfold TextDecoder_decode, TextEncoder_encode.
  destruct (to_scalars_well_formed (length s) s (le_n _) Hwf) as [Hsc Hback].
  assert (strip_bom (flat_map utf8_encode_scalar (to_scalars s))
          = flat_map utf8_encode_scalar (to_scalars s)) as Hbom.
  { destruct s as [|u r]; [reflexivity|]. simpl in Hb, Hwf, Hsc |- *.
    destruct (is_high u) eqn:Eh.
    - destruct r as [|v r']; [discriminate|].
      apply andb_true_iff in Hwf as [Hv _]. rewrite Hv in Hsc |- *.
      simpl. inversion Hsc; subst.
      apply is_high_iff in Eh. apply is_low_iff in Hv.
      apply strip_bom_scalar; [assumption|lia].
    - apply andb_true_iff in Hwf as [Hwf _].
      apply andb_true_iff in Hwf as [Hnl _].
      apply negb_true_iff in Hnl. rewrite Hnl in Hsc |- *.
      simpl. inversion Hsc; subst. now apply strip_bom_scalar. }
  rewrite Hbom, utf8_decode_encode by exact Hsc. exact Hback.
Qed.

(** *** Base64 *)

Lemma list_ind3 {A} (P : list A -> Prop) :
  P [] -> (forall a, P [a]) -> (forall a b, P [a; b]) ->
  (forall a b c r, P r -> P (a :: b :: c :: r)) ->
  forall l, P l.
Proof.
  intros H0 H1 H2 H3.
  assert (forall l, P l /\ (forall a, P (a :: l)) /\ (forall a b, P (a :: b :: l)))
    as H.
  { induction l as [|x l (I0 & I1 & I2)]; [auto|].
    split; [exact (I1 x)|]. split; [intros a; exact (I2 a x)|].
    intros a b. apply H3. exact I0. }
  intros l. apply H.
Qed.

(** The six-bit groups of a byte sequence, and the [=] that fill its
    last group of four. *)
Fixpoint sextets (bs : list Z) : list Z :=
  match bs with
  | [] => []
  | a :: r1 =>
      match r1 with
      | [] => [a / 4; a mod 4 * 16]
      | b :: r2 =>
          match r2 with
          | [] => [a / 4; a mod 4 * 16 + b / 16; b mod 16 * 4]
          | c :: r3 =>
              a / 4 :: a mod 4 * 16 + b / 16 :: b mod 16 * 4 + c / 64
              :: c mod 64 :: sextets r3
          end
      end
  end.

Fixpoint padding (bs : list Z) : list Z :=
  match bs with
  | [] => []
  | _ :: r1 =>
      match r1 with
      | [] => [pad; pad]
      | _ :: r2 =>
          match r2 with
          | [] => [pad]
          | _ :: r3 => padding r3
          end
      end
  end.

Definition sextet (i : Z) : Prop := 0 <= i < 64.

Lemma b64_encode_split (bs : list Z) :
  b64_encode bs = List.map b64_char (sextets bs) ++ padding bs.
Proof.
  induction bs as [| | |a b c r IH] using list_ind3; try reflexivity.
  cbn [b64_encode sextets padding List.map app]. now rewrite IH.
Qed.

Lemma bytes_cons (a : Z) (l : list Z) :
  forallb is_byte (a :: l) = true <-> 0 <= a < 256 /\ forallb is_byte l = true.
Proof.
  cbn [forallb]. unfold is_byte at 1.
  rewrite !andb_true_iff, Z.leb_le, Z.ltb_lt. tauto.
Qed.

Lemma sextets_range (bs : list Z) :
  forallb is_byte bs = true -> List.Forall sextet (sextets bs).
Proof.
  unfold sextet.
  induction bs as [|a|a b|a b c r IH] using list_ind3; intros H.
  - constructor.
  - apply bytes_cons in H as [Ha _]. repeat constructor; dlia.
  - apply bytes_cons in H as [Ha H]. apply bytes_cons in H as [Hb _].
    repeat constructor; dlia.
  - apply bytes_cons in H as [Ha H]. apply bytes_cons in H as [Hb H].
    apply bytes_cons in H as [Hc H].
    cbn [sextets]. repeat (constructor; [dlia|]). now apply IH.
Qed.

Lemma b64_decode_sextets (bs : list Z) :
  forallb is_byte bs = true -> b64_decode (sextets bs) = bs.
Proof.
  induction bs as [|a|a b|a b c r IH] using list_ind3; intros H.
  - reflexivity.
  - apply bytes_cons in H as [Ha _]. cbn. f_equal. dlia.
  - apply bytes_cons in H as [Ha H]. apply bytes_cons in H as [Hb _].
    cbn. f_equal; [dlia|f_equal; dlia].
  - apply bytes_cons in H as [Ha H]. apply bytes_cons in H as [Hb H].
    apply bytes_cons in H as [Hc H].
    cbn [sextets b64_decode]. rewrite IH by exact H.
    f_equal; [dlia|f_equal; [dlia|f_equal; dlia]].
Qed.

Lemma sextet_enum (i : Z) :
  sextet i -> In i (List.map Z.of_nat (seq 0 64)).
Proof.
  intros [H0 H1]. apply in_map_iff. exists (Z.to_nat i).
  split; [lia|]. apply in_seq. lia.
Qed.

Lemma b64_char_facts (i : Z) :
  sextet i ->
  b64_index (b64_char i) = Some i
  /\ is_ascii_whitespace (b64_char i) = false
  /\ (b64_char i =? pad) = false.
Proof.
  intros H. apply sextet_enum in H.
  assert (forallb (fun j => match b64_index (b64_char j) with
                            | Some k => k =? j
                            | None => false
                            end
                            && negb (is_ascii_whitespace (b64_char j))
                            && negb (b64_char j =? pad))
                  (List.map Z.of_nat (seq 0 64)) = true) as Hall
    by (vm_compute; reflexivity).
  rewrite forallb_forall in Hall. specialize (Hall i H).
  apply andb_true_iff in Hall as [Hall H3].
  apply andb_true_iff in Hall as [H1 H2].
  apply negb_true_iff in H2, H3.
  destruct (b64_index (b64_char i)) as [k|]; [|discriminate].
  apply Z.eqb_eq in H1. subst k. auto.
Qed.

Lemma indices_chars (sx : list Z) :
  List.Forall sextet sx -> indices (List.map b64_char sx) = Some sx.
Proof.
  induction 1 as [|i sx Hi _ IH]; [reflexivity|].
  cbn [List.map indices]. destruct (b64_char_facts i Hi) as (-> & _ & _).
  now rewrite IH.
Qed.

Lemma padding_cases (bs : list Z) :
  padding bs = [] \/ padding bs = [pad] \/ padding bs = [pad; pad].
Proof.
  induction bs as [| | |a b c r IH] using list_ind3; cbn [padding]; auto.
Qed.

Lemma b64_encode_length (bs : list Z) :
  Z.of_nat (length (b64_encode bs)) mod 4 = 0.
Proof.
  induction bs as [| | |a b c r IH] using list_ind3; try reflexivity.
  cbn [b64_encode length]. rewrite !Nat2Z.inj_succ. dlia.
Qed.

Lemma sextets_length (bs : list Z) :
  Z.of_nat (length (sextets bs)) mod 4 <> 1.
Proof.
  induction bs as [| | |a b c r IH] using list_ind3;
    try (cbn; discriminate).
  cbn [sextets length]. rewrite !Nat2Z.inj_succ. dlia.
Qed.

Lemma filter_all {A} (f : A -> bool) (l : list A) :
  List.Forall (fun x => f x = true) l -> List.filter f l = l.
Proof.
  induction 1 as [|x l Hx _ IH]; [reflexivity|].
  cbn [List.filter]. now rewrite Hx, IH.
Qed.

Lemma no_whitespace (bs : list Z) :
  forallb is_byte bs = true ->
  List.filter (fun u => negb (is_ascii_whitespace u)) (b64_encode bs)
  = b64_encode bs.
Proof.
  intros H. apply filter_all. rewrite b64_encode_split.
  apply Forall_app. split.
  - apply Forall_map. eapply List.Forall_impl; [|exact (sextets_range bs H)].
    intros i Hi. destruct (b64_char_facts i Hi) as (_ & -> & _). reflexivity.
  - destruct (padding_cases bs) as [->|[->| ->]]; repeat constructor.
Qed.

Lemma strip_padding_encode (bs : list Z) :
  forallb is_byte bs = true ->
  strip_padding (b64_encode bs) = List.map b64_char (sextets bs).
Proof.
  intros H. unfold strip_padding. rewrite b64_encode_length.
  cbn [Z.eqb]. rewrite b64_encode_split.
  pose proof (sextets_range bs H) as Hr.
  set (l := List.map b64_char (sextets bs)).
  assert (forall x r, rev l = x :: r -> (x =? pad) = false) as Hhead.
  { intros x r E.
    assert (In x l) as Hin
      by (apply in_rev; rewrite E; now left).
    apply in_map_iff in Hin as (i & <- & Hi).
    rewrite List.Forall_forall in Hr. now apply b64_char_facts, Hr. }
  destruct (padding_cases bs) as [->|[->| ->]].
  - rewrite app_nil_r. destruct (rev l) as [|x r] eqn:E; [reflexivity|].
    now rewrite (Hhead x r eq_refl).
  - rewrite rev_app_distr. cbn [rev app]. rewrite Z.eqb_refl.
    destruct (rev l) as [|y r] eqn:E.
    + cbn [rev]. rewrite <- (rev_involutive l), E. reflexivity.
    + rewrite (Hhead y r eq_refl), <- E. apply rev_involutive.
  - rewrite rev_app_distr. cbn [rev app]. rewrite !Z.eqb_refl.
    apply rev_involutive.
Qed.

Lemma atob_b64_encode (bs : list Z) :
  forallb is_byte bs = true -> atob (b64_encode bs) = Return bs.
Proof.
  intros H. unfold atob.
  rewrite no_whitespace, strip_padding_encode by exact H.
  rewrite length_map.
  replace (Z.of_nat (length (sextets bs)) mod 4 =? 1) with false
    by (symmetry; apply Z.eqb_neq, sextets_length).
  rewrite indices_chars by (now apply sextets_range).
  now rewrite b64_decode_sextets.
Qed.

Lemma map_mod_bytes (bs : list Z) :
  forallb is_byte bs = true -> List.map (fun u => u mod 256) bs = bs.
Proof.
  induction bs as [|a l IH]; [reflexivity|]. intros H.
  apply bytes_cons in H as [Ha H]. cbn [List.map].
  rewrite IH by exact H. f_equal. dlia.
Qed.

(** The two private converters are inverse on byte sequences. *)
Lemma base64_roundtrip (bs : list Z) :
  forallb is_byte bs = true ->
  exists b64,
    arrayBufferToBase64 bs = Return b64
    /\ base64ToArrayBuffer b64 = Return bs
    /\ (b64 = [] <-> bs = []).
Proof.
  intros H. exists (b64_encode bs).
  unfold arrayBufferToBase64, base64ToArrayBuffer, btoa. rewrite H.
  split; [reflexivity|]. split.
  - rewrite atob_b64_encode by exact H. cbn [bind].
    now rewrite map_mod_bytes.
  - destruct bs as [|a [|b [|c r]]]; cbn; split; intros E;
      try reflexivity; discriminate.
Qed.

(** *** The service *)

Lemma getRandomValues_bytes (n : nat) (rnd : nat -> Z) :
  forallb is_byte (getRandomValues n rnd) = true.
Proof.
  unfold getRandomValues. apply forallb_forall. intros b Hb.
  apply in_map_iff in Hb as (i & <- & _). unfold is_byte.
  apply andb_true_iff. split; [apply Z.leb_le|apply Z.ltb_lt]; dlia.
Qed.

Lemma well_formed_units (n : nat) :
  forall s, (length s <= n)%nat -> well_formed s = true ->
            forallb is_code_unit s = true.
Proof.
  induction n as [|n IH]; intros s Hlen Hwf.
  { destruct s; [reflexivity|simpl in Hlen; lia]. }
  destruct s as [|u r]; [reflexivity|]. simpl in Hlen, Hwf |- *.
  destruct (is_high u) eqn:Eh.
  - destruct r as [|v r']; [discriminate|].
    apply andb_true_iff in Hwf as [Hv Hwf].
    apply is_high_iff in Eh. pose proof Hv as Hv'. apply is_low_iff in Hv'.
    simpl. rewrite (IH r') by (simpl in Hlen; lia || exact Hwf).
    rewrite !(proj2 (is_code_unit_iff _)) by lia. reflexivity.
  - apply andb_true_iff in Hwf as [Hwf Hr].
    apply andb_true_iff in Hwf as [_ Hcu].
    rewrite Hcu, (IH r) by (lia || exact Hr). reflexivity.
Qed.

Section ServiceFacts.
Context {W : SubtleCrypto}.

(** The key that [getKey] hands out without generating one. *)
Definition current (st : CryptoService) : option CryptoKey :=
  match key st with
  | Some k => Some k
  | None => keyPromise st
  end.

Lemma getKey_current (g : CryptoKey) (st : CryptoService) :
  current (snd (getKey g st)) = Some (fst (getKey g st)).
Proof.
  unfold getKey, current.
  destruct (key st) as [k|] eqn:Ek; cbn [fst snd]; [now rewrite Ek|].
  destruct (keyPromise st) as [k|] eqn:Ep; cbn [fst snd key keyPromise];
    [now rewrite Ek, Ep|reflexivity].
Qed.

Lemma getKey_held (g k : CryptoKey) (st : CryptoService) :
  current st = Some k -> getKey g st = (k, st).
Proof.
  unfold getKey, current. destruct (key st) as [k0|].
  - now intros [= ->].
  - now intros ->.
Qed.

Lemma getKey_generates (g : CryptoKey) (st : CryptoService) :
  current st = None ->
  getKey g st = (g, {| key := Some g; keyPromise := Some g |}).
Proof.
  unfold getKey, current. destruct (key st); [discriminate|]. now intros ->.
Qed.

Lemma encrypt_state (g : CryptoKey) (rnd : nat -> Z) (s : jsstring)
    (st : CryptoService) :
  snd (encrypt g rnd s st) = snd (getKey g st).
Proof. unfold encrypt. now destruct (getKey g st). Qed.

Lemma decrypt_state (g : CryptoKey) (e : EncryptedData) (st : CryptoService) :
  snd (decrypt g e st) = snd (getKey g st).
Proof. unfold decrypt. now destruct (getKey g st). Qed.

(** A call other than [clearKey]. *)
Definition keeps_key (o : op) : bool :=
  match o with OClearKey => false | _ => true end.

(** The key that the host would generate for a call is not [k]. *)
Definition fresh_for (k : CryptoKey) (o : op) : Prop :=
  match o with
  | OGetKey g | OEncrypt g _ _ | ODecrypt g _ => g <> k
  | OClearKey => True
  end.

Lemma step_held (o : op) (k : CryptoKey) (st : CryptoService) :
  keeps_key o = true -> current st = Some k -> step o st = st.
Proof.
  intros Ho Hk. destruct o as [g|g rnd s|g e|]; cbn [step];
    rewrite ?encrypt_state, ?decrypt_state, ?(getKey_held _ k st Hk);
    try reflexivity; discriminate.
Qed.

Lemma run_held (ops : list op) (k : CryptoKey) (st : CryptoService) :
  forallb keeps_key ops = true -> current st = Some k -> run ops st = st.
Proof.
  induction ops as [|o ops IH]; intros Ho Hk; [reflexivity|].
  cbn in Ho. apply andb_true_iff in Ho as [Ho Hops].
  cbn [run fold_left]. rewrite (step_held o k st Ho Hk). now apply IH.
Qed.

Lemma step_fresh (o : op) (k : CryptoKey) (st : CryptoService) :
  fresh_for k o -> current st <> Some k -> current (step o st) <> Some k.
Proof.
  intros Ho Hk.
  assert (forall g, g <> k -> current (snd (getKey g st)) <> Some k) as Hg.
  { intros g Hgk. destruct (current st) as [k0|] eqn:Ec.
    - rewrite (getKey_held g k0 st Ec). cbn [snd]. now rewrite Ec.
    - rewrite (getKey_generates g st Ec). cbn. congruence. }
  destruct o as [g|g rnd s|g e|]; cbn [step fresh_for] in *;
    rewrite ?encrypt_state, ?decrypt_state; auto.
Qed.

Lemma run_fresh (ops : list op) (k : CryptoKey) :
  forall st, List.Forall (fresh_for k) ops -> current st <> Some k ->
             current (run ops st) <> Some k.
Proof.
  induction ops as [|o ops IH]; intros st Ho Hk; [exact Hk|].
  inversion Ho; subst. cbn [run fold_left]. apply IH; [assumption|].
  now apply step_fresh.
Qed.

(** What [encrypt] returns, and under which key. *)
Lemma encrypt_payload (g : CryptoKey) (rnd : nat -> Z) (s : jsstring)
    (st : CryptoService) :
  aead_bytes W ->
  exists e k iv_,
    fst (encrypt g rnd s st) = Return e
    /\ current (snd (encrypt g rnd s st)) = Some k
    /\ base64ToArrayBuffer (iv e) = Return iv_
    /\ base64ToArrayBuffer (data e)
       = Return (subtle_encrypt k iv_ (TextEncoder_encode s))
    /\ iv e <> [] /\ (data e = [] -> subtle_encrypt k iv_ (TextEncoder_encode s) = []).
Proof.
  intros Hb. rewrite encrypt_state. pose proof (getKey_current g st) as Hc.
  unfold encrypt. destruct (getKey g st) as [k st1]. cbn [fst snd] in *.
  set (iv_ := getRandomValues IV_LENGTH rnd).
  set (ct := subtle_encrypt k iv_ (TextEncoder_encode s)).
  destruct (base64_roundtrip iv_ (getRandomValues_bytes _ _))
    as (iv64 & I1 & I2 & I3).
  destruct (base64_roundtrip ct (Hb _ _ _)) as (d64 & D1 & D2 & D3).
  exists {| iv := iv64; data := d64 |}, k, iv_.
  rewrite I1, D1. cbn [bind iv data].
  repeat split; try assumption.
  - intros E. apply I3 in E. discriminate.
  - intros E. now apply D3.
Qed.

End ServiceFacts.

(** *** The stand-in host obeys the laws asked of AES-GCM *)

Lemma toy_correct : aead_correct toy.
Proof.
  intros k iv_ m Hm. cbn. rewrite rev_app_distr. cbn [rev app].
  rewrite Z.eqb_refl, rev_involutive. now rewrite map_mod_bytes.
Qed.

Lemma toy_bytes : aead_bytes toy.
Proof.
  intros k iv_ m. cbn. rewrite forallb_app. apply andb_true_iff. split.
  - apply forallb_forall. intros b Hb. apply in_map_iff in Hb as (x & <- & _).
    unfold is_byte. apply andb_true_iff.
    split; [apply Z.leb_le|apply Z.ltb_lt]; dlia.
  - cbn. unfold is_byte, toy_tag. rewrite andb_true_r. apply andb_true_iff.
    split; [apply Z.leb_le|apply Z.ltb_lt]; destruct k; dlia.
Qed.

Lemma toy_tagged : aead_tagged toy.
Proof. intros k iv_ m. cbn. now destruct (List.map _ m). Qed.

Lemma toy_authentic : aead_authentic toy.
Proof.
  intros k k' iv_ m Hk. cbn. rewrite rev_app_distr. cbn [rev app].
  replace (toy_tag k iv_ =? toy_tag k' iv_) with false; [reflexivity|].
  symmetry. apply Z.eqb_neq. unfold toy_tag.
  destruct k, k'; try congruence; dlia.
Qed.

(** *** Round trip (C1) *)

(** C1, as stated, fails on two kinds of string.  A surrogate without
    its partner is encoded as U+FFFD, so the string of the single unit
    D800 comes back as the single unit FFFD; and the decoder drops a
    leading byte order mark, so the string FEFF 0041 comes back as
    0041.  Both are run on the stand-in host, on one instance, without
    [clearKey]. *)
Lemma C1_counterexample :
  let rnd := fun i : nat => Z.of_nat i in
  let there_and_back (s : jsstring) :=
    let '(c, st) := encrypt (W := toy) true rnd s create in
    match c with
    | Return e => fst (decrypt (W := toy) false e st)
    | Throw x => Throw x
    end in
  forallb is_code_unit [55296] = true
  /\ there_and_back [55296] = Return (Some [65533])
  /\ forallb is_code_unit [65279; 65] = true
  /\ there_and_back [65279; 65] = Return (Some [65]).
Proof. vm_compute. repeat split; reflexivity. Qed.

(** C1, amended.  On a host whose AES-GCM decrypts what it encrypted,
    for every well-formed string (every surrogate paired; the empty
    string and all text outside ASCII included) that does not start
    with U+FEFF: [encrypt] returns a payload, and after any calls on the
    same instance other than [clearKey], [decrypt] of that payload
    returns the string. *)
Theorem C1_encrypt_decrypt_roundtrip :
  forall (W : SubtleCrypto),
    aead_correct W -> aead_bytes W ->
    forall (st : CryptoService) (g : CryptoKey) (rnd : nat -> Z) (s : jsstring),
      well_formed s = true ->
      nth 0 s 0 <> 65279 ->
      exists e,
        fst (encrypt g rnd s st) = Return e
        /\ forall (ops : list op) (g' : CryptoKey),
             forallb keeps_key ops = true ->
             fst (decrypt g' e (run ops (snd (encrypt g rnd s st))))
             = Return (Some s).
Proof.
  intros W Hc Hb st g rnd s Hwf Hbom.
  destruct (encrypt_payload g rnd s st Hb) as (e & k & iv_ & E1 & E2 & E3 & E4 & _).
  exists e. split; [exact E1|]. intros ops g' Hops.
  rewrite (run_held ops k _ Hops E2).
  unfold decrypt. rewrite (getKey_held g' k _ E2). cbn [fst].
  rewrite E3, E4. cbn [bind].
  rewrite Hc by (apply TextEncoder_bytes, (well_formed_units (length s));
                 [apply le_n|exact Hwf]).
  cbn [catch_with]. now rewrite text_roundtrip.
Qed.

(** The empty string, and a string with an accent, a surrogate pair and
    a CJK character, on the stand-in host. *)
Lemma C1_encrypt_decrypt_roundtrip_witness :
  let rnd := fun i : nat => Z.of_nat i in
  let there_and_back (s : jsstring) :=
    let '(c, st) := encrypt (W := toy) true rnd s create in
    match c with
    | Return e => fst (decrypt (W := toy) false e st)
    | Throw x => Throw x
    end in
  there_and_back [] = Return (Some [])
  /\ there_and_back [233; 55357; 57057; 20445] = Return (Some [233; 55357; 57057; 20445]).
Proof.
  intros rnd there_and_back. unfold there_and_back. split.
  - destruct (C1_encrypt_decrypt_roundtrip toy toy_correct toy_bytes
                create true rnd [] eq_refl) as (e & E1 & E2);
      [vm_compute; discriminate|].
    specialize (E2 [] false eq_refl). cbn [run fold_left] in E2.
    destruct (encrypt (W := toy) true rnd [] create) as [c st]. cbn [fst snd] in *.
    subst c. exact E2.
  - destruct (C1_encrypt_decrypt_roundtrip toy toy_correct toy_bytes
                create true rnd [233; 55357; 57057; 20445] eq_refl)
      as (e & E1 & E2); [vm_compute; discriminate|].
    specialize (E2 [] false eq_refl). cbn [run fold_left] in E2.
    destruct (encrypt (W := toy) true rnd [233; 55357; 57057; 20445] create) as [c st].
    cbn [fst snd] in *. subst c. exact E2.
Defined.

(** *** Clearing the key (C3) *)

(** C3.  On a host whose AES-GCM rejects a ciphertext under any key but
    the one that made it: take the payload that [encrypt] returns for any
    plaintext, and the key [k] it was made under.  After any further
    calls, a [clearKey], and any calls after that for which the host
    generates keys other than [k], [decrypt] of the payload returns
    null: it does not throw and does not return the plaintext. *)
Theorem C3_clearKey_invalidates :
  forall (W : SubtleCrypto),
    aead_authentic W -> aead_bytes W ->
    forall (st : CryptoService) (g : CryptoKey) (rnd : nat -> Z) (s : jsstring),
      exists e k,
        fst (encrypt g rnd s st) = Return e
        /\ current (snd (encrypt g rnd s st)) = Some k
        /\ forall (before after : list op) (g' : CryptoKey),
             List.Forall (fresh_for k) after ->
             g' <> k ->
             fst (decrypt g' e
                    (run after (clearKey (run before (snd (encrypt g rnd s st))))))
             = Return None.
Proof.
  intros W Ha Hb st g rnd s.
  destruct (encrypt_payload g rnd s st Hb) as (e & k & iv_ & E1 & E2 & E3 & E4 & _).
  exists e, k. split; [exact E1|]. split; [exact E2|].
  intros before after g' Hafter Hg'.
  set (st2 := run after (clearKey (run before (snd (encrypt g rnd s st))))).
  assert (current st2 <> Some k) as Hcur.
  { apply run_fresh; [exact Hafter|]. cbn. discriminate. }
  assert (fst (getKey g' st2) <> k) as Hk'.
  { destruct (current st2) as [k0|] eqn:Ec.
    - rewrite (getKey_held g' k0 st2 Ec). cbn. congruence.
    - rewrite (getKey_generates g' st2 Ec). exact Hg'. }
  unfold decrypt. destruct (getKey g' st2) as [k' st3]. cbn [fst] in *.
  rewrite E3, E4. cbn [bind].
  rewrite Ha by congruence. reflexivity.
Qed.

(** The scenario of the test suite on the stand-in host: encrypt, clear,
    encrypt something else, decrypt the first payload. *)
Lemma C3_clearKey_invalidates_witness :
  let rnd := fun i : nat => Z.of_nat i in
  exists e,
    fst (encrypt (W := toy) true rnd (lit "secret data") create) = Return e
    /\ fst (decrypt (W := toy) false e
              (run [OEncrypt (W := toy) false rnd (lit "new data")]
                   (clearKey (snd (encrypt (W := toy) true rnd (lit "secret data") create)))))
       = Return None.
Proof.
  intros rnd.
  destruct (C3_clearKey_invalidates toy toy_authentic toy_bytes
              create true rnd (lit "secret data")) as (e & k & E1 & E2 & E3).
  exists e. split; [exact E1|].
  assert (k = true) as -> by (vm_compute in E2; congruence).
  apply (E3 [] [OEncrypt (W := toy) false rnd (lit "new data")] false).
  - constructor; [cbn; discriminate|constructor].
  - discriminate.
Defined.

End CryptoFacts.

(* --------------------------------------------------------------------- *)
(** ** SecureStorage                                                      *)
(* --------------------------------------------------------------------- *)

Section StoreFacts.
Import Crypto Store.

(** *** Texts that survive the text codec *)

Definition is_ascii (u : Z) : bool := (0 <=? u) && (u <? 128).

(** A text that starts with an ASCII character: it is not empty and does
    not start with a byte order mark. *)
Definition ascii_led (t : jsstring) : bool :=
  match t with
  | c :: _ => is_ascii c
  | [] => false
  end.

Lemma is_ascii_iff (u : Z) : is_ascii u = true <-> 0 <= u < 128.
Proof. unfold is_ascii. rewrite andb_true_iff, Z.leb_le, Z.ltb_lt. tauto. Qed.

Lemma well_formed_app (a b : jsstring) :
  well_formed a = true -> well_formed b = true -> well_formed (a ++ b) = true.
Proof.
  revert a. assert (forall n a, (length a <= n)%nat -> well_formed a = true ->
                                well_formed b = true -> well_formed (a ++ b) = true)
    as H.
  { induction n as [|n IH]; intros a Hlen Ha Hb.
    - destruct a; [exact Hb|simpl in Hlen; lia].
    - destruct a as [|u r]; [exact Hb|]. simpl in Hlen, Ha |- *.
      destruct (is_high u).
      + destruct r as [|v r']; [discriminate|]. simpl.
        apply andb_true_iff in Ha as [Hv Hr]. rewrite Hv. simpl.
        apply IH; [simpl in Hlen; lia|exact Hr|exact Hb].
      + apply andb_true_iff in Ha as [Hu Hr]. rewrite Hu. simpl.
        apply IH; [lia|exact Hr|exact Hb]. }
  intros a. apply (H (length a)). apply le_n.
Qed.

Lemma ascii_well_formed (s : jsstring) :
  forallb is_ascii s = true -> well_formed s = true.
Proof.
  induction s as [|u r IH]; [reflexivity|]. simpl. intros H.
  apply andb_true_iff in H as [Hu Hr]. apply is_ascii_iff in Hu.
  unfold is_high, is_low, is_code_unit. decide_cmp. simpl. now apply IH.
Qed.

(** *** What JSON.stringify prints *)

(** Every string in the value, keys included, is made of code units. *)
Fixpoint well_typed (v : JsValue) : bool :=
  match v with
  | VStr s => forallb is_code_unit s
  | VArr items => forallb well_typed items
  | VObj props =>
      forallb (fun p => forallb is_code_unit (fst p) && well_typed (snd p)) props
  | _ => true
  end.

Lemma JsValue_induction (P : JsValue -> Prop) :
  P VUndefined -> P VNull -> (forall b, P (VBool b)) -> (forall n, P (VNum n)) ->
  (forall z, P (VBigInt z)) -> (forall s, P (VStr s)) ->
  (forall items, List.Forall P items -> P (VArr items)) ->
  (forall props, List.Forall (fun p => P (snd p)) props -> P (VObj props)) ->
  forall v, P v.
Proof.
  intros H1 H2 H3 H4 H5 H6 H7 H8.
  fix IH 1. intros [| |b|n|z|s|items|props].
  - exact H1.
  - exact H2.
  - apply H3.
  - apply H4.
  - apply H5.
  - apply H6.
  - apply H7. induction items as [|x r IHr]; constructor; [apply IH|exact IHr].
  - apply H8. induction props as [|[k x] r IHr]; constructor; [apply IH|exact IHr].
Qed.

Lemma uint_units_ascii (u : Decimal.uint) : forallb is_ascii (uint_units u) = true.
Proof. induction u; simpl; auto. Qed.

Lemma digits_ascii (n : Z) : forallb is_ascii (digits n) = true.
Proof. apply uint_units_ascii. Qed.

Lemma digits_nonempty (n : Z) : digits n <> [].
Proof.
  unfold digits. destruct (Z.to_N n) as [|p]; [discriminate|].
  simpl. pose proof (DecimalPos.Unsigned.to_uint_nonnil p) as H.
  destruct (Pos.to_uint p); [congruence|..]; discriminate.
Qed.

Lemma forallb_firstn {A} (f : A -> bool) (n : nat) (l : list A) :
  forallb f l = true -> forallb f (firstn n l) = true.
Proof.
  revert n. induction l as [|x l IH]; intros [|n] H; simpl in *; auto.
  apply andb_true_iff in H as [Hx Hl]. now rewrite Hx, IH.
Qed.

Lemma forallb_skipn {A} (f : A -> bool) (n : nat) (l : list A) :
  forallb f l = true -> forallb f (skipn n l) = true.
Proof.
  revert n. induction l as [|x l IH]; intros [|n] H; simpl in *; auto.
  apply andb_true_iff in H as [Hx Hl]. now apply IH.
Qed.

Lemma forallb_repeat {A} (f : A -> bool) (x : A) (n : nat) :
  f x = true -> forallb f (repeat x n) = true.
Proof. intros H. induction n; simpl; [reflexivity|now rewrite H]. Qed.

Lemma finite_to_string_ascii (m x : Z) :
  forallb is_ascii (finite_to_string m x) = true.
Proof.
  unfold finite_to_string.
  pose proof (digits_ascii (Z.abs m)) as Hd.
  destruct (m =? 0); [reflexivity|].
  set (ds := digits (Z.abs m)) in *.
  assert (forall b : jsstring, forallb is_ascii b = true ->
            forallb is_ascii (if m <? 0 then lit "-" ++ b else b) = true) as Hsign.
  { intros b Hb. destruct (m <? 0); [simpl; exact Hb|exact Hb]. }
  apply Hsign.
  repeat match goal with
         | |- context [if ?c then _ else _] => destruct c
         end;
    rewrite ?forallb_app, ?andb_true_iff; repeat split;
    auto using forallb_firstn, forallb_skipn, forallb_repeat, digits_ascii.
Qed.

Lemma finite_to_string_nonempty (m x : Z) : finite_to_string m x <> [].
Proof.
  unfold finite_to_string.
  pose proof (digits_nonempty (Z.abs m)) as Hd.
  destruct (m =? 0); [cbn; discriminate|].
  destruct (digits (Z.abs m)) as [|d ds] eqn:E; [congruence|].
  destruct (m <? 0); [cbn; discriminate|].
  destruct (_ && _); [cbn; discriminate|].
  destruct (_ && _).
  { intros H. apply app_eq_nil in H as [_ H]. discriminate H. }
  destruct (_ && _); [cbn; discriminate|].
  intros H. apply app_eq_nil in H as [_ H]. discriminate H.
Qed.

Lemma unicode_escape_ascii (u : Z) :
  0 <= u < 65536 -> forallb is_ascii (unicode_escape u) = true.
Proof.
  intros Hu. unfold unicode_escape, hex_digit, is_ascii. cbn [forallb].
  repeat match goal with
         | |- context [if ?a <? ?b then _ else _] => destruct (Z.ltb_spec a b)
         end;
    decide_cmp; reflexivity.
Qed.

Lemma quote_unit_well_formed (u : Z) :
  0 <= u < 65536 -> is_high u = false -> is_low u = false ->
  well_formed (quote_unit u) = true.
Proof.
  intros Hu Hh Hl. unfold quote_unit.
  repeat match goal with
         | |- context [if ?c then _ else _] => destruct c; [reflexivity|]
         end.
  destruct (u <? 32); [now apply ascii_well_formed, unicode_escape_ascii|].
  cbn [well_formed]. rewrite Hh, Hl.
  now rewrite (proj2 (is_code_unit_iff u)) by exact Hu.
Qed.

Lemma quote_body_well_formed (n : nat) :
  forall s, (length s <= n)%nat -> forallb is_code_unit s = true ->
            well_formed (quote_body s) = true.
Proof.
  induction n as [|n IH]; intros s Hlen Hs.
  { destruct s; [reflexivity|simpl in Hlen; lia]. }
  destruct s as [|u r]; [reflexivity|].
  simpl in Hlen. cbn [forallb] in Hs. apply andb_true_iff in Hs as [Hu Hr].
  apply is_code_unit_iff in Hu. cbn [quote_body].
  destruct (is_high u) eqn:Eh.
  - destruct r as [|v r'].
    + now apply ascii_well_formed, unicode_escape_ascii.
    + destruct (is_low v) eqn:Ev.
      * cbn [well_formed]. rewrite Eh, Ev. cbn [andb].
        cbn [forallb] in Hr. apply andb_true_iff in Hr as [_ Hr'].
        apply IH; [simpl in Hlen; lia|exact Hr'].
      * apply well_formed_app;
          [now apply ascii_well_formed, unicode_escape_ascii|].
        apply IH; [lia|exact Hr].
  - destruct (is_low u) eqn:El.
    + apply well_formed_app;
        [now apply ascii_well_formed, unicode_escape_ascii|].
      apply IH; [lia|exact Hr].
    + apply well_formed_app; [now apply quote_unit_well_formed|].
      apply IH; [lia|exact Hr].
Qed.

Lemma quote_well_formed (s : jsstring) :
  forallb is_code_unit s = true ->
  well_formed (quote s) = true /\ ascii_led (quote s) = true.
Proof.
  intros Hs. split; [|reflexivity].
  unfold quote.
  apply (well_formed_app [34] (quote_body s ++ [34])); [reflexivity|].
  apply (well_formed_app (quote_body s) [34]); [|reflexivity].
  now apply (quote_body_well_formed (length s)).
Qed.

Lemma join_well_formed (sep : jsstring) (parts : list jsstring) :
  well_formed sep = true ->
  List.Forall (fun p => well_formed p = true) parts ->
  well_formed (join sep parts) = true.
Proof.
  intros Hsep. induction 1 as [|p r Hp Hr IH]; [reflexivity|].
  cbn [join]. destruct r as [|q r']; [exact Hp|].
  apply well_formed_app; [exact Hp|]. now apply well_formed_app.
Qed.

Lemma sequence_map {X T} (f : X -> completion T) (l : list X) (out : list T) :
  sequence (List.map f l) = Return out ->
  List.Forall2 (fun x t => f x = Return t) l out.
Proof.
  revert out. induction l as [|x l IH]; intros out; cbn [List.map sequence].
  - intros [= <-]. constructor.
  - destruct (f x) as [t|e] eqn:Ex; cbn [bind]; [|discriminate].
    destruct (sequence (List.map f l)) as [ts|e]; cbn [bind]; [|discriminate].
    intros [= <-]. constructor; [exact Ex|now apply IH].
Qed.

(** The text of a well-typed value survives the text codec: its
    surrogates are paired, and it starts with an ASCII character. *)
Lemma serialize_text (v : JsValue) :
  forall t, serialize v = Return (Some t) -> well_typed v = true ->
            well_formed t = true /\ ascii_led t = true.
Proof.
  induction v as [| |b|n|z|s|items IH|props IH] using JsValue_induction;
    intros t Ht Hv; cbn [serialize well_typed] in Ht, Hv.
  - discriminate.
  - injection Ht as <-. now split.
  - destruct b; injection Ht as <-; now split.
  - destruct n as [| | | |m x]; injection Ht as <-; try (now split).
    pose proof (finite_to_string_ascii m x) as Ha.
    pose proof (finite_to_string_nonempty m x) as Hn.
    split; [now apply ascii_well_formed|].
    destruct (finite_to_string m x) as [|c r]; [congruence|].
    cbn [forallb] in Ha. now apply andb_true_iff in Ha as [Hc _].
  - discriminate.
  - injection Ht as <-. now apply quote_well_formed.
  - destruct (sequence _) as [parts|e] eqn:Es; cbn [bind] in Ht; [|discriminate].
    injection Ht as <-. split; [|reflexivity].
    apply sequence_map in Es.
    apply (well_formed_app (lit "[") (join (lit ",") parts ++ lit "]"));
      [reflexivity|].
    apply (well_formed_app (join (lit ",") parts) (lit "]")); [|reflexivity].
    apply join_well_formed; [reflexivity|].
    rewrite forallb_forall in Hv. rewrite List.Forall_forall in IH.
    clear -Es IH Hv. induction Es as [|x p l ps Hx _ IHl]; constructor.
    + destruct (serialize x) as [[tx|]|e] eqn:Ex; cbn [bind] in Hx;
        try discriminate; injection Hx as <-; [|reflexivity].
      apply (IH x (or_introl eq_refl) tx Ex). apply Hv. now left.
    + apply IHl; intros y Hy; [apply IH|apply Hv]; now right.
  - destruct (sequence _) as [parts|e] eqn:Es; cbn [bind] in Ht; [|discriminate].
    injection Ht as <-. split; [|reflexivity].
    apply sequence_map in Es.
    apply (well_formed_app (lit "{") (join (lit ",") (concat parts) ++ lit "}"));
      [reflexivity|].
    apply (well_formed_app (join (lit ",") (concat parts)) (lit "}"));
      [|reflexivity].
    apply join_well_formed; [reflexivity|].
    rewrite forallb_forall in Hv. rewrite List.Forall_forall in IH.
    clear -Es IH Hv. induction Es as [|x p l ps Hx _ IHl]; [constructor|].
    cbn [concat]. apply Forall_app. split.
    + destruct (serialize (snd x)) as [[tx|]|e] eqn:Ex; cbn [bind] in Hx;
        try discriminate; injection Hx as <-; [|constructor].
      constructor; [|constructor].
      assert (In x (x :: l)) as Hin by now left.
      specialize (Hv x Hin). apply andb_true_iff in Hv as [Hk Hx].
      apply (well_formed_app (quote (fst x)) (lit ":" ++ tx));
        [now apply quote_well_formed|].
      apply (well_formed_app (lit ":") tx); [reflexivity|].
      now apply (IH x Hin tx Ex).
    + apply IHl; intros y Hy; [apply IH|apply Hv]; now right.
Qed.

(** *** The stored payload *)

(** A unit that a JSON string holds as it is: not a control character,
    not a quote, not a backslash, not a surrogate. *)
Definition is_plain (u : Z) : bool :=
  (32 <=? u) && (u <? 55296) && negb (u =? 34) && negb (u =? 92).

Lemma is_plain_iff (u : Z) :
  is_plain u = true <-> 32 <= u < 55296 /\ u <> 34 /\ u <> 92.
Proof.
  unfold is_plain.
  rewrite !andb_true_iff, !negb_true_iff, Z.leb_le, Z.ltb_lt, !Z.eqb_neq. tauto.
Qed.

Lemma quote_body_plain (s : jsstring) :
  forallb is_plain s = true -> quote_body s = s.
Proof.
  induction s as [|u r IH]; [reflexivity|]. cbn [forallb quote_body].
  intros H. apply andb_true_iff in H as [Hu Hr]. apply is_plain_iff in Hu.
  unfold is_high, is_low, quote_unit. decide_cmp. cbn [andb app].
  now rewrite IH.
Qed.

Lemma parse_string_body_plain (s rest : jsstring) :
  forallb is_plain s = true ->
  parse_string_body (s ++ 34 :: rest) = Some (s, rest).
Proof.
  induction s as [|u r IH]; [reflexivity|]. cbn [forallb app parse_string_body].
  intros H. apply andb_true_iff in H as [Hu Hr]. apply is_plain_iff in Hu.
  decide_cmp. now rewrite IH.
Qed.

Lemma b64_encode_plain (bs : list Z) :
  forallb is_byte bs = true -> forallb is_plain (b64_encode bs) = true.
Proof.
  intros H. rewrite b64_encode_split, forallb_app. apply andb_true_iff. split.
  - apply forallb_forall. intros c Hc. apply in_map_iff in Hc as (i & <- & Hi).
    pose proof (sextets_range bs H) as Hr. rewrite List.Forall_forall in Hr.
    specialize (Hr i Hi). apply sextet_enum in Hr.
    assert (forallb (fun j => is_plain (b64_char j))
                    (List.map Z.of_nat (seq 0 64)) = true) as Hall
      by (vm_compute; reflexivity).
    rewrite forallb_forall in Hall. now apply Hall.
  - destruct (padding_cases bs) as [->|[->| ->]]; reflexivity.
Qed.

(** A text between double quotes. *)
Definition dq (s : jsstring) : jsstring := 34 :: s ++ [34].

(** The text that [set] stores for a payload. *)
Definition payload_text (e : EncryptedData) : jsstring :=
  lit "{" ++ dq (lit "iv") ++ lit ":" ++ dq (iv e) ++ lit ","
  ++ dq (lit "data") ++ lit ":" ++ dq (data e) ++ lit "}".

Definition payload_value (e : EncryptedData) : JsValue :=
  VObj [(lit "iv", VStr (iv e)); (lit "data", VStr (data e))].

Lemma stringify_payload (e : EncryptedData) :
  forallb is_plain (iv e) = true -> forallb is_plain (data e) = true ->
  JSON_stringify (payload_value e) = Return (Some (payload_text e)).
Proof.
  intros Hi Hd. unfold JSON_stringify, payload_value, payload_text.
  cbn [serialize List.map sequence bind fst snd concat app join quote].
  unfold quote.
  rewrite (quote_body_plain (iv e)), (quote_body_plain (data e)) by assumption.
  unfold dq. eval_lits. cbn. rewrite <- ?app_assoc. cbn.
  rewrite <- ?app_assoc. reflexivity.
Qed.

Lemma parse_value_string (f : nat) (s rest : jsstring) :
  forallb is_plain s = true ->
  parse_value (S f) (34 :: s ++ 34 :: rest) = Some (VStr s, rest).
Proof.
  intros H. cbn [parse_value skip_ws is_json_whitespace Z.eqb Pos.eqb orb].
  now rewrite parse_string_body_plain.
Qed.

Lemma parse_value_object (f : nat) (r : jsstring) :
  parse_value (S f) (123 :: 34 :: r) =
  match members_loop f (parse_value f) (34 :: r) with
  | Some (l, rest) => Some (VObj (fold_left define_prop l []), rest)
  | None => None
  end.
Proof. reflexivity. Qed.

Lemma members_loop_more (n : nat) (value : parser JsValue)
    (k r2 r4 : jsstring) (v : JsValue) :
  forallb is_plain k = true ->
  value r2 = Some (v, 44 :: r4) ->
  members_loop (S n) value (34 :: k ++ 34 :: 58 :: r2) =
  match members_loop n value r4 with
  | Some (l, rest) => Some ((k, v) :: l, rest)
  | None => None
  end.
Proof.
  intros Hk Hv.
  cbn [members_loop skip_ws is_json_whitespace Z.eqb Pos.eqb orb].
  rewrite parse_string_body_plain by exact Hk.
  cbn [skip_ws is_json_whitespace Z.eqb Pos.eqb orb]. rewrite Hv.
  reflexivity.
Qed.

Lemma members_loop_last (n : nat) (value : parser JsValue)
    (k r2 r4 : jsstring) (v : JsValue) :
  forallb is_plain k = true ->
  value r2 = Some (v, 125 :: r4) ->
  members_loop (S n) value (34 :: k ++ 34 :: 58 :: r2) = Some ([(k, v)], r4).
Proof.
  intros Hk Hv.
  cbn [members_loop skip_ws is_json_whitespace Z.eqb Pos.eqb orb].
  rewrite parse_string_body_plain by exact Hk.
  cbn [skip_ws is_json_whitespace Z.eqb Pos.eqb orb]. rewrite Hv.
  reflexivity.
Qed.

Lemma parse_payload (e : EncryptedData) :
  forallb is_plain (iv e) = true -> forallb is_plain (data e) = true ->
  JSON_parse (payload_text e) = Return (payload_value e).
Proof.
  intros Hi Hd. unfold JSON_parse, payload_text, payload_value.
  set (n := length _).
  assert (exists k, n = S (S (S k))) as [k ->].
  { subst n. unfold dq. eval_lits. cbn [app length]. eauto. }
  destruct e as [i d]. cbn [iv data] in *.
  unfold dq. eval_lits. cbn [app]. rewrite <- ?app_assoc. cbn [app].
  rewrite parse_value_object.
  pose proof (members_loop_more (S (S k)) (parse_value (S (S (S k)))) [105; 118]
                (34 :: i ++ 34 :: 44 :: 34 :: 100 :: 97 :: 116 :: 97 :: 34
                    :: 58 :: 34 :: d ++ [34; 125])
                (34 :: 100 :: 97 :: 116 :: 97 :: 34 :: 58 :: 34 :: d ++ [34; 125])
                (VStr i) eq_refl (parse_value_string _ _ _ Hi)) as H1.
  pose proof (members_loop_last (S k) (parse_value (S (S (S k)))) [100; 97; 116; 97]
                (34 :: d ++ [34; 125]) [] (VStr d) eq_refl
                (parse_value_string _ _ _ Hd)) as H2.
  cbn [app] in H1, H2. rewrite H1, H2. reflexivity.
Qed.

(** *** JSON.parse reads back what JSON.stringify prints *)

Lemma hex_value_digit (d : Z) :
  0 <= d < 16 -> hex_value (hex_digit d) = Some d.
Proof.
  intros Hd. unfold hex_value, hex_digit, is_digit.
  destruct (Z.ltb_spec d 10); decide_cmp; cbn [andb]; f_equal; lia.
Qed.

Lemma parse_unicode_escape (u : Z) (r : jsstring) :
  0 <= u < 65536 ->
  parse_string_body (unicode_escape u ++ r) = prepend u (parse_string_body r).
Proof.
  intros Hu. unfold unicode_escape. cbn [app parse_string_body].
  cbn [Z.eqb Pos.eqb].
  rewrite !hex_value_digit by dlia.
  f_equal. dlia.
Qed.

Lemma parse_quote_unit (u : Z) (r : jsstring) :
  0 <= u < 65536 ->
  parse_string_body (quote_unit u ++ r) = prepend u (parse_string_body r).
Proof.
  intros Hu. unfold quote_unit.
  destruct (Z.eqb_spec u 8) as [->|]; [reflexivity|].
  destruct (Z.eqb_spec u 9) as [->|]; [reflexivity|].
  destruct (Z.eqb_spec u 10) as [->|]; [reflexivity|].
  destruct (Z.eqb_spec u 12) as [->|]; [reflexivity|].
  destruct (Z.eqb_spec u 13) as [->|]; [reflexivity|].
  destruct (Z.eqb_spec u 34) as [->|]; [reflexivity|].
  destruct (Z.eqb_spec u 92) as [->|]; [reflexivity|].
  destruct (Z.ltb_spec u 32); [now apply parse_unicode_escape|].
  cbn [app parse_string_body]. decide_cmp. reflexivity.
Qed.

Lemma parse_literal_unit (u : Z) (r : jsstring) :
  32 <= u -> u <> 34 -> u <> 92 ->
  parse_string_body (u :: r) = prepend u (parse_string_body r).
Proof. intros H1 H2 H3. cbn [parse_string_body]. decide_cmp. reflexivity. Qed.

(** A quoted string is read back as the string. *)
Lemma parse_quote_body (n : nat) :
  forall s rest, (length s <= n)%nat -> forallb is_code_unit s = true ->
                 parse_string_body (quote_body s ++ 34 :: rest) = Some (s, rest).
Proof.
  induction n as [|n IH]; intros s rest Hlen Hs.
  { destruct s; [reflexivity|simpl in Hlen; lia]. }
  destruct s as [|u r]; [reflexivity|].
  simpl in Hlen. cbn [forallb] in Hs. apply andb_true_iff in Hs as [Hu Hr].
  apply is_code_unit_iff in Hu. cbn [quote_body].
  destruct (is_high u) eqn:Eh.
  - destruct r as [|v r'].
    + rewrite parse_unicode_escape by exact Hu. reflexivity.
    + destruct (is_low v) eqn:Ev.
      * cbn [forallb] in Hr. apply andb_true_iff in Hr as [Hv Hr'].
        apply is_high_iff in Eh. apply is_low_iff in Ev.
        cbn [app]. rewrite (parse_literal_unit u) by lia.
        rewrite (parse_literal_unit v) by lia.
        rewrite IH by (simpl in Hlen; lia || exact Hr'). reflexivity.
      * rewrite <- app_assoc, parse_unicode_escape by exact Hu.
        rewrite IH by (lia || exact Hr). reflexivity.
  - destruct (is_low u) eqn:El.
    + rewrite <- app_assoc, parse_unicode_escape by exact Hu.
      rewrite IH by (lia || exact Hr). reflexivity.
    + rewrite <- app_assoc, parse_quote_unit by exact Hu.
      rewrite IH by (lia || exact Hr). reflexivity.
Qed.

(** **** Numerals *)

Definition no_digit_head (rest : jsstring) : bool :=
  match rest with
  | [] => true
  | u :: _ => negb (is_digit u)
  end.

(** What may follow a numeral: nothing that would continue it. *)
Definition ends_number (rest : jsstring) : bool :=
  match rest with
  | [] => true
  | u :: _ =>
      negb (is_digit u) && negb (u =? 46) && negb (u =? 101) && negb (u =? 69)
  end.

Lemma is_digit_iff (u : Z) : is_digit u = true <-> 48 <= u <= 57.
Proof. unfold is_digit. rewrite andb_true_iff, !Z.leb_le. tauto. Qed.

Lemma span_digits_stop (rest : jsstring) :
  no_digit_head rest = true -> span_digits rest = ([], rest).
Proof.
  destruct rest as [|u r]; [reflexivity|]. cbn. intros H.
  apply negb_true_iff in H. now rewrite H.
Qed.

Lemma span_digits_all (a rest : jsstring) :
  forallb is_digit a = true -> no_digit_head rest = true ->
  span_digits (a ++ rest) = (a, rest).
Proof.
  intros Ha Hr. induction a as [|u a IH]; [now apply span_digits_stop|].
  cbn [forallb] in Ha. apply andb_true_iff in Ha as [Hu Ha].
  cbn [app span_digits]. now rewrite Hu, IH.
Qed.

Lemma fold_digits (b : jsstring) :
  forall acc,
    fold_left (fun a d => a * 10 + (d - 48)) b acc
    = acc * 10 ^ Z.of_nat (length b)
      + fold_left (fun a d => a * 10 + (d - 48)) b 0.
Proof.
  induction b as [|d b IH]; intros acc.
  - cbn. lia.
  - cbn [fold_left length]. rewrite IH, (IH (0 * 10 + (d - 48))).
    rewrite Nat2Z.inj_succ, Z.pow_succ_r by lia. ring.
Qed.

Lemma digits_value_app (a b : jsstring) :
  digits_value (a ++ b)
  = digits_value a * 10 ^ Z.of_nat (length b) + digits_value b.
Proof. unfold digits_value. rewrite fold_left_app. apply fold_digits. Qed.

Lemma digits_value_zeros (n : nat) : digits_value (repeat 48 n) = 0.
Proof.
  induction n as [|n IH]; [reflexivity|].
  change (repeat 48 (S n)) with ([48] ++ repeat 48 n).
  rewrite digits_value_app, IH. cbn. lia.
Qed.

Lemma uint_units_digit (u : Decimal.uint) :
  forallb is_digit (uint_units u) = true.
Proof. induction u; cbn; auto. Qed.

Lemma uint_value_acc (u : Decimal.uint) :
  forall acc : positive,
    fold_left (fun a d => a * 10 + (d - 48)) (uint_units u) (Z.pos acc)
    = Z.pos (Pos.of_uint_acc u acc).
Proof.
  induction u; intros acc; cbn [uint_units fold_left Pos.of_uint_acc];
    try reflexivity;
    match goal with
    | |- fold_left _ _ ?z = _ =>
        match goal with
        | |- _ = Z.pos (Pos.of_uint_acc _ ?p) =>
            replace z with (Z.pos p) by lia
        end
    end; apply IHu.
Qed.

Lemma uint_value (u : Decimal.uint) :
  digits_value (uint_units u) = Z.of_N (Pos.of_uint u).
Proof.
  unfold digits_value.
  induction u; cbn [uint_units fold_left Pos.of_uint]; try reflexivity;
    try (match goal with
         | |- fold_left _ _ ?z = Z.of_N (N.pos (Pos.of_uint_acc _ ?p)) =>
             replace z with (Z.pos p) by lia
         end; apply uint_value_acc).
  exact IHu.
Qed.

Lemma digits_digit (p : Z) : forallb is_digit (digits p) = true.
Proof. apply uint_units_digit. Qed.

Lemma digits_value_digits (p : Z) : 0 <= p -> digits_value (digits p) = p.
Proof.
  intros Hp. unfold digits. rewrite uint_value.
  destruct (Z.to_N p) as [|q] eqn:E.
  - cbn. lia.
  - cbn [N.to_uint]. rewrite DecimalPos.Unsigned.of_to. lia.
Qed.

Lemma nzhead_length (d : Decimal.uint) :
  (Decimal.nb_digits (Decimal.nzhead d) <= Decimal.nb_digits d)%nat.
Proof. induction d; cbn; lia. Qed.

(** The digits of a positive number do not start with a zero. *)
Lemma digits_head (p : Z) :
  0 < p -> exists d r, digits p = d :: r /\ d <> 48 /\ 48 <= d <= 57.
Proof.
  intros Hp. unfold digits. destruct (Z.to_N p) as [|q] eqn:E; [lia|].
  cbn [N.to_uint].
  assert (Decimal.unorm (Pos.to_uint q) = Pos.to_uint q) as Hn.
  { pose proof (DecimalPos.Unsigned.to_of (Pos.to_uint q)) as H.
    rewrite DecimalPos.Unsigned.of_to in H. now symmetry. }
  pose proof (DecimalPos.Unsigned.to_uint_nonzero q) as Hz.
  destruct (Pos.to_uint q) as [|d'|d'|d'|d'|d'|d'|d'|d'|d'|d'] eqn:Eq;
    cbn [uint_units];
    try (eexists _, _; split; [reflexivity|split; lia]).
  - now destruct (DecimalPos.Unsigned.to_uint_nonnil q).
  - exfalso. unfold Decimal.unorm in Hn. cbn [Decimal.nzhead] in Hn.
    pose proof (nzhead_length d') as Hl.
    destruct (Decimal.nzhead d') eqn:En.
    + injection Hn as <-. now apply Hz.
    + rewrite Hn in Hl. cbn in Hl. lia.
    + rewrite Hn in Hl. cbn in Hl. lia.
    + rewrite Hn in Hl. cbn in Hl. lia.
    + rewrite Hn in Hl. cbn in Hl. lia.
    + rewrite Hn in Hl. cbn in Hl. lia.
    + rewrite Hn in Hl. cbn in Hl. lia.
    + rewrite Hn in Hl. cbn in Hl. lia.
    + rewrite Hn in Hl. cbn in Hl. lia.
    + rewrite Hn in Hl. cbn in Hl. lia.
    + rewrite Hn in Hl. cbn in Hl. lia.
Qed.

Lemma strip_zeros_done (fuel : nat) (m x : Z) :
  m mod 10 <> 0 -> strip_zeros fuel m x = (m, x).
Proof.
  intros H. destruct fuel; [reflexivity|]. cbn.
  now replace (m mod 10 =? 0) with false by (symmetry; now apply Z.eqb_neq).
Qed.

Lemma strip_zeros_tens (j : nat) :
  forall (fuel : nat) (m x : Z),
    (j <= fuel)%nat -> m mod 10 <> 0 ->
    strip_zeros fuel (m * 10 ^ Z.of_nat j) x = (m, x + Z.of_nat j).
Proof.
  induction j as [|j IH]; intros fuel m x Hf Hm.
  - cbn [Z.of_nat]. rewrite Z.pow_0_r, Z.mul_1_r, Z.add_0_r.
    now apply strip_zeros_done.
  - destruct fuel as [|fuel]; [lia|]. cbn [strip_zeros].
    rewrite Nat2Z.inj_succ, Z.pow_succ_r by lia.
    replace (m * (10 * 10 ^ Z.of_nat j)) with (m * 10 ^ Z.of_nat j * 10) by ring.
    rewrite Z.mod_mul by lia. cbn [Z.eqb].
    rewrite Z.div_mul by lia. rewrite IH by (lia || exact Hm). f_equal. lia.
Qed.

Lemma ends_number_no_digit (rest : jsstring) :
  ends_number rest = true -> no_digit_head rest = true.
Proof.
  destruct rest as [|u r]; [reflexivity|]. cbn.
  rewrite !andb_true_iff. tauto.
Qed.

(** The text of a fraction and of an exponent, as the printer lays them
    out. *)
Definition frac_text (frac : jsstring) : jsstring :=
  match frac with
  | [] => []
  | _ :: _ => 46 :: frac
  end.

Definition exp_text (e : option Z) : jsstring :=
  match e with
  | None => []
  | Some e => 101 :: (if e <? 0 then 45 else 43) :: digits (Z.abs e)
  end.

Lemma parse_fraction_text (frac rest : jsstring) :
  forallb is_digit frac = true -> no_digit_head rest = true ->
  match rest with u :: _ => negb (u =? 46) | [] => true end = true ->
  parse_fraction (frac_text frac ++ rest) = Some (frac, rest).
Proof.
  intros Hf Hr Hdot. destruct frac as [|f fr].
  - cbn [frac_text app]. destruct rest as [|u r]; [reflexivity|].
    cbn [parse_fraction]. apply negb_true_iff in Hdot. now rewrite Hdot.
  - cbn [frac_text app parse_fraction]. cbn [Z.eqb Pos.eqb].
    change (f :: fr ++ rest) with ((f :: fr) ++ rest).
    now rewrite span_digits_all.
Qed.

Lemma parse_exponent_text (e : option Z) (rest : jsstring) :
  ends_number rest = true ->
  parse_exponent (exp_text e ++ rest)
  = Some (match e with Some e => e | None => 0 end, rest).
Proof.
  intros Hr. destruct e as [e|].
  - cbn [exp_text app parse_exponent]. cbn [Z.eqb Pos.eqb orb].
    pose proof (digits_nonempty (Z.abs e)) as Hn.
    pose proof (digits_value_digits (Z.abs e) (Z.abs_nonneg e)) as Hv.
    pose proof (digits_digit (Z.abs e)) as Hd.
    apply ends_number_no_digit in Hr.
    destruct (e <? 0) eqn:E; cbn [Z.eqb Pos.eqb];
      rewrite (span_digits_all _ _ Hd Hr);
      destruct (digits (Z.abs e)) as [|c ds] eqn:Eds; try congruence;
      rewrite Hv; do 2 f_equal.
    + apply Z.ltb_lt in E. lia.
    + apply Z.ltb_ge in E. lia.
  - cbn [exp_text app]. destruct rest as [|u r]; [reflexivity|].
    cbn [parse_exponent]. cbn [ends_number] in Hr.
    rewrite !andb_true_iff, !negb_true_iff in Hr.
    destruct Hr as [[[_ _] H1] H2]. now rewrite H1, H2.
Qed.

(** A numeral laid out as integer digits, fraction and exponent is read
    back as those parts. *)
Lemma parse_magnitude_parts (neg : bool) (d : Z) (more frac : jsstring)
    (e : option Z) (rest : jsstring) :
  forallb is_digit (d :: more) = true ->
  d <> 48 \/ more = [] ->
  forallb is_digit frac = true ->
  ends_number rest = true ->
  parse_magnitude neg ((d :: more) ++ frac_text frac ++ exp_text e ++ rest)
  = Some (make_number neg (d :: more) frac
            (match e with Some e => e | None => 0 end), rest).
Proof.
  intros Hi Hz Hf Hr. unfold parse_magnitude.
  assert (no_digit_head (exp_text e ++ rest) = true) as Hne.
  { destruct e; [reflexivity|]. now apply ends_number_no_digit. }
  assert (match exp_text e ++ rest with
          | u :: _ => negb (u =? 46) | [] => true end = true) as Hdot.
  { destruct e; [reflexivity|]. cbn [exp_text app].
    destruct rest as [|u r]; [reflexivity|]. cbn in Hr.
    rewrite !andb_true_iff in Hr. tauto. }
  assert (no_digit_head (frac_text frac ++ exp_text e ++ rest) = true) as Hnf.
  { destruct frac; [exact Hne|reflexivity]. }
  rewrite (span_digits_all _ _ Hi Hnf).
  replace ((d =? 48) && negb (Nat.eqb (length more) 0)) with false.
  2:{ destruct Hz as [Hz|Hz].
      - apply Z.eqb_neq in Hz. now rewrite Hz.
      - subst more. cbn. now rewrite andb_false_r. }
  rewrite (parse_fraction_text _ _ Hf Hne Hdot).
  now rewrite (parse_exponent_text _ _ Hr).
Qed.

Lemma make_number_value (neg : bool) (int frac : jsstring) (e p : Z) (j : nat) :
  0 < p -> p mod 10 <> 0 ->
  digits_value (int ++ frac) = p * 10 ^ Z.of_nat j ->
  (j <= length (int ++ frac))%nat ->
  make_number neg int frac e
  = Fin (if neg then - p else p) (e - Z.of_nat (length frac) + Z.of_nat j).
Proof.
  intros Hp Hm Hv Hj. unfold make_number. rewrite Hv.
  assert (0 < 10 ^ Z.of_nat j) as Hpow by (apply Z.pow_pos_nonneg; lia).
  replace (p * 10 ^ Z.of_nat j =? 0) with false by (symmetry; apply Z.eqb_neq; nia).
  now rewrite (strip_zeros_tens j _ p _ Hj Hm).
Qed.

Section Numerals.
Variables (neg : bool) (p x : Z) (d : Z) (more rest : jsstring).
Hypothesis Hp : 0 < p.
Hypothesis Hm : p mod 10 <> 0.
Hypothesis Hds : digits p = d :: more.
Hypothesis Hd : d <> 48.
Hypothesis Hrest : ends_number rest = true.

Let k : Z := Z.of_nat (length (digits p)).
Let n : Z := k + x.

Lemma numeral_digits : forallb is_digit (d :: more) = true.
Proof. rewrite <- Hds. apply digits_digit. Qed.

Lemma numeral_value : digits_value (d :: more) = p.
Proof. rewrite <- Hds. apply digits_value_digits. lia. Qed.

Lemma numeral_length : k = Z.of_nat (S (length more)).
Proof. unfold k. now rewrite Hds. Qed.

(** [ds 0...0] *)
Lemma parse_integer_form :
  0 <= x ->
  parse_magnitude neg ((digits p ++ repeat 48 (Z.to_nat (n - k))) ++ rest)
  = Some (Fin (if neg then - p else p) x, rest).
Proof.
  intros Hx. replace (n - k) with x by (unfold n; lia). rewrite Hds.
  pose proof numeral_digits as Hdig.
  pose proof (parse_magnitude_parts neg d (more ++ repeat 48 (Z.to_nat x)) []
                None rest) as H.
  cbn [frac_text exp_text app] in H. cbn [app]. rewrite H; clear H.
  - f_equal. f_equal.
    rewrite (make_number_value _ _ _ _ p (Z.to_nat x)); try assumption.
    + f_equal. cbn [length]. lia.
    + rewrite app_nil_r.
      change (d :: more ++ repeat 48 (Z.to_nat x))
        with ((d :: more) ++ repeat 48 (Z.to_nat x)).
      rewrite digits_value_app, numeral_value, digits_value_zeros.
      rewrite repeat_length. lia.
    + rewrite app_nil_r. cbn [length]. rewrite length_app, repeat_length. lia.
  - change (d :: more ++ repeat 48 (Z.to_nat x))
      with ((d :: more) ++ repeat 48 (Z.to_nat x)).
    rewrite forallb_app, Hdig. now rewrite forallb_repeat.
  - now left.
  - reflexivity.
  - exact Hrest.
Qed.

(** [d...d.d...d] *)
Lemma parse_fraction_form :
  0 < n -> n < k ->
  parse_magnitude neg
    ((firstn (Z.to_nat n) (digits p) ++ 46 :: skipn (Z.to_nat n) (digits p))
       ++ rest)
  = Some (Fin (if neg then - p else p) x, rest).
Proof.
  intros Hn Hk. pose proof numeral_length as Hlen.
  pose proof numeral_digits as Hdig. pose proof numeral_value as Hval.
  rewrite Hds.
  destruct (Z.to_nat n) as [|i] eqn:Ei; [lia|].
  assert (i < length more)%nat as Hi by lia.
  cbn [firstn skipn].
  destruct (skipn i more) as [|f fr] eqn:Es.
  { apply (f_equal (@length Z)) in Es. rewrite length_skipn in Es.
    cbn in Es. lia. }
  pose proof (parse_magnitude_parts neg d (firstn i more) (f :: fr) None rest)
    as H.
  cbn [frac_text exp_text app] in H. cbn [app]. rewrite <- app_assoc.
  cbn [app]. rewrite H; clear H.
  - f_equal. f_equal.
    rewrite (make_number_value _ _ _ _ p 0); try assumption.
    + f_equal. rewrite <- Es, length_skipn. lia.
    + change ((d :: firstn i more) ++ f :: fr)
        with (d :: (firstn i more ++ f :: fr)).
      rewrite <- Es, firstn_skipn, Hval. cbn. lia.
    + lia.
  - change (d :: firstn i more) with (firstn (S i) (d :: more)).
    now apply forallb_firstn.
  - now left.
  - rewrite <- Es. apply forallb_skipn.
    cbn [forallb] in Hdig. now apply andb_true_iff in Hdig as [_ ?].
  - exact Hrest.
Qed.

(** [0.0...0d...d] *)
Lemma parse_small_form :
  n <= 0 ->
  parse_magnitude neg
    ((48 :: 46 :: repeat 48 (Z.to_nat (- n)) ++ digits p) ++ rest)
  = Some (Fin (if neg then - p else p) x, rest).
Proof.
  intros Hn. pose proof numeral_length as Hlen.
  pose proof numeral_digits as Hdig. pose proof numeral_value as Hval.
  rewrite Hds.
  destruct (repeat 48 (Z.to_nat (- n)) ++ d :: more) as [|f fr] eqn:Ef.
  { now destruct (repeat 48 (Z.to_nat (- n))). }
  pose proof (parse_magnitude_parts neg 48 [] (f :: fr) None rest) as H.
  cbn [frac_text exp_text app] in H. cbn [app]. rewrite H; clear H.
  - f_equal. f_equal.
    rewrite (make_number_value _ _ _ _ p 0); try assumption.
    + f_equal. rewrite <- Ef, length_app, repeat_length. cbn [length]. lia.
    + rewrite <- Ef.
      rewrite (digits_value_app [48]), digits_value_app.
      rewrite digits_value_zeros, Hval. cbn. lia.
    + lia.
  - reflexivity.
  - now right.
  - rewrite <- Ef, forallb_app, Hdig. now rewrite forallb_repeat.
  - exact Hrest.
Qed.

(** [d.d...de+dd] or [de-dd] *)
Lemma parse_exponent_form :
  parse_magnitude neg
    (((if k =? 1 then digits p
       else firstn 1 (digits p) ++ 46 :: skipn 1 (digits p))
      ++ 101 :: (if n - 1 <? 0 then 45 else 43) :: digits (Z.abs (n - 1)))
       ++ rest)
  = Some (Fin (if neg then - p else p) x, rest).
Proof.
  pose proof numeral_length as Hlen.
  pose proof numeral_digits as Hdig. pose proof numeral_value as Hval.
  rewrite Hds.
  pose proof (parse_magnitude_parts neg d [] more (Some (n - 1)) rest) as H.
  cbn [frac_text exp_text app] in H.
  assert (forallb is_digit [d] = true /\ forallb is_digit more = true)
    as [Hd1 Hmore].
  { cbn [forallb] in *. apply andb_true_iff in Hdig as [-> ?]. now split. }
  assert (make_number neg [d] more (n - 1) = Fin (if neg then - p else p) x)
    as Hnum.
  { rewrite (make_number_value _ _ _ _ p 0); try assumption.
    - f_equal. unfold n. lia.
    - cbn [app]. rewrite Hval. cbn. lia.
    - lia. }
  specialize (H Hd1 (or_intror eq_refl) Hmore Hrest).
  destruct (k =? 1) eqn:Ek.
  - apply Z.eqb_eq in Ek. destruct more as [|m0 more']; [|cbn in Hlen; lia].
    cbn [frac_text app] in H. cbn [app]. now rewrite H, Hnum.
  - apply Z.eqb_neq in Ek. destruct more as [|m0 more']; [cbn in Hlen; lia|].
    cbn [firstn skipn app]. rewrite <- ?app_assoc. cbn [app].
    cbn [frac_text app] in H. now rewrite H, Hnum.
Qed.

End Numerals.

(** The decimals that the number model keeps: no trailing zero in the
    mantissa, and zero written one way. *)
Definition canonical (m x : Z) : bool :=
  if m =? 0 then x =? 0 else negb (m mod 10 =? 0).

Lemma parse_magnitude_finite (m x : Z) (rest : jsstring) :
  m <> 0 -> m mod 10 <> 0 -> ends_number rest = true ->
  exists body,
    finite_to_string m x = (if m <? 0 then 45 :: body else body)
    /\ match body with u :: _ => is_digit u | [] => false end = true
    /\ parse_magnitude (m <? 0) (body ++ rest)
       = Some (Fin m x, rest).
Proof.
  intros Hm0 Hm Hrest.
  assert (0 < Z.abs m) as Hp by lia.
  assert (Z.abs m mod 10 <> 0) as Hmp by dlia.
  destruct (digits_head (Z.abs m) Hp) as (d & more & Hds & Hd & Hrange).
  assert ((if m <? 0 then - Z.abs m else Z.abs m) = m) as Hsign.
  { destruct (m <? 0) eqn:E; [apply Z.ltb_lt in E|apply Z.ltb_ge in E]; lia. }
  assert (is_digit d = true) as Hdig by now apply is_digit_iff.
  unfold finite_to_string.
  replace (m =? 0) with false by (symmetry; now apply Z.eqb_neq).
  cbv zeta. eval_lits.
  set (k := Z.of_nat (length (digits (Z.abs m)))).
  assert (1 <= k) as Hk by (unfold k; rewrite Hds; cbn [length]; lia).
  eexists. split; [destruct (m <? 0); reflexivity|].
  destruct ((k <=? k + x) && (k + x <=? 21)) eqn:E1;
    [|destruct ((0 <? k + x) && (k + x <=? 21)) eqn:E2;
      [|destruct ((-6 <? k + x) && (k + x <=? 0)) eqn:E3]].
  - apply andb_true_iff in E1 as [E1 _]. apply Z.leb_le in E1. split.
    + now rewrite Hds.
    + pose proof (parse_integer_form (m <? 0) (Z.abs m) x d more rest
                    Hp Hmp Hds Hd Hrest) as H.
      rewrite Hsign in H. apply H. lia.
  - apply andb_true_iff in E2 as [E2 E2']. apply Z.ltb_lt in E2.
    apply Z.leb_le in E2'.
    assert (k + x < k) as Hlt.
    { apply andb_false_iff in E1 as [E1|E1]; apply Z.leb_gt in E1; lia. }
    split.
    + rewrite Hds. destruct (Z.to_nat (k + x)) eqn:E; [lia|]. exact Hdig.
    + pose proof (parse_fraction_form (m <? 0) (Z.abs m) x d more rest
                    Hp Hmp Hds Hd Hrest) as H.
      rewrite Hsign in H. now apply H.
  - apply andb_true_iff in E3 as [_ E3]. apply Z.leb_le in E3. split.
    + reflexivity.
    + pose proof (parse_small_form (m <? 0) (Z.abs m) x d more rest
                    Hp Hmp Hds Hrest) as H.
      rewrite Hsign in H. now apply H.
  - split.
    + rewrite Hds. destruct (k =? 1); exact Hdig.
    + pose proof (parse_exponent_form (m <? 0) (Z.abs m) x d more rest
                    Hp Hmp Hds Hrest) as H.
      rewrite Hsign in H. fold k in H. cbn [app] in H |- *.
      destruct (k + x - 1 <? 0); exact H.
Qed.

(** Number::toString of a decimal is read back as that decimal. *)
Lemma parse_number_finite (m x : Z) (rest : jsstring) :
  canonical m x = true -> ends_number rest = true ->
  parse_number (finite_to_string m x ++ rest) = Some (Fin m x, rest).
Proof.
  unfold canonical. intros Hc Hrest. destruct (m =? 0) eqn:E0.
  - apply Z.eqb_eq in E0, Hc. subst m x.
    change (finite_to_string 0 0) with [48]. cbn [app parse_number].
    cbn [Z.eqb Pos.eqb].
    exact (parse_magnitude_parts false 48 [] [] None rest
             eq_refl (or_intror eq_refl) eq_refl Hrest).
  - apply Z.eqb_neq in E0. apply negb_true_iff, Z.eqb_neq in Hc.
    destruct (parse_magnitude_finite m x rest E0 Hc Hrest)
      as (body & -> & Hhead & Hparse).
    destruct body as [|u body]; [discriminate|].
    assert ((u =? 45) = false) as Hu.
    { apply is_digit_iff in Hhead. apply Z.eqb_neq. lia. }
    destruct (m <? 0); cbn [app parse_number] in *.
    + exact Hparse.
    + now rewrite Hu.
Qed.

(** **** Property order *)

Definition index_below (i : Z) (p : jsstring * JsValue) : bool :=
  match array_index (fst p) with
  | Some j => j <? i
  | None => false
  end.

(** Defining the key on an object with these properties puts it last:
    the key is new, and an index key only follows smaller index keys. *)
Definition appends (props : list (jsstring * JsValue)) (k : jsstring) : bool :=
  negb (has_prop k props)
  && match array_index k with
     | Some i => forallb (index_below i) props
     | None => true
     end.

(** The properties are listed in the order in which an object that
    receives them one by one enumerates them. *)
Fixpoint in_order (seen props : list (jsstring * JsValue)) : bool :=
  match props with
  | [] => true
  | p :: r => appends seen (fst p) && in_order (seen ++ [p]) r
  end.

Lemma insert_index_last (i : Z) (k : jsstring) (v : JsValue)
    (props : list (jsstring * JsValue)) :
  forallb (index_below i) props = true ->
  insert_index i k v props = props ++ [(k, v)].
Proof.
  induction props as [|[k' v'] r IH]; [reflexivity|].
  cbn [forallb insert_index app]. intros H.
  apply andb_true_iff in H as [Hk Hr]. unfold index_below in Hk.
  cbn [fst] in Hk. destruct (array_index k') as [j|]; [|discriminate].
  now rewrite Hk, IH.
Qed.

Lemma define_prop_last (props : list (jsstring * JsValue)) (k : jsstring)
    (v : JsValue) :
  appends props k = true -> define_prop props (k, v) = props ++ [(k, v)].
Proof.
  unfold appends, define_prop. intros H.
  apply andb_true_iff in H as [Hnew Hidx]. apply negb_true_iff in Hnew.
  rewrite Hnew. destruct (array_index k) as [i|]; [|reflexivity].
  now apply insert_index_last.
Qed.

Lemma fold_define_prop (l : list (jsstring * JsValue)) :
  forall seen, in_order seen l = true ->
               fold_left define_prop l seen = seen ++ l.
Proof.
  induction l as [|[k v] r IH]; intros seen H.
  - now rewrite app_nil_r.
  - cbn [in_order fst] in H. apply andb_true_iff in H as [Hk Hr].
    cbn [fold_left]. rewrite (define_prop_last _ _ _ Hk), (IH _ Hr).
    now rewrite <- app_assoc.
Qed.

(** **** The values that JSON carries unchanged *)

(** No [undefined], BigInt, [NaN], infinity or negative zero anywhere;
    strings of code units; properties in enumeration order. *)
Fixpoint faithful (v : JsValue) : bool :=
  match v with
  | VNull => true
  | VBool _ => true
  | VNum (Fin m x) => canonical m x
  | VStr s => forallb is_code_unit s
  | VArr items => forallb faithful items
  | VObj props =>
      forallb (fun p => forallb is_code_unit (fst p) && faithful (snd p)) props
      && in_order [] props
  | _ => false
  end.

(** The text of a faithful value. *)
Fixpoint text_of (v : JsValue) : jsstring :=
  match v with
  | VBool true => lit "true"
  | VBool false => lit "false"
  | VNum (Fin m x) => finite_to_string m x
  | VStr s => quote s
  | VArr items => lit "[" ++ join (lit ",") (List.map text_of items) ++ lit "]"
  | VObj props =>
      lit "{"
      ++ join (lit ",")
              (List.map (fun p => quote (fst p) ++ lit ":" ++ text_of (snd p))
                        props)
      ++ lit "}"
  | _ => lit "null"
  end.

Lemma sequence_returns {A B} (f : A -> completion B) (g : A -> B) (l : list A) :
  List.Forall (fun a => f a = Return (g a)) l ->
  sequence (List.map f l) = Return (List.map g l).
Proof.
  induction 1 as [|a l Ha _ IH]; [reflexivity|].
  cbn [List.map sequence]. now rewrite Ha, IH.
Qed.

Lemma concat_singletons {A B} (g : A -> B) (l : list A) :
  concat (List.map (fun a => [g a]) l) = List.map g l.
Proof. induction l as [|a l IH]; [reflexivity|]. cbn. now rewrite IH. Qed.

Lemma faithful_well_typed (v : JsValue) : faithful v = true -> well_typed v = true.
Proof.
  induction v as [| |b|n|z|s|items IH|props IH] using JsValue_induction;
    cbn [faithful well_typed]; try reflexivity; try discriminate.
  - auto.
  - rewrite !forallb_forall. rewrite List.Forall_forall in IH. auto.
  - intros H. apply andb_true_iff in H as [H _]. revert H.
    rewrite !forallb_forall. rewrite List.Forall_forall in IH.
    intros H p Hp. specialize (H p Hp). apply andb_true_iff in H as [Hk Hv].
    rewrite Hk. now apply IH.
Qed.

Lemma serialize_faithful (v : JsValue) :
  faithful v = true -> serialize v = Return (Some (text_of v)).
Proof.
  induction v as [| |b|n|z|s|items IH|props IH] using JsValue_induction;
    cbn [faithful serialize text_of]; try discriminate; try reflexivity.
  - now destruct b.
  - now destruct n.
  - intros H. rewrite forallb_forall in H. rewrite List.Forall_forall in IH.
    rewrite (sequence_returns _ text_of); [reflexivity|].
    apply List.Forall_forall. intros x Hx. now rewrite (IH x Hx (H x Hx)).
  - intros H. apply andb_true_iff in H as [H _].
    rewrite forallb_forall in H. rewrite List.Forall_forall in IH.
    rewrite (sequence_returns _
               (fun p => [quote (fst p) ++ lit ":" ++ text_of (snd p)])).
    + cbn [bind]. now rewrite concat_singletons.
    + apply List.Forall_forall. intros p Hp. specialize (H p Hp).
      apply andb_true_iff in H as [_ Hv]. now rewrite (IH p Hp Hv).
Qed.

(** **** Reading a printed value back *)

(** The first character of a value's text: no whitespace, and not a
    closing bracket. *)
Definition value_led (t : jsstring) : bool :=
  match t with
  | u :: _ => negb (is_json_whitespace u) && negb (u =? 93)
  | [] => false
  end.

Lemma finite_to_string_led (m x : Z) :
  canonical m x = true ->
  exists u r, finite_to_string m x = u :: r
              /\ (u = 45 \/ is_digit u = true).
Proof.
  unfold canonical. intros Hc. destruct (m =? 0) eqn:E0.
  - apply Z.eqb_eq in E0. subst m. exists 48, []. split; [reflexivity|now right].
  - apply Z.eqb_neq in E0. apply negb_true_iff, Z.eqb_neq in Hc.
    destruct (parse_magnitude_finite m x [] E0 Hc eq_refl)
      as (body & -> & Hhead & _).
    destruct body as [|u body]; [discriminate|].
    destruct (m <? 0); eauto.
Qed.

Lemma text_of_led (v : JsValue) : faithful v = true -> value_led (text_of v) = true.
Proof.
  destruct v as [| |b|n|z|s|items|props]; cbn [faithful text_of];
    try discriminate; try reflexivity.
  - now destruct b.
  - destruct n as [| | | |m x]; try discriminate. intros Hc.
    destruct (finite_to_string_led m x Hc) as (u & r & -> & [->|Hu]);
      [reflexivity|].
    apply is_digit_iff in Hu. unfold value_led, is_json_whitespace.
    decide_cmp. reflexivity.
Qed.

(** A numeral is read by the number parser. *)
Lemma parse_value_number (f : nat) (u : Z) (r : jsstring) :
  u = 45 \/ is_digit u = true ->
  parse_value (S f) (u :: r) =
  match parse_number (u :: r) with
  | Some (n, rest) => Some (VNum n, rest)
  | None => None
  end.
Proof.
  intros [->|Hu]; [reflexivity|]. apply is_digit_iff in Hu.
  cbn [parse_value skip_ws]. unfold is_json_whitespace. decide_cmp.
  cbn [orb]. decide_cmp. reflexivity.
Qed.

Lemma join_cons (sep t : jsstring) (l : list jsstring) :
  l <> [] -> join sep (t :: l) = t ++ sep ++ join sep l.
Proof. destruct l; [congruence|reflexivity]. Qed.

Lemma join_length_in (sep t : jsstring) (l : list jsstring) :
  In t l -> (length t <= length (join sep l))%nat.
Proof.
  induction l as [|a l IH]; [contradiction|].
  intros [->|Hin].
  - destruct l; cbn [join]; rewrite ?length_app; lia.
  - specialize (IH Hin). destruct l as [|b l]; [contradiction|].
    cbn [join] in *. rewrite !length_app. lia.
Qed.

Lemma join_length_count (c : Z) (l : list jsstring) :
  (length l <= S (length (join [c] l)))%nat.
Proof.
  induction l as [|a l IH]; [cbn; lia|].
  destruct l as [|b l]; [cbn; lia|].
  cbn [join] in *. rewrite !length_app. cbn [length] in *. lia.
Qed.

Lemma items_loop_texts (value : parser JsValue) (rest : jsstring)
    (items : list JsValue) :
  forall n,
    items <> [] -> (length items <= n)%nat ->
    List.Forall (fun v => forall rest', ends_number rest' = true ->
                            value (text_of v ++ rest') = Some (v, rest')) items ->
    items_loop n value (join (lit ",") (List.map text_of items) ++ 93 :: rest)
    = Some (items, rest).
Proof.
  induction items as [|v items IH]; intros n Hne Hn Hall; [congruence|].
  destruct n as [|n]; [cbn in Hn; lia|].
  apply List.Forall_cons_iff in Hall as [Hv Hall].
  destruct items as [|w items].
  - cbn [List.map join items_loop].
    rewrite (Hv (93 :: rest) eq_refl). reflexivity.
  - change (List.map text_of (v :: w :: items))
      with (text_of v :: List.map text_of (w :: items)).
    rewrite join_cons by discriminate. eval_lits.
    rewrite <- !app_assoc. cbn [app items_loop].
    rewrite (Hv (44 :: _) eq_refl).
    cbn [skip_ws is_json_whitespace Z.eqb Pos.eqb orb].
    rewrite IH; [reflexivity|discriminate|cbn [length] in *; lia|exact Hall].
Qed.

Definition member_text (p : jsstring * JsValue) : jsstring :=
  quote (fst p) ++ lit ":" ++ text_of (snd p).

Lemma members_loop_texts (value : parser JsValue) (rest : jsstring)
    (props : list (jsstring * JsValue)) :
  forall n,
    props <> [] -> (length props <= n)%nat ->
    List.Forall (fun p => forallb is_code_unit (fst p) = true
                          /\ forall rest', ends_number rest' = true ->
                               value (text_of (snd p) ++ rest')
                               = Some (snd p, rest')) props ->
    members_loop n value
      (join (lit ",") (List.map member_text props) ++ 125 :: rest)
    = Some (props, rest).
Proof.
  induction props as [|[k v] props IH]; intros n Hne Hn Hall; [congruence|].
  destruct n as [|n]; [cbn in Hn; lia|].
  apply List.Forall_cons_iff in Hall as [[Hk Hv] Hall]. cbn [fst snd] in Hk, Hv.
  destruct props as [|q props].
  - cbn [List.map join]. unfold member_text, quote. cbn [fst snd].
    eval_lits. cbn [app]. rewrite <- !app_assoc. cbn [app members_loop].
    cbn [skip_ws is_json_whitespace Z.eqb Pos.eqb orb].
    rewrite (parse_quote_body (length k)) by (lia || exact Hk).
    cbn [skip_ws is_json_whitespace Z.eqb Pos.eqb orb].
    rewrite (Hv (125 :: rest) eq_refl). reflexivity.
  - change (List.map member_text ((k, v) :: q :: props))
      with (member_text (k, v) :: List.map member_text (q :: props)).
    rewrite join_cons by discriminate.
    unfold member_text at 1, quote. cbn [fst snd].
    eval_lits. cbn [app]. rewrite <- !app_assoc. cbn [app members_loop].
    cbn [skip_ws is_json_whitespace Z.eqb Pos.eqb orb].
    rewrite (parse_quote_body (length k)) by (lia || exact Hk).
    cbn [skip_ws is_json_whitespace Z.eqb Pos.eqb orb].
    rewrite (Hv (44 :: _) eq_refl).
    cbn [skip_ws is_json_whitespace Z.eqb Pos.eqb orb].
    rewrite IH; [reflexivity|discriminate|cbn [length] in *; lia|exact Hall].
Qed.

Lemma skip_ws_led (t rest : jsstring) :
  value_led t = true ->
  exists u r, t ++ rest = u :: r /\ skip_ws (t ++ rest) = u :: r
              /\ (u =? 93) = false.
Proof.
  destruct t as [|u r]; [discriminate|]. cbn [value_led app skip_ws].
  intros H. apply andb_true_iff in H as [Hw Hb].
  apply negb_true_iff in Hw, Hb. rewrite Hw. eauto.
Qed.

(** The parser reads the text of a faithful value back as that value,
    whatever follows it that cannot continue a numeral, once the fuel
    exceeds the length of the text. *)
Lemma parse_text_of (v : JsValue) :
  faithful v = true ->
  forall fuel rest,
    (length (text_of v) < fuel)%nat -> ends_number rest = true ->
    parse_value fuel (text_of v ++ rest) = Some (v, rest).
Proof.
  induction v as [| |b|n|z|s|items IH|props IH] using JsValue_induction;
    cbn [faithful]; try discriminate; intros Hv fuel rest Hfuel Hrest;
    (destruct fuel as [|f]; [lia|]).
  - reflexivity.
  - destruct b; reflexivity.
  - destruct n as [| | | |m x]; try discriminate. cbn [text_of].
    destruct (finite_to_string_led m x Hv) as (u & r & E & Hu).
    pose proof (parse_number_finite m x rest Hv Hrest) as Hp.
    rewrite E in *. cbn [app] in *.
    now rewrite (parse_value_number f u _ Hu), Hp.
  - cbn [text_of]. unfold quote. cbn [app]. rewrite <- app_assoc.
    cbn [app parse_value skip_ws is_json_whitespace Z.eqb Pos.eqb orb].
    now rewrite (parse_quote_body (length s)) by (lia || exact Hv).
  - destruct items as [|v items]; [reflexivity|].
    cbn [text_of] in *. rewrite !length_app in Hfuel.
    change (length (lit "[")) with 1%nat in Hfuel.
    change (length (lit "]")) with 1%nat in Hfuel.
    eval_lits. cbn [app]. rewrite <- app_assoc.
    cbn [app parse_value skip_ws is_json_whitespace Z.eqb Pos.eqb orb].
    set (texts := List.map text_of (v :: items)) in *.
    assert (value_led (join [44] texts) = true) as Hled.
    { subst texts. cbn [forallb] in Hv. apply andb_true_iff in Hv as [Hv0 _].
      apply text_of_led in Hv0. cbn [List.map].
      destruct (text_of v) as [|u r]; [discriminate|].
      destruct (List.map text_of items); exact Hv0. }
    destruct (skip_ws_led _ (93 :: rest) Hled) as (u & r & _ & -> & ->).
    change [44] with (lit ",") in *. subst texts.
    rewrite items_loop_texts; [reflexivity|discriminate| |].
    + pose proof (join_length_count 44 (List.map text_of (v :: items))) as Hc.
      rewrite length_map in Hc. change [44] with (lit ",") in Hc.
      cbn [length] in *. lia.
    + rewrite forallb_forall in Hv. rewrite List.Forall_forall in IH.
      apply List.Forall_forall. intros w Hw rest' Hrest'.
      apply (IH w Hw (Hv w Hw)); [|exact Hrest'].
      pose proof (join_length_in (lit ",") (text_of w)
                    (List.map text_of (v :: items)) (in_map _ _ _ Hw)) as Hl.
      cbn [length] in *. lia.
  - apply andb_true_iff in Hv as [Hv Hord].
    destruct props as [|p props]; [reflexivity|].
    cbn [text_of] in *. fold member_text in *. rewrite !length_app in Hfuel.
    change (length (lit "{")) with 1%nat in Hfuel.
    change (length (lit "}")) with 1%nat in Hfuel.
    eval_lits. cbn [app]. rewrite <- app_assoc.
    cbn [app parse_value skip_ws is_json_whitespace Z.eqb Pos.eqb orb].
    set (texts := List.map member_text (p :: props)) in *.
    assert (exists r, join [44] texts = 34 :: r) as [r Er].
    { subst texts. cbn [List.map]. unfold member_text at 1, quote.
      destruct (List.map member_text props); cbn [join app]; eauto. }
    rewrite Er. cbn [app skip_ws is_json_whitespace Z.eqb Pos.eqb orb].
    change (34 :: r ++ 125 :: rest) with ((34 :: r) ++ 125 :: rest).
    rewrite <- Er. change [44] with (lit ",") in *. subst texts.
    rewrite members_loop_texts.
    + now rewrite (fold_define_prop _ [] Hord).
    + discriminate.
    + pose proof (join_length_count 44 (List.map member_text (p :: props))) as Hc.
      rewrite length_map in Hc. change [44] with (lit ",") in Hc.
      cbn [length] in *. lia.
    + rewrite forallb_forall in Hv. rewrite List.Forall_forall in IH.
      apply List.Forall_forall. intros q Hq. specialize (Hv q Hq).
      apply andb_true_iff in Hv as [Hk Hq']. split; [exact Hk|].
      intros rest' Hrest'. apply (IH q Hq Hq'); [|exact Hrest'].
      pose proof (join_length_in (lit ",") (member_text q)
                    (List.map member_text (p :: props)) (in_map _ _ _ Hq)) as Hl.
      unfold member_text at 1 in Hl. rewrite !length_app in Hl.
      cbn [length] in *. lia.
Qed.

Lemma JSON_parse_text_of (v : JsValue) :
  faithful v = true -> JSON_parse (text_of v) = Return v.
Proof.
  intros Hv. unfold JSON_parse.
  pose proof (parse_text_of v Hv (S (length (text_of v))) []
                (Nat.lt_succ_diag_r _) eq_refl) as H.
  rewrite app_nil_r in H. now rewrite H.
Qed.

(** [JSON.parse(JSON.stringify(v))] is [v] for a faithful value. *)
Lemma JSON_roundtrip (v : JsValue) :
  faithful v = true ->
  exists json, JSON_stringify v = Return (Some json)
               /\ JSON_parse json = Return v.
Proof.
  intros Hv. exists (text_of v).
  split; [now apply serialize_faithful|now apply JSON_parse_text_of].
Qed.

(** **** The fuel of the parser *)

(** Every parser consumes what it reads. *)
Lemma skip_ws_length (s : jsstring) : (length (skip_ws s) <= length s)%nat.
Proof.
  induction s as [|u r IH]; [reflexivity|]. cbn [skip_ws].
  destruct (is_json_whitespace u); cbn [length]; lia.
Qed.

Lemma parse_string_body_length (s : jsstring) :
  forall t r, parse_string_body s = Some (t, r) -> (length r < length s)%nat.
Proof.
  induction s as [s IH] using (induction_ltof1 _ (@length Z)).
  unfold ltof in IH. intros t r. destruct s as [|u s1]; [discriminate|].
  cbn [parse_string_body].
  assert (forall c s' p, (length s' < length (u :: s1))%nat ->
            prepend c (parse_string_body s') = Some p ->
            (length (snd p) < length s')%nat) as Hpre.
  { intros c s' [t' r'] Hlt. destruct (parse_string_body s') as [[t0 r0]|] eqn:E;
      [|discriminate]. cbn [prepend]. intros [= _ <-]. cbn [snd].
    exact (IH s' Hlt t0 r0 E). }
  destruct (u =? 34); [intros [= _ <-]; cbn; lia|].
  destruct (u =? 92).
  - destruct s1 as [|e r1]; [discriminate|].
    destruct (e =? 117).
    + destruct r1 as [|a [|b [|c [|d r2]]]]; try discriminate.
      destruct (hex_value a), (hex_value b), (hex_value c), (hex_value d);
        try discriminate.
      intros H. apply (Hpre _ r2 (t, r)) in H; cbn [length snd] in *; lia.
    + destruct (unescape e); [|discriminate].
      intros H. apply (Hpre _ r1 (t, r)) in H; cbn [length snd] in *; lia.
  - destruct (u <? 32); [discriminate|].
    intros H. apply (Hpre _ s1 (t, r)) in H; cbn [length snd] in *; lia.
Qed.

Lemma span_digits_length (s : jsstring) :
  forall ds r, span_digits s = (ds, r) -> length s = (length ds + length r)%nat.
Proof.
  induction s as [|u s IH]; intros ds r; cbn [span_digits].
  - now intros [= <- <-].
  - destruct (is_digit u); [|now intros [= <- <-]].
    destruct (span_digits s) as [ds' r'] eqn:E. intros [= <- <-].
    cbn [length]. now rewrite (IH ds' r' eq_refl).
Qed.

Lemma parse_fraction_length (s : jsstring) :
  forall ds r, parse_fraction s = Some (ds, r) -> (length r <= length s)%nat.
Proof.
  intros ds r. unfold parse_fraction. destruct s as [|u s1]; [now intros [= _ <-]|].
  destruct (u =? 46); [|now intros [= _ <-]].
  destruct (span_digits s1) as [ds' r'] eqn:E. apply span_digits_length in E.
  destruct ds'; [discriminate|]. intros [= _ <-]. cbn [length] in *. lia.
Qed.

Lemma parse_exponent_length (s : jsstring) :
  forall e r, parse_exponent s = Some (e, r) -> (length r <= length s)%nat.
Proof.
  intros e r. unfold parse_exponent. destruct s as [|u s1]; [now intros [= _ <-]|].
  destruct ((u =? 101) || (u =? 69)); [|now intros [= _ <-]].
  assert (forall r1, (length r1 <= length s1)%nat ->
            match (let '(ds, r2) := span_digits r1 in
                   match ds with
                   | [] => None
                   | _ :: _ => Some (ds, r2)
                   end) with
            | Some (_, r2) => (length r2 <= length (u :: s1))%nat
            | None => True
            end) as Hsp.
  { intros r1 Hr1. destruct (span_digits r1) as [ds r2] eqn:E.
    apply span_digits_length in E. destruct ds; [exact I|].
    cbn [length] in *. lia. }
  destruct s1 as [|v r'].
  - cbn. discriminate.
  - destruct (v =? 45); [|destruct (v =? 43)].
    + specialize (Hsp r' ltac:(cbn; lia)).
      destruct (span_digits r') as [ds r2]. destruct ds; [discriminate|].
      intros [= _ <-]. exact Hsp.
    + specialize (Hsp r' ltac:(cbn; lia)).
      destruct (span_digits r') as [ds r2]. destruct ds; [discriminate|].
      intros [= _ <-]. exact Hsp.
    + specialize (Hsp (v :: r') ltac:(cbn; lia)).
      destruct (span_digits (v :: r')) as [ds r2]. destruct ds; [discriminate|].
      intros [= _ <-]. exact Hsp.
Qed.

Lemma parse_magnitude_length (neg : bool) (s : jsstring) :
  forall n r, parse_magnitude neg s = Some (n, r) -> (length r < length s)%nat.
Proof.
  intros n r. unfold parse_magnitude.
  destruct (span_digits s) as [ds s2] eqn:E. apply span_digits_length in E.
  destruct ds as [|d more]; [discriminate|].
  destruct ((d =? 48) && _); [discriminate|].
  destruct (parse_fraction s2) as [[fr s3]|] eqn:Ef; [|discriminate].
  apply parse_fraction_length in Ef.
  destruct (parse_exponent s3) as [[e s4]|] eqn:Ee; [|discriminate].
  apply parse_exponent_length in Ee. intros [= _ <-]. cbn [length] in E. lia.
Qed.

Lemma parse_number_length (s : jsstring) :
  forall n r, parse_number s = Some (n, r) -> (length r < length s)%nat.
Proof.
  intros n r. unfold parse_number. destruct s as [|u s1]; [discriminate|].
  destruct (u =? 45); intros H; apply parse_magnitude_length in H;
    cbn [length] in *; lia.
Qed.

Lemma expect_length (word s : jsstring) :
  forall r, expect word s = Some r -> (length r + length word = length s)%nat.
Proof.
  revert s. induction word as [|w word IH]; intros s r; cbn [expect].
  - intros [= <-]. cbn. lia.
  - destruct s as [|u s1]; [discriminate|]. destruct (u =? w); [|discriminate].
    intros H. apply IH in H. cbn [length]. lia.
Qed.

Definition consuming {T} (p : parser T) : Prop :=
  forall s v r, p s = Some (v, r) -> (length r < length s)%nat.

Lemma items_loop_length (value : parser JsValue) (n : nat) :
  consuming value -> consuming (items_loop n value).
Proof.
  intros Hv. induction n as [|n IH]; intros s l r; cbn [items_loop];
    [discriminate|].
  destruct (value s) as [[v r1]|] eqn:E; [|discriminate]. apply Hv in E.
  pose proof (skip_ws_length r1) as Hw.
  destruct (skip_ws r1) as [|u r2]; [discriminate|]. cbn [length] in Hw.
  destruct (u =? 44).
  - destruct (items_loop n value r2) as [[l' rest]|] eqn:El; [|discriminate].
    apply IH in El. intros [= _ <-]. lia.
  - destruct (u =? 93); [|discriminate]. intros [= _ <-]. lia.
Qed.

Lemma members_loop_length (value : parser JsValue) (n : nat) :
  consuming value -> consuming (members_loop n value).
Proof.
  intros Hv. induction n as [|n IH]; intros s l r; cbn [members_loop];
    [discriminate|].
  pose proof (skip_ws_length s) as Hw0.
  destruct (skip_ws s) as [|q r0]; [discriminate|]. cbn [length] in Hw0.
  destruct (q =? 34); [|discriminate].
  destruct (parse_string_body r0) as [[k r1]|] eqn:Ek; [|discriminate].
  apply parse_string_body_length in Ek.
  pose proof (skip_ws_length r1) as Hw1.
  destruct (skip_ws r1) as [|c r2]; [discriminate|]. cbn [length] in Hw1.
  destruct (c =? 58); [|discriminate].
  destruct (value r2) as [[v r3]|] eqn:E; [|discriminate]. apply Hv in E.
  pose proof (skip_ws_length r3) as Hw3.
  destruct (skip_ws r3) as [|u r4]; [discriminate|]. cbn [length] in Hw3.
  destruct (u =? 44).
  - destruct (members_loop n value r4) as [[l' rest]|] eqn:El; [|discriminate].
    apply IH in El. intros [= _ <-]. lia.
  - destruct (u =? 125); [|discriminate]. intros [= _ <-]. lia.
Qed.

Lemma parse_value_length (fuel : nat) : consuming (parse_value fuel).
Proof.
  induction fuel as [|f IH]; intros s v r; cbn [parse_value]; [discriminate|].
  pose proof (skip_ws_length s) as Hw.
  destruct (skip_ws s) as [|u r0]; [discriminate|]. cbn [length] in Hw.
  destruct (u =? 34).
  { destruct (parse_string_body r0) as [[t rest]|] eqn:E; [|discriminate].
    apply parse_string_body_length in E. intros [= _ <-]. lia. }
  destruct (u =? 91).
  { pose proof (skip_ws_length r0) as Hw0.
    destruct (skip_ws r0) as [|c r1]; [discriminate|]. cbn [length] in Hw0.
    destruct (c =? 93); [intros [= _ <-]; lia|].
    destruct (items_loop f (parse_value f) r0) as [[l rest]|] eqn:E;
      [|discriminate].
    apply (items_loop_length _ _ IH) in E. intros [= _ <-]. lia. }
  destruct (u =? 123).
  { pose proof (skip_ws_length r0) as Hw0.
    destruct (skip_ws r0) as [|c r1]; [discriminate|]. cbn [length] in Hw0.
    destruct (c =? 125); [intros [= _ <-]; lia|].
    destruct (members_loop f (parse_value f) r0) as [[l rest]|] eqn:E;
      [|discriminate].
    apply (members_loop_length _ _ IH) in E. intros [= _ <-]. lia. }
  destruct (u =? 116).
  { destruct (expect (lit "true") (u :: r0)) as [rest|] eqn:E; [|discriminate].
    apply expect_length in E. intros [= _ <-]. cbn [length] in E.
    change (length (lit "true")) with 4%nat in E. lia. }
  destruct (u =? 102).
  { destruct (expect (lit "false") (u :: r0)) as [rest|] eqn:E; [|discriminate].
    apply expect_length in E. intros [= _ <-]. cbn [length] in E.
    change (length (lit "false")) with 5%nat in E. lia. }
  destruct (u =? 110).
  { destruct (expect (lit "null") (u :: r0)) as [rest|] eqn:E; [|discriminate].
    apply expect_length in E. intros [= _ <-]. cbn [length] in E.
    change (length (lit "null")) with 4%nat in E. lia. }
  destruct (parse_number (u :: r0)) as [[n rest]|] eqn:E; [|discriminate].
  apply parse_number_length in E. intros [= _ <-]. cbn [length] in E. lia.
Qed.

(** Two parsers that agree on the texts no longer than [n]. *)
Definition agree_upto {T} (n : nat) (p q : parser T) : Prop :=
  forall s, (length s <= n)%nat -> p s = q s.

Lemma items_loop_fuel (value value' : parser JsValue) (n : nat) :
  forall n' s,
    (length s < n)%nat -> (length s < n')%nat ->
    consuming value -> agree_upto (length s) value value' ->
    items_loop n value s = items_loop n' value' s.
Proof.
  induction n as [|n IH]; intros n' s Hn Hn' Hc Ha; [lia|].
  destruct n' as [|n']; [lia|]. cbn [items_loop].
  rewrite <- (Ha s (le_n _)).
  destruct (value s) as [[v r1]|] eqn:E; [|reflexivity]. apply Hc in E.
  pose proof (skip_ws_length r1) as Hw.
  destruct (skip_ws r1) as [|u r2]; [reflexivity|]. cbn [length] in Hw.
  destruct (u =? 44); [|reflexivity].
  rewrite (IH n' r2); [reflexivity|lia|lia|exact Hc|].
  intros s' Hs'. apply Ha. lia.
Qed.

Lemma members_loop_fuel (value value' : parser JsValue) (n : nat) :
  forall n' s,
    (length s < n)%nat -> (length s < n')%nat ->
    consuming value -> agree_upto (length s) value value' ->
    members_loop n value s = members_loop n' value' s.
Proof.
  induction n as [|n IH]; intros n' s Hn Hn' Hc Ha; [lia|].
  destruct n' as [|n']; [lia|]. cbn [members_loop].
  pose proof (skip_ws_length s) as Hw0.
  destruct (skip_ws s) as [|q r0]; [reflexivity|]. cbn [length] in Hw0.
  destruct (q =? 34); [|reflexivity].
  destruct (parse_string_body r0) as [[k r1]|] eqn:Ek; [|reflexivity].
  apply parse_string_body_length in Ek.
  pose proof (skip_ws_length r1) as Hw1.
  destruct (skip_ws r1) as [|c r2]; [reflexivity|]. cbn [length] in Hw1.
  destruct (c =? 58); [|reflexivity].
  rewrite <- (Ha r2) by lia.
  destruct (value r2) as [[v r3]|] eqn:E; [|reflexivity]. apply Hc in E.
  pose proof (skip_ws_length r3) as Hw3.
  destruct (skip_ws r3) as [|u r4]; [reflexivity|]. cbn [length] in Hw3.
  destruct (u =? 44); [|reflexivity].
  rewrite (IH n' r4); [reflexivity|lia|lia|exact Hc|].
  intros s' Hs'. apply Ha. lia.
Qed.

(** Beyond the length of the text, more fuel changes nothing. *)
Lemma parse_value_fuel (f : nat) :
  forall f' s,
    (length s < f)%nat -> (length s < f')%nat ->
    parse_value f s = parse_value f' s.
Proof.
  induction f as [|f IH]; intros f' s Hf Hf'; [lia|].
  destruct f' as [|f']; [lia|]. cbn [parse_value].
  pose proof (skip_ws_length s) as Hw.
  destruct (skip_ws s) as [|u r0]; [reflexivity|]. cbn [length] in Hw.
  assert (agree_upto (length r0) (parse_value f) (parse_value f')) as Ha.
  { intros s' Hs'. apply IH; lia. }
  rewrite (items_loop_fuel (parse_value f) (parse_value f') f f' r0)
    by (lia || apply parse_value_length || exact Ha).
  rewrite (members_loop_fuel (parse_value f) (parse_value f') f f' r0)
    by (lia || apply parse_value_length || exact Ha).
  reflexivity.
Qed.

(** [JSON.parse] has all the fuel it can use. *)
Lemma JSON_parse_fuel (text : jsstring) (fuel : nat) :
  (length text < fuel)%nat ->
  JSON_parse text =
  match parse_value fuel text with
  | Some (v, rest) =>
      match skip_ws rest with
      | [] => Return v
      | _ :: _ => Throw SyntaxError
      end
  | None => Throw SyntaxError
  end.
Proof.
  intros H. unfold JSON_parse.
  now rewrite (parse_value_fuel (S (length text)) fuel text) by lia.
Qed.

(** *** The two methods, step by step *)

Section MethodFacts.
Context {W : SubtleCrypto} {A : StorageAdapter}.

(** The payload that [encrypt] returns. *)
Definition sealed (g : CryptoKey) (rnd : nat -> Z) (s : jsstring)
    (cs : CryptoService) : EncryptedData :=
  let iv_ := getRandomValues IV_LENGTH rnd in
  {| iv := b64_encode iv_;
     data := b64_encode (subtle_encrypt (fst (getKey g cs)) iv_
                           (TextEncoder_encode s)) |}.

Lemma encrypt_sealed (g : CryptoKey) (rnd : nat -> Z) (s : jsstring)
    (cs : CryptoService) :
  aead_bytes W ->
  encrypt g rnd s cs = (Return (sealed g rnd s cs), snd (getKey g cs)).
Proof.
  intros Hb. unfold encrypt, sealed. destruct (getKey g cs) as [k cs1].
  cbn [fst snd]. unfold arrayBufferToBase64, btoa.
  now rewrite getRandomValues_bytes, Hb.
Qed.

Lemma sealed_plain (g : CryptoKey) (rnd : nat -> Z) (s : jsstring)
    (cs : CryptoService) :
  aead_bytes W ->
  forallb is_plain (iv (sealed g rnd s cs)) = true
  /\ forallb is_plain (data (sealed g rnd s cs)) = true.
Proof.
  intros Hb. split; apply b64_encode_plain;
    [apply getRandomValues_bytes|apply Hb].
Qed.

Lemma b64_encode_nonempty (bs : list Z) : bs <> [] -> b64_encode bs <> [].
Proof. destruct bs as [|a [|b [|c r]]]; [congruence|discriminate..]. Qed.

(** [decrypt] of that payload, under the key it was made with. *)
Lemma decrypt_sealed (g g' : CryptoKey) (rnd : nat -> Z) (s : jsstring)
    (cs cs' : CryptoService) :
  aead_correct W -> aead_bytes W ->
  forallb is_code_unit s = true ->
  current cs' = Some (fst (getKey g cs)) ->
  decrypt g' (sealed g rnd s cs) cs'
  = (Return (Some (TextDecoder_decode (TextEncoder_encode s))), cs').
Proof.
  intros Hc Hb Hs Hk. unfold decrypt. rewrite (getKey_held g' _ cs' Hk).
  unfold sealed, base64ToArrayBuffer. cbn [iv data].
  rewrite !atob_b64_encode by (apply getRandomValues_bytes || apply Hb).
  cbn [bind]. rewrite !map_mod_bytes by (apply getRandomValues_bytes || apply Hb).
  rewrite Hc by now apply TextEncoder_bytes. reflexivity.
Qed.

(** The text that [set] stores for any payload: [JSON.stringify] of the
    object with the two fields, in the order [iv], [data]. *)
Definition stored_text (e : EncryptedData) : jsstring :=
  lit "{" ++ dq (lit "iv") ++ lit ":" ++ quote (iv e) ++ lit ","
  ++ dq (lit "data") ++ lit ":" ++ quote (data e) ++ lit "}".

Lemma stringify_stored (e : EncryptedData) :
  JSON_stringify (payload_value e) = Return (Some (stored_text e)).
Proof.
  unfold JSON_stringify, payload_value, stored_text.
  cbn [serialize List.map sequence bind fst snd concat app join].
  unfold dq, quote. eval_lits.
  rewrite (quote_body_plain [105; 118]), (quote_body_plain [100; 97; 116; 97])
    by reflexivity.
  repeat (rewrite <- ?app_assoc; cbn [app]).
  reflexivity.
Qed.

Lemma stored_plain (e : EncryptedData) :
  forallb is_plain (iv e) = true -> forallb is_plain (data e) = true ->
  stored_text e = payload_text e.
Proof.
  intros Hi Hd.
  assert (H := stringify_stored e). rewrite (stringify_payload e Hi Hd) in H.
  congruence.
Qed.

(** [set], step by step, whatever the service's [encrypt] does. *)
Lemma set_with_steps
    (enc : jsstring -> CryptoService -> completion EncryptedData * CryptoService)
    (key_ : jsstring) (value : JsValue) (st : SecureStorage) :
  set_with enc key_ value st =
  match JSON_stringify value with
  | Throw e => (Throw e, st)
  | Return json =>
      let st1 := {| crypto := snd (enc (or_default [] json) (crypto st));
                    storage := storage st; prefix := prefix st |} in
      match fst (enc (or_default [] json) (crypto st)) with
      | Throw x => (Throw x, st1)
      | Return payload =>
          match setItem (prefix st ++ key_) (stored_text payload) (storage st) with
          | Throw x => (Throw x, st1)
          | Return b =>
              (Return tt,
               {| crypto := snd (enc (or_default [] json) (crypto st));
                  storage := b; prefix := prefix st |})
          end
      end
  end.
Proof.
  unfold set_with, try_catch, mbind, lift.
  destruct (JSON_stringify value) as [json|e]; [|reflexivity].
  unfold crypto_call.
  destruct (enc (or_default [] json) (crypto st)) as [[payload|x] cs];
    cbn [fst snd]; [|reflexivity].
  fold (payload_value payload). rewrite stringify_stored.
  unfold the_prefix, storage_setItem. cbn [or_default storage prefix crypto].
  destruct (setItem _ _ _); reflexivity.
Qed.

Lemma set_with_throws
    (enc : jsstring -> CryptoService -> completion EncryptedData * CryptoService)
    (key_ : jsstring) (value : JsValue) (st : SecureStorage) (e : error) :
  fst (set_with enc key_ value st) = Throw e
  <-> (JSON_stringify value = Throw e
       \/ (exists json,
             JSON_stringify value = Return json
             /\ fst (enc (or_default [] json) (crypto st)) = Throw e)
       \/ (exists json payload,
             JSON_stringify value = Return json
             /\ fst (enc (or_default [] json) (crypto st)) = Return payload
             /\ setItem (prefix st ++ key_) (stored_text payload) (storage st)
                = Throw e)).
Proof.
  rewrite set_with_steps.
  destruct (JSON_stringify value) as [json|e0].
  - cbv zeta.
    destruct (fst (enc (or_default [] json) (crypto st))) as [payload|x] eqn:Ee.
    + destruct (setItem _ _ _) as [b|x] eqn:Es; cbn [fst]; split.
      * discriminate.
      * intros [H|[(j & Hj & H)|(j & q & Hj & Hq & H)]]; [discriminate| |];
          injection Hj as <-.
        -- rewrite Ee in H. discriminate.
        -- rewrite Ee in Hq. injection Hq as <-. rewrite Es in H. discriminate.
      * intros [= <-]. right. right. eauto.
      * intros [H|[(j & Hj & H)|(j & q & Hj & Hq & H)]]; [discriminate| |];
          injection Hj as <-.
        -- rewrite Ee in H. discriminate.
        -- rewrite Ee in Hq. injection Hq as <-. rewrite Es in H.
           now injection H as <-.
    + cbn [fst]; split.
      * intros [= <-]. right. left. eauto.
      * intros [H|[(j & Hj & H)|(j & q & Hj & Hq & _)]]; [discriminate| |];
          injection Hj as <-.
        -- rewrite Ee in H. now injection H as <-.
        -- rewrite Ee in Hq. discriminate.
  - cbn [fst]. split.
    + intros [= <-]. now left.
    + intros [[= <-]|[(j & H & _)|(j & q & H & _)]];
        [reflexivity|discriminate|discriminate].
Qed.

Lemma set_steps (g : CryptoKey) (rnd : nat -> Z) (key_ : jsstring)
    (value : JsValue) (st : SecureStorage) :
  aead_bytes W ->
  set g rnd key_ value st =
  match JSON_stringify value with
  | Throw e => (Throw e, st)
  | Return json =>
      let e := sealed g rnd (or_default [] json) (crypto st) in
      let st1 := {| crypto := snd (getKey g (crypto st));
                    storage := storage st; prefix := prefix st |} in
      match setItem (prefix st ++ key_) (payload_text e) (storage st) with
      | Throw x => (Throw x, st1)
      | Return b => (Return tt, {| crypto := snd (getKey g (crypto st));
                                   storage := b; prefix := prefix st |})
      end
  end.
Proof.
  intros Hb. unfold set, set_with, try_catch, mbind, lift.
  destruct (JSON_stringify value) as [json|e]; [|reflexivity].
  unfold crypto_call. rewrite (encrypt_sealed _ _ _ _ Hb).
  destruct (sealed_plain g rnd (or_default [] json) (crypto st) Hb) as [Hi Hd].
  fold (payload_value (sealed g rnd (or_default [] json) (crypto st))).
  rewrite (stringify_payload _ Hi Hd).
  unfold the_prefix, storage_setItem. cbn [or_default storage prefix crypto].
  destruct (setItem _ _ _); reflexivity.
Qed.

(** The two fields that [get] asks of the parsed item, when both are
    there and truthy. *)
Definition payload_fields (parsed : JsValue) : option (JsValue * JsValue) :=
  match Get parsed (lit "data"), Get parsed (lit "iv") with
  | Return d, Return i =>
      if ToBoolean d && ToBoolean i then Some (i, d) else None
  | _, _ => None
  end.

Section AnyDecrypt.
Variable dec : EncryptedData -> CryptoService
               -> completion (option jsstring) * CryptoService.

Lemma get_with_returns (key_ : jsstring) (st : SecureStorage) :
  exists v, fst (get_with dec key_ st) = Return v.
Proof.
  unfold get_with, try_catch.
  match goal with |- context [match ?m st with _ => _ end] => destruct (m st) as [[v|e] st'] end;
    cbn [fst ret]; eauto.
Qed.

Lemma get_with_absent (key_ : jsstring) (st : SecureStorage) :
  getItem (prefix st ++ key_) (storage st) = Return None ->
  get_with dec key_ st = (Return VNull, st).
Proof.
  intros H. unfold get_with, try_catch, mbind, the_prefix, storage_getItem.
  now rewrite H.
Qed.

Lemma get_with_refused (key_ : jsstring) (st : SecureStorage) (e : error) :
  getItem (prefix st ++ key_) (storage st) = Throw e ->
  get_with dec key_ st = (Return VNull, st).
Proof.
  intros H. unfold get_with, try_catch, mbind, the_prefix, storage_getItem.
  now rewrite H.
Qed.

Lemma get_with_item (key_ text : jsstring) (st : SecureStorage) :
  getItem (prefix st ++ key_) (storage st) = Return (Some text) ->
  get_with dec key_ st =
  if Nat.eqb (length text) 0 then (Return VNull, st)
  else
    match JSON_parse text with
    | Throw _ => (Return VNull, st)
    | Return parsed =>
        match payload_fields parsed with
        | None => (Return VNull, st)
        | Some (i, d) =>
            let '(r, cs) := dec {| iv := ToString i; data := ToString d |}
                              (crypto st) in
            let st1 := {| crypto := cs; storage := storage st;
                          prefix := prefix st |} in
            match r with
            | Throw _ => (Return VNull, st1)
            | Return None => (Return VNull, st1)
            | Return (Some json) =>
                if Nat.eqb (length json) 0 then (Return VNull, st1)
                else (catch_with (JSON_parse json) VNull, st1)
            end
        end
    end.
Proof.
  intros H.
  unfold get_with, try_catch, mbind, the_prefix, storage_getItem, lift, ret.
  rewrite H. destruct (Nat.eqb (length text) 0); [reflexivity|].
  destruct (JSON_parse text) as [parsed|e]; [|reflexivity].
  unfold payload_fields.
  destruct (Get parsed (lit "data")) as [d|e]; [|reflexivity].
  destruct (ToBoolean d); cbn [negb andb]; [|now destruct (Get parsed (lit "iv"))].
  destruct (Get parsed (lit "iv")) as [i|e]; [|reflexivity].
  destruct (ToBoolean i); cbn [negb]; [|reflexivity].
  unfold crypto_call. destruct (dec _ _) as [[[json|]|e] cs];
    try reflexivity.
  destruct (Nat.eqb (length json) 0); [reflexivity|].
  now destruct (JSON_parse json).
Qed.

End AnyDecrypt.

Lemma get_returns (g : CryptoKey) (key_ : jsstring) (st : SecureStorage) :
  exists v, fst (get g key_ st) = Return v.
Proof. apply get_with_returns. Qed.

Lemma get_absent (g : CryptoKey) (key_ : jsstring) (st : SecureStorage) :
  getItem (prefix st ++ key_) (storage st) = Return None ->
  get g key_ st = (Return VNull, st).
Proof. apply get_with_absent. Qed.

Lemma get_item (g : CryptoKey) (key_ text : jsstring) (st : SecureStorage) :
  getItem (prefix st ++ key_) (storage st) = Return (Some text) ->
  get g key_ st =
  if Nat.eqb (length text) 0 then (Return VNull, st)
  else
    match JSON_parse text with
    | Throw _ => (Return VNull, st)
    | Return parsed =>
        match payload_fields parsed with
        | None => (Return VNull, st)
        | Some (i, d) =>
            let '(r, cs) := decrypt g {| iv := ToString i; data := ToString d |}
                              (crypto st) in
            let st1 := {| crypto := cs; storage := storage st;
                          prefix := prefix st |} in
            match r with
            | Throw _ => (Return VNull, st1)
            | Return None => (Return VNull, st1)
            | Return (Some json) =>
                if Nat.eqb (length json) 0 then (Return VNull, st1)
                else (catch_with (JSON_parse json) VNull, st1)
            end
        end
    end.
Proof. apply get_with_item. Qed.

(** The methods without a handler pass on what the backend throws, and
    throw nothing else. *)
Lemma remove_throws (key_ : jsstring) (st : SecureStorage) (e : error) :
  fst (remove key_ st) = Throw e
  <-> removeItem (prefix st ++ key_) (storage st) = Throw e.
Proof.
  unfold remove, mbind, the_prefix, storage_removeItem.
  destruct (removeItem _ _) as [b|x]; cbn [fst]; split; congruence.
Qed.

Lemma has_throws (key_ : jsstring) (st : SecureStorage) (e : error) :
  fst (has key_ st) = Throw e
  <-> getItem (prefix st ++ key_) (storage st) = Throw e.
Proof.
  unfold has, mbind, the_prefix, storage_getItem, ret.
  destruct (getItem _ _) as [o|x]; cbn [fst]; split; congruence.
Qed.

Lemma remove_each_throws (keys : list jsstring) :
  forall (st : SecureStorage) (e : error),
    fst (remove_each keys st) = Throw e ->
    exists k b, In k keys /\ removeItem k b = Throw e.
Proof.
  induction keys as [|k r IH]; intros st e; cbn [remove_each].
  - discriminate.
  - unfold mbind, storage_removeItem.
    destruct (removeItem k (storage st)) as [b|x] eqn:E.
    + intros H. destruct (IH _ _ H) as (k' & b' & Hin & Hth).
      exists k', b'. split; [now right|exact Hth].
    + cbn [fst]. intros [= <-]. exists k, (storage st). split; [now left|exact E].
Qed.

Lemma clear_throws (st : SecureStorage) (e : error) :
  fst (clear st) = Throw e ->
  enumerate (storage st) = Some (Throw e)
  \/ exists ks k b,
       enumerate (storage st) = Some (Return ks) /\ In (Some k) ks
       /\ starts_with (prefix st) k = true /\ removeItem k b = Throw e.
Proof.
  unfold clear. destruct (enumerate (storage st)) as [[ks|x]|]; [| |discriminate].
  - intros H. right. apply remove_each_throws in H as (k & b & Hin & Hth).
    apply filter_In in Hin as [Hin Hp]. apply in_flat_map in Hin as (o & Ho & Hk).
    destruct o as [k'|]; [|contradiction]. destruct Hk as [->|[]].
    exists ks, k, b. auto.
  - cbn [fst]. intros [= <-]. now left.
Qed.

Lemma clear_unreadable (st : SecureStorage) (e : error) :
  enumerate (storage st) = Some (Throw e) -> clear st = (Throw e, st).
Proof. unfold clear. now intros ->. Qed.

Lemma clear_without_enumeration (st : SecureStorage) :
  enumerate (storage st) = None -> clear st = (Return tt, st).
Proof. unfold clear. now intros ->. Qed.

End MethodFacts.

(** *** The error contract (C4) *)

(** C4, as stated, fails: [set] is not the only method that an error
    leaves.  On a backend that refuses every access, [has] and [remove]
    throw what the backend throws, whereas [get] returns null. *)
Lemma C4_counterexample :
  let st := constructor (W := toy) (A := denied_storage) create tt None in
  fst (has (W := toy) (A := denied_storage) (lit "k") st) = Throw SecurityError
  /\ fst (remove (W := toy) (A := denied_storage) (lit "k") st)
     = Throw SecurityError
  /\ fst (get (W := toy) (A := denied_storage) false (lit "k") st)
     = Return VNull.
Proof. vm_compute. repeat split. Qed.

(** C4, amended.  For any host, any backend, any state of the store and
    any key, [get g] and [set g rnd] being [get_with] and [set_with] at
    the [decrypt] and [encrypt] of [Crypto].  Whatever the service's
    [decrypt] does, [get] returns and never throws.  It returns null,
    leaving the store as it was, when the backend has no entry under
    the prefixed key; when the backend's [getItem] throws; when the
    entry does not parse as JSON; and when what it parses to has no
    truthy [data] and [iv] (or is null); it returns null when [decrypt]
    of the two fields returns null, and when it throws.  Whatever the
    service's [encrypt] does, [set] throws an error exactly when
    [JSON.stringify] of the value throws it, or [encrypt] of the text
    throws it, or the backend's [setItem] throws it for the prefixed key
    and the text of the payload.  The other methods have no handler:
    [remove] throws exactly what the backend's [removeItem] throws for
    the prefixed key, [has] exactly what its [getItem] throws, and
    [clear] only what reading the backend's [length] and [key(i)]
    throws, the store then being as it was, or what [removeItem] throws
    for one of the enumerated keys that carry the prefix. *)
Theorem C4_store_error_contract :
  forall (W : SubtleCrypto) (A : StorageAdapter)
         (st : SecureStorage) (key_ : jsstring),
    (forall g, get g key_ = get_with (decrypt g) key_)
    /\ (forall g rnd value,
          set g rnd key_ value = set_with (encrypt g rnd) key_ value)
    /\ (forall dec : EncryptedData -> CryptoService
                     -> completion (option jsstring) * CryptoService,
          (exists v, fst (get_with dec key_ st) = Return v)
          /\ (getItem (prefix st ++ key_) (storage st) = Return None ->
              get_with dec key_ st = (Return VNull, st))
          /\ (forall e,
                getItem (prefix st ++ key_) (storage st) = Throw e ->
                get_with dec key_ st = (Return VNull, st))
          /\ (forall text,
                getItem (prefix st ++ key_) (storage st) = Return (Some text) ->
                (forall e, JSON_parse text = Throw e ->
                           get_with dec key_ st = (Return VNull, st))
                /\ (forall parsed,
                      JSON_parse text = Return parsed ->
                      payload_fields parsed = None ->
                      get_with dec key_ st = (Return VNull, st))
                /\ (forall parsed i d,
                      JSON_parse text = Return parsed ->
                      payload_fields parsed = Some (i, d) ->
                      fst (dec {| iv := ToString i; data := ToString d |}
                             (crypto st)) = Return None ->
                      fst (get_with dec key_ st) = Return VNull)
                /\ (forall parsed i d e,
                      JSON_parse text = Return parsed ->
                      payload_fields parsed = Some (i, d) ->
                      fst (dec {| iv := ToString i; data := ToString d |}
                             (crypto st)) = Throw e ->
                      fst (get_with dec key_ st) = Return VNull)))
    /\ (forall (enc : jsstring -> CryptoService
                      -> completion EncryptedData * CryptoService)
               (value : JsValue) (e : error),
          fst (set_with enc key_ value st) = Throw e
          <-> (JSON_stringify value = Throw e
               \/ (exists json,
                     JSON_stringify value = Return json
                     /\ fst (enc (or_default [] json) (crypto st)) = Throw e)
               \/ (exists json payload,
                     JSON_stringify value = Return json
                     /\ fst (enc (or_default [] json) (crypto st))
                        = Return payload
                     /\ setItem (prefix st ++ key_) (stored_text payload)
                          (storage st) = Throw e)))
    /\ (forall e : error,
          fst (remove key_ st) = Throw e
          <-> removeItem (prefix st ++ key_) (storage st) = Throw e)
    /\ (forall e : error,
          fst (has key_ st) = Throw e
          <-> getItem (prefix st ++ key_) (storage st) = Throw e)
    /\ (forall e : error,
          fst (clear st) = Throw e ->
          enumerate (storage st) = Some (Throw e)
          \/ exists ks k b,
               enumerate (storage st) = Some (Return ks) /\ In (Some k) ks
               /\ starts_with (prefix st) k = true
               /\ removeItem k b = Throw e)
    /\ (forall e : error,
          enumerate (storage st) = Some (Throw e) ->
          clear st = (Throw e, st)).
Proof.
  intros W A st key_.
  split; [reflexivity|]. split; [reflexivity|].
  split; [|split; [intros enc value e; apply set_with_throws|split;
             [apply remove_throws|split;
               [apply has_throws|split;
                 [apply clear_throws|apply clear_unreadable]]]]].
  intros dec.
  split; [apply get_with_returns|]. split; [apply get_with_absent|].
  split; [apply get_with_refused|].
  intros text Ht. rewrite (get_with_item dec key_ text st Ht).
  split; [|split; [|split]].
  - intros e He. rewrite He. now destruct (Nat.eqb (length text) 0).
  - intros parsed Hp Hf. rewrite Hp, Hf. now destruct (Nat.eqb (length text) 0).
  - intros parsed i d Hp Hf Hd. rewrite Hp, Hf.
    destruct (Nat.eqb (length text) 0); [reflexivity|].
    destruct (dec _ _) as [r cs]. cbn [fst] in Hd. now subst r.
  - intros parsed i d e Hp Hf Hd. rewrite Hp, Hf.
    destruct (Nat.eqb (length text) 0); [reflexivity|].
    destruct (dec _ _) as [r cs]. cbn [fst] in Hd. now subst r.
Qed.

(** [clear] on a backend with enumeration: the entries under the prefix
    go, the others stay. *)
Lemma clear_listed :
  let st := constructor (W := toy) (A := listed_storage) create
              [(lit "nis2_a", lit "x"); (lit "other", lit "y");
               (lit "nis2_b", lit "z")] None in
  clear (W := toy) (A := listed_storage) st
  = (Return tt,
     constructor (W := toy) (A := listed_storage) create
       [(lit "other", lit "y")] None).
Proof. reflexivity. Qed.

(** On the stand-in host: a BigInt makes [set] throw a TypeError; a
    service whose [encrypt] rejects makes it throw that error; a backend
    with a quota of ten units makes it throw the backend's error; [get]
    returns null for text that is not JSON, for a payload without [iv]
    and when [decrypt] throws; [clear] throws what a backend throws
    whose [length] cannot be read, and does not throw on a backend whose
    [removeItem] does not. *)
Lemma C4_store_error_contract_witness :
  let rnd := fun i : nat => Z.of_nat i in
  let empty := constructor (W := toy) (A := map_storage) create
                 (∅ : gmap jsstring jsstring) None in
  let small := constructor (W := toy) (A := quota_storage 10) create
                 (∅ : gmap jsstring jsstring) None in
  let denied := constructor (W := toy) (A := denied_storage) create tt None in
  let holding (text : jsstring) :=
    constructor (W := toy) (A := map_storage) create
      ({[ lit "nis2_k" := text ]} : gmap jsstring jsstring) None in
  let no_iv := lit "{" ++ dq (lit "data") ++ lit ":" ++ dq (lit "AAAA") ++ lit "}" in
  let both := payload_text {| iv := lit "AAAA"; data := lit "AAAA" |} in
  let rejecting := fun (_ : jsstring) (cs : CryptoService (W := toy)) =>
                     (Throw OperationError : completion EncryptedData, cs) in
  let failing := fun (_ : EncryptedData) (cs : CryptoService (W := toy)) =>
                   (Throw OperationError : completion (option jsstring), cs) in
  fst (set (W := toy) (A := map_storage) true rnd (lit "k") (VBigInt 1) empty)
    = Throw TypeError
  /\ fst (set_with (W := toy) (A := map_storage) rejecting (lit "k")
            (VStr (lit "v")) empty) = Throw OperationError
  /\ fst (set (W := toy) (A := quota_storage 10) true rnd (lit "k")
            (VStr (lit "v")) small) = Throw QuotaExceededError
  /\ get (W := toy) (A := map_storage) true (lit "k") (holding (lit "not json"))
     = (Return VNull, holding (lit "not json"))
  /\ get (W := toy) (A := map_storage) true (lit "k") (holding no_iv)
     = (Return VNull, holding no_iv)
  /\ fst (get_with (W := toy) (A := map_storage) failing (lit "k") (holding both))
     = Return VNull
  /\ clear (W := toy) (A := denied_storage) denied = (Throw SecurityError, denied)
  /\ (forall e,
        fst (clear (W := toy) (A := listed_storage)
               (constructor (W := toy) (A := listed_storage) create
                  [(lit "nis2_a", lit "x")] None)) <> Throw e).
Proof.
  intros rnd empty small denied holding no_iv both rejecting failing.
  split; [|split; [|split; [|split; [|split; [|split; [|split]]]]]].
  - destruct (C4_store_error_contract toy map_storage empty (lit "k"))
      as (_ & Hs & _ & H & _).
    rewrite Hs. apply H. now left.
  - destruct (C4_store_error_contract toy map_storage empty (lit "k"))
      as (_ & _ & _ & H & _).
    apply H. right. left. eexists. split; reflexivity.
  - destruct (C4_store_error_contract toy (quota_storage 10) small (lit "k"))
      as (_ & Hs & _ & H & _).
    rewrite Hs. apply H. right. right. eexists. eexists.
    split; [reflexivity|]. split; [vm_compute; reflexivity|reflexivity].
  - destruct (C4_store_error_contract toy map_storage
                (holding (lit "not json")) (lit "k")) as (Hg & _ & H & _).
    rewrite Hg. destruct (H (decrypt (W := toy) true)) as (_ & _ & _ & H').
    destruct (H' (lit "not json") eq_refl) as (H1 & _).
    now apply (H1 SyntaxError).
  - destruct (C4_store_error_contract toy map_storage
                (holding no_iv) (lit "k")) as (Hg & _ & H & _).
    rewrite Hg. destruct (H (decrypt (W := toy) true)) as (_ & _ & _ & H').
    destruct (H' no_iv eq_refl) as (_ & H2 & _).
    now apply (H2 (VObj [(lit "data", VStr (lit "AAAA"))])).
  - destruct (C4_store_error_contract toy map_storage
                (holding both) (lit "k")) as (_ & _ & H & _).
    destruct (H failing) as (_ & _ & _ & H').
    destruct (H' both eq_refl) as (_ & _ & _ & H4).
    now apply (H4 (VObj [(lit "iv", VStr (lit "AAAA"));
                         (lit "data", VStr (lit "AAAA"))])
                  (VStr (lit "AAAA")) (VStr (lit "AAAA")) OperationError).
  - destruct (C4_store_error_contract toy denied_storage denied (lit "k"))
      as (_ & _ & _ & _ & _ & _ & _ & H).
    now apply H.
  - intros e He.
    destruct (C4_store_error_contract toy listed_storage
                (constructor (W := toy) (A := listed_storage) create
                   [(lit "nis2_a", lit "x")] None) (lit "k"))
      as (_ & _ & _ & _ & _ & _ & H & _).
    destruct (H e He) as [Hen|(ks & k & b & _ & _ & _ & Hth)];
      discriminate.
Defined.

(** *** Round trip through the store (C5) *)

Lemma payload_fields_value (e : EncryptedData) :
  iv e <> [] -> data e <> [] ->
  payload_fields (payload_value e) = Some (VStr (iv e), VStr (data e)).
Proof.
  destruct e as [[|a i] [|b d]]; cbn [iv data]; intros Hi Hd; try congruence.
  unfold payload_fields, payload_value. eval_lits. reflexivity.
Qed.

(** C5, as stated, fails for a number: [JSON.stringify(NaN)] is the text
    [null], so after [set("k", NaN)] on the stand-in host with a map for
    backend, [get("k")] returns null. *)
Lemma C5_counterexample :
  let rnd := fun i : nat => Z.of_nat i in
  let st0 := constructor (W := toy) (A := map_storage) create
               (∅ : gmap jsstring jsstring) None in
  let '(c, st1) := set (W := toy) (A := map_storage) true rnd (lit "k")
                     (VNum NaN) st0 in
  c = Return tt
  /\ fst (get (W := toy) (A := map_storage) false (lit "k") st1) = Return VNull
  /\ VNull <> VNum NaN.
Proof. vm_compute. repeat split; discriminate. Qed.

(** C5, amended.  On a host whose AES-GCM decrypts what it encrypted and
    tags its output, with a backend that reads back what was written:
    take a value whose strings are strings, for which [JSON.stringify]
    gives a text, and a [set] of it that returned.  Then, whatever is
    done to the cipher service in between short of [clearKey], [get] of
    the same key returns what [JSON.parse] makes of that text (null if
    it threw); so it returns the value itself whenever [JSON.parse]
    gives the value back from its text, and that is so for every
    faithful value: one made of null, booleans, finite numbers other
    than negative zero, strings, arrays and objects whose properties are
    in enumeration order. *)
Theorem C5_store_roundtrip :
  forall (W : SubtleCrypto) (A : StorageAdapter),
    aead_correct W -> aead_bytes W -> aead_tagged W ->
    reads_what_was_written A ->
    forall (st : SecureStorage) (g g' : CryptoKey) (rnd : nat -> Z)
           (key_ : jsstring) (v : JsValue) (json : jsstring) (ops : list op),
      well_typed v = true ->
      JSON_stringify v = Return (Some json) ->
      fst (set g rnd key_ v st) = Return tt ->
      forallb keeps_key ops = true ->
      let st' := on_crypto (Crypto.run ops) (snd (set g rnd key_ v st)) in
      fst (get g' key_ st') = catch_with (JSON_parse json) VNull
      /\ (JSON_parse json = Return v -> fst (get g' key_ st') = Return v)
      /\ (faithful v = true -> fst (get g' key_ st') = Return v).
Proof.
  intros W A Hc Hb Ht Hrw st g g' rnd key_ v json ops Hv Hj Hset Hops st'.
  assert (fst (get g' key_ st') = catch_with (JSON_parse json) VNull) as Hget.
  2:{ split; [exact Hget|]. split; [intros Hp; now rewrite Hget, Hp|].
      intros Hf. unfold JSON_stringify in Hj.
      rewrite (serialize_faithful v Hf) in Hj. injection Hj as <-.
      now rewrite Hget, (JSON_parse_text_of v Hf). }
  subst st'. revert Hset. rewrite (set_steps g rnd key_ v st Hb), Hj.
  cbv zeta. cbn [or_default].
  set (e := sealed g rnd json (crypto st)).
  destruct (setItem (prefix st ++ key_) (payload_text e) (storage st))
    as [b|x] eqn:Es; cbn [fst snd]; [intros _|discriminate].
  destruct (sealed_plain g rnd json (crypto st) Hb) as [Hi Hd]. fold e in Hi, Hd.
  assert (current (Crypto.run ops (snd (getKey g (crypto st))))
          = Some (fst (getKey g (crypto st)))) as Hk.
  { rewrite (run_held ops (fst (getKey g (crypto st)))); [|exact Hops|];
      apply getKey_current. }
  destruct (serialize_text v json Hj Hv) as [Hwf Hled].
  assert (forallb is_code_unit json = true) as Hcu
    by (apply (well_formed_units (length json)); [apply le_n|exact Hwf]).
  assert (nth 0 json 0 <> 65279) as Hbom.
  { destruct json as [|c r]; [discriminate|]. cbn in Hled |- *.
    apply is_ascii_iff in Hled. lia. }
  assert (json <> []) as Hne by (destruct json; [discriminate|congruence]).
  rewrite (get_item g' key_ (payload_text e)).
  2:{ unfold on_crypto. cbn [storage prefix]. now apply (Hrw _ _ _ _ Es). }
  replace (Nat.eqb (length (payload_text e)) 0) with false
    by (unfold payload_text, dq; now eval_lits).
  rewrite (parse_payload e Hi Hd).
  rewrite (payload_fields_value e).
  2:{ apply b64_encode_nonempty. unfold getRandomValues, IV_LENGTH. discriminate. }
  2:{ apply b64_encode_nonempty, Ht. }
  cbn [ToString]. unfold on_crypto. cbn [crypto storage prefix].
  replace {| iv := iv e; data := data e |} with e by now destruct e.
  unfold e. rewrite (decrypt_sealed g g' rnd json _ _ Hc Hb Hcu Hk).
  rewrite (text_roundtrip json Hwf Hbom).
  destruct json as [|c r]; [congruence|]. reflexivity.
Qed.

(** The values of the test suite on the stand-in host: a string, an
    object with a number and an array, a number, an array. *)
Lemma C5_store_roundtrip_witness :
  let rnd := fun i : nat => Z.of_nat i in
  let st0 := constructor (W := toy) (A := map_storage) create
               (∅ : gmap jsstring jsstring) (Some (lit "test_")) in
  let back (v : JsValue) :=
    fst (get (W := toy) (A := map_storage) false (lit "k")
           (snd (set (W := toy) (A := map_storage) true rnd (lit "k") v st0))) in
  let user := VObj [(lit "id", VNum (Fin 123 0));
                    (lit "name", VStr (lit "Test User"));
                    (lit "roles", VArr [VStr (lit "admin"); VStr (lit "user")])] in
  back (VStr (lit "John Doe")) = Return (VStr (lit "John Doe"))
  /\ back user = Return user
  /\ back (VNum (Fin 42 0)) = Return (VNum (Fin 42 0))
  /\ back (VArr [VStr (lit "a"); VStr (lit "b"); VStr (lit "c")])
     = Return (VArr [VStr (lit "a"); VStr (lit "b"); VStr (lit "c")]).
Proof.
  intros rnd st0 back user.
  assert (reads_what_was_written map_storage) as Hrw.
  { intros k x b b' [= <-]. cbn. now rewrite lookup_insert_eq. }
  assert (forall v,
             (forall json,
                 well_typed v = true ->
                 JSON_stringify v = Return (Some json) ->
                 fst (set (W := toy) (A := map_storage) true rnd (lit "k") v st0)
                 = Return tt ->
                 forallb (keeps_key (W := toy)) [] = true ->
                 faithful v = true ->
                 fst (get (W := toy) (A := map_storage) false (lit "k")
                        (on_crypto (Crypto.run [])
                           (snd (set (W := toy) (A := map_storage) true rnd
                                   (lit "k") v st0))))
                 = Return v)) as H.
  { intros v json Hv Hj Hs Ho.
    exact (proj2 (proj2 (C5_store_roundtrip toy map_storage toy_correct
                           toy_bytes toy_tagged Hrw st0 true false rnd (lit "k")
                           v json [] Hv Hj Hs Ho))). }
  split; [|split; [|split]].
  - exact (H (VStr (lit "John Doe")) _ eq_refl eq_refl eq_refl eq_refl eq_refl).
  - exact (H user _ eq_refl eq_refl eq_refl eq_refl eq_refl).
  - exact (H (VNum (Fin 42 0)) _ eq_refl eq_refl eq_refl eq_refl eq_refl).
  - exact (H (VArr [VStr (lit "a"); VStr (lit "b"); VStr (lit "c")]) _
             eq_refl eq_refl eq_refl eq_refl eq_refl).
Defined.

End StoreFacts.

(* ===================================================================== *)
(** * Part III: further properties                                        *)
(* ===================================================================== *)

(* --------------------------------------------------------------------- *)
(** ** DeviceFingerprinter.compare: the score                            *)
(* --------------------------------------------------------------------- *)

Section ScoreFacts.
Import Fingerprint.

(** *** The score *)

Lemma strict_eq_sym (a b : prim) : strict_eq a b = strict_eq b a.
Proof.
  destruct (strict_eq b a) eqn:E.
  - apply strict_eq_iff in E. subst. now apply strict_eq_iff.
  - destruct (strict_eq a b) eqn:E'; [|reflexivity].
    apply strict_eq_iff in E'. subst.
    assert (strict_eq b b = true) as H by now apply strict_eq_iff.
    congruence.
Qed.

Lemma compare_loop_sym (c p : DeviceFingerprint) (fields : list key) :
  forall m mm, compare_loop c p fields m mm = compare_loop p c fields m mm.
Proof.
  induction fields as [|f rest IH]; intros m mm; cbn [compare_loop];
    [reflexivity|].
  rewrite (strict_eq_sym (field c f) (field p f)).
  destruct (strict_eq _ _); apply IH.
Qed.

Lemma filter_split {T} (f : T -> bool) (l : list T) :
  (length (List.filter f l) + length (List.filter (fun x => negb (f x)) l)
   = length l)%nat.
Proof.
  induction l as [|x l IH]; [reflexivity|].
  cbn [List.filter]. destruct (f x); cbn [negb length]; lia.
Qed.

Lemma filter_none {T} (f : T -> bool) (l : list T) :
  List.filter f l = [] <-> forall x, In x l -> f x = false.
Proof.
  induction l as [|x l IH]; cbn [List.filter].
  - split; [intros _ y []|reflexivity].
  - destruct (f x) eqn:E.
    + split; [discriminate|]. intros H. rewrite (H x) in E; [discriminate|now left].
    + rewrite IH. split.
      * intros H y [<-|Hy]; auto.
      * intros H y Hy. apply H. now right.
Qed.

(** One if the two values differ. *)
Definition differs {T : Type} `{EqDecision T} (a b : T) : nat :=
  if bool_decide (a = b) then 0%nat else 1%nat.

(** The number of compared fields in which two snapshots differ. *)
Definition differing (c p : DeviceFingerprint) : nat :=
  (differs (screenResolution c) (screenResolution p)
   + differs (colorDepth c) (colorDepth p)
   + differs (timezone c) (timezone p)
   + differs (language c) (language p)
   + differs (platform c) (platform p)
   + differs (hardwareConcurrency c) (hardwareConcurrency p)
   + differs (canvasHash c) (canvasHash p)
   + differs (webglRenderer c) (webglRenderer p))%nat.

Lemma mismatches_count (c p : DeviceFingerprint) :
  length (mismatches (compare c p)) = differing c p.
Proof.
  unfold compare. rewrite compare_loop_spec. cbn [mismatches app].
  rewrite length_map. unfold fieldsToCompare, differing, differs.
  destruct (matching_fields c p) as (M1 & M2 & M3 & M4 & M5 & M6 & M7 & M8).
  cbn [List.filter]. rewrite M1, M2, M3, M4, M5, M6, M7, M8.
  destruct (bool_decide (screenResolution c = screenResolution p));
    destruct (bool_decide (colorDepth c = colorDepth p));
    destruct (bool_decide (timezone c = timezone p));
    destruct (bool_decide (language c = language p));
    destruct (bool_decide (platform c = platform p));
    destruct (bool_decide (hardwareConcurrency c = hardwareConcurrency p));
    destruct (bool_decide (canvasHash c = canvasHash p));
    destruct (bool_decide (webglRenderer c = webglRenderer p));
    reflexivity.
Qed.

Lemma differs_zero {T : Type} `{EqDecision T} (a b : T) :
  differs a b = 0%nat <-> a = b.
Proof.
  unfold differs. destruct (decide (a = b)) as [E|E].
  - rewrite bool_decide_eq_true_2 by exact E. tauto.
  - rewrite bool_decide_eq_false_2 by exact E. split; [discriminate|tauto].
Qed.

Lemma differs_zero_iff {T : Type} `{EqDecision T} (a b : T) :
  a = b <-> (differs a b <= 0)%nat.
Proof. rewrite <- differs_zero. lia. Qed.

(** X16.  [compare] gives the same result whichever snapshot comes
    first.  Its similarity is one minus an eighth for every name in
    [mismatches], so it lies between 0 and 1; there are as many names in
    [mismatches] as there are fields, among the eight compared, that
    differ between the two snapshots; so the similarity is 1 exactly
    when [mismatches] is empty, which is exactly when the two snapshots
    agree on each of the eight fields, and it is below the 0.8 of the
    usage example exactly when two of the eight fields or more
    differ. *)
Theorem X16_compare_scores :
  forall c p : DeviceFingerprint,
    compare c p = compare p c
    /\ (similarity (compare c p)
        == 1 - (Z.of_nat (length (mismatches (compare c p))) # 8))%Q
    /\ (length (mismatches (compare c p)) <= 8)%nat
    /\ (0 <= similarity (compare c p) <= 1)%Q
    /\ ((similarity (compare c p) == 1)%Q <-> mismatches (compare c p) = [])
    /\ length (mismatches (compare c p)) = differing c p
    /\ (mismatches (compare c p) = []
        <-> screenResolution c = screenResolution p
            /\ colorDepth c = colorDepth p
            /\ timezone c = timezone p
            /\ language c = language p
            /\ platform c = platform p
            /\ hardwareConcurrency c = hardwareConcurrency p
            /\ canvasHash c = canvasHash p
            /\ webglRenderer c = webglRenderer p)
    /\ ((similarity (compare c p) < 8 # 10)%Q <-> (2 <= differing c p)%nat).
Proof.
  intros c p.
  split; [unfold compare; now rewrite compare_loop_sym|].
  pose proof (mismatches_count c p) as Hcount.
  assert (mismatches (compare c p) = [] <-> differing c p = 0%nat) as Hnil.
  { rewrite <- Hcount. symmetry. apply length_zero_iff_nil. }
  split; [|split; [|split; [|split; [|split; [exact Hcount|split]]]]].
  5:{ rewrite Hnil. unfold differing.
      rewrite (differs_zero_iff (screenResolution c) (screenResolution p)),
        (differs_zero_iff (colorDepth c) (colorDepth p)),
        (differs_zero_iff (timezone c) (timezone p)),
        (differs_zero_iff (language c) (language p)),
        (differs_zero_iff (platform c) (platform p)),
        (differs_zero_iff (hardwareConcurrency c) (hardwareConcurrency p)),
        (differs_zero_iff (canvasHash c) (canvasHash p)),
        (differs_zero_iff (webglRenderer c) (webglRenderer p)).
      lia. }
  all: revert Hcount Hnil; unfold compare; rewrite compare_loop_spec;
    cbn [similarity mismatches app];
    pose proof (filter_split (matching c p) fieldsToCompare) as Hsplit;
    change (length fieldsToCompare) with 8%nat in *;
    rewrite length_map;
    set (m := length (List.filter (matching c p) fieldsToCompare)) in *;
    set (n := length (List.filter (fun k => negb (matching c p k))
                                  fieldsToCompare)) in *;
    intros Hcount Hnil.
  - unfold Qeq, Qdiv, Qmult, Qinv, Qminus, Qplus, Qopp, inject_Z. simpl. lia.
  - lia.
  - unfold Qle, Qdiv, Qmult, Qinv, inject_Z. simpl. lia.
  - rewrite Hnil, <- Hcount.
    unfold Qeq, Qdiv, Qmult, Qinv, inject_Z. simpl. lia.
  - rewrite <- Hcount. unfold Qlt, Qdiv, Qmult, Qinv, inject_Z. simpl. lia.
Qed.

(** Two snapshots that differ in the screen and in the canvas hash: two
    names in [mismatches], a score below the threshold; a snapshot
    against itself has none. *)
Lemma X16_compare_scores_witness :
  let c := {| screenResolution := lit "1920x1080"; colorDepth := 24;
              timezoneOffset := -60; timezone := lit "Europe/Rome";
              language := lit "it-IT"; languages := [lit "it-IT"];
              platform := lit "MacIntel"; hardwareConcurrency := 8;
              deviceMemory := Some 8; touchSupport := false;
              canvasHash := Some (lit "abc"); webglRenderer := None;
              webglVendor := None; collectedAt := lit "2024-01-01" |} in
  let p := {| screenResolution := lit "1280x720"; colorDepth := 24;
              timezoneOffset := 0; timezone := lit "Europe/Rome";
              language := lit "it-IT"; languages := [];
              platform := lit "MacIntel"; hardwareConcurrency := 8;
              deviceMemory := None; touchSupport := true;
              canvasHash := None; webglRenderer := None;
              webglVendor := Some (lit "x"); collectedAt := lit "2024-02-02" |} in
  (similarity (compare c p) < 8 # 10)%Q
  /\ length (mismatches (compare c p)) = 2%nat
  /\ mismatches (compare c c) = []
  /\ mismatches (compare c p) <> [].
Proof.
  intros c p.
  destruct (X16_compare_scores c p) as (_ & _ & _ & _ & _ & H6 & H7p & H8).
  destruct (X16_compare_scores c c) as (_ & _ & _ & _ & _ & _ & H7 & _).
  split; [apply H8; vm_compute; lia|]. split; [rewrite H6; reflexivity|].
  split; [apply H7; repeat split|].
  intros H. apply H7p in H as (H & _). discriminate H.
Defined.

End ScoreFacts.

(* --------------------------------------------------------------------- *)
(** ** SessionGuardian: timers, trace and clock                          *)
(* --------------------------------------------------------------------- *)

Section TraceFacts.
Import Guardian.

(** *** One idle timeout at a time (X1) *)

(** No two pending entries share a handle. *)
Definition distinct (s : State) : Prop := List.NoDup (List.map tid (pending s)).

Lemma NoDup_map_filter {A B} (f : A -> B) (p : A -> bool) (l : list A) :
  List.NoDup (List.map f l) -> List.NoDup (List.map f (List.filter p l)).
Proof.
  induction l as [|x l IH]; cbn [List.map List.filter]; [auto|].
  intros H. apply List.NoDup_cons_iff in H as [H1 H2].
  destruct (p x); cbn [List.map]; [|now apply IH].
  apply List.NoDup_cons_iff. split; [|now apply IH].
  intros Hin. apply H1.
  apply in_map_iff in Hin as (y & Hy & Hin). apply in_map_iff.
  exists y. apply filter_In in Hin. tauto.
Qed.

Lemma distinct_filter (s s' : State) (f : Timer -> bool) :
  distinct s -> pending s' = List.filter f (pending s) -> distinct s'.
Proof. unfold distinct. intros H ->. now apply NoDup_map_filter. Qed.

Lemma distinct_same_queue (s s' : State) :
  distinct s -> pending s' = pending s -> distinct s'.
Proof. unfold distinct. now intros H ->. Qed.

Lemma distinct_resetTimer (s : State) :
  tracked s -> distinct s -> distinct (resetTimer s).
Proof.
  intros Htr Hd. pose proof (surviving_warnings s Htr) as Hs.
  assert (List.NoDup (List.map tid (surviving s))) as Hsd.
  { unfold surviving. destruct (timer s); [now apply NoDup_map_filter|exact Hd]. }
  assert (forall n, (nextTimerId s <= n)%positive ->
                    ~ In n (List.map tid (surviving s))) as Hfresh.
  { intros n Hn Hin. apply in_map_iff in Hin as (t & <- & Hin).
    rewrite List.Forall_forall in Hs. destruct (Hs t Hin). lia. }
  rewrite resetTimer_eq. unfold distinct. cbn [pending].
  rewrite List.map_app. apply List.NoDup_app; [exact Hsd| |].
  - unfold armed. destruct (0 <? warningMs s); cbn [List.map tid].
    + constructor; [|constructor; [intros []|constructor]].
      intros [H|[]]. lia.
    + constructor; [intros []|constructor].
  - intros n Hin Harm. apply (Hfresh n); [|exact Hin]. unfold armed in Harm.
    destruct (0 <? warningMs s); cbn [List.map tid In] in Harm;
      repeat (destruct Harm as [<-|Harm]; [lia|]); contradiction.
Qed.

Lemma distinct_run_callback (c : Callback) (s : State) :
  distinct s -> distinct (run_callback c s).
Proof.
  intros H. destruct c; cbn [run_callback].
  - destruct (negb (isIdle s) && isRunning s); [|exact H].
    now apply (distinct_same_queue s).
  - unfold triggerIdle. destruct (isIdle s); [exact H|].
    now apply (distinct_same_queue s).
Qed.

Lemma distinct_run_timers (fuel : nat) (deadline : Z) :
  forall s, distinct s -> distinct (run_timers fuel deadline s).
Proof.
  induction fuel as [|f IH]; intros s H; cbn [run_timers]; [exact H|].
  destruct (earliest (pending s)) as [t|]; [|exact H].
  destruct (due t <=? deadline); [|exact H].
  apply IH. unfold fire. apply distinct_run_callback.
  now apply (distinct_filter s _ (fun u => negb (Pos.eqb (tid u) (tid t)))).
Qed.

Lemma distinct_handleActivity (s : State) :
  tracked s -> distinct s -> distinct (handleActivity s).
Proof.
  intros Htr H. unfold handleActivity.
  destruct (now s - lastActivity s <? activityThrottleMs (config s)); [exact H|].
  cbn [isIdle set_lastActivity].
  destruct (isIdle s); apply distinct_resetTimer;
    (now apply (tracked_same_queue s)) || (now apply (distinct_same_queue s)).
Qed.

Lemma distinct_step (o : op) (s : State) :
  tracked s -> distinct s -> distinct (step o s).
Proof.
  intros Htr H. destruct o as [| | | |h|dt]; cbn [step].
  - unfold start. destruct (isRunning s); [exact H|].
    apply distinct_resetTimer;
      [now apply (tracked_same_queue s)|now apply (distinct_same_queue s)].
  - unfold stop. destruct (negb (isRunning s)); [exact H|]. cbn.
    destruct (timer s) as [id|];
      [now apply (distinct_filter s _ (fun t => negb (Pos.eqb (tid t) id)))
      |now apply (distinct_same_queue s)].
  - unfold reset. cbn [isIdle set_lastActivity].
    destruct (isIdle s); apply distinct_resetTimer;
      (now apply (tracked_same_queue s)) || (now apply (distinct_same_queue s)).
  - unfold dom_activity. destruct (listening s); [|exact H].
    now apply distinct_handleActivity.
  - unfold dom_visibility. cbn [listening set_hidden].
    destruct (listening s); [|now apply (distinct_same_queue s)].
    unfold handleVisibilityChange. cbn [hidden set_hidden emit].
    set (s1 := emit _ _).
    assert (tracked s1) as Htr1 by now apply (tracked_same_queue s).
    assert (distinct s1) as H1 by now apply (distinct_same_queue s).
    destruct (negb h); [|exact H1].
    destruct (_ && _); [|now apply distinct_handleActivity].
    unfold triggerIdle. destruct (isIdle s1); [exact H1|].
    now apply (distinct_same_queue s1).
  - unfold advance.
    apply (distinct_same_queue
             (run_timers (length (pending s)) (now s + Z.max 0 dt) s));
      [now apply distinct_run_timers|reflexivity].
Qed.

Lemma distinct_run (ops : list op) :
  forall s, tracked s -> distinct s -> distinct (run ops s).
Proof.
  induction ops as [|o ops IH]; intros s Htr H; cbn [run fold_left]; [exact H|].
  apply IH; [now apply tracked_step|now apply distinct_step].
Qed.

Definition is_timeout (t : Timer) : bool :=
  match cb t with CbTimeout => true | CbWarning => false end.

Lemma one_handle_one_entry (id : positive) (q : list Timer) :
  List.NoDup (List.map tid q) ->
  (forall t, In t q -> is_timeout t = true -> tid t = id) ->
  (length (List.filter is_timeout q) <= 1)%nat.
Proof.
  induction q as [|t q IH]; cbn [List.map List.filter]; [cbn; lia|].
  intros Hnd Hid. apply List.NoDup_cons_iff in Hnd as [Hnew Hq].
  specialize (IH Hq (fun u Hu => Hid u (or_intror Hu))).
  destruct (is_timeout t) eqn:Et; [|exact IH]. cbn [length].
  destruct (List.filter is_timeout q) as [|u r] eqn:Ef; [cbn; lia|].
  exfalso. assert (In u (List.filter is_timeout q)) as Hu by (rewrite Ef; now left).
  apply filter_In in Hu as [Hu Htu]. apply Hnew.
  apply in_map_iff. exists u. split; [|exact Hu].
  rewrite (Hid t (or_introl eq_refl) Et). apply Hid; [now right|exact Htu].
Qed.

(** X1.  Whatever has been done to a monitor since its construction,
    the host holds at most one idle timeout for it, the one whose handle
    is in [this.timer]; and no handle is pending twice. *)
Theorem X1_single_idle_timeout :
  forall (c : PartialConfig) (t0 : Z) (history : list op),
    let s := run history (constructor c t0) in
    (length (List.filter is_timeout (pending s)) <= 1)%nat
    /\ (forall t, In t (pending s) -> cb t = CbTimeout -> timer s = Some (tid t))
    /\ List.NoDup (List.map tid (pending s)).
Proof.
  intros c t0 history s.
  assert (tracked s) as Htr by (apply tracked_run, tracked_constructor).
  assert (distinct s) as Hd.
  { apply distinct_run; [apply tracked_constructor|]. unfold distinct. cbn.
    constructor. }
  assert (forall t, In t (pending s) -> cb t = CbTimeout -> timer s = Some (tid t))
    as Hid.
  { intros t Hin Hcb. unfold tracked in Htr. rewrite List.Forall_forall in Htr.
    now apply (Htr t Hin). }
  split; [|split; [exact Hid|exact Hd]].
  destruct (timer s) as [id|] eqn:Et.
  - apply (one_handle_one_entry id); [exact Hd|].
    intros t Hin Hto. unfold is_timeout in Hto.
    destruct (cb t) eqn:Ecb; [discriminate|].
    specialize (Hid t Hin Ecb). congruence.
  - destruct (List.filter is_timeout (pending s)) as [|t r] eqn:Ef; [cbn; lia|].
    assert (In t (List.filter is_timeout (pending s))) as Hin
      by (rewrite Ef; now left).
    apply filter_In in Hin as [Hin Hto]. unfold is_timeout in Hto.
    destruct (cb t) eqn:Ecb; [discriminate|].
    specialize (Hid t Hin Ecb). discriminate.
Qed.

(** *** [idle] and [active] take turns *)

(** What an event does to the idle flag. *)
Definition toggle (b : bool) (e : Event) : bool :=
  match e with
  | EIdle _ _ => true
  | EActive => false
  | _ => b
  end.

(** What the trace says about the idle flag: the last of its [idle] and
    [active] events decides, none meaning not idle. *)
Definition idle_after (trace : list Event) : bool := fold_left toggle trace false.

(** Every [idle] comes when the flag is down, every [active] when it is
    up. *)
Fixpoint take_turns (idle : bool) (trace : list Event) : bool :=
  match trace with
  | [] => true
  | EIdle _ _ :: r => negb idle && take_turns true r
  | EActive :: r => idle && take_turns false r
  | _ :: r => take_turns idle r
  end.

Definition sixty (e : Event) : Prop :=
  match e with EWarning n => n = 60 | _ => True end.

(** The state [s] comes after [s0]: the trace has grown by events that
    take turns from the flag of [s0] and lead to the flag of [s]. *)
Definition since (s0 s : State) : Prop :=
  exists more,
    emitted s = emitted s0 ++ more
    /\ take_turns (isIdle s0) more = true
    /\ fold_left toggle more (isIdle s0) = isIdle s
    /\ List.Forall sixty more.

Lemma take_turns_snoc (trace : list Event) (e : Event) :
  forall b,
    take_turns b (trace ++ [e]) =
    take_turns b trace
    && match e with
       | EIdle _ _ => negb (fold_left toggle trace b)
       | EActive => fold_left toggle trace b
       | _ => true
       end.
Proof.
  induction trace as [|x r IH]; intros b; cbn [app take_turns fold_left].
  - destruct e; cbn; now rewrite ?andb_true_r.
  - destruct x; cbn [toggle]; rewrite IH, ?andb_assoc; reflexivity.
Qed.

Lemma since_refl (s : State) : since s s.
Proof. exists []. now rewrite app_nil_r. Qed.

Lemma since_same (s0 s s' : State) :
  since s0 s -> emitted s' = emitted s -> isIdle s' = isIdle s -> since s0 s'.
Proof. unfold since. now intros H -> ->. Qed.

Lemma since_emit (s0 s : State) (e : Event) (b : bool) :
  since s0 s ->
  match e with
  | EIdle _ _ => isIdle s = false /\ b = true
  | EActive => isIdle s = true /\ b = false
  | EWarning n => n = 60 /\ b = isIdle s
  | EVisibilityChange _ => b = isIdle s
  end ->
  since s0 (emit e (set_isIdle b s)).
Proof.
  intros (more & H1 & H2 & H3 & H4) He. exists (more ++ [e]).
  cbn [emitted isIdle emit set_isIdle].
  rewrite H1, app_assoc, take_turns_snoc, fold_left_app, H2, H3.
  cbn [fold_left].
  repeat split; try (apply Forall_app; split; [exact H4|constructor; [|constructor]]);
    destruct e; cbn [toggle sixty]; intuition (subst; auto).
  all: match goal with H : isIdle _ = _ |- _ => now rewrite H end.
Qed.

Lemma since_triggerIdle (s0 s : State) : since s0 s -> since s0 (triggerIdle s).
Proof.
  intros H. unfold triggerIdle. destruct (isIdle s) eqn:Ei; [exact H|].
  now apply since_emit.
Qed.

(** The common part of [reset] and [handleActivity]. *)
Lemma since_activate (s0 s : State) :
  since s0 s ->
  since s0 (if isIdle s then emit EActive (set_isIdle false s) else s).
Proof.
  intros H. destruct (isIdle s) eqn:Ei; [|exact H]. now apply since_emit.
Qed.

Lemma since_resetTimer (s0 s : State) : since s0 s -> since s0 (resetTimer s).
Proof. intros H. rewrite resetTimer_eq. now apply (since_same s0 s). Qed.

Lemma since_handleActivity (s0 s : State) :
  since s0 s -> since s0 (handleActivity s).
Proof.
  intros H. unfold handleActivity.
  destruct (now s - lastActivity s <? activityThrottleMs (config s)); [exact H|].
  apply since_resetTimer.
  apply (since_activate s0 (set_lastActivity (now s) s)).
  now apply (since_same s0 s).
Qed.

Lemma since_emit_plain (s0 s : State) (e : Event) :
  since s0 s ->
  match e with
  | EWarning n => n = 60
  | EVisibilityChange _ => True
  | _ => False
  end ->
  since s0 (emit e s).
Proof.
  intros H He.
  apply (since_same s0 (emit e (set_isIdle (isIdle s) s))); [|reflexivity..].
  apply since_emit; [exact H|]. destruct e; try contradiction; auto.
Qed.

Lemma since_run_timers (s0 : State) (fuel : nat) (deadline : Z) :
  forall s, since s0 s -> since s0 (run_timers fuel deadline s).
Proof.
  induction fuel as [|f IH]; intros s H; cbn [run_timers]; [exact H|].
  destruct (earliest (pending s)) as [t|]; [|exact H].
  destruct (due t <=? deadline); [|exact H].
  apply IH. unfold fire.
  set (s1 := set_now _ _).
  assert (since s0 s1) as H1 by now apply (since_same s0 s).
  destruct (cb t); cbn [run_callback].
  - destruct (negb (isIdle s1) && isRunning s1); [|exact H1].
    now apply since_emit_plain.
  - now apply since_triggerIdle.
Qed.

Lemma since_step (s0 : State) (o : op) (s : State) :
  since s0 s -> since s0 (step o s).
Proof.
  intros H. destruct o as [| | | |h|dt]; cbn [step].
  - unfold start. destruct (isRunning s); [exact H|].
    apply since_resetTimer. now apply (since_same s0 s).
  - unfold stop. destruct (negb (isRunning s)); [exact H|].
    cbn. destruct (timer s); now apply (since_same s0 s).
  - unfold reset. apply since_resetTimer.
    apply (since_activate s0 (set_lastActivity (now s) s)).
    now apply (since_same s0 s).
  - unfold dom_activity. destruct (listening s); [|exact H].
    now apply since_handleActivity.
  - unfold dom_visibility. cbn [listening set_hidden].
    assert (since s0 (set_hidden h s)) as H0 by now apply (since_same s0 s).
    destruct (listening s); [|exact H0].
    unfold handleVisibilityChange.
    set (s1 := emit _ _).
    assert (since s0 s1) as H1 by now apply since_emit_plain.
    destruct (negb (hidden (set_hidden h s))); [|exact H1].
    destruct (_ && _);
      [now apply since_triggerIdle|now apply since_handleActivity].
  - unfold advance.
    apply (since_same s0 (run_timers (length (pending s)) (now s + Z.max 0 dt) s));
      [now apply since_run_timers|reflexivity..].
Qed.

Lemma since_run (history : list op) :
  forall s0 s, since s0 s -> since s0 (run history s).
Proof.
  induction history as [|o ops IH]; intros s0 s H; cbn [run fold_left];
    [exact H|].
  apply IH. now apply since_step.
Qed.

(** X2.  Over any history since construction, the [idle] and [active]
    events of the trace take turns, [idle] first; and the monitor is
    idle exactly when the last of them is an [idle]. *)
Theorem X2_idle_and_active_take_turns :
  forall (c : PartialConfig) (t0 : Z) (history : list op),
    let s := run history (constructor c t0) in
    take_turns false (emitted s) = true
    /\ getIsIdle s = idle_after (emitted s).
Proof.
  intros c t0 history s.
  destruct (since_run history _ _ (since_refl (constructor c t0)))
    as (more & H1 & H2 & H3 & _).
  fold s in H1, H3. cbn [emitted isIdle constructor app] in H1, H2, H3.
  rewrite H1. split; [exact H2|]. unfold getIsIdle, idle_after. now rewrite H3.
Qed.

(** *** [reset] (X3) *)

Lemma reset_eq (s : State) :
  reset s =
  {| config := config s; timer := Some (armed_id s);
     lastActivity := now s; isIdle := false;
     isRunning := isRunning s; now := now s;
     nextTimerId := Pos.succ (armed_id s);
     pending := surviving s ++ armed s;
     listening := listening s; hidden := hidden s;
     emitted := emitted s ++ (if isIdle s then [EActive] else []) |}.
Proof.
  unfold reset. rewrite resetTimer_eq. cbn [isIdle set_lastActivity].
  destruct (isIdle s) eqn:Ei; cbn; rewrite ?Ei, ?app_nil_r; reflexivity.
Qed.

(** After a re-arm nothing but warnings is due before the new timeout. *)
Lemma rearmed_no_timeout_due (s : State) (deadline : Z) :
  tracked s -> deadline < now s + Z.max 0 (timeoutMs s) ->
  List.Forall (fun t => cb t = CbTimeout -> deadline < due t)
              (surviving s ++ armed s).
Proof.
  intros Htr Hd. apply Forall_app. split.
  - eapply List.Forall_impl; [|exact (surviving_warnings s Htr)].
    cbn beta. intros u [_ Hw] Hu. rewrite Hw in Hu. discriminate.
  - unfold armed. destruct (0 <? warningMs s);
      repeat constructor; cbn [cb due]; intros E; try discriminate E; lia.
Qed.

(** X3.  [reset] does not look at [isRunning]: on a monitor in any state
    reachable since construction, stopped ones included, it sets
    [lastActivity] to the current time, clears the idle flag (emitting
    [active] if it was set) and arms the timer.  With a positive timeout
    the monitor then stays active for less than [timeoutMs] and is idle
    from [timeoutMs] on, the [idle] event naming the time of the [reset];
    the timeout is one that the host's [setTimeout] takes as it is, at
    most 2147483647 ms.  An activity signal that passes the throttle
    does exactly what [reset] does. *)
Theorem X3_reset_starts_a_full_timeout :
  forall (c : PartialConfig) (t0 : Z) (history : list op),
    let s := run history (constructor c t0) in
    0 < timeoutMs s <= 2147483647 ->
    lastActivity (reset s) = now s
    /\ isIdle (reset s) = false
    /\ isRunning (reset s) = isRunning s
    /\ emitted (reset s) = emitted s ++ (if isIdle s then [EActive] else [])
    /\ (forall dt, 0 <= dt < timeoutMs s -> isIdle (advance dt (reset s)) = false)
    /\ isIdle (advance (timeoutMs s) (reset s)) = true
    /\ In (EIdle (now s) (idleTimeoutMinutes (config s)))
          (emitted (advance (timeoutMs s) (reset s)))
    /\ (activityThrottleMs (config s) <= now s - lastActivity s ->
        handleActivity s = reset s).
Proof.
  intros c t0 history s [Hpos _].
  assert (tracked s) as Htr by (apply tracked_run, tracked_constructor).
  assert (tracked (reset s)) as Htr' by (apply (tracked_step OReset); exact Htr).
  pose proof (reset_eq s) as Hs.
  split; [now rewrite Hs|]. split; [now rewrite Hs|]. split; [now rewrite Hs|].
  split; [now rewrite Hs|]. split; [|split; [|split]].
  - intros dt Hdt.
    assert (no_timeout_due (now (reset s) + Z.max 0 dt) (reset s)) as Hq.
    { unfold no_timeout_due. rewrite Hs. cbn [pending now].
      apply rearmed_no_timeout_due; [exact Htr|lia]. }
    destruct (advance_warnings_only dt (reset s) Hq) as (W1 & _).
    rewrite W1. now rewrite Hs.
  - set (t := {| tid := armed_id s; due := now s + timeoutMs s; cb := CbTimeout |}).
    assert (In t (pending (reset s))) as Hin.
    { rewrite Hs. cbn [pending]. apply in_or_app. right.
      unfold t, armed, armed_id. rewrite (Z.max_r 0 (timeoutMs s)) by lia.
      destruct (0 <? warningMs s); [right; left|left]; reflexivity. }
    assert (due t <= now (reset s) + Z.max 0 (timeoutMs s)) as Hdue.
    { rewrite Hs. cbn [now due t]. lia. }
    now destruct (advance_fires_timeout (timeoutMs s) (reset s) t Htr' Hin
                    eq_refl Hdue).
  - set (t := {| tid := armed_id s; due := now s + timeoutMs s; cb := CbTimeout |}).
    assert (In t (pending (reset s))) as Hin.
    { rewrite Hs. cbn [pending]. apply in_or_app. right.
      unfold t, armed, armed_id. rewrite (Z.max_r 0 (timeoutMs s)) by lia.
      destruct (0 <? warningMs s); [right; left|left]; reflexivity. }
    assert (due t <= now (reset s) + Z.max 0 (timeoutMs s)) as Hdue.
    { rewrite Hs. cbn [now due t]. lia. }
    destruct (advance_fires_timeout (timeoutMs s) (reset s) t Htr' Hin
                eq_refl Hdue) as [_ F2].
    rewrite Hs in F2 at 1 2 3. cbn [isIdle lastActivity config] in F2.
    now apply F2.
  - intros Hthr. rewrite (handleActivity_passed s Hthr). now rewrite Hs.
Qed.

(** A monitor with a one-minute timeout that was started and stopped:
    a [reset] half a minute later makes it idle after one more minute,
    although it is not running. *)
Lemma X3_reset_starts_a_full_timeout_witness :
  let c := {| p_idleTimeoutMinutes := Some 1; p_activityEvents := None;
              p_activityThrottleMs := None; p_debug := None |} in
  let s := run [OStart; OStop; OAdvance 30000] (constructor c 0) in
  isRunning (reset s) = false
  /\ isIdle (advance 59999 (reset s)) = false
  /\ isIdle (advance 60000 (reset s)) = true
  /\ In (EIdle 30000 1) (emitted (advance 60000 (reset s))).
Proof.
  intros c s.
  assert (0 < timeoutMs s <= 2147483647) as Hpos
    by (vm_compute; split; [reflexivity|discriminate]).
  destruct (X3_reset_starts_a_full_timeout c 0 [OStart; OStop; OAdvance 30000]
              Hpos) as (_ & _ & H3 & _ & H5 & H6 & H7 & _).
  split; [exact H3|]. split; [|split; [exact H6|exact H7]].
  apply H5. split; [discriminate|reflexivity].
Defined.

(** *** [getTimeRemaining] (X4) *)

Lemma now_after_lastActivity (ops : list op) :
  forall s, lastActivity s <= now s ->
            lastActivity (run ops s) <= now (run ops s).
Proof.
  induction ops as [|o ops IH]; intros s H; cbn [run fold_left]; [exact H|].
  apply IH. destruct o as [| | | |h|dt]; cbn [step].
  - unfold start. destruct (isRunning s); [exact H|]. now rewrite resetTimer_eq.
  - destruct (stop_frame s) as (_ & -> & _ & _ & ->). exact H.
  - rewrite reset_eq. cbn. lia.
  - unfold dom_activity. destruct (listening s); [|exact H].
    destruct (Z.lt_ge_cases (now s - lastActivity s) (activityThrottleMs (config s)))
      as [Hlt|Hge].
    + now rewrite handleActivity_throttled.
    + rewrite handleActivity_passed by exact Hge. cbn. lia.
  - unfold dom_visibility. cbn [listening set_hidden].
    destruct (listening s); [|exact H].
    unfold handleVisibilityChange. set (s1 := emit _ _).
    assert (lastActivity s1 <= now s1) as H1 by exact H.
    destruct (negb (hidden (set_hidden h s))); [|exact H1].
    destruct (_ && _).
    + unfold triggerIdle. destruct (isIdle s1); exact H1.
    + destruct (Z.lt_ge_cases (now s1 - lastActivity s1)
                  (activityThrottleMs (config s1))) as [Hlt|Hge].
      * now rewrite handleActivity_throttled.
      * rewrite handleActivity_passed by exact Hge. cbn. lia.
  - destruct (advance_frame dt s) as (_ & _ & -> & _ & _ & -> & _). lia.
Qed.

(** X4.  Over any history since construction, [getTimeRemaining] lies
    between 0 and the timeout; it is 0 exactly when the timeout has
    elapsed since [lastActivity]; it is the whole timeout right after
    [reset]; and it counts down with the clock, stopping at 0. *)
Theorem X4_getTimeRemaining_counts_down :
  forall (c : PartialConfig) (t0 : Z) (history : list op),
    let s := run history (constructor c t0) in
    0 <= getTimeRemaining s <= Z.max 0 (timeoutMs s)
    /\ (getTimeRemaining s = 0 <-> timeoutMs s <= now s - lastActivity s)
    /\ getTimeRemaining (reset s) = Z.max 0 (timeoutMs s)
    /\ (forall dt,
          getTimeRemaining (advance dt s)
          = Z.max 0 (getTimeRemaining s - Z.max 0 dt)).
Proof.
  intros c t0 history s.
  assert (lastActivity s <= now s) as Hle
    by (apply now_after_lastActivity; cbn; lia).
  unfold getTimeRemaining. split; [lia|]. split; [lia|]. split.
  - rewrite reset_eq. unfold timeoutMs. cbn. lia.
  - intros dt. destruct (advance_frame dt s) as (Hc & _ & -> & _ & _ & -> & _).
    unfold timeoutMs. rewrite Hc. lia.
Qed.

(** *** A running monitor stays watched *)

(** A running monitor is idle, or its idle timeout is pending and due
    within the timeout. *)
Definition watched (s : State) : Prop :=
  isRunning s = true ->
  isIdle s = true
  \/ exists t, In t (pending s) /\ cb t = CbTimeout
               /\ due t <= now s + Z.max 0 (timeoutMs s).

Lemma watched_later (s s' : State) :
  watched s ->
  (isRunning s' = true -> isRunning s = true) ->
  (isIdle s = true -> isIdle s' = true) ->
  (forall t, In t (pending s) -> cb t = CbTimeout ->
             In t (pending s') \/ isIdle s' = true) ->
  now s <= now s' -> config s' = config s ->
  watched s'.
Proof.
  intros H Hr Hi Hp Hn Hc Hr'. destruct (H (Hr Hr')) as [Hidle|(t & Hin & Hcb & Hd)].
  - left. now apply Hi.
  - destruct (Hp t Hin Hcb) as [Hin'|Hidle]; [|now left].
    right. exists t. split; [exact Hin'|]. split; [exact Hcb|].
    unfold timeoutMs in *. rewrite Hc. lia.
Qed.

Lemma watched_same (s s' : State) :
  watched s ->
  isRunning s' = isRunning s -> isIdle s' = isIdle s ->
  pending s' = pending s -> now s' = now s -> config s' = config s ->
  watched s'.
Proof.
  intros H Hr Hi Hp Hn Hc.
  apply (watched_later s s' H); try congruence; [|lia].
  intros t Hin _. left. now rewrite Hp.
Qed.

Lemma watched_resetTimer (s : State) : watched (resetTimer s).
Proof.
  intros _. right. rewrite resetTimer_eq. cbn [pending now].
  exists {| tid := armed_id s; due := now s + Z.max 0 (timeoutMs s);
            cb := CbTimeout |}.
  split; [|split; [reflexivity|cbn [due]; unfold timeoutMs; cbn [config]; lia]].
  apply in_or_app. right. unfold armed, armed_id.
  destruct (0 <? warningMs s); [right; left|left]; reflexivity.
Qed.

Lemma watched_triggerIdle (s : State) : watched (triggerIdle s).
Proof.
  intros _. left. unfold triggerIdle.
  destruct (isIdle s) eqn:E; [exact E|reflexivity].
Qed.

Lemma watched_handleActivity (s : State) : watched s -> watched (handleActivity s).
Proof.
  intros H. unfold handleActivity.
  destruct (now s - lastActivity s <? activityThrottleMs (config s)); [exact H|].
  apply watched_resetTimer.
Qed.

(** Firing timers leaves the idle timeout pending, unless it fires. *)
Lemma run_timers_keeps_timeout (fuel : nat) (deadline : Z) :
  forall s t,
    tracked s -> In t (pending s) -> cb t = CbTimeout ->
    In t (pending (run_timers fuel deadline s))
    \/ isIdle (run_timers fuel deadline s) = true.
Proof.
  induction fuel as [|f IH]; intros s t Htr Hin Hcb; cbn [run_timers];
    [now left|].
  destruct (earliest (pending s)) as [u|] eqn:Eu; [|now left].
  destruct (due u <=? deadline); [|now left].
  apply earliest_min in Eu as [Hu _].
  destruct (fire_frame u s) as (_ & _ & _ & _ & _ & _ & _ & F8 & _).
  unfold tracked in Htr. rewrite List.Forall_forall in Htr.
  destruct (Pos.eqb (tid u) (tid t)) eqn:Eid.
  - right. apply Pos.eqb_eq in Eid.
    assert (cb u = CbTimeout) as Hcu.
    { apply (Htr u Hu). rewrite Eid. now apply (Htr t Hin). }
    pose proof (run_timers_frame f deadline (fire u s)) as Hf. cbv zeta in Hf.
    apply Hf. unfold fire, run_callback, triggerIdle. rewrite Hcu.
    cbn [isIdle set_now clearTimeout set_queue].
    destruct (isIdle s) eqn:E; [exact E|reflexivity].
  - apply IH; [apply tracked_fire; unfold tracked;
               now rewrite List.Forall_forall| |exact Hcb].
    rewrite F8. apply filter_In. split; [exact Hin|].
    now rewrite Pos.eqb_sym, Eid.
Qed.

Lemma watched_advance (dt : Z) (s : State) :
  tracked s -> watched s -> watched (advance dt s).
Proof.
  intros Htr H.
  destruct (advance_frame dt s) as (Hc & _ & _ & Hr & _ & Hn & _).
  pose proof (run_timers_frame (length (pending s)) (now s + Z.max 0 dt) s)
    as Hf. cbv zeta in Hf.
  apply (watched_later s (advance dt s) H); try congruence; [| |lia].
  - intros Hi. unfold advance. cbn [isIdle set_now]. now apply Hf.
  - intros t Hin Hcb. unfold advance. cbn [isIdle pending set_now].
    now apply run_timers_keeps_timeout.
Qed.

Lemma watched_step (o : op) (s : State) :
  tracked s -> watched s -> watched (step o s).
Proof.
  intros Htr H. destruct o as [| | | |h|dt]; cbn [step].
  - unfold start. destruct (isRunning s); [exact H|]. apply watched_resetTimer.
  - unfold stop. destruct (isRunning s) eqn:Er; cbn [negb]; [|exact H].
    intros Hr. exfalso. revert Hr. cbn. destruct (timer s); cbn; discriminate.
  - unfold reset. apply watched_resetTimer.
  - unfold dom_activity. destruct (listening s); [|exact H].
    now apply watched_handleActivity.
  - unfold dom_visibility. cbn [listening set_hidden].
    assert (watched (set_hidden h s)) as H0 by now apply (watched_same s).
    destruct (listening s); [|exact H0].
    unfold handleVisibilityChange.
    set (s1 := emit _ _).
    assert (watched s1) as H1 by now apply (watched_same (set_hidden h s)).
    destruct (negb (hidden (set_hidden h s))); [|exact H1].
    destruct (_ && _);
      [apply watched_triggerIdle|now apply watched_handleActivity].
  - now apply watched_advance.
Qed.

Lemma watched_run (history : list op) :
  forall s, tracked s -> watched s -> watched (run history s).
Proof.
  induction history as [|o ops IH]; intros s Htr H; cbn [run fold_left];
    [exact H|].
  apply IH; [now apply tracked_step|now apply watched_step].
Qed.

End TraceFacts.

(* --------------------------------------------------------------------- *)
(** ** SessionGuardian: handlers that throw                              *)
(* --------------------------------------------------------------------- *)

Section HandlerFacts.
Import Crypto Guardian.

(** *** A handler of [active] that throws (X21) *)

(** X21.  With handlers that return, [reset] and [handleActivity] are
    as in [Guardian].  When the monitor is idle and a handler of
    [active] throws, [reset] passes the error on, and so does an
    activity signal that passes the throttle: the idle flag is cleared,
    [lastActivity] is set and [active] is in the trace, but the timer is
    not armed, the queue being as it was.  If the queue then holds no
    idle timeout, as after the timeout that made the monitor idle, the
    monitor never becomes idle by waiting. *)
Theorem X21_throwing_handler_skips_the_rearm :
  forall (s : State) (e : error),
    Handlers.reset (Return tt) s = (Return tt, reset s)
    /\ Handlers.handleActivity (Return tt) s = (Return tt, handleActivity s)
    /\ (isIdle s = true ->
        let s' := snd (Handlers.reset (Throw e) s) in
        fst (Handlers.reset (Throw e) s) = Throw e
        /\ (activityThrottleMs (config s) <= now s - lastActivity s ->
            Handlers.handleActivity (Throw e) s = Handlers.reset (Throw e) s)
        /\ isIdle s' = false /\ lastActivity s' = now s
        /\ emitted s' = emitted s ++ [EActive]
        /\ pending s' = pending s /\ timer s' = timer s
        /\ isRunning s' = isRunning s
        /\ ((forall t, In t (pending s) -> cb t <> CbTimeout) ->
            forall dt, isIdle (advance dt s') = false)).
Proof.
  intros s e. split; [|split].
  - unfold Handlers.reset, reset, Handlers.emit. cbn [isIdle set_lastActivity].
    now destruct (isIdle s).
  - unfold Handlers.handleActivity, handleActivity, Handlers.emit.
    destruct (now s - lastActivity s <? activityThrottleMs (config s));
      [reflexivity|].
    cbn [isIdle set_lastActivity]. now destruct (isIdle s).
  - intros Hi. unfold Handlers.reset, Handlers.handleActivity, Handlers.emit.
    cbn [isIdle set_lastActivity]. rewrite Hi. cbn [fst snd].
    split; [reflexivity|]. split.
    { intros Hthr.
      replace (now s - lastActivity s <? activityThrottleMs (config s))
        with false by (symmetry; apply Z.ltb_ge; lia).
      reflexivity. }
    repeat (split; [reflexivity|]).
    intros Hq dt.
    set (s' := Guardian.emit EActive _).
    assert (no_timeout_due (now s' + Z.max 0 dt) s') as Hn.
    { unfold no_timeout_due. apply List.Forall_forall. intros t Hin Hcb.
      now destruct (Hq t Hin). }
    destruct (advance_warnings_only dt s' Hn) as [H _]. now rewrite H.
Qed.

(** A monitor of one minute that went idle by its timeout; then one
    activity signal, with a handler of [active] that throws: a day
    later the monitor is still not idle. *)
Lemma X21_throwing_handler_skips_the_rearm_witness :
  let c := {| p_idleTimeoutMinutes := Some 1; p_activityEvents := None;
              p_activityThrottleMs := None; p_debug := None |} in
  let s := run [OStart; OAdvance 60000] (constructor c 0) in
  let s' := snd (Handlers.handleActivity (Throw TypeError) s) in
  isIdle s = true /\ isRunning s' = true
  /\ isIdle (advance 86400000 s') = false.
Proof.
  intros c s s'. split; [reflexivity|]. split; [reflexivity|].
  destruct (X21_throwing_handler_skips_the_rearm s TypeError) as (_ & _ & H).
  destruct (H eq_refl) as (_ & H2 & _ & _ & _ & _ & _ & _ & H9).
  unfold s'. rewrite (H2 ltac:(vm_compute; discriminate)).
  apply H9. intros t Hin. vm_compute in Hin. contradiction.
Defined.

(** *** Handlers that throw, over a history (X19) *)









End HandlerFacts.

(* --------------------------------------------------------------------- *)
(** ** SessionGuardian: on, off and emit                                 *)
(* --------------------------------------------------------------------- *)

Section ListenerFacts.
Import Crypto Dispatcher.

(** *** The listeners (X5) *)

(** Whether the last of the calls about this handler and event was an
    [on]. *)
Definition registered (event : EventName) (h : Handler) (ops : list op) : bool :=
  fold_left (fun b o =>
               match o with
               | OOn e x => if EventName_eqb e event && Pos.eqb x h then true else b
               | OOff e x => if EventName_eqb e event && Pos.eqb x h then false else b
               end) ops false.

Lemma EventName_eqb_eq (a b : EventName) : EventName_eqb a b = true <-> a = b.
Proof. destruct a, b; cbn; split; congruence. Qed.

Lemma EventName_eqb_refl (a : EventName) : EventName_eqb a a = true.
Proof. now destruct a. Qed.

Lemma set_add_In (h x : Handler) (l : HandlerSet) :
  In x (set_add h l) <-> x = h \/ In x l.
Proof.
  unfold set_add. destruct (existsb (Pos.eqb h) l) eqn:E.
  - apply existsb_exists in E as (y & Hy & Heq). apply Pos.eqb_eq in Heq.
    subst y. split; [auto|]. now intros [->|H].
  - rewrite in_app_iff. cbn [In]. intuition congruence.
Qed.

Lemma set_add_NoDup (h : Handler) (l : HandlerSet) :
  List.NoDup l -> List.NoDup (set_add h l).
Proof.
  intros H. unfold set_add. destruct (existsb (Pos.eqb h) l) eqn:E; [exact H|].
  apply List.NoDup_app; [exact H|constructor; [intros []|constructor]|].
  intros a Ha [<-|[]].
  assert (existsb (Pos.eqb h) l = true) as Hc
    by (apply existsb_exists; exists h; split; [exact Ha|apply Pos.eqb_refl]).
  congruence.
Qed.

Lemma set_delete_In (h x : Handler) (l : HandlerSet) :
  In x (set_delete h l) <-> x <> h /\ In x l.
Proof.
  unfold set_delete. rewrite filter_In, negb_true_iff, Pos.eqb_neq. tauto.
Qed.

Lemma run_snoc (ops : list op) (o : op) (ls : Listeners) :
  run (ops ++ [o]) ls = step o (run ops ls).
Proof. unfold run. now rewrite fold_left_app. Qed.

Lemma registered_snoc (event : EventName) (h : Handler) (ops : list op) (o : op) :
  registered event h (ops ++ [o]) =
  match o with
  | OOn e x =>
      if EventName_eqb e event && Pos.eqb x h then true
      else registered event h ops
  | OOff e x =>
      if EventName_eqb e event && Pos.eqb x h then false
      else registered event h ops
  end.
Proof. unfold registered. now rewrite fold_left_app. Qed.

(** The sets after a history of [on] and [off]. *)
Lemma run_registered (ops : list op) (event : EventName) :
  List.NoDup (run ops constructor event)
  /\ forall h, In h (run ops constructor event) <-> registered event h ops = true.
Proof.
  induction ops as [|o ops [IH1 IH2]] using rev_ind.
  - split; [constructor|]. intros h. cbn. split; [intros []|discriminate].
  - rewrite run_snoc. split.
    + destruct o as [e x|e x]; cbn [step]; unfold on, off;
        destruct (EventName_eqb event e); try exact IH1;
        [now apply set_add_NoDup|now apply List.NoDup_filter].
    + intros h. rewrite registered_snoc.
      destruct o as [e x|e x]; cbn [step]; unfold on, off.
      * destruct (EventName_eqb event e) eqn:Ee.
        -- apply EventName_eqb_eq in Ee. subst e. rewrite EventName_eqb_refl.
           rewrite set_add_In, IH2. cbn [andb].
           destruct (Pos.eqb x h) eqn:Ex.
           ++ apply Pos.eqb_eq in Ex. subst. tauto.
           ++ apply Pos.eqb_neq in Ex. intuition congruence.
        -- replace (EventName_eqb e event) with false; [apply IH2|].
           destruct e, event; cbn in *; congruence.
      * destruct (EventName_eqb event e) eqn:Ee.
        -- apply EventName_eqb_eq in Ee. subst e. rewrite EventName_eqb_refl.
           rewrite set_delete_In, IH2. cbn [andb].
           destruct (Pos.eqb x h) eqn:Ex.
           ++ apply Pos.eqb_eq in Ex. subst. intuition congruence.
           ++ apply Pos.eqb_neq in Ex. intuition congruence.
        -- replace (EventName_eqb e event) with false; [apply IH2|].
           destruct e, event; cbn in *; congruence.
Qed.

Lemma for_each_returns (call : Handler -> completion unit) (l : HandlerSet) :
  (forall h, In h l -> exists u, call h = Return u) ->
  for_each call l = (l, Return tt).
Proof.
  induction l as [|h r IH]; intros H; cbn [for_each]; [reflexivity|].
  destruct (H h (or_introl eq_refl)) as [u ->].
  now rewrite IH by (intros x Hx; apply H; now right).
Qed.

Lemma for_each_snoc (call : Handler -> completion unit) (l : HandlerSet)
    (h : Handler) :
  (forall x, In x l -> exists u, call x = Return u) ->
  fst (for_each call (l ++ [h])) = l ++ [h].
Proof.
  induction l as [|x r IH]; intros H; cbn [app for_each].
  - now destruct (call h).
  - destruct (H x (or_introl eq_refl)) as [u ->].
    specialize (IH (fun y Hy => H y (or_intror Hy))).
    destruct (for_each call (r ++ [h])) as [called c]. cbn [fst] in *.
    now rewrite IH.
Qed.

(** X5.  On a new monitor [emit] calls nothing.  After any history of
    [on] and [off], [emit] of an event whose handlers all return calls
    exactly the handlers whose last registration for that event has not
    been followed by an [off], each once, and returns.  The order is
    that of registration: [on] of a handler that is registered changes
    nothing, [on] of a new one puts it after the others, and [off]
    takes its handler out and leaves the others in the order they
    had.  [on] and [off] for another event change nothing. *)
Theorem X5_emit_calls_the_registered_handlers :
  forall (history : list op) (event : EventName)
         (call : Handler -> completion unit),
    let ls := run history constructor in
    (forall h, In h (ls event) -> exists u, call h = Return u) ->
    emit call event constructor = ([], Return tt)
    /\ snd (emit call event ls) = Return tt
    /\ List.NoDup (fst (emit call event ls))
    /\ (forall h, In h (fst (emit call event ls))
                  <-> registered event h history = true)
    /\ (forall h,
          fst (emit call event (on event h ls)) =
          if registered event h history then fst (emit call event ls)
          else fst (emit call event ls) ++ [h])
    /\ (forall h,
          emit call event (off event h ls) =
          (List.filter (fun x => negb (Pos.eqb x h)) (fst (emit call event ls)),
           Return tt))
    /\ (forall h e, e <> event ->
          emit call event (on e h ls) = emit call event ls
          /\ emit call event (off e h ls) = emit call event ls).
Proof.
  intros history event call ls Hret.
  destruct (run_registered history event) as [Hnd Hin]. fold ls in Hnd, Hin.
  unfold emit. rewrite (for_each_returns call (ls event) Hret). cbn [fst snd].
  split; [reflexivity|].
  split; [reflexivity|]. split; [exact Hnd|]. split; [exact Hin|].
  split; [|split].
  - intros h. unfold on. rewrite EventName_eqb_refl. unfold set_add.
    destruct (existsb (Pos.eqb h) (ls event)) eqn:E.
    + assert (In h (ls event)) as Hh.
      { apply existsb_exists in E as (y & Hy & Heq). apply Pos.eqb_eq in Heq.
        now subst y. }
      rewrite (proj1 (Hin h) Hh). now rewrite (for_each_returns call _ Hret).
    + assert (~ In h (ls event)) as Hh.
      { intros Hh. assert (existsb (Pos.eqb h) (ls event) = true) as Hc
          by (apply existsb_exists; exists h; split;
              [exact Hh|apply Pos.eqb_refl]).
        congruence. }
      destruct (registered event h history) eqn:Er;
        [now apply Hin in Er|].
      now apply for_each_snoc.
  - intros h. unfold off. rewrite EventName_eqb_refl. unfold set_delete.
    apply for_each_returns. intros x Hx. apply Hret.
    now apply filter_In in Hx as [Hx _].
  - intros h e He. unfold on, off.
    assert (EventName_eqb event e = false) as ->.
    { destruct (EventName_eqb event e) eqn:E; [|reflexivity].
      apply EventName_eqb_eq in E. congruence. }
    now rewrite (for_each_returns call _ Hret).
Qed.

(** Three handlers of [idle], of which the first is removed: the other
    two are called, in the order of their registration; registered
    again, the first comes last. *)
Lemma X5_emit_calls_the_registered_handlers_witness :
  let call := fun _ : Handler => Return tt in
  let ls := run [OOn idle 1; OOn idle 2; OOn idle 3]%positive constructor in
  emit call idle (off idle 1%positive ls) = ([2; 3]%positive, Return tt)
  /\ fst (emit call idle
            (run [OOn idle 1; OOn idle 2; OOn idle 3; OOff idle 1]%positive
                 constructor)) = [2; 3]%positive
  /\ fst (emit call idle
            (on idle 1%positive
               (run [OOn idle 1; OOn idle 2; OOn idle 3; OOff idle 1]%positive
                    constructor))) = [2; 3; 1]%positive.
Proof.
  intros call ls.
  destruct (X5_emit_calls_the_registered_handlers
              [OOn idle 1; OOn idle 2; OOn idle 3]%positive
              idle call (fun h _ => ex_intro _ tt eq_refl))
    as (_ & _ & _ & _ & _ & H6 & _).
  destruct (X5_emit_calls_the_registered_handlers
              [OOn idle 1; OOn idle 2; OOn idle 3; OOff idle 1]%positive
              idle call (fun h _ => ex_intro _ tt eq_refl))
    as (_ & _ & _ & _ & H5 & _).
  subst ls. split; [|split].
  - rewrite (H6 1%positive). reflexivity.
  - change (run [OOn idle 1; OOn idle 2; OOn idle 3; OOff idle 1]%positive
                constructor)
      with (off idle 1%positive
              (run [OOn idle 1; OOn idle 2; OOn idle 3]%positive constructor)).
    rewrite (H6 1%positive). reflexivity.
  - rewrite (H5 1%positive). cbn [registered fold_left].
    change (run [OOn idle 1; OOn idle 2; OOn idle 3; OOff idle 1]%positive
                constructor)
      with (off idle 1%positive
              (run [OOn idle 1; OOn idle 2; OOn idle 3]%positive constructor)).
    rewrite (H6 1%positive). reflexivity.
Defined.

End ListenerFacts.

(* --------------------------------------------------------------------- *)
(** ** The wrappers of the guardian                                      *)
(* --------------------------------------------------------------------- *)

Section WrapperFacts.
Import Guardian.

(** *** The wrappers *)

Lemma subjects_fold (config : Angular.Nis2Config) (trace : list Event) :
  forall s,
    Angular.isActiveSubject s = negb (Angular.isIdleSubject s) ->
    Angular.isIdleSubject (fold_left (Angular.handle config) trace s)
    = fold_left toggle trace (Angular.isIdleSubject s)
    /\ Angular.isActiveSubject (fold_left (Angular.handle config) trace s)
       = negb (Angular.isIdleSubject (fold_left (Angular.handle config) trace s)).
Proof.
  induction trace as [|e r IH]; intros s Hs; cbn [fold_left]; [now split|].
  specialize (IH (Angular.handle config s e)).
  destruct e; cbn [Angular.handle toggle] in IH |- *; apply IH; cbn; auto.
Qed.

Lemma subjects_warning (config : Angular.Nis2Config) (trace : list Event) :
  List.Forall sixty trace ->
  forall s,
    Angular.warningSubject s = None \/ Angular.warningSubject s = Some 60 ->
    Angular.warningSubject (fold_left (Angular.handle config) trace s) = None
    \/ Angular.warningSubject (fold_left (Angular.handle config) trace s)
       = Some 60.
Proof.
  induction 1 as [|e r He Hr IH]; intros s Hs; cbn [fold_left]; [exact Hs|].
  apply (IH (Angular.handle config s e)).
  destruct e; cbn in He |- *; subst; auto.
Qed.

(** X17.  Over any history of a [Nis2Service] since its constructor, the
    current value of [isIdle$] is the guardian's [getIsIdle()], that of
    [isActive$] its negation, and that of [warning$] is null or 60; so
    the route guard redirects to [/logout] with reason [idle] exactly
    when the guardian is idle, and lets the navigation pass
    otherwise. *)
Theorem X17_service_mirrors_the_guardian :
  forall (config : Angular.Nis2Config) (t0 : Z) (history : list op),
    let g := run history (Angular.constructor config t0) in
    let s := Angular.subjects config g in
    Angular.isIdleSubject s = getIsIdle g
    /\ Angular.isActiveSubject s = negb (getIsIdle g)
    /\ (Angular.warningSubject s = None \/ Angular.warningSubject s = Some 60)
    /\ fst (Angular.checkSession s)
       = if getIsIdle g
         then Angular.UrlTree ["/logout"%string] "idle"
         else Angular.Allowed.
Proof.
  intros config t0 history g s.
  pose (s0 := constructor (Angular.guardian_config config) t0).
  destruct (since_run (OStart :: history) s0 s0 (since_refl s0))
    as (more & H1 & _ & H3 & H4).
  change (run (OStart :: history) s0) with g in H1, H3.
  cbn [emitted isIdle constructor s0 app] in H1, H3.
  destruct (subjects_fold config (emitted g) Angular.initial eq_refl)
    as [Hi Ha].
  fold (Angular.subjects config g) in Hi, Ha. fold s in Hi, Ha.
  cbn [Angular.isIdleSubject Angular.initial] in Hi.
  assert (Angular.isIdleSubject s = getIsIdle g) as Hidle.
  { unfold getIsIdle. now rewrite Hi, H1, H3. }
  split; [exact Hidle|]. split; [now rewrite Ha, Hidle|]. split.
  - unfold s, Angular.subjects. rewrite H1.
    apply subjects_warning; [exact H4|now left].
  - unfold Angular.checkSession. rewrite Hidle. now destruct (getIsIdle g).
Qed.

Definition is_active (e : Event) : bool :=
  match e with EActive => true | _ => false end.

Lemma refs_fold (m : option Z) (trace : list Event) :
  forall r,
    Vue.isActive r = negb (Vue.isIdle r) ->
    Vue.isIdle (fold_left (Vue.handle m) trace r)
    = fold_left toggle trace (Vue.isIdle r)
    /\ Vue.isActive (fold_left (Vue.handle m) trace r)
       = negb (Vue.isIdle (fold_left (Vue.handle m) trace r)).
Proof.
  induction trace as [|e r IH]; intros s Hs; cbn [fold_left]; [now split|].
  specialize (IH (Vue.handle m s e)).
  destruct e; cbn [Vue.handle toggle] in IH |- *; apply IH; cbn; auto.
Qed.

Lemma refs_warning (m : option Z) (trace : list Event) :
  List.Forall sixty trace ->
  forall r,
    Vue.warningSeconds r = None \/ Vue.warningSeconds r = Some 60 ->
    Vue.warningSeconds (fold_left (Vue.handle m) trace r) = None
    \/ Vue.warningSeconds (fold_left (Vue.handle m) trace r) = Some 60.
Proof.
  induction 1 as [|e r He Hr IH]; intros s Hs; cbn [fold_left]; [exact Hs|].
  apply (IH (Vue.handle m s e)).
  destruct e; cbn in He |- *; subst; auto.
Qed.

(** The flag as seen by one that has missed the beginning. *)
Lemma toggle_late (trace : list Event) :
  forall b,
    take_turns b trace = true ->
    fold_left toggle trace false
    = fold_left toggle trace b && (negb b || existsb is_active trace).
Proof.
  induction trace as [|e r IH]; intros b Ht; cbn [fold_left existsb].
  - now destruct b.
  - destruct b; [|now rewrite andb_true_r].
    destruct e; cbn [take_turns negb andb toggle is_active orb] in Ht |- *;
      try discriminate; try (now apply IH); now rewrite ?andb_true_r.
Qed.

Lemma toggle_stale (trace : list Event) :
  take_turns true trace = true ->
  existsb is_active trace = false ->
  fold_left toggle trace true = true.
Proof.
  induction trace as [|e r IH]; intros Ht Hn; [reflexivity|].
  destruct e; cbn [take_turns negb andb toggle is_active orb existsb fold_left]
    in Ht, Hn |- *; try discriminate; now apply IH.
Qed.

(** X18.  For a component mounted at any point of the guardian's history
    since the plugin installed it, and over any history from then on:
    the ref [isIdle] is the guardian's [getIsIdle()] if the guardian was
    not idle at the mount or has emitted [active] since; otherwise the
    guardian is idle while [isIdle] is false.  [isActive] is the
    negation of [isIdle], and [warningSeconds] is null or 60. *)
Theorem X18_refs_follow_from_the_mount :
  forall (m : option Z) (d : option bool) (t0 : Z) (before after : list op),
    let mounted := run before (Vue.install m d t0) in
    let g := run after mounted in
    let r := Vue.refs m mounted g in
    let woken :=
      existsb is_active (skipn (length (emitted mounted)) (emitted g)) in
    Vue.isIdle r = getIsIdle g && (negb (getIsIdle mounted) || woken)
    /\ (getIsIdle mounted = true -> woken = false ->
        getIsIdle g = true /\ Vue.isIdle r = false)
    /\ Vue.isActive r = negb (Vue.isIdle r)
    /\ (Vue.warningSeconds r = None \/ Vue.warningSeconds r = Some 60).
Proof.
  intros m d t0 before after mounted g r woken.
  destruct (since_run after mounted mounted (since_refl mounted))
    as (more & H1 & H2 & H3 & H4).
  fold g in H1, H3.
  assert (skipn (length (emitted mounted)) (emitted g) = more) as Hmore.
  { rewrite H1. apply drop_app_length. }
  subst woken r. unfold Vue.refs. rewrite Hmore.
  destruct (refs_fold m more Vue.initial eq_refl) as [Hi Ha].
  cbn [Vue.isIdle Vue.initial] in Hi.
  assert (Vue.isIdle (fold_left (Vue.handle m) more Vue.initial)
          = getIsIdle g && (negb (getIsIdle mounted) || existsb is_active more))
    as Hidle.
  { unfold getIsIdle. rewrite Hi, <- H3. now apply toggle_late. }
  split; [exact Hidle|]. split; [|split].
  - unfold getIsIdle at 1 2. intros Hm Hw. rewrite Hm in H2, H3.
    assert (isIdle g = true) as Hg by (rewrite <- H3; now apply toggle_stale).
    split; [exact Hg|]. rewrite Hidle. unfold getIsIdle. now rewrite Hm, Hw, Hg.
  - exact Ha.
  - apply refs_warning; [exact H4|now left].
Qed.

End WrapperFacts.

(* --------------------------------------------------------------------- *)
(** ** CryptoService: converters, payloads and keys                      *)
(* --------------------------------------------------------------------- *)

Section CodecFacts.
Import Crypto.

(** *** The base64 converters (X6) *)

Lemma b64_encode_size (bs : list Z) :
  Z.of_nat (length (b64_encode bs)) = 4 * ((Z.of_nat (length bs) + 2) / 3).
Proof.
  induction bs as [| | |a b c r IH] using list_ind3; try reflexivity.
  cbn [b64_encode length]. rewrite !Nat2Z.inj_succ. dlia.
Qed.

(** A base64 character or the padding sign. *)
Definition is_b64 (u : Z) : bool :=
  match b64_index u with
  | Some _ => true
  | None => u =? pad
  end.

Lemma b64_encode_alphabet (bs : list Z) :
  forallb is_byte bs = true -> forallb is_b64 (b64_encode bs) = true.
Proof.
  intros H. rewrite b64_encode_split, forallb_app. apply andb_true_iff. split.
  - apply forallb_forall. intros c Hc. apply in_map_iff in Hc as (i & <- & Hi).
    pose proof (sextets_range bs H) as Hr. rewrite List.Forall_forall in Hr.
    destruct (b64_char_facts i (Hr i Hi)) as (Hx & _). unfold is_b64.
    now rewrite Hx.
  - destruct (padding_cases bs) as [->|[->| ->]]; reflexivity.
Qed.

Lemma strip_padding_unpadded (s : jsstring) :
  (forall x r, rev s = x :: r -> (x =? pad) = false) -> strip_padding s = s.
Proof.
  intros H. unfold strip_padding. destruct (_ =? 0); [|reflexivity].
  destruct (rev s) as [|x r] eqn:E; [reflexivity|]. now rewrite (H x r eq_refl).
Qed.

(** Without its padding, the text decodes to the same bytes. *)
Lemma atob_unpadded (bs : list Z) :
  forallb is_byte bs = true ->
  atob (List.map b64_char (sextets bs)) = Return bs.
Proof.
  intros H. pose proof (sextets_range bs H) as Hr. unfold atob.
  set (l := List.map b64_char (sextets bs)).
  assert (List.Forall (fun u => is_ascii_whitespace u = false
                               /\ (u =? pad) = false) l) as Hl.
  { apply Forall_map. eapply List.Forall_impl; [|exact Hr].
    intros i Hi. now destruct (b64_char_facts i Hi) as (_ & ? & ?). }
  rewrite filter_all
    by (eapply List.Forall_impl; [|exact Hl]; cbn beta; intros u [-> _];
        reflexivity).
  rewrite strip_padding_unpadded.
  - unfold l. rewrite length_map.
    replace (Z.of_nat (length (sextets bs)) mod 4 =? 1) with false
      by (symmetry; apply Z.eqb_neq, sextets_length).
    rewrite indices_chars by exact Hr. now rewrite b64_decode_sextets.
  - intros x r E. rewrite List.Forall_forall in Hl.
    apply (Hl x). apply in_rev. rewrite E. now left.
Qed.

(** X6.  On every byte sequence [arrayBufferToBase64] returns a text of
    four characters for every three bytes begun, all of them base64
    characters or padding; [base64ToArrayBuffer] turns that text back
    into the bytes, with or without the padding at its end; so two byte
    sequences with the same text are the same. *)
Theorem X6_base64_converters :
  forall bs : list Z,
    forallb is_byte bs = true ->
    exists b64,
      arrayBufferToBase64 bs = Return b64
      /\ Z.of_nat (length b64) = 4 * ((Z.of_nat (length bs) + 2) / 3)
      /\ forallb is_b64 b64 = true
      /\ base64ToArrayBuffer b64 = Return bs
      /\ base64ToArrayBuffer (List.filter (fun u => negb (u =? pad)) b64)
         = Return bs
      /\ (forall bs', forallb is_byte bs' = true ->
                      arrayBufferToBase64 bs' = Return b64 -> bs' = bs).
Proof.
  intros bs H. exists (b64_encode bs).
  assert (arrayBufferToBase64 bs = Return (b64_encode bs)) as He
    by (unfold arrayBufferToBase64, btoa; now rewrite H).
  assert (base64ToArrayBuffer (b64_encode bs) = Return bs) as Hd.
  { unfold base64ToArrayBuffer. rewrite atob_b64_encode by exact H.
    cbn [bind]. now rewrite map_mod_bytes. }
  split; [exact He|]. split; [apply b64_encode_size|].
  split; [now apply b64_encode_alphabet|]. split; [exact Hd|]. split.
  - replace (List.filter (fun u => negb (u =? pad)) (b64_encode bs))
      with (List.map b64_char (sextets bs)).
    + unfold base64ToArrayBuffer. rewrite atob_unpadded by exact H.
      cbn [bind]. now rewrite map_mod_bytes.
    + rewrite b64_encode_split, List.filter_app.
      replace (List.filter (fun u => negb (u =? pad)) (padding bs)) with (@nil Z)
        by (destruct (padding_cases bs) as [->|[->| ->]]; reflexivity).
      rewrite app_nil_r. symmetry. apply filter_all. apply Forall_map.
      eapply List.Forall_impl; [|exact (sextets_range bs H)].
      intros i Hi. destruct (b64_char_facts i Hi) as (_ & _ & ->). reflexivity.
  - intros bs' H' He'.
    assert (b64_encode bs' = b64_encode bs) as E.
    { unfold arrayBufferToBase64, btoa in He'. rewrite H' in He'.
      now injection He'. }
    assert (base64ToArrayBuffer (b64_encode bs') = Return bs') as Hd'.
    { unfold base64ToArrayBuffer. rewrite atob_b64_encode by exact H'.
      cbn [bind]. now rewrite map_mod_bytes. }
    rewrite E, Hd in Hd'. now injection Hd'.
Qed.

(** The five bytes of [hello]. *)
Lemma X6_base64_converters_witness :
  arrayBufferToBase64 [104; 101; 108; 108; 111] = Return (lit "aGVsbG8=")
  /\ base64ToArrayBuffer (lit "aGVsbG8") = Return [104; 101; 108; 108; 111].
Proof.
  destruct (X6_base64_converters [104; 101; 108; 108; 111] eq_refl)
    as (b64 & H1 & _ & _ & _ & H5 & _).
  assert (Return b64 = Return (lit "aGVsbG8=")) as E
    by (rewrite <- H1; reflexivity).
  injection E as ->.
  split; [exact H1|exact H5].
Defined.

End CodecFacts.

Section PayloadFacts.
Import Crypto.
Context {W : SubtleCrypto}.

(** *** [decrypt] on any payload (X7) *)

Lemma indices_rejects (u : Z) (s : jsstring) :
  In u s -> b64_index u = None -> indices s = None.
Proof.
  induction s as [|x r IH]; [intros []|]. intros [->|Hin] Hu; cbn [indices].
  - now rewrite Hu.
  - rewrite (IH Hin Hu). now destruct (b64_index x).
Qed.

Lemma strip_padding_keeps (u : Z) (s : jsstring) :
  In u s -> u <> pad -> In u (strip_padding s).
Proof.
  intros Hin Hu. unfold strip_padding. destruct (_ =? 0); [|exact Hin].
  pose proof (proj1 (in_rev s u) Hin) as Hr.
  destruct (rev s) as [|x r1]; [destruct Hr|].
  destruct (x =? pad) eqn:Ex; [|exact Hin].
  apply Z.eqb_eq in Ex. destruct Hr as [<-|Hr]; [contradiction|].
  destruct r1 as [|y r2]; [destruct Hr|].
  destruct (y =? pad) eqn:Ey.
  - apply Z.eqb_eq in Ey. destruct Hr as [<-|Hr]; [contradiction|].
    now apply -> in_rev.
  - now apply -> in_rev.
Qed.

(** A character that is neither base64, nor whitespace, nor padding
    makes [atob] throw. *)
Lemma atob_rejects (u : Z) (s : jsstring) :
  In u s -> b64_index u = None -> is_ascii_whitespace u = false -> u <> pad ->
  atob s = Throw InvalidCharacterError.
Proof.
  intros Hin Hu Hw Hp. unfold atob.
  destruct (_ =? 1); [reflexivity|].
  rewrite (indices_rejects u); [reflexivity| |exact Hu].
  apply strip_padding_keeps; [|exact Hp].
  apply filter_In. split; [exact Hin|now rewrite Hw].
Qed.

(** X7.  [decrypt] returns on every payload, whatever the two texts
    are, and leaves the instance as [getKey] leaves it.  It returns null
    when [iv] or [data] holds a character that is neither base64, nor
    whitespace, nor padding, and when the host rejects the decoded
    bytes. *)
Theorem X7_decrypt_never_throws :
  forall (g : CryptoKey) (e : EncryptedData) (st : CryptoService),
    (exists r, fst (decrypt g e st) = Return r)
    /\ snd (decrypt g e st) = snd (getKey g st)
    /\ (forall u,
          In u (iv e) \/ In u (data e) ->
          b64_index u = None -> is_ascii_whitespace u = false -> u <> pad ->
          fst (decrypt g e st) = Return None)
    /\ (forall iv_ data_,
          base64ToArrayBuffer (iv e) = Return iv_ ->
          base64ToArrayBuffer (data e) = Return data_ ->
          subtle_decrypt (fst (getKey g st)) iv_ data_ = None ->
          fst (decrypt g e st) = Return None).
Proof.
  intros g e st. split; [|split; [apply decrypt_state|split]].
  - unfold decrypt. destruct (getKey g st) as [k st1]. cbn [fst].
    match goal with |- context [catch_with ?b None] => destruct b as [r|x] end;
      cbn [catch_with]; eauto.
  - intros u Hin Hu Hw Hp. unfold decrypt, base64ToArrayBuffer.
    destruct (getKey g st) as [k st1]. cbn [fst].
    destruct Hin as [Hin|Hin].
    + now rewrite (atob_rejects u (iv e) Hin Hu Hw Hp).
    + rewrite (atob_rejects u (data e) Hin Hu Hw Hp).
      now destruct (atob (iv e)).
  - intros iv_ data_ Hi Hd Hrej. unfold decrypt.
    destruct (getKey g st) as [k st1]. cbn [fst] in *.
    now rewrite Hi, Hd; cbn [bind]; rewrite Hrej.
Qed.

(** *** The key is generated once (X8) *)

(** X8.  The first [getKey] on an instance without a key returns what
    the host generates; after that, whatever else is called short of
    [clearKey], every [getKey] returns that same key, whatever the host
    would generate; after [clearKey] the next [getKey] generates again. *)
Theorem X8_key_generated_once :
  forall (st : CryptoService) (g g' : CryptoKey) (ops : list op),
    forallb keeps_key ops = true ->
    let st1 := run ops (snd (getKey g st)) in
    fst (getKey g' st1) = fst (getKey g st)
    /\ snd (getKey g' st1) = snd (getKey g st)
    /\ (key st = None -> keyPromise st = None -> fst (getKey g st) = g)
    /\ getKey g' (clearKey st1)
       = (g', {| key := Some g'; keyPromise := Some g' |}).
Proof.
  intros st g g' ops Hops st1.
  pose proof (getKey_current g st) as Hc.
  assert (st1 = snd (getKey g st)) as E
    by (unfold st1; now apply (run_held ops (fst (getKey g st)))).
  rewrite E, (getKey_held g' _ _ Hc). cbn [fst snd].
  split; [reflexivity|]. split; [reflexivity|]. split; [|reflexivity].
  intros Hk Hp. unfold getKey. now rewrite Hk, Hp.
Qed.

(** *** What [encrypt] returns (X9) *)

(** X9.  On a host whose encryption yields bytes, [encrypt] returns on
    every string.  The [iv] of the payload is sixteen base64 characters
    that decode to the twelve bytes of the host's randomness, so two
    payloads have the same [iv] exactly when the host produced the same
    random bytes; [data] is the base64 text of the ciphertext, four
    characters for every three bytes begun. *)
Theorem X9_encrypt_payload_shape :
  aead_bytes W ->
  forall (g : CryptoKey) (rnd : nat -> Z) (s : jsstring) (st : CryptoService),
    exists e,
      fst (encrypt g rnd s st) = Return e
      /\ length (iv e) = 16%nat
      /\ forallb is_b64 (iv e) = true /\ forallb is_b64 (data e) = true
      /\ base64ToArrayBuffer (iv e) = Return (getRandomValues IV_LENGTH rnd)
      /\ base64ToArrayBuffer (data e)
         = Return (subtle_encrypt (fst (getKey g st))
                     (getRandomValues IV_LENGTH rnd) (TextEncoder_encode s))
      /\ (forall (g' : CryptoKey) (rnd' : nat -> Z) (s' : jsstring)
                 (st' : CryptoService) (e' : EncryptedData),
            fst (encrypt g' rnd' s' st') = Return e' ->
            (iv e' = iv e
             <-> getRandomValues IV_LENGTH rnd' = getRandomValues IV_LENGTH rnd)).
Proof.
  intros Hb g rnd s st.
  assert (forall g rnd s st,
             fst (encrypt g rnd s st)
             = Return {| iv := b64_encode (getRandomValues IV_LENGTH rnd);
                         data := b64_encode
                                   (subtle_encrypt (fst (getKey g st))
                                      (getRandomValues IV_LENGTH rnd)
                                      (TextEncoder_encode s)) |}) as Henc.
  { intros g0 rnd0 s0 st0. unfold encrypt.
    destruct (getKey g0 st0) as [k st1]. cbn [fst].
    unfold arrayBufferToBase64, btoa.
    now rewrite getRandomValues_bytes, Hb. }
  assert (forall bs, forallb is_byte bs = true ->
                     base64ToArrayBuffer (b64_encode bs) = Return bs) as Hdec.
  { intros bs H. unfold base64ToArrayBuffer. rewrite atob_b64_encode by exact H.
    cbn [bind]. now rewrite map_mod_bytes. }
  eexists. split; [apply Henc|]. cbn [iv data].
  split; [|split; [|split; [|split; [|split]]]].
  - pose proof (b64_encode_size (getRandomValues IV_LENGTH rnd)) as Hl.
    unfold getRandomValues in Hl at 2. rewrite length_map, length_seq in Hl.
    change (4 * ((Z.of_nat IV_LENGTH + 2) / 3)) with 16 in Hl. lia.
  - apply b64_encode_alphabet, getRandomValues_bytes.
  - apply b64_encode_alphabet, Hb.
  - apply Hdec, getRandomValues_bytes.
  - apply Hdec, Hb.
  - intros g' rnd' s' st' e' He'. rewrite Henc in He'.
    assert (iv e' = b64_encode (getRandomValues IV_LENGTH rnd')) as ->
      by (injection He' as <-; reflexivity).
    split; [|now intros ->]. intros E.
    pose proof (Hdec _ (getRandomValues_bytes IV_LENGTH rnd')) as H1.
    rewrite E, (Hdec _ (getRandomValues_bytes IV_LENGTH rnd)) in H1.
    congruence.
Qed.

End PayloadFacts.

Section PayloadRuns.
Import Crypto.

(** On the stand-in host: the first call generates, an [encrypt] and a
    second [getKey] keep the key. *)
Lemma X8_key_generated_once_witness :
  let rnd := fun i : nat => Z.of_nat i in
  fst (getKey (W := toy) false
         (run [OEncrypt (W := toy) false rnd (lit "x")]
              (snd (getKey (W := toy) true create)))) = true.
Proof.
  intros rnd.
  destruct (X8_key_generated_once (W := toy) create true false
              [OEncrypt (W := toy) false rnd (lit "x")] eq_refl)
    as (H1 & _ & H3 & _).
  rewrite H1. now apply H3.
Defined.

(** On the stand-in host, with the bytes 0..11 for randomness. *)
Lemma X9_encrypt_payload_shape_witness :
  let rnd := fun i : nat => Z.of_nat i in
  exists e,
    fst (encrypt (W := toy) true rnd (lit "secret") create) = Return e
    /\ iv e = lit "AAECAwQFBgcICQoL".
Proof.
  intros rnd.
  destruct (X9_encrypt_payload_shape (W := toy) toy_bytes true rnd
              (lit "secret") create) as (e & H1 & _).
  exists e. split; [exact H1|].
  assert (Return e = fst (encrypt (W := toy) true rnd (lit "secret") create))
    as E by now rewrite H1.
  vm_compute in E. injection E as ->. reflexivity.
Defined.

End PayloadRuns.

(* --------------------------------------------------------------------- *)
(** ** CryptoService.sha256                                              *)
(* --------------------------------------------------------------------- *)

Section HashingFacts.
Import Crypto Store Hashing.

(** *** [sha256] (X10) *)

Definition is_lower_hex (u : Z) : bool :=
  ((48 <=? u) && (u <=? 57)) || ((97 <=? u) && (u <=? 102)).

Lemma hex_byte_inj (a b : Z) :
  0 <= a < 256 -> 0 <= b < 256 -> hex_byte a = hex_byte b -> a = b.
Proof.
  intros Ha Hb. unfold hex_byte, hex_digit. intros [= H1 H2].
  destruct (Z.ltb_spec (a / 16) 10), (Z.ltb_spec (b / 16) 10),
    (Z.ltb_spec (a mod 16) 10), (Z.ltb_spec (b mod 16) 10); dlia.
Qed.

Lemma hex_bytes_inj (l : list Z) :
  forall l', forallb is_byte l = true -> forallb is_byte l' = true ->
             flat_map hex_byte l = flat_map hex_byte l' -> l = l'.
Proof.
  induction l as [|a l IH]; intros [|b l'] H H' E; try reflexivity;
    try discriminate E.
  apply bytes_cons in H as [Ha H]. apply bytes_cons in H' as [Hb H'].
  cbn [flat_map hex_byte app] in E. injection E as E1 E2 E.
  rewrite (hex_byte_inj a b Ha Hb) by (unfold hex_byte; congruence).
  f_equal. now apply IH.
Qed.

Lemma hex_byte_lower (b : Z) :
  0 <= b < 256 -> forallb is_lower_hex (hex_byte b) = true.
Proof.
  intros Hb. unfold hex_byte, hex_digit, is_lower_hex. cbn [forallb].
  destruct (Z.ltb_spec (b / 16) 10), (Z.ltb_spec (b mod 16) 10);
    repeat match goal with
           | |- context [?x <=? ?y] =>
               first [ replace (x <=? y) with true
                         by (symmetry; apply Z.leb_le; dlia)
                     | replace (x <=? y) with false
                         by (symmetry; apply Z.leb_gt; dlia) ]
           end; reflexivity.
Qed.

Lemma hex_bytes_length (l : list Z) :
  length (flat_map hex_byte l) = (2 * length l)%nat.
Proof.
  induction l as [|b l IH]; [reflexivity|].
  cbn [flat_map hex_byte app length]. rewrite IH. lia.
Qed.

Lemma hex_bytes_lower (l : list Z) :
  forallb is_byte l = true -> forallb is_lower_hex (flat_map hex_byte l) = true.
Proof.
  induction l as [|b l IH]; [reflexivity|]. intros H.
  apply bytes_cons in H as [H0 H].
  cbn [flat_map]. rewrite forallb_app, (hex_byte_lower b H0). now apply IH.
Qed.

(** X10.  When the host's digest is a byte sequence, [sha256] returns
    two lower-case hexadecimal digits for each of its bytes (64 for the
    32 bytes of SHA-256), and two inputs get the same text exactly when
    they get the same digest. *)
Theorem X10_sha256_is_the_digest_in_hex :
  forall (digest : list Z -> list Z),
    (forall m, forallb is_byte (digest m) = true) ->
    forall input : jsstring,
      length (sha256 digest input)
      = (2 * length (digest (TextEncoder_encode input)))%nat
      /\ forallb is_lower_hex (sha256 digest input) = true
      /\ (forall input',
            sha256 digest input = sha256 digest input'
            <-> digest (TextEncoder_encode input)
                = digest (TextEncoder_encode input')).
Proof.
  intros digest Hb input. unfold sha256.
  pose proof (Hb (TextEncoder_encode input)) as H.
  split; [apply hex_bytes_length|]. split; [now apply hex_bytes_lower|].
  split; [|now intros ->].
  apply hex_bytes_inj; [exact H|apply Hb].
Qed.

(** A digest of two bytes that depends on the length of the input. *)
Lemma X10_sha256_is_the_digest_in_hex_witness :
  let digest := fun m : list Z => [Z.of_nat (length m) mod 256; 171] in
  sha256 digest (lit "abc") = lit "03ab"
  /\ sha256 digest (lit "abc") <> sha256 digest (lit "abcd").
Proof.
  intros digest.
  assert (forall m, forallb is_byte (digest m) = true) as Hb.
  { intros m. unfold digest. apply bytes_cons. split; [dlia|reflexivity]. }
  destruct (X10_sha256_is_the_digest_in_hex digest Hb (lit "abc"))
    as (_ & _ & H3).
  split; [reflexivity|]. intros E. apply H3 in E. discriminate E.
Defined.

End HashingFacts.

(* --------------------------------------------------------------------- *)
(** ** SecureStorage: keys, removal and clearing                         *)
(* --------------------------------------------------------------------- *)

Section StoreUse.
Import Crypto Store.

(** *** What a backend owes the store *)

(** What is removed is gone. *)
Definition forgets_what_was_removed (A : StorageAdapter) : Prop :=
  forall k b b', removeItem k b = Return b' -> getItem k b' = Return None.

(** Writing or removing one key leaves the others alone. *)
Definition keeps_the_other_keys (A : StorageAdapter) : Prop :=
  forall k k' b b',
    k' <> k ->
    (forall v, setItem k v b = Return b' -> getItem k' b' = getItem k' b)
    /\ (removeItem k b = Return b' -> getItem k' b' = getItem k' b).

(** [removeItem] does not throw. *)
Definition removes_quietly (A : StorageAdapter) : Prop :=
  forall k b, exists b', removeItem k b = Return b'.

(** A backend with [length] and [key] lists every key it holds. *)
Definition lists_its_keys (A : StorageAdapter) : Prop :=
  forall b ks k v,
    enumerate b = Some (Return ks) -> getItem k b = Return (Some v)
    -> In (Some k) ks.

Lemma string_eqb_eq (a b : jsstring) : string_eqb a b = true <-> a = b.
Proof.
  revert b. induction a as [|x a IH]; intros [|y b]; cbn [string_eqb];
    try (split; [discriminate|congruence]); [tauto|].
  rewrite andb_true_iff, Z.eqb_eq, IH. split; [intros [-> ->]|intros [= -> ->]]; auto.
Qed.

Lemma string_eqb_refl (a : jsstring) : string_eqb a a = true.
Proof. now apply string_eqb_eq. Qed.

Lemma string_eqb_neq (a b : jsstring) : a <> b -> string_eqb a b = false.
Proof.
  intros H. destruct (string_eqb a b) eqn:E; [|reflexivity].
  now apply string_eqb_eq in E.
Qed.

Lemma string_eqb_sym (a b : jsstring) : string_eqb a b = string_eqb b a.
Proof.
  destruct (string_eqb b a) eqn:E.
  - apply string_eqb_eq in E. subst. apply string_eqb_refl.
  - apply string_eqb_neq. intros ->. now rewrite string_eqb_refl in E.
Qed.

Lemma map_storage_laws :
  reads_what_was_written map_storage
  /\ forgets_what_was_removed map_storage
  /\ keeps_the_other_keys map_storage
  /\ removes_quietly map_storage.
Proof.
  split; [|split; [|split]].
  - intros k v b b' [= <-]. cbn. now rewrite lookup_insert_eq.
  - intros k b b' [= <-]. cbn. now rewrite lookup_delete_eq.
  - intros k k' b b' Hne. split.
    + intros v [= <-]. cbn. now rewrite lookup_insert_ne.
    + intros [= <-]. cbn. now rewrite lookup_delete_ne.
  - intros k b. cbn. eauto.
Qed.

Lemma assoc_get_filter (k k' : jsstring) (b : list (jsstring * jsstring)) :
  assoc_get k' (List.filter (fun kv => negb (string_eqb (fst kv) k)) b)
  = if string_eqb k k' then None else assoc_get k' b.
Proof.
  induction b as [|[x v] b IH]; cbn [List.filter assoc_get fst].
  - now destruct (string_eqb k k').
  - destruct (string_eqb x k) eqn:Ex; cbn [negb].
    + apply string_eqb_eq in Ex. subst x. rewrite IH.
      now destruct (string_eqb k k').
    + cbn [assoc_get]. rewrite IH.
      destruct (string_eqb x k') eqn:Ex'; [|reflexivity].
      apply string_eqb_eq in Ex'. subst x.
      now rewrite (string_eqb_sym k k'), Ex.
Qed.

Lemma assoc_get_set (k k' v : jsstring) (b : list (jsstring * jsstring)) :
  assoc_get k' (assoc_set k v b)
  = if string_eqb k k' then Some v else assoc_get k' b.
Proof.
  induction b as [|[x w] b IH]; cbn [assoc_set assoc_get].
  - reflexivity.
  - destruct (string_eqb x k) eqn:Ex; cbn [assoc_get].
    + apply string_eqb_eq in Ex. subst x. now destruct (string_eqb k k').
    + rewrite IH. destruct (string_eqb x k') eqn:Ex'; [|reflexivity].
      apply string_eqb_eq in Ex'. subst x.
      now rewrite (string_eqb_sym k k'), Ex.
Qed.

Lemma listed_storage_laws :
  reads_what_was_written listed_storage
  /\ forgets_what_was_removed listed_storage
  /\ keeps_the_other_keys listed_storage
  /\ removes_quietly listed_storage
  /\ lists_its_keys listed_storage.
Proof.
  split; [|split; [|split; [|split]]].
  - intros k v b b' [= <-]. cbn. now rewrite assoc_get_set, string_eqb_refl.
  - intros k b b' [= <-]. cbn. now rewrite assoc_get_filter, string_eqb_refl.
  - intros k k' b b' Hne. split.
    + intros v [= <-]. cbn. rewrite assoc_get_set.
      now rewrite string_eqb_neq by congruence.
    + intros [= <-]. cbn. rewrite assoc_get_filter.
      now rewrite string_eqb_neq by congruence.
  - intros k b. cbn. eauto.
  - intros b ks k v [= <-] H. cbn in H. injection H as H.
    apply in_map_iff. induction b as [|[x w] b IH]; [discriminate|].
    cbn [assoc_get] in H. destruct (string_eqb x k) eqn:Ex.
    + apply string_eqb_eq in Ex. subst x. exists (k, w). split; [reflexivity|now left].
    + destruct (IH H) as (kv & E & Hin). exists kv. split; [exact E|now right].
Qed.

Section Entries.
Context {W : SubtleCrypto} {A : StorageAdapter}.

(** [get] looks at one item of the backend and at the cipher service,
    and at nothing else. *)
Lemma get_reads (g : CryptoKey) (key_ : jsstring) (st st2 : SecureStorage) :
  prefix st2 = prefix st -> crypto st2 = crypto st ->
  getItem (prefix st ++ key_) (storage st2)
  = getItem (prefix st ++ key_) (storage st) ->
  fst (get g key_ st2) = fst (get g key_ st).
Proof.
  intros Hp Hc Hi.
  destruct (getItem (prefix st ++ key_) (storage st)) as [[text|]|e] eqn:E.
  - rewrite (get_item g key_ text st E).
    rewrite (get_item g key_ text st2) by now rewrite Hp.
    rewrite Hc.
    destruct (Nat.eqb (length text) 0); [reflexivity|].
    destruct (JSON_parse text) as [parsed|x]; [|reflexivity].
    destruct (payload_fields parsed) as [[i d]|]; [|reflexivity].
    destruct (decrypt _ _ _) as [[[json|]|x] cs]; try reflexivity.
    now destruct (Nat.eqb (length json) 0).
  - rewrite (get_absent g key_ st E).
    rewrite (get_absent g key_ st2) by now rewrite Hp. reflexivity.
  - unfold get, get_with, try_catch, mbind, the_prefix, storage_getItem.
    rewrite Hp, Hi, E. reflexivity.
Qed.

(** While the service has a key, what the host would generate does not
    matter. *)
Lemma get_held (g g' k : CryptoKey) (key_ : jsstring) (st : SecureStorage) :
  current (crypto st) = Some k ->
  fst (get g key_ st) = fst (get g' key_ st).
Proof.
  intros Hk.
  destruct (getItem (prefix st ++ key_) (storage st)) as [[text|]|e] eqn:E.
  - rewrite !(get_item _ key_ text st E).
    destruct (Nat.eqb (length text) 0); [reflexivity|].
    destruct (JSON_parse text) as [parsed|x]; [|reflexivity].
    destruct (payload_fields parsed) as [[i d]|]; [|reflexivity].
    unfold decrypt. now rewrite !(getKey_held _ k _ Hk).
  - now rewrite !(get_absent _ key_ st E).
  - unfold get, get_with, try_catch, mbind, the_prefix, storage_getItem.
    rewrite E. reflexivity.
Qed.

Lemma has_item (key_ : jsstring) (st : SecureStorage) :
  has key_ st
  = (match getItem (prefix st ++ key_) (storage st) with
     | Return (Some _) => Return true
     | Return None => Return false
     | Throw e => Throw e
     end, st).
Proof.
  unfold has, mbind, the_prefix, storage_getItem, ret.
  now destruct (getItem _ _) as [[t|]|e].
Qed.

Lemma remove_item (key_ : jsstring) (st : SecureStorage) :
  remove key_ st
  = match removeItem (prefix st ++ key_) (storage st) with
    | Return b => (Return tt, {| crypto := crypto st; storage := b;
                                 prefix := prefix st |})
    | Throw e => (Throw e, st)
    end.
Proof. reflexivity. Qed.

(** [get] of an item that holds a payload of [encrypt], while the
    service still has the key it was made under. *)
Lemma get_sealed_entry (g g' : CryptoKey) (rnd : nat -> Z)
    (key_ json : jsstring) (cs : CryptoService) (st : SecureStorage) :
  aead_correct W -> aead_bytes W -> aead_tagged W ->
  getItem (prefix st ++ key_) (storage st)
  = Return (Some (payload_text (sealed g rnd json cs))) ->
  current (crypto st) = Some (fst (getKey g cs)) ->
  well_formed json = true -> nth 0 json 0 <> 65279 ->
  fst (get g' key_ st)
  = if Nat.eqb (length json) 0 then Return VNull
    else catch_with (JSON_parse json) VNull.
Proof.
  intros Hc Hb Ht Hitem Hk Hwf Hbom.
  set (e := sealed g rnd json cs) in *.
  destruct (sealed_plain g rnd json cs Hb) as [Hi Hd]. fold e in Hi, Hd.
  assert (forallb is_code_unit json = true) as Hcu
    by (apply (well_formed_units (length json)); [apply le_n|exact Hwf]).
  rewrite (get_item g' key_ (payload_text e) st Hitem).
  replace (Nat.eqb (length (payload_text e)) 0) with false
    by (unfold payload_text, dq; now eval_lits).
  rewrite (parse_payload e Hi Hd).
  rewrite (payload_fields_value e).
  2:{ apply b64_encode_nonempty. unfold getRandomValues, IV_LENGTH. discriminate. }
  2:{ apply b64_encode_nonempty, Ht. }
  cbn [ToString].
  replace {| iv := iv e; data := data e |} with e by now destruct e.
  unfold e. rewrite (decrypt_sealed g g' rnd json _ _ Hc Hb Hcu Hk).
  rewrite (text_roundtrip json Hwf Hbom).
  now destruct (Nat.eqb (length json) 0).
Qed.

(** The same item once the service has another key. *)
Lemma get_foreign_entry (g g' : CryptoKey) (rnd : nat -> Z)
    (key_ json : jsstring) (cs : CryptoService) (st : SecureStorage) :
  aead_authentic W -> aead_bytes W -> aead_tagged W ->
  getItem (prefix st ++ key_) (storage st)
  = Return (Some (payload_text (sealed g rnd json cs))) ->
  fst (getKey g' (crypto st)) <> fst (getKey g cs) ->
  fst (get g' key_ st) = Return VNull.
Proof.
  intros Ha Hb Ht Hitem Hk.
  set (e := sealed g rnd json cs) in *.
  destruct (sealed_plain g rnd json cs Hb) as [Hi Hd]. fold e in Hi, Hd.
  rewrite (get_item g' key_ (payload_text e) st Hitem).
  replace (Nat.eqb (length (payload_text e)) 0) with false
    by (unfold payload_text, dq; now eval_lits).
  rewrite (parse_payload e Hi Hd).
  rewrite (payload_fields_value e).
  2:{ apply b64_encode_nonempty. unfold getRandomValues, IV_LENGTH. discriminate. }
  2:{ apply b64_encode_nonempty, Ht. }
  cbn [ToString].
  replace {| iv := iv e; data := data e |} with e by now destruct e.
  unfold decrypt. destruct (getKey g' (crypto st)) as [k' cs1]. cbn [fst] in Hk.
  unfold e, sealed, base64ToArrayBuffer. cbn [iv data].
  rewrite !atob_b64_encode by (apply getRandomValues_bytes || apply Hb).
  cbn [bind]. rewrite !map_mod_bytes by (apply getRandomValues_bytes || apply Hb).
  rewrite Ha by congruence. reflexivity.
Qed.

(** What a [set] that returned leaves behind. *)
Lemma set_returned (g : CryptoKey) (rnd : nat -> Z) (key_ : jsstring)
    (value : JsValue) (st : SecureStorage) :
  aead_bytes W ->
  fst (set g rnd key_ value st) = Return tt ->
  exists json b,
    JSON_stringify value = Return json
    /\ setItem (prefix st ++ key_)
         (payload_text (sealed g rnd (or_default [] json) (crypto st)))
         (storage st) = Return b
    /\ snd (set g rnd key_ value st)
       = {| crypto := snd (getKey g (crypto st)); storage := b;
            prefix := prefix st |}.
Proof.
  intros Hb. rewrite (set_steps g rnd key_ value st Hb).
  destruct (JSON_stringify value) as [json|x]; [|discriminate].
  cbv zeta. destruct (setItem _ _ _) as [b|x] eqn:E; [|discriminate].
  intros _. exists json, b. auto.
Qed.

Lemma get_unreadable (g : CryptoKey) (key_ : jsstring) (st : SecureStorage) :
  (forall text, getItem (prefix st ++ key_) (storage st) <> Return (Some text)) ->
  fst (get g key_ st) = Return VNull.
Proof.
  intros H.
  destruct (getItem (prefix st ++ key_) (storage st)) as [[text|]|e] eqn:E.
  - now destruct (H text).
  - now rewrite (get_absent g key_ st E).
  - unfold get, get_with, try_catch, mbind, the_prefix, storage_getItem.
    rewrite E. reflexivity.
Qed.

Lemma starts_with_app (p k : jsstring) : starts_with p (p ++ k) = true.
Proof.
  induction p as [|x p IH]; [reflexivity|].
  cbn [app starts_with]. now rewrite Z.eqb_refl, IH.
Qed.

(** What [remove_each] has done when it returns. *)
Lemma remove_each_returned (keys : list jsstring) :
  forgets_what_was_removed A -> keeps_the_other_keys A ->
  forall st : SecureStorage,
    fst (remove_each keys st) = Return tt ->
    crypto (snd (remove_each keys st)) = crypto st
    /\ prefix (snd (remove_each keys st)) = prefix st
    /\ (forall k, In k keys ->
                  getItem k (storage (snd (remove_each keys st))) = Return None)
    /\ (forall k, ~ In k keys ->
                  getItem k (storage (snd (remove_each keys st)))
                  = getItem k (storage st)).
Proof.
  intros Hf Hk. induction keys as [|k r IH]; intros st; cbn [remove_each].
  - intros _. cbn [snd ret]. repeat split; auto. intros k [].
  - unfold mbind, storage_removeItem.
    destruct (removeItem k (storage st)) as [b|x] eqn:E; [|discriminate].
    intros Hr. destruct (IH _ Hr) as (Hc & Hp & Hin & Hout).
    cbn [crypto prefix storage] in Hc, Hp, Hout.
    split; [exact Hc|]. split; [exact Hp|]. split.
    + intros x Hx.
      destruct (List.in_dec (List.list_eq_dec Z.eq_dec) x r) as [Hxr|Hxr]; [now apply Hin|].
      destruct Hx as [Hx|Hx]; [subst x|contradiction].
      rewrite (Hout k Hxr). exact (Hf k _ _ E).
    + intros x Hx. rewrite Hout by (intros Hxr; apply Hx; now right).
      apply (proj2 (Hk k x (storage st) b ltac:(intros ->; apply Hx; now left))).
      exact E.
Qed.

End Entries.

(** *** Removing a key *)

(** X11.  On a backend where a removed key is gone and the other keys
    stay as they are: after a [remove] that returned, [get] of the key
    is null and [has] is false, while [get] and [has] of every other key
    give what they gave before; the cipher service is not touched. *)
Theorem X11_remove_forgets_one_key :
  forall (W : SubtleCrypto) (A : StorageAdapter),
    forgets_what_was_removed A -> keeps_the_other_keys A ->
    forall (st : SecureStorage) (g : CryptoKey) (key_ : jsstring),
      fst (remove key_ st) = Return tt ->
      let st' := snd (remove key_ st) in
      fst (get g key_ st') = Return VNull
      /\ fst (has key_ st') = Return false
      /\ crypto st' = crypto st
      /\ forall other,
           other <> key_ ->
           fst (get g other st') = fst (get g other st)
           /\ fst (has other st') = fst (has other st).
Proof.
  intros W A Hf Hk st g key_. rewrite remove_item.
  destruct (removeItem (prefix st ++ key_) (storage st)) as [b|x] eqn:E;
    [|discriminate].
  intros _ st'. subst st'. cbn [snd].
  pose proof (Hf _ _ _ E) as Hgone.
  split; [|split; [|split]].
  - now rewrite get_absent.
  - rewrite has_item. cbn [prefix storage fst]. now rewrite Hgone.
  - reflexivity.
  - intros other Hne.
    assert (getItem (prefix st ++ other) b
            = getItem (prefix st ++ other) (storage st)) as Hsame.
    { apply (proj2 (Hk (prefix st ++ key_) (prefix st ++ other) (storage st) b
                      ltac:(intros Heq; now apply app_inv_head in Heq))).
      exact E. }
    split.
    + now apply get_reads.
    + rewrite !has_item. cbn [prefix storage fst]. now rewrite Hsame.
Qed.

(** Two values stored on the stand-in host; the first key is removed. *)
Lemma X11_remove_forgets_one_key_witness :
  let rnd := fun i : nat => Z.of_nat i in
  let st0 := constructor (W := toy) (A := map_storage) create
               (∅ : gmap jsstring jsstring) None in
  let st1 := snd (set (W := toy) (A := map_storage) true rnd (lit "a")
                    (VStr (lit "one")) st0) in
  let st2 := snd (set (W := toy) (A := map_storage) true rnd (lit "b")
                    (VStr (lit "two")) st1) in
  let st3 := snd (remove (W := toy) (A := map_storage) (lit "a") st2) in
  fst (get (W := toy) (A := map_storage) false (lit "a") st3) = Return VNull
  /\ fst (has (W := toy) (A := map_storage) (lit "a") st3) = Return false
  /\ fst (get (W := toy) (A := map_storage) false (lit "b") st3)
     = Return (VStr (lit "two")).
Proof.
  intros rnd st0 st1 st2 st3.
  destruct map_storage_laws as (_ & Hf & Hk & _).
  destruct (X11_remove_forgets_one_key toy map_storage Hf Hk st2 false (lit "a")
              eq_refl) as (H1 & H2 & _ & H3).
  split; [exact H1|]. split; [exact H2|].
  destruct (H3 (lit "b") ltac:(discriminate)) as [H4 _].
  fold st3 in H4. rewrite H4. reflexivity.
Defined.

(** *** Writing under another key *)

(** X12.  On a backend where a write leaves the other keys as they are:
    after a [set] that returned, [has] of any other key gives what it
    gave before, and [get] of it returns what [get] would have returned
    before the [set] on a host generating the same key; so it returns
    the same as before whenever the service already had a key. *)
Theorem X12_set_keeps_the_other_keys :
  forall (W : SubtleCrypto) (A : StorageAdapter),
    aead_bytes W -> keeps_the_other_keys A ->
    forall (st : SecureStorage) (g g' : CryptoKey) (rnd : nat -> Z)
           (key_ other : jsstring) (v : JsValue),
      other <> key_ ->
      fst (set g rnd key_ v st) = Return tt ->
      let st' := snd (set g rnd key_ v st) in
      fst (has other st') = fst (has other st)
      /\ fst (get g' other st') = fst (get g other st)
      /\ (current (crypto st) <> None ->
          fst (get g' other st') = fst (get g' other st)).
Proof.
  intros W A Hb Hk st g g' rnd key_ other v Hne Hset st'.
  destruct (set_returned g rnd key_ v st Hb Hset) as (json & b & _ & Hw & Hst).
  subst st'. rewrite Hst.
  assert (getItem (prefix st ++ other) b
          = getItem (prefix st ++ other) (storage st)) as Hsame.
  { apply (proj1 (Hk (prefix st ++ key_) (prefix st ++ other) (storage st) b
                    ltac:(intros Heq; now apply app_inv_head in Heq)) _ Hw). }
  assert (forall h : CryptoKey,
             fst (get h other {| crypto := snd (getKey g (crypto st));
                                 storage := b; prefix := prefix st |})
             = fst (get g other st)) as Hget.
  { intros h. set (st1 := {| crypto := snd (getKey g (crypto st));
                             storage := b; prefix := prefix st |}).
    change (getItem (prefix st1 ++ other) (storage st1)
            = getItem (prefix st ++ other) (storage st)) in Hsame.
    pose proof (getKey_current g (crypto st)) as Hcur.
    destruct (getItem (prefix st ++ other) (storage st)) as [[text|]|e] eqn:E;
      rewrite ?E in Hsame.
    - rewrite (get_item h other text st1 Hsame), (get_item g other text st E).
      unfold st1. cbn [crypto storage prefix].
      destruct (Nat.eqb (length text) 0); [reflexivity|].
      destruct (JSON_parse text) as [parsed|x]; [|reflexivity].
      destruct (payload_fields parsed) as [[i d]|]; [|reflexivity].
      unfold decrypt. rewrite (getKey_held h _ _ Hcur).
      destruct (getKey g (crypto st)) as [k cs1]. cbn [fst snd].
      match goal with |- context [catch_with ?body None] =>
        destruct (catch_with body None) as [[t|]|x] end; try reflexivity.
      now destruct (Nat.eqb (length t) 0).
    - now rewrite (get_absent h other st1 Hsame), (get_absent g other st E).
    - unfold get, get_with, try_catch, mbind, the_prefix, storage_getItem.
      rewrite Hsame, E. reflexivity. }
  split; [|split].
  - rewrite !has_item. cbn [prefix storage fst]. now rewrite Hsame.
  - apply Hget.
  - intros Hcur. rewrite Hget.
    destruct (current (crypto st)) as [k|] eqn:Ec; [|congruence].
    apply (get_held g g' k other st Ec).
Qed.

(** A value stored under one key, then another under a second key, on
    the stand-in host. *)
Lemma X12_set_keeps_the_other_keys_witness :
  let rnd := fun i : nat => Z.of_nat i in
  let st0 := constructor (W := toy) (A := map_storage) create
               (∅ : gmap jsstring jsstring) None in
  let st1 := snd (set (W := toy) (A := map_storage) true rnd (lit "a")
                    (VStr (lit "one")) st0) in
  let st2 := snd (set (W := toy) (A := map_storage) true rnd (lit "b")
                    (VStr (lit "two")) st1) in
  fst (has (W := toy) (A := map_storage) (lit "a") st2) = Return true
  /\ fst (get (W := toy) (A := map_storage) false (lit "a") st2)
     = Return (VStr (lit "one")).
Proof.
  intros rnd st0 st1 st2.
  destruct map_storage_laws as (_ & _ & Hk & _).
  destruct (X12_set_keeps_the_other_keys toy map_storage toy_bytes Hk st1
              true false rnd (lit "b") (lit "a") (VStr (lit "two"))
              ltac:(discriminate) eq_refl) as (H1 & H2 & _).
  fold st2 in H1, H2. rewrite H1, H2. split; reflexivity.
Defined.

(** *** The store after [clearKey] *)

(** X13.  On a host whose AES-GCM rejects a ciphertext under any key but
    the one that made it, with a backend that reads back what was
    written: after a [set] that returned, whatever is done to the cipher
    service, then a [clearKey], then calls for which the host generates
    other keys, [has] of the key is still true while [get] of it
    returns null. *)
Theorem X13_has_outlives_the_key :
  forall (W : SubtleCrypto) (A : StorageAdapter),
    aead_authentic W -> aead_bytes W -> aead_tagged W ->
    reads_what_was_written A ->
    forall (st : SecureStorage) (g g' : CryptoKey) (rnd : nat -> Z)
           (key_ : jsstring) (v : JsValue) (before after : list op),
      fst (set g rnd key_ v st) = Return tt ->
      List.Forall (fresh_for (fst (getKey g (crypto st)))) after ->
      g' <> fst (getKey g (crypto st)) ->
      let st' :=
        on_crypto (fun cs => Crypto.run after (clearKey (Crypto.run before cs)))
                  (snd (set g rnd key_ v st)) in
      fst (has key_ st') = Return true
      /\ fst (get g' key_ st') = Return VNull.
Proof.
  intros W A Ha Hb Ht Hrw st g g' rnd key_ v before after Hset Hafter Hg' st'.
  destruct (set_returned g rnd key_ v st Hb Hset) as (json & b & _ & Hw & Hst).
  subst st'. rewrite Hst. unfold on_crypto. cbn [crypto storage prefix].
  set (st2 := {| crypto := _; storage := b; prefix := prefix st |}).
  assert (getItem (prefix st2 ++ key_) (storage st2)
          = Return (Some (payload_text
                            (sealed g rnd (or_default [] json) (crypto st)))))
    as Hitem by exact (Hrw _ _ _ _ Hw).
  split.
  - rewrite has_item, Hitem. reflexivity.
  - apply (get_foreign_entry g g' rnd key_ _ (crypto st) st2 Ha Hb Ht Hitem).
    unfold st2. cbn [crypto].
    set (cs := Crypto.run after _).
    assert (current cs <> Some (fst (getKey g (crypto st)))) as Hcur.
    { apply run_fresh; [exact Hafter|]. cbn. discriminate. }
    destruct (current cs) as [k0|] eqn:Ec.
    + rewrite (getKey_held g' k0 cs Ec). cbn. congruence.
    + rewrite (getKey_generates g' cs Ec). exact Hg'.
Qed.

(** A value is stored, the key is cleared as at logout, and the host
    generates another key for the next read. *)
Lemma X13_has_outlives_the_key_witness :
  let rnd := fun i : nat => Z.of_nat i in
  let st0 := constructor (W := toy) (A := map_storage) create
               (∅ : gmap jsstring jsstring) None in
  let st1 := snd (set (W := toy) (A := map_storage) true rnd (lit "token")
                    (VStr (lit "secret")) st0) in
  let st2 := on_crypto (fun cs => Crypto.run [] (clearKey (Crypto.run [] cs)))
               st1 in
  fst (has (W := toy) (A := map_storage) (lit "token") st2) = Return true
  /\ fst (get (W := toy) (A := map_storage) false (lit "token") st2)
     = Return VNull.
Proof.
  intros rnd st0 st1 st2.
  destruct map_storage_laws as (Hrw & _).
  apply (X13_has_outlives_the_key toy map_storage toy_authentic toy_bytes
           toy_tagged Hrw st0 true false rnd (lit "token") (VStr (lit "secret"))
           [] []).
  - reflexivity.
  - constructor.
  - discriminate.
Defined.

(** *** Storing [undefined] *)

(** X14.  On a host whose AES-GCM decrypts what it encrypted, with a
    backend that reads back what was written: for a value of which
    [JSON.stringify] gives [undefined], a [set] that returned has stored
    an item, so [has] is true; and, short of a [clearKey], [get] of the
    key returns null. *)
Theorem X14_undefined_reads_null :
  forall (W : SubtleCrypto) (A : StorageAdapter),
    aead_correct W -> aead_bytes W -> aead_tagged W ->
    reads_what_was_written A ->
    forall (st : SecureStorage) (g g' : CryptoKey) (rnd : nat -> Z)
           (key_ : jsstring) (v : JsValue) (ops : list op),
      JSON_stringify v = Return None ->
      fst (set g rnd key_ v st) = Return tt ->
      forallb keeps_key ops = true ->
      let st' := on_crypto (Crypto.run ops) (snd (set g rnd key_ v st)) in
      fst (has key_ st') = Return true
      /\ fst (get g' key_ st') = Return VNull.
Proof.
  intros W A Hc Hb Ht Hrw st g g' rnd key_ v ops Hj Hset Hops st'.
  destruct (set_returned g rnd key_ v st Hb Hset) as (json & b & Hj' & Hw & Hst).
  rewrite Hj in Hj'. injection Hj' as <-. cbn [or_default] in Hw.
  subst st'. rewrite Hst. unfold on_crypto. cbn [crypto storage prefix].
  set (st2 := {| crypto := _; storage := b; prefix := prefix st |}).
  assert (getItem (prefix st2 ++ key_) (storage st2)
          = Return (Some (payload_text (sealed g rnd [] (crypto st)))))
    as Hitem by exact (Hrw _ _ _ _ Hw).
  split.
  - rewrite has_item, Hitem. reflexivity.
  - rewrite (get_sealed_entry g g' rnd key_ [] (crypto st) st2 Hc Hb Ht Hitem);
      [reflexivity| |reflexivity|discriminate].
    unfold st2. cbn [crypto].
    rewrite (run_held ops (fst (getKey g (crypto st)))); [|exact Hops|];
      apply getKey_current.
Qed.

Lemma X14_undefined_reads_null_witness :
  let rnd := fun i : nat => Z.of_nat i in
  let st0 := constructor (W := toy) (A := map_storage) create
               (∅ : gmap jsstring jsstring) None in
  let st1 := snd (set (W := toy) (A := map_storage) true rnd (lit "k")
                    VUndefined st0) in
  fst (set (W := toy) (A := map_storage) true rnd (lit "k") VUndefined st0)
  = Return tt
  /\ fst (has (W := toy) (A := map_storage) (lit "k")
            (on_crypto (Crypto.run []) st1)) = Return true
  /\ fst (get (W := toy) (A := map_storage) false (lit "k")
            (on_crypto (Crypto.run []) st1)) = Return VNull.
Proof.
  intros rnd st0 st1. split; [reflexivity|].
  destruct map_storage_laws as (Hrw & _).
  apply (X14_undefined_reads_null toy map_storage toy_correct toy_bytes
           toy_tagged Hrw st0 true false rnd (lit "k") VUndefined []);
    reflexivity.
Defined.

(** *** Clearing the store *)

(** X15.  On a backend with [length] and [key] that lists every key it
    holds, where a removed key is gone and the other keys stay as they
    are: after a [clear] that returned, no key of this store is left
    ([get] returns null and [has] does not return true, for every key),
    the items whose name does not start with the prefix are what they
    were, and the cipher service is not touched. *)
Theorem X15_clear_removes_the_prefixed_keys :
  forall (W : SubtleCrypto) (A : StorageAdapter),
    forgets_what_was_removed A -> keeps_the_other_keys A -> lists_its_keys A ->
    forall (st : SecureStorage) (ks : list (option jsstring)),
      enumerate (storage st) = Some (Return ks) ->
      fst (clear st) = Return tt ->
      let st' := snd (clear st) in
      (forall g key_, fst (get g key_ st') = Return VNull)
      /\ (forall key_, fst (has key_ st') <> Return true)
      /\ (forall k, starts_with (prefix st) k = false ->
                    getItem k (storage st') = getItem k (storage st))
      /\ crypto st' = crypto st.
Proof.
  intros W A Hf Hk Hl st ks He Hret st'. subst st'. revert Hret.
  unfold clear. rewrite He.
  set (keys := List.filter _ _). intros Hret.
  destruct (remove_each_returned keys Hf Hk st Hret) as (Hc & Hp & Hin & Hout).
  set (st' := snd (remove_each keys st)) in *.
  assert (forall k v, starts_with (prefix st) k = true ->
                      getItem k (storage st') <> Return (Some v)) as Hgone.
  { intros k v Hs.
    destruct (List.in_dec (List.list_eq_dec Z.eq_dec) k keys) as [Hi|Hi].
    - rewrite (Hin k Hi). discriminate.
    - rewrite (Hout k Hi). intros Hv. apply Hi. unfold keys.
      apply filter_In. split; [|exact Hs].
      apply in_flat_map. exists (Some k). split; [|now left].
      exact (Hl _ _ _ _ He Hv). }
  split; [|split; [|split]].
  - intros g key_. apply get_unreadable. intros text. rewrite Hp.
    apply Hgone, starts_with_app.
  - intros key_. rewrite has_item. cbn [fst]. rewrite Hp.
    pose proof (fun v => Hgone (prefix st ++ key_) v (starts_with_app _ _)) as H.
    destruct (getItem (prefix st ++ key_) (storage st')) as [[v|]|e];
      [now destruct (H v)|discriminate..].
  - intros k Hs. apply Hout. unfold keys. intros Hi.
    apply filter_In in Hi as [_ Hi]. congruence.
  - exact Hc.
Qed.

(** A [Storage] that holds two items of the store and one of another
    application. *)
Lemma X15_clear_removes_the_prefixed_keys_witness :
  let st0 := constructor (W := toy) (A := listed_storage) create
               [(lit "nis2_a", lit "x"); (lit "theme", lit "dark");
                (lit "nis2_b", lit "y")] None in
  let st1 := snd (clear (W := toy) (A := listed_storage) st0) in
  fst (has (W := toy) (A := listed_storage) (lit "a") st0) = Return true
  /\ fst (has (W := toy) (A := listed_storage) (lit "a") st1) <> Return true
  /\ fst (has (W := toy) (A := listed_storage) (lit "b") st1) <> Return true
  /\ getItem (StorageAdapter := listed_storage) (lit "theme") (storage st1)
     = Return (Some (lit "dark")).
Proof.
  intros st0 st1. split; [reflexivity|].
  destruct listed_storage_laws as (_ & Hf & Hk & _ & Hl).
  destruct (X15_clear_removes_the_prefixed_keys toy listed_storage Hf Hk Hl
              st0 _ eq_refl eq_refl) as (_ & H2 & H3 & _).
  fold st1 in H2, H3.
  split; [apply H2|]. split; [apply H2|].
  rewrite (H3 (lit "theme") eq_refl). reflexivity.
Defined.


(** *** The composable over the store *)

(** [get] after a [set] of a faithful value, by the lemmas on items. *)
Lemma get_after_set {W : SubtleCrypto} {A : StorageAdapter}
    (g g' : CryptoKey) (rnd : nat -> Z) (key_ : jsstring) (v : JsValue)
    (st : SecureStorage) :
  aead_correct W -> aead_bytes W -> aead_tagged W ->
  reads_what_was_written A ->
  faithful v = true ->
  fst (set g rnd key_ v st) = Return tt ->
  fst (get g' key_ (snd (set g rnd key_ v st))) = Return v.
Proof.
  intros Hc Hb Ht Hrw Hv Hset.
  destruct (set_returned g rnd key_ v st Hb Hset) as (json & b & Hj & Hw & Hst).
  unfold JSON_stringify in Hj. rewrite (serialize_faithful v Hv) in Hj.
  injection Hj as <-. cbn [or_default] in Hw. rewrite Hst.
  set (st1 := {| crypto := _; storage := b; prefix := prefix st |}).
  destruct (serialize_text v (text_of v) (serialize_faithful v Hv)
              (faithful_well_typed v Hv)) as [Hwf Hled].
  assert (text_of v <> []) as Hne by (destruct (text_of v); [discriminate|congruence]).
  rewrite (get_sealed_entry g g' rnd key_ (text_of v) (crypto st) st1 Hc Hb Ht).
  - destruct (text_of v) as [|u r] eqn:E; [congruence|]. cbn [length Nat.eqb].
    rewrite <- E. now rewrite (JSON_parse_text_of v Hv).
  - exact (Hrw _ _ _ _ Hw).
  - apply getKey_current.
  - exact Hwf.
  - destruct (text_of v) as [|u r]; [congruence|]. cbn in Hled |- *.
    apply is_ascii_iff in Hled. lia.
Qed.

(** X20.  On a host whose AES-GCM decrypts what it encrypted, with a
    backend that reads back what was written and forgets what was
    removed: the loader always ends with [isLoading] false.  After a
    [setValue] of a faithful value that returned, the ref holds the
    value, and a composable created anew for the key loads it, unless
    the value is null, which leaves the new composable's initial value.
    A [setValue] that throws has changed the ref all the same.  After a
    [remove] that returned, the ref holds the initial value and a
    composable created anew keeps its own. *)
Theorem X20_useSecureStorage_reloads :
  forall (W : SubtleCrypto) (A : StorageAdapter),
    aead_correct W -> aead_bytes W -> aead_tagged W ->
    reads_what_was_written A -> forgets_what_was_removed A ->
    forall (c : VueStorage.Refs * SecureStorage) (g g' : CryptoKey)
           (rnd : nat -> Z) (key_ : jsstring) (v initialValue other : JsValue),
      let reload st := VueStorage.load g' key_
                         (VueStorage.useSecureStorage other, st) in
      VueStorage.isLoading (fst (VueStorage.load g key_ c)) = false
      /\ VueStorage.value (fst (snd (VueStorage.setValue g rnd key_ v c))) = v
      /\ (faithful v = true ->
          fst (VueStorage.setValue g rnd key_ v c) = Return tt ->
          VueStorage.value
            (fst (reload (snd (snd (VueStorage.setValue g rnd key_ v c)))))
          = match v with VNull => other | _ => v end)
      /\ (fst (VueStorage.remove key_ initialValue c) = Return tt ->
          VueStorage.value (fst (snd (VueStorage.remove key_ initialValue c)))
          = initialValue
          /\ VueStorage.value
               (fst (reload (snd (snd (VueStorage.remove key_ initialValue c)))))
             = other).
Proof.
  intros W A Hc Hb Ht Hrw Hf [r st] g g' rnd key_ v initialValue other reload.
  split; [|split; [|split]].
  - unfold VueStorage.load. now destruct (get g key_ _).
  - unfold VueStorage.setValue. now destruct (set g rnd key_ v _).
  - intros Hv. unfold VueStorage.setValue. cbn [fst snd].
    pose proof (get_after_set g g' rnd key_ v st Hc Hb Ht Hrw Hv) as Hget.
    destruct (set g rnd key_ v st) as [res st1]. cbn [fst snd] in *.
    intros Hres. specialize (Hget Hres).
    unfold reload, VueStorage.load. cbn [fst snd].
    destruct (get g' key_ st1) as [res' st2]. cbn [fst] in Hget. subst res'.
    now destruct v.
  - unfold VueStorage.remove. cbn [fst snd]. rewrite remove_item.
    destruct (removeItem (prefix st ++ key_) (storage st)) as [b|e] eqn:E;
      [|discriminate].
    intros _. cbn [fst snd VueStorage.value]. split; [reflexivity|].
    unfold reload, VueStorage.load. cbn [fst snd].
    rewrite get_absent by exact (Hf _ _ _ E). reflexivity.
Qed.

(** On the stand-in host: a value is set through one composable and
    loaded by the next. *)
Lemma X20_useSecureStorage_reloads_witness :
  let rnd := fun i : nat => Z.of_nat i in
  let st0 := constructor (W := toy) (A := map_storage) create
               (∅ : gmap jsstring jsstring) (Some (lit "nis2_")) in
  let c0 := (VueStorage.useSecureStorage (VStr (lit "")), st0) in
  let c1 := snd (VueStorage.setValue (W := toy) (A := map_storage) true rnd
                   (lit "user_iban") (VStr (lit "IT60X0542811101")) c0) in
  let c2 := VueStorage.load (W := toy) (A := map_storage) false (lit "user_iban")
              (VueStorage.useSecureStorage (VStr (lit "")), snd c1) in
  VueStorage.value (fst c2) = VStr (lit "IT60X0542811101")
  /\ VueStorage.isLoading (fst c2) = false.
Proof.
  intros rnd st0 c0 c1 c2.
  destruct map_storage_laws as (Hrw & Hf & _).
  destruct (X20_useSecureStorage_reloads toy map_storage toy_correct toy_bytes
              toy_tagged Hrw Hf c0 true false rnd (lit "user_iban")
              (VStr (lit "IT60X0542811101")) (VStr (lit "")) (VStr (lit "")))
    as (_ & _ & H3 & _).
  split; [exact (H3 eq_refl eq_refl)|reflexivity].
Defined.

End StoreUse.
